(** * TrademarkAI: extraction and similarity engine

    A shallow embedding of the backend services of the repository
    (`similarityService.js`, `vectorService.js`, `trademarkParserService.js`,
    `trademarkTypes.js`, `similarityController.js`, `documentService.js`)
    and the properties proved about them.

    Conventions of the embedding.
    - A JavaScript string is a sequence of code units; the embedding keeps
      the 8-bit code units (Latin-1), as [string] in records and as
      [list ascii] where the code indexes into the string.
    - A JavaScript number that holds a score is an exact rational ([Q]);
      rounding of IEEE doubles is not modelled.  Indices and lengths are
      [nat], or [Z] where the code lets them go below zero.
    - [undefined] is [None]. *)

From Stdlib Require Import String Ascii Bool Arith ZArith QArith Lia Lqa.
From Stdlib Require Import Sorted Permutation.
From Stdlib Require Import List.
Import ListNotations.

Set Warnings "-abstract-large-number".

Local Open Scope nat_scope.

(* ================================================================== *)
(** * JavaScript strings *)
(* ================================================================== *)

Module JSString.

Definition chars (s : string) : list ascii := list_ascii_of_string s.
Definition ofChars (l : list ascii) : string := string_of_list_ascii l.

Definition code (c : ascii) : nat := nat_of_ascii c.

Definition inRange (lo hi : nat) (c : ascii) : bool :=
  (lo <=? code c) && (code c <=? hi).

(** The class [\s] of a JavaScript regular expression, which is also what
    [trim] removes: TAB, LF, VT, FF, CR, SPACE and NBSP in Latin-1. *)
Definition isSpace (c : ascii) : bool :=
  inRange 9 13 c || (code c =? 32) || (code c =? 160).

Definition isLowerAZ (c : ascii) : bool := inRange 97 122 c.
Definition isDigit (c : ascii) : bool := inRange 48 57 c.

(** [String.prototype.toLowerCase] on one Latin-1 code unit. *)
Definition toLowerChar (c : ascii) : ascii :=
  if inRange 65 90 c then ascii_of_nat (code c + 32)
  else if inRange 192 222 c && negb (code c =? 215)
       then ascii_of_nat (code c + 32)
       else c.

Definition toLowerCase (l : list ascii) : list ascii := map toLowerChar l.

Fixpoint dropWhile (p : ascii -> bool) (l : list ascii) : list ascii :=
  match l with
  | [] => []
  | c :: l' => if p c then dropWhile p l' else l
  end.

Definition trimStart (l : list ascii) : list ascii := dropWhile isSpace l.
Definition trimEnd (l : list ascii) : list ascii :=
  rev (dropWhile isSpace (rev l)).
Definition trim (l : list ascii) : list ascii := trimEnd (trimStart l).

(** [replace(/\s+/g, ' ')]: every maximal run of white space becomes one
    space character.  [inRun] tells that the previous character was
    white space, so that the run has been replaced already. *)
Fixpoint collapseFrom (inRun : bool) (l : list ascii) : list ascii :=
  match l with
  | [] => []
  | c :: l' =>
      if isSpace c
      then if inRun then collapseFrom true l'
           else " "%char :: collapseFrom true l'
      else c :: collapseFrom false l'
  end.

Definition collapseSpaces (l : list ascii) : list ascii :=
  collapseFrom false l.

(** [text.substring(a, b)] for [0 <= a <= b]. *)
Definition substring (a b : nat) (l : list ascii) : list ascii :=
  firstn (b - a) (skipn a l).

(** [a[i] = v] on an array that already has an index [i]. *)
Fixpoint setNth {A : Type} (i : nat) (v : A) (l : list A) : list A :=
  match l, i with
  | [], _ => []
  | _ :: l', 0 => v :: l'
  | x :: l', S i' => x :: setNth i' v l'
  end.

End JSString.

Import JSString.

(* ================================================================== *)
(** * Lexical similarity (similarityService.js, utility methods) *)
(* ================================================================== *)

Module Lexical.

(** [normalizeText]: lower case, delete everything outside
    [[a-z0-9\s]], collapse white space, trim. *)
Definition keepChar (c : ascii) : bool :=
  isLowerAZ c || isDigit c || isSpace c.

Definition normalizeText (text : string) : list ascii :=
  trim (collapseSpaces (filter keepChar (toLowerCase (chars text)))).

(** ** Levenshtein distance

    [matrix[i][j]] is held row by row: [matrix[0]] is [0, 1, .., len1]
    and row [i] is computed from row [i - 1].  [fillRow] is the inner
    loop over [j]: [diag] is [matrix[i-1][j-1]], [ups] holds
    [matrix[i-1][j..]] and [left] is [matrix[i][j-1]]. *)
Fixpoint fillRow (c2 : ascii) (str1 : list ascii)
         (diag : nat) (ups : list nat) (left : nat) : list nat :=
  match str1, ups with
  | c1 :: str1', up :: ups' =>
      let v := if Ascii.eqb c2 c1 then diag
               else Nat.min (Nat.min (diag + 1) (left + 1)) (up + 1) in
      v :: fillRow c2 str1' up ups' v
  | _, _ => []
  end.

Definition nextRow (i : nat) (c2 : ascii) (str1 : list ascii)
           (prev : list nat) : list nat :=
  i :: fillRow c2 str1 (hd 0 prev) (tl prev) i.

(** The outer loop over [i = 1 .. str2.length]; [i] is the row index
    of the row to compute, [prev] is row [i - 1]. *)
Fixpoint fillMatrix (str1 str2 : list ascii) (i : nat)
         (prev : list nat) : list nat :=
  match str2 with
  | [] => prev
  | c2 :: str2' => fillMatrix str1 str2' (S i) (nextRow i c2 str1 prev)
  end.

Definition levenshteinDistance (str1 str2 : list ascii) : nat :=
  last (fillMatrix str1 str2 1 (seq 0 (S (length str1)))) 0.

Definition ofNat (n : nat) : Q := inject_Z (Z.of_nat n).

Definition calculateLevenshteinSimilarity (str1 str2 : list ascii) : Q :=
  let distance := levenshteinDistance str1 str2 in
  let maxLength := Nat.max (length str1) (length str2) in
  if maxLength =? 0 then 1%Q
  else (1 - ofNat distance / ofNat maxLength)%Q.

(** ** Jaro similarity *)

(** [Math.floor(Math.max(len1, len2) / 2) - 1]; it is [-1] when the
    longer string has one character. *)
Definition matchWindow (len1 len2 : nat) : Z :=
  (Z.of_nat (Nat.max len1 len2) / 2 - 1)%Z.

(** The inner loop [for (j = start; j < end; j++)]: [n] is the number
    of indices still to visit; the result is the [j] at which the loop
    breaks, if it does. *)
Fixpoint findMatch (c : ascii) (str2 : list ascii) (str2Matches : list bool)
         (j n : nat) : option nat :=
  match n with
  | 0 => None
  | S n' =>
      if nth j str2Matches false || negb (Ascii.eqb c (nth j str2 zero))
      then findMatch c str2 str2Matches (S j) n'
      else Some j
  end.

Definition windowStart (w : Z) (i : nat) : Z := Z.max 0 (Z.of_nat i - w).
Definition windowEnd (w : Z) (i len2 : nat) : Z :=
  Z.min (Z.of_nat i + w + 1) (Z.of_nat len2).

Record MatchState : Type := mkMatchState {
  str1Matches : list bool;
  str2Matches : list bool;
  matches : nat
}.

(** One iteration of the loop "Find matches". *)
Definition matchStep (str1 str2 : list ascii) (w : Z)
           (st : MatchState) (i : nat) : MatchState :=
  let start := windowStart w i in
  let stop := windowEnd w i (length str2) in
  match findMatch (nth i str1 zero) str2 (str2Matches st)
                  (Z.to_nat start) (Z.to_nat (stop - start)) with
  | Some j => mkMatchState (setNth i true (str1Matches st))
                           (setNth j true (str2Matches st))
                           (S (matches st))
  | None => st
  end.

Definition findMatches (str1 str2 : list ascii) : MatchState :=
  fold_left (matchStep str1 str2 (matchWindow (length str1) (length str2)))
            (seq 0 (length str1))
            (mkMatchState (repeat false (length str1))
                          (repeat false (length str2)) 0).

(** [while (!str2Matches[k]) k++]: the rest of [str2], with its flags,
    from index [k] on; the result starts at the next matched index. *)
Fixpoint skipUnmatched (rest2 : list (ascii * bool)) : list (ascii * bool) :=
  match rest2 with
  | (_, false) :: rest2' => skipUnmatched rest2'
  | _ => rest2
  end.

(** The loop "Find transpositions".  [rest1] and [rest2] are the two
    strings zipped with their flags from the indices [i] and [k] on.
    The result is [None] where the source does not return: [k] has run
    past the end of [str2Matches], where [!undefined] keeps the inner
    [while] going forever. *)
Fixpoint countTranspositions (rest1 rest2 : list (ascii * bool))
  : option nat :=
  match rest1 with
  | [] => Some 0
  | (_, false) :: rest1' => countTranspositions rest1' rest2
  | (c1, true) :: rest1' =>
      match skipUnmatched rest2 with
      | [] => None
      | (c2, _) :: rest2' =>
          match countTranspositions rest1' rest2' with
          | Some t => Some (if Ascii.eqb c1 c2 then t else S t)
          | None => None
          end
      end
  end.

Definition jaroSimilarity (str1 str2 : list ascii) : option Q :=
  let len1 := length str1 in
  let len2 := length str2 in
  if (len1 =? 0) && (len2 =? 0) then Some 1%Q
  else if (len1 =? 0) || (len2 =? 0) then Some 0%Q
  else
    let st := findMatches str1 str2 in
    if matches st =? 0 then Some 0%Q
    else
      match countTranspositions (combine str1 (str1Matches st))
                                (combine str2 (str2Matches st)) with
      | None => None
      | Some transpositions =>
          let m := ofNat (matches st) in
          Some ((m / ofNat len1 + m / ofNat len2
                 + (m - ofNat transpositions / 2) / m) / 3)%Q
      end.

(** The loop that counts the common prefix, at most [bound] characters. *)
Fixpoint commonPrefix (bound : nat) (str1 str2 : list ascii) : nat :=
  match bound, str1, str2 with
  | S b, c1 :: str1', c2 :: str2' =>
      if Ascii.eqb c1 c2 then S (commonPrefix b str1' str2') else 0
  | _, _, _ => 0
  end.

Definition Qltb (a b : Q) : bool := negb (Qle_bool b a).

Definition calculateJaroWinklerSimilarity (str1 str2 : list ascii)
  : option Q :=
  match jaroSimilarity str1 str2 with
  | None => None
  | Some jaroSim =>
      if Qltb jaroSim 0.7%Q then Some jaroSim
      else
        let prefix := commonPrefix 4 str1 str2 in
        Some (jaroSim + 0.1 * ofNat prefix * (1 - jaroSim))%Q
  end.

(** ** Longest common substring *)

(** The [while] loop that extends [k]. *)
Fixpoint commonRun (a b : list ascii) : nat :=
  match a, b with
  | x :: a', y :: b' => if Ascii.eqb x y then S (commonRun a' b') else 0
  | _, _ => 0
  end.

Definition lcsInner (str1 str2 : list ascii) (i : nat)
           (longest : list ascii) (j : nat) : list ascii :=
  let k := commonRun (skipn i str1) (skipn j str2) in
  if length longest <? k then substring i (i + k) str1 else longest.

Definition lcsOuter (str1 str2 : list ascii)
           (longest : list ascii) (i : nat) : list ascii :=
  fold_left (lcsInner str1 str2 i) (seq 0 (length str2)) longest.

Definition longestCommonSubstring (str1 str2 : list ascii) : list ascii :=
  fold_left (lcsOuter str1 str2) (seq 0 (length str1)) [].

Definition calculateSubstringSimilarity (str1 str2 : list ascii) : Q :=
  let longer := if length str2 <? length str1 then str1 else str2 in
  if length longer =? 0 then 1%Q
  else (ofNat (length (longestCommonSubstring str1 str2))
        / ofNat (length longer))%Q.

(** ** The combined text score of [analyzeTextSimilarity] *)

Record TextSimilarity : Type := mkTextSimilarity {
  overall : Q;
  levenshtein : Q;
  jaroWinkler : Q;
  substring_ : Q
}.

Definition textSimilarityOf (targetNormalized normalizedTrademark : list ascii)
  : option TextSimilarity :=
  let levenshteinScore :=
    calculateLevenshteinSimilarity targetNormalized normalizedTrademark in
  match calculateJaroWinklerSimilarity targetNormalized normalizedTrademark with
  | None => None
  | Some jaroWinklerScore =>
      let substringScore :=
        calculateSubstringSimilarity targetNormalized normalizedTrademark in
      let textScore := (levenshteinScore * 0.4 + jaroWinklerScore * 0.4
                        + substringScore * 0.2)%Q in
      Some (mkTextSimilarity textScore levenshteinScore jaroWinklerScore
                             substringScore)
  end.

(** The score the spec calls [lexicalScore(a, b)]. *)
Definition lexicalScore (a b : string) : option Q :=
  option_map overall (textSimilarityOf (normalizeText a) (normalizeText b)).

End Lexical.

Import Lexical.

(* ================================================================== *)
(** * Trademark records (types/trademarkTypes.js) *)
(* ================================================================== *)

Module Types.

(** The values the parser stores in the objects it hands to the
    [TrademarkData] constructor. *)
Inductive JSValue : Type :=
| JSStr (s : string)
| JSNum (n : nat).

(** An object literal: its own properties, in the order written. *)
Definition JSObject : Type := list (string * JSValue).

Fixpoint get (key : string) (o : JSObject) : option JSValue :=
  match o with
  | [] => None
  | (k, v) :: o' => if String.eqb k key then Some v else get key o'
  end.

(** [data.key || ''] for the string-valued keys of the constructor. *)
Definition strOrEmpty (key : string) (data : JSObject) : string :=
  match get key data with
  | Some (JSStr s) => s
  | _ => EmptyString
  end.

Record TrademarkData : Type := mkTrademarkData {
  nomorPermohonan : string;
  tanggalPenerimaan : string;
  prioritas : string;
  namaPemohon : string;
  alamatPemohon : string;
  namaKuasa : string;
  alamatKuasa : string;
  tipeMerek : string;
  namaReferensiLabelMerek : string;
  artiBahasa : string;
  uraianWarna : string;
  kelasBarangJasa : string;
  uraianBarangJasa : string;
  statusPermohonan : string;
  tanggalPublikasi : string;
  nomorSertifikat : string;
  tanggalSertifikat : string;
  masaBerlaku : string
}.

(** [new TrademarkData(data)]: the eighteen assignments of the
    constructor; every other key of [data] is dropped. *)
Definition newTrademarkData (data : JSObject) : TrademarkData :=
  {| nomorPermohonan := strOrEmpty "nomorPermohonan" data;
     tanggalPenerimaan := strOrEmpty "tanggalPenerimaan" data;
     prioritas := strOrEmpty "prioritas" data;
     namaPemohon := strOrEmpty "namaPemohon" data;
     alamatPemohon := strOrEmpty "alamatPemohon" data;
     namaKuasa := strOrEmpty "namaKuasa" data;
     alamatKuasa := strOrEmpty "alamatKuasa" data;
     tipeMerek := strOrEmpty "tipeMerek" data;
     namaReferensiLabelMerek := strOrEmpty "namaReferensiLabelMerek" data;
     artiBahasa := strOrEmpty "artiBahasa" data;
     uraianWarna := strOrEmpty "uraianWarna" data;
     kelasBarangJasa := strOrEmpty "kelasBarangJasa" data;
     uraianBarangJasa := strOrEmpty "uraianBarangJasa" data;
     statusPermohonan := strOrEmpty "statusPermohonan" data;
     tanggalPublikasi := strOrEmpty "tanggalPublikasi" data;
     nomorSertifikat := strOrEmpty "nomorSertifikat" data;
     tanggalSertifikat := strOrEmpty "tanggalSertifikat" data;
     masaBerlaku := strOrEmpty "masaBerlaku" data |}.

(** The own properties of an instance, as the constructor leaves them. *)
Definition ownProperties (t : TrademarkData) : list (string * string) :=
  [ ("nomorPermohonan", nomorPermohonan t);
    ("tanggalPenerimaan", tanggalPenerimaan t);
    ("prioritas", prioritas t);
    ("namaPemohon", namaPemohon t);
    ("alamatPemohon", alamatPemohon t);
    ("namaKuasa", namaKuasa t);
    ("alamatKuasa", alamatKuasa t);
    ("tipeMerek", tipeMerek t);
    ("namaReferensiLabelMerek", namaReferensiLabelMerek t);
    ("artiBahasa", artiBahasa t);
    ("uraianWarna", uraianWarna t);
    ("kelasBarangJasa", kelasBarangJasa t);
    ("uraianBarangJasa", uraianBarangJasa t);
    ("statusPermohonan", statusPermohonan t);
    ("tanggalPublikasi", tanggalPublikasi t);
    ("nomorSertifikat", nomorSertifikat t);
    ("tanggalSertifikat", tanggalSertifikat t);
    ("masaBerlaku", masaBerlaku t) ]%string.

Fixpoint lookup (key : string) (ps : list (string * string))
  : option string :=
  match ps with
  | [] => None
  | (k, v) :: ps' => if String.eqb k key then Some v else lookup key ps'
  end.

(** The property read [t.name]; [None] is [undefined].  (The class has
    no accessors; its prototype holds the three methods only.) *)
Definition prop (t : TrademarkData) (name : string) : option string :=
  lookup name (ownProperties t).

Definition truthy (s : string) : bool := negb (String.eqb s EmptyString).

(** [validate()]: the list of error messages. *)
Definition validationErrors (t : TrademarkData) : list string :=
  (if truthy (nomorPermohonan t) then []
   else ["Nomor permohonan wajib diisi"%string])
  ++ (if truthy (namaReferensiLabelMerek t) then []
      else ["Nama merek wajib diisi"%string])
  ++ (if truthy (kelasBarangJasa t) then []
      else ["Kelas barang/jasa wajib diisi"%string]).

Definition isValid (t : TrademarkData) : bool :=
  length (validationErrors t) =? 0.

End Types.

(* ================================================================== *)
(** * The parser (trademarkParserService.js) *)
(* ================================================================== *)

Module Parser.
Import Types.

(** What the regular-expression engine answers; the patterns are those
    written in the source, the engine is the JavaScript runtime's. *)
Record RegExpEngine : Type := mkRegExpEngine {
  (** [[...content.matchAll(djkiPatterns.applicationNumber)]]:
      group 1 and the index of each match. *)
  matchAllApplicationNumber : list ascii -> list (list ascii * nat);
  (** [context.match(patterns[field])] in [extractFieldsFromContext]:
      group 1 of the match, if there is one. *)
  matchContextField : string -> list ascii -> option (list ascii);
  (** [splitIntoSections(text)]. *)
  splitIntoSections : list ascii -> list (list ascii);
  (** The object [extractedData] that [parseSection] has built when it
      reaches the constructor; [None] when its [try] block throws. *)
  sectionData : list ascii -> option JSObject
}.

Record PageChunk : Type := mkPageChunk {
  content : list ascii;
  pageNumber : nat;
  hasTrademarkData : bool
}.

(** [replace(/[\r\n]+/g, ' ')]. *)
Definition isLineBreak (c : ascii) : bool :=
  (code c =? 10) || (code c =? 13).

Fixpoint collapseLineBreaks (inRun : bool) (l : list ascii) : list ascii :=
  match l with
  | [] => []
  | c :: l' =>
      if isLineBreak c
      then if inRun then collapseLineBreaks true l'
           else " "%char :: collapseLineBreaks true l'
      else c :: collapseLineBreaks false l'
  end.

(** [replace(/\s*:\s*$/, '')]: the text ends with white space, one
    colon and white space; the match starts where the white space
    before that colon starts. *)
Definition stripTrailingColon (l : list ascii) : list ascii :=
  match dropWhile isSpace (rev l) with
  | c :: rest =>
      if Ascii.eqb c ":"%char then rev (dropWhile isSpace rest) else l
  | [] => l
  end.

Definition cleanExtractedText (text : list ascii) : list ascii :=
  match text with
  | [] => []
  | _ => trim (stripTrailingColon
                 (collapseLineBreaks false (collapseSpaces (trim text))))
  end.

Definition isValidTrademark (t : TrademarkData) : bool := isValid t.

Section WithEngine.
Variable re : RegExpEngine.

(** The six patterns of [extractFieldsFromContext], in the order of
    [Object.entries(patterns)]. *)
Definition contextFields : list string :=
  [ "applicantName"; "receptionDate"; "trademarkName";
    "goodsClass"; "address"; "trademarkType" ]%string.

Definition extractContextData (context applicationNumber : list ascii)
           (pageNumber : nat) : JSObject :=
  fold_left
    (fun extractedData field =>
       match matchContextField re field context with
       | Some (c :: g) =>
           (field, JSStr (ofChars (cleanExtractedText (c :: g))))
             :: extractedData
       | _ => extractedData
       end)
    contextFields
    [ ("applicationNumber"%string, JSStr (ofChars applicationNumber));
      ("pageNumber"%string, JSNum pageNumber) ].

Definition extractFieldsFromContext (context applicationNumber : list ascii)
           (pageNumber : nat) : TrademarkData :=
  let extractedData :=
    extractContextData context applicationNumber pageNumber in
  newTrademarkData
    [ ("nomorPermohonan", JSStr (strOrEmpty "applicationNumber" extractedData));
      ("namaPemohon", JSStr (strOrEmpty "applicantName" extractedData));
      ("namaReferensiLabelMerek", JSStr (strOrEmpty "trademarkName" extractedData));
      ("tanggalPenerimaan", JSStr (strOrEmpty "receptionDate" extractedData));
      ("kelasBarangJasa", JSStr (strOrEmpty "goodsClass" extractedData));
      ("alamatPemohon", JSStr (strOrEmpty "address" extractedData));
      ("tipeMerek", JSStr (strOrEmpty "trademarkType" extractedData));
      ("pageNumber", JSNum pageNumber);
      ("extractionMethod", JSStr "enhanced-page-based") ]%string.

Definition parsePageChunk (pageChunk : PageChunk) : list TrademarkData :=
  flat_map
    (fun appMatch : list ascii * nat =>
       let applicationNumber := trim (fst appMatch) in
       let matchIndex := snd appMatch in
       (* [Math.max(0, matchIndex - 500)]: subtraction on [nat]
          stops at 0 *)
       let contextStart := matchIndex - 500 in
       let contextEnd :=
         Nat.min (length (content pageChunk)) (matchIndex + 1000) in
       let context :=
         substring contextStart contextEnd (content pageChunk) in
       let trademarkData :=
         extractFieldsFromContext context applicationNumber
                                  (pageNumber pageChunk) in
       if isValidTrademark trademarkData then [trademarkData] else [])
    (matchAllApplicationNumber re (content pageChunk)).

(** [deduplicateTrademarks]: [seen] is the [Set] of keys, a key is
    what [trademark.applicationNumber] reads. *)
Definition dedupKey (trademark : TrademarkData) : option string :=
  prop trademark "applicationNumber".

Definition keyEqb (a b : option string) : bool :=
  match a, b with
  | None, None => true
  | Some x, Some y => String.eqb x y
  | _, _ => false
  end.

Definition setHas (seen : list (option string)) (key : option string)
  : bool := existsb (keyEqb key) seen.

Fixpoint dedupLoop (seen : list (option string))
         (trademarks : list TrademarkData) : list TrademarkData :=
  match trademarks with
  | [] => []
  | trademark :: rest =>
      let key := dedupKey trademark in
      if setHas seen key then dedupLoop seen rest
      else trademark :: dedupLoop (key :: seen) rest
  end.

Definition deduplicateTrademarks (trademarks : list TrademarkData)
  : list TrademarkData := dedupLoop [] trademarks.

(** [parseSection] ends in [new TrademarkData(extractedData)]. *)
Definition parseSection (section : list ascii) : option TrademarkData :=
  option_map newTrademarkData (sectionData re section).

(** [extractTrademarkData], the traditional pass over the full text. *)
Definition extractTrademarkData (text : list ascii) : list TrademarkData :=
  flat_map
    (fun section =>
       match parseSection section with
       | Some trademarkData =>
           if isValidTrademark trademarkData then [trademarkData] else []
       | None => []
       end)
    (splitIntoSections re text).

Definition pageBasedTrademarks (pageChunks : list PageChunk)
  : list TrademarkData :=
  let trademarkPages := filter hasTrademarkData pageChunks in
  let pageResults := map parsePageChunk trademarkPages in
  filter isValidTrademark (concat pageResults).

Definition parseTrademarkDataEnhanced (pageChunks : list PageChunk)
           (fullText : list ascii) : list TrademarkData :=
  let trademarks := pageBasedTrademarks pageChunks in
  if length trademarks =? 0 then extractTrademarkData fullText
  else deduplicateTrademarks trademarks.

End WithEngine.

End Parser.

(* ================================================================== *)
(** * Process state and effects *)
(* ================================================================== *)

Module Config.

(** [this.thresholds] of the similarity service. *)
Record Thresholds : Type := mkThresholds {
  textSimilarity : Q;
  phoneticSimilarity : Q;
  semanticSimilarity : Q;
  overallSimilarity : Q
}.

(** The values the constructor sets. *)
Definition initial : Thresholds := mkThresholds 0.7 0.8 0.6 0.3.

End Config.

Module Effects.

(** The state of the process that the engine touches: the thresholds of
    the one [SimilarityService] instance, the number of requests sent
    to the embedding provider and the number of [Math.random()] draws
    so far. *)
Record World : Type := mkWorld {
  thresholds : Config.Thresholds;
  embeddingCalls : nat;
  randomDraws : nat
}.

(** What lies outside the repository.  [embeddingsCreate n input] is
    the answer to the [n]-th request [openai.embeddings.create] ([None]:
    the request, or the client set-up before it, throws);
    [Math_random n] is the [n]-th draw; [Math_sqrt] stands for
    [Math.sqrt] on the rationals. *)
Record Runtime : Type := mkRuntime {
  embeddingsCreate : nat -> list ascii -> option (list Q);
  Math_random : nat -> Q;
  Math_sqrt : Q -> Q
}.

Inductive JSError : Type :=
| ProviderError
| Error (message : string).

(** A call returns, throws, or does not come back. *)
Inductive Outcome (A : Type) : Type :=
| Returns (a : A)
| Throws (e : JSError)
| Hangs.
Arguments Returns {A} a.
Arguments Throws {A} e.
Arguments Hangs {A}.

Definition M (A : Type) : Type := World -> Outcome A * World.

Definition ret {A} (a : A) : M A := fun w => (Returns a, w).
Definition throw {A} (e : JSError) : M A := fun w => (Throws e, w).
Definition hang {A} : M A := fun w => (Hangs, w).

Definition bind {A B} (c : M A) (k : A -> M B) : M B :=
  fun w =>
    match c w with
    | (Returns a, w') => k a w'
    | (Throws e, w') => (Throws e, w')
    | (Hangs, w') => (Hangs, w')
    end.

(** [try { c } catch (error) { handler(error) }]. *)
Definition tryCatch {A} (c : M A) (handler : JSError -> M A) : M A :=
  fun w =>
    match c w with
    | (Throws e, w') => handler e w'
    | r => r
    end.

Definition readThresholds : M Config.Thresholds :=
  fun w => (Returns (thresholds w), w).

Definition ofOption {A} (o : option A) : M A :=
  match o with
  | Some a => ret a
  | None => hang
  end.

(** [for (const x of l) { results = body x results }]. *)
Fixpoint forOf {A B} (l : list A) (body : A -> B -> M B) (results : B)
  : M B :=
  match l with
  | [] => ret results
  | x :: l' => bind (body x results) (forOf l' body)
  end.

End Effects.

Declare Scope js_scope.
Delimit Scope js_scope with js.
Notation "x <- c ;; k" := (Effects.bind c (fun x => k))
  (at level 61, c at next level, right associativity) : js_scope.

(* ================================================================== *)
(** * The embedding call (vectorService.js) *)
(* ================================================================== *)

Module VectorService.
Import Effects.
Local Open Scope js_scope.

Definition maxLength : nat := 8000.
Definition fallbackDimensions : nat := 1536.

(** The request to the provider: one more call is counted, and the
    call returns the vector or throws. *)
Definition createEmbedding (rt : Runtime) (input : list ascii)
  : M (list Q) :=
  fun w =>
    let w' := mkWorld (thresholds w) (S (embeddingCalls w)) (randomDraws w) in
    match embeddingsCreate rt (embeddingCalls w) input with
    | Some embedding => (Returns embedding, w')
    | None => (Throws ProviderError, w')
    end.

(** [new Array(1536).fill(0).map(() => Math.random() * 0.001)]. *)
Definition randomVector (rt : Runtime) : M (list Q) :=
  fun w =>
    (Returns (map (fun k => (Math_random rt (randomDraws w + k) * 0.001)%Q)
                  (seq 0 fallbackDimensions)),
     mkWorld (thresholds w) (embeddingCalls w)
             (randomDraws w + fallbackDimensions)).

Definition generateEmbedding (rt : Runtime) (text : list ascii)
  : M (list Q) :=
  tryCatch
    (let truncatedText :=
       if maxLength <? length text then substring 0 maxLength text
       else text in
     createEmbedding rt truncatedText)
    (fun _error => randomVector rt).

End VectorService.

(* ================================================================== *)
(** * The similarity engine (similarityService.js) *)
(* ================================================================== *)

Module Engine.
Import Types Effects.
Local Open Scope js_scope.

(** An element of the corpus, with the properties the engine reads;
    [None] is a property that is absent. *)
Record Trademark : Type := mkTrademark {
  tm_namaMerek : option string;
  tm_namaReferensiLabelMerek : option string;
  tm_extractedText : option string;
  tm_uraianBarangJasa : option string;
  tm_trademarkData : option TrademarkData;
  tm_nomorPermohonan : option string;
  tm_id : option string;
  tm_sourceDocument : option string
}.

(** [a || b] on values that are strings or [undefined]. *)
Definition jsOr (a b : option string) : option string :=
  match a with
  | Some s => if truthy s then a else b
  | None => b
  end.

Definition orEmpty (a : option string) : string :=
  match jsOr a (Some EmptyString) with
  | Some s => s
  | None => EmptyString
  end.

(** [text.split(' ')[0]]. *)
Fixpoint firstPiece (l : list ascii) : list ascii :=
  match l with
  | [] => []
  | c :: l' => if Ascii.eqb c " "%char then [] else c :: firstPiece l'
  end.

Definition textPassName (trademark : Trademark) : string :=
  orEmpty
    (jsOr (tm_namaMerek trademark)
       (jsOr (tm_namaReferensiLabelMerek trademark)
          (match tm_extractedText trademark with
           | Some t => if truthy t then Some (ofChars (firstPiece (chars t)))
                       else Some EmptyString
           | None => Some EmptyString
           end))).

Record TextResult : Type := mkTextResult {
  tr_trademark : Trademark;
  tr_textSimilarity : TextSimilarity
}.

(** ** Phase 1: text *)
Definition analyzeTextSimilarity (target : string)
           (trademarks : list Trademark) : M (list TextResult) :=
  let targetNormalized := normalizeText target in
  forOf trademarks
    (fun trademark results =>
       let trademarkName := textPassName trademark in
       let normalizedTrademark := normalizeText trademarkName in
       sim <- ofOption (textSimilarityOf targetNormalized normalizedTrademark) ;;
       thr <- readThresholds ;;
       if Qle_bool (Config.textSimilarity thr) (overall sim)
       then ret (results ++ [mkTextResult trademark sim])
       else ret results)
    [].

(** ** Phase 1: description *)

(** The loop of [calculateCosineSimilarity]. *)
Definition cosineSums (vec1 vec2 : list Q) : Q * Q * Q :=
  fold_left
    (fun (acc : Q * Q * Q) (xy : Q * Q) =>
       let '(dotProduct, norm1, norm2) := acc in
       ((dotProduct + fst xy * snd xy)%Q,
        (norm1 + fst xy * fst xy)%Q,
        (norm2 + snd xy * snd xy)%Q))
    (combine vec1 vec2) (0%Q, 0%Q, 0%Q).

(** The quotient is [NaN] ([None]) when the divisor is 0: a norm is 0
    then, so is its vector, and the dividend is 0 too. *)
Definition calculateCosineSimilarity (rt : Runtime) (vec1 vec2 : list Q)
  : M (option Q) :=
  if negb (length vec1 =? length vec2)
  then throw (Error "Vectors must have the same length")
  else
    let '(dotProduct, norm1, norm2) := cosineSums vec1 vec2 in
    let divisor := (Math_sqrt rt norm1 * Math_sqrt rt norm2)%Q in
    if Qeq_bool divisor 0 then ret None
    else ret (Some (dotProduct / divisor)%Q).

Record DescriptionSimilarity : Type := mkDescriptionSimilarity {
  semantic : Q;
  description : string
}.

Record DescResult : Type := mkDescResult {
  dr_trademark : Trademark;
  dr_descriptionSimilarity : DescriptionSimilarity
}.

Definition descriptionOf (trademark : Trademark) : string :=
  orEmpty
    (jsOr (tm_uraianBarangJasa trademark)
          (option_map uraianBarangJasa (tm_trademarkData trademark))).

(** [semanticScore >= threshold] is false for [NaN]. *)
Definition analyzeDescriptionSimilarity (rt : Runtime) (target : string)
           (trademarks : list Trademark) : M (list DescResult) :=
  targetEmbedding <- VectorService.generateEmbedding rt (chars target) ;;
  forOf trademarks
    (fun trademark results =>
       let description := descriptionOf trademark in
       if 0 <? length (trim (chars description))
       then
         descEmbedding <-
           VectorService.generateEmbedding rt (chars description) ;;
         semanticScore <-
           calculateCosineSimilarity rt targetEmbedding descEmbedding ;;
         thr <- readThresholds ;;
         match semanticScore with
         | Some s =>
             if Qle_bool (Config.semanticSimilarity thr) s
             then ret (results ++
                       [mkDescResult trademark
                          (mkDescriptionSimilarity s
                             (ofChars (substring 0 200 (chars description)
                                       ++ chars "...")))])
             else ret results
         | None => ret results
         end
       else ret results)
    [].

(** ** Phase 2: phonetic *)

Definition phoneticMap (c : ascii) : list ascii :=
  if Ascii.eqb c "c" then chars "k"
  else if Ascii.eqb c "q" then chars "k"
  else if Ascii.eqb c "x" then chars "ks"
  else if Ascii.eqb c "f" then chars "p"
  else if Ascii.eqb c "v" then chars "p"
  else if Ascii.eqb c "j" then chars "y"
  else if Ascii.eqb c "z" then chars "s"
  else [c].

(** [replace(/(.)\1+/g, '$1')]; [.] does not match a line break. *)
Fixpoint removeConsecutiveDuplicates (l : list ascii) : list ascii :=
  match l with
  | [] => []
  | c :: l' =>
      match l' with
      | d :: _ =>
          if Ascii.eqb c d && negb (Parser.isLineBreak c)
          then removeConsecutiveDuplicates l'
          else c :: removeConsecutiveDuplicates l'
      | [] => [c]
      end
  end.

Definition generatePhoneticCode (text : string) : list ascii :=
  let normalized := normalizeText text in
  removeConsecutiveDuplicates (flat_map phoneticMap normalized).

Definition calculatePhoneticSimilarity (phonetic1 phonetic2 : list ascii)
  : Q := calculateLevenshteinSimilarity phonetic1 phonetic2.

Record PhoneticSimilarity : Type := mkPhoneticSimilarity {
  score : Q;
  targetPhonetic : list ascii;
  trademarkPhonetic : list ascii
}.

Record PhoneticResult : Type := mkPhoneticResult {
  pr_trademark : Trademark;
  pr_phoneticSimilarity : PhoneticSimilarity
}.

Definition analyzePhoneticSimilarity (target : string)
           (trademarks : list Trademark) : M (list PhoneticResult) :=
  let targetPhonetic := generatePhoneticCode target in
  forOf trademarks
    (fun trademark results =>
       let trademarkName := orEmpty (tm_namaMerek trademark) in
       let trademarkPhonetic := generatePhoneticCode trademarkName in
       let phoneticScore :=
         calculatePhoneticSimilarity targetPhonetic trademarkPhonetic in
       thr <- readThresholds ;;
       if Qle_bool (Config.phoneticSimilarity thr) phoneticScore
       then ret (results ++
                 [mkPhoneticResult trademark
                    (mkPhoneticSimilarity phoneticScore targetPhonetic
                                          trademarkPhonetic)])
       else ret results)
    [].

(** ** Fusion *)

(** The key of a record in [combinedMap]:
    [nomorPermohonan || id || sourceDocument]. *)
Definition keyOf (trademark : Trademark) : option string :=
  jsOr (tm_nomorPermohonan trademark)
       (jsOr (tm_id trademark) (tm_sourceDocument trademark)).

Record Combined : Type := mkCombined {
  trademark : Trademark;
  textSimilarity : option TextSimilarity;
  descriptionSimilarity : option DescriptionSimilarity;
  phoneticSimilarity : option PhoneticSimilarity
}.

(** A [Map]: the entries in the order of their first insertion. *)
Definition JSMap : Type := list (option string * Combined).

Definition keyEqb := Parser.keyEqb.

Fixpoint mapHas (m : JSMap) (key : option string) : bool :=
  match m with
  | [] => false
  | (k, _) :: m' => keyEqb k key || mapHas m' key
  end.

Fixpoint mapGet (m : JSMap) (key : option string) : option Combined :=
  match m with
  | [] => None
  | (k, v) :: m' => if keyEqb k key then Some v else mapGet m' key
  end.

(** [m.get(key).field = ..]: the entry of [key] is changed in place. *)
Fixpoint mapModify (m : JSMap) (key : option string)
         (f : Combined -> Combined) : JSMap :=
  match m with
  | [] => []
  | (k, v) :: m' =>
      if keyEqb k key then (k, f v) :: m'
      else (k, v) :: mapModify m' key f
  end.

(** [m.set(key, value)]: a key that is present keeps its place. *)
Definition mapSet (m : JSMap) (key : option string) (value : Combined)
  : JSMap :=
  if mapHas m key then mapModify m key (fun _ => value)
  else m ++ [(key, value)].

Definition mapValues (m : JSMap) : list Combined := map snd m.

Definition addTextResult (m : JSMap) (result : TextResult) : JSMap :=
  mapSet m (keyOf (tr_trademark result))
         (mkCombined (tr_trademark result)
                     (Some (tr_textSimilarity result)) None None).

Definition addDescResult (m : JSMap) (result : DescResult) : JSMap :=
  let key := keyOf (dr_trademark result) in
  if mapHas m key
  then mapModify m key
         (fun e => mkCombined (trademark e) (textSimilarity e)
                     (Some (dr_descriptionSimilarity result))
                     (phoneticSimilarity e))
  else mapSet m key
         (mkCombined (dr_trademark result) None
                     (Some (dr_descriptionSimilarity result)) None).

Definition addPhoneticResult (m : JSMap) (result : PhoneticResult) : JSMap :=
  let key := keyOf (pr_trademark result) in
  if mapHas m key
  then mapModify m key
         (fun e => mkCombined (trademark e) (textSimilarity e)
                     (descriptionSimilarity e)
                     (Some (pr_phoneticSimilarity result)))
  else mapSet m key
         (mkCombined (pr_trademark result) None None
                     (Some (pr_phoneticSimilarity result))).

Definition combinedMap (textResults : list TextResult)
           (descResults : list DescResult)
           (phoneticResults : list PhoneticResult) : JSMap :=
  fold_left addPhoneticResult phoneticResults
    (fold_left addDescResult descResults
       (fold_left addTextResult textResults [])).

Record Breakdown : Type := mkBreakdown {
  bd_text : Q;
  bd_description : Q;
  bd_phonetic : Q
}.

Record SimilarityResult : Type := mkSimilarityResult {
  item : Combined;
  overallScore : Q;
  similarityBreakdown : Breakdown
}.

(** [x?.field || 0]. *)
Definition scoreOrZero {A} (field : A -> Q) (x : option A) : Q :=
  match x with
  | Some a => if Qeq_bool (field a) 0 then 0%Q else field a
  | None => 0%Q
  end.

Definition scoreItem (item : Combined) : SimilarityResult :=
  let textScore := scoreOrZero overall (textSimilarity item) in
  let descScore := scoreOrZero semantic (descriptionSimilarity item) in
  let phoneticScore := scoreOrZero score (phoneticSimilarity item) in
  let overallScore :=
    (textScore * 0.4 + descScore * 0.3 + phoneticScore * 0.3)%Q in
  mkSimilarityResult item overallScore
                     (mkBreakdown textScore descScore phoneticScore).

Definition combineAndScoreResults (target : string)
           (textResults : list TextResult)
           (descResults : list DescResult)
           (phoneticResults : list PhoneticResult)
  : list SimilarityResult :=
  map scoreItem
      (mapValues (combinedMap textResults descResults phoneticResults)).

(** ** Filter, sort, slice *)

(** [sort((a, b) => b.overallScore - a.overallScore)]: the sort of an
    array is stable; [a] stays before [b] unless the comparator is
    positive. *)
Fixpoint insertSorted (a : SimilarityResult) (l : list SimilarityResult)
  : list SimilarityResult :=
  match l with
  | [] => [a]
  | b :: l' =>
      if Qltb (overallScore a) (overallScore b)
      then b :: insertSorted a l'
      else a :: l
  end.

Definition sortByScore (l : list SimilarityResult) : list SimilarityResult :=
  fold_right insertSorted [] l.

(** [l.slice(0, end)] for an integer [end]: a negative [end] counts
    from the end of the array. *)
Definition slice0 {A} (l : list A) (end_ : Z) : list A :=
  let len := Z.of_nat (length l) in
  let final := if (end_ <? 0)%Z then Z.max (len + end_) 0
               else Z.min end_ len in
  firstn (Z.to_nat final) l.

Record Options : Type := mkOptions {
  topK : option Z;
  includePhonetic : option bool;
  includeVisual : option bool
}.

(** Destructuring with defaults: a default stands in for [undefined]. *)
Definition withDefault {A} (d : A) (o : option A) : A :=
  match o with
  | Some a => a
  | None => d
  end.

Record Analysis : Type := mkAnalysis {
  targetTrademark : string;
  totalCompared : nat;
  similarTrademarks : list SimilarityResult;
  usedTopK : Z;
  usedIncludePhonetic : bool;
  usedIncludeVisual : bool
}.

(** The [try] block of [analyzeSimilarity] from the point where the
    call of [getAllTrademarks] has returned [allTrademarks].  The whole
    method, with the call that fetches the corpus and can throw, is
    [Service.analyzeSimilarity] below. *)
Definition analyzeSimilarity (rt : Runtime) (targetTrademark : string)
           (options : Options) (allTrademarks : list Trademark)
  : M Analysis :=
  tryCatch
    (let topK := withDefault 20%Z (topK options) in
     let includePhonetic := withDefault true (includePhonetic options) in
     let includeVisual := withDefault false (includeVisual options) in
     textSimilarityResults <-
       analyzeTextSimilarity targetTrademark allTrademarks ;;
     descriptionSimilarityResults <-
       analyzeDescriptionSimilarity rt targetTrademark allTrademarks ;;
     phoneticSimilarityResults <-
       (if includePhonetic
        then analyzePhoneticSimilarity targetTrademark allTrademarks
        else ret []) ;;
     let combinedResults :=
       combineAndScoreResults targetTrademark textSimilarityResults
         descriptionSimilarityResults phoneticSimilarityResults in
     thr <- readThresholds ;;
     let filteredResults :=
       slice0
         (sortByScore
            (filter (fun result =>
                       Qle_bool (Config.overallSimilarity thr)
                                (overallScore result))
                    combinedResults))
         topK in
     ret (mkAnalysis targetTrademark (length allTrademarks)
                     filteredResults topK includePhonetic includeVisual))
    (fun error => throw error).

End Engine.

(* ================================================================== *)
(** * The threshold administration (similarityController.js) *)
(* ================================================================== *)

Module Controller.
Import Effects.

(** The object under the key [thresholds] of a request body.  A key
    that the body does not hold is [None]. *)
Record ThresholdsPatch : Type := mkThresholdsPatch {
  p_textSimilarity : option Q;
  p_phoneticSimilarity : option Q;
  p_semanticSimilarity : option Q;
  p_overallSimilarity : option Q
}.

(** [Joi.number().min(0).max(1)], for a key that may be absent. *)
Definition validNumber (v : option Q) : bool :=
  match v with
  | Some q => Qle_bool 0 q && Qle_bool q 1
  | None => true
  end.

(** The schema; [thresholds] is required. *)
Definition validate (body : option ThresholdsPatch) : option ThresholdsPatch :=
  match body with
  | Some p =>
      if validNumber (p_textSimilarity p)
         && validNumber (p_phoneticSimilarity p)
         && validNumber (p_semanticSimilarity p)
         && validNumber (p_overallSimilarity p)
      then Some p else None
  | None => None
  end.

(** [Object.assign(similarityService.thresholds, thresholds)]. *)
Definition assign (target : Config.Thresholds) (source : ThresholdsPatch)
  : Config.Thresholds :=
  Config.mkThresholds
    (Engine.withDefault (Config.textSimilarity target)
                        (p_textSimilarity source))
    (Engine.withDefault (Config.phoneticSimilarity target)
                        (p_phoneticSimilarity source))
    (Engine.withDefault (Config.semanticSimilarity target)
                        (p_semanticSimilarity source))
    (Engine.withDefault (Config.overallSimilarity target)
                        (p_overallSimilarity source)).

Inductive Response : Type :=
| Status400
| Status200 (newThresholds : Config.Thresholds).

Definition updateThresholds (body : option ThresholdsPatch) (w : World)
  : Response * World :=
  match validate body with
  | None => (Status400, w)
  | Some patch =>
      let w' := mkWorld (assign (thresholds w) patch)
                        (embeddingCalls w) (randomDraws w) in
      (Status200 (thresholds w'), w')
  end.

End Controller.

(* ================================================================== *)
(** * The generic chunker (documentService.js) *)
(* ================================================================== *)

Module Document.

(** The constants the constructor sets. *)
Definition chunkSize : Z := 2000.
Definition chunkOverlap : Z := 400.

(** [text.lastIndexOf(c, k)] for [0 <= k]: the search goes down from
    index [k]; [-1] when [c] is not found. *)
Fixpoint lastIndexOf (c : ascii) (text : list ascii) (k : nat) : Z :=
  match nth_error text k with
  | Some d =>
      if Ascii.eqb d c then Z.of_nat k
      else match k with
           | 0 => (-1)%Z
           | S k' => lastIndexOf c text k'
           end
  | None =>
      match k with
      | 0 => (-1)%Z
      | S k' => lastIndexOf c text k'
      end
  end.

(** [text.slice(start, end)] for [0 <= start]. *)
Definition slice (text : list ascii) (start end_ : Z) : list ascii :=
  firstn (Z.to_nat (end_ - start)) (skipn (Z.to_nat start) text).

(** The end of the window that starts at [start]. *)
Definition windowEnd (text : list ascii) (start : Z) : Z :=
  let len := Z.of_nat (length text) in
  let end_ := (start + chunkSize)%Z in
  if (end_ <? len)%Z then
    let sentenceEnd := lastIndexOf "."%char text (Z.to_nat end_) in
    let exclamationEnd := lastIndexOf "!"%char text (Z.to_nat end_) in
    let questionEnd := lastIndexOf "?"%char text (Z.to_nat end_) in
    let maxSentenceEnd :=
      Z.max (Z.max sentenceEnd exclamationEnd) questionEnd in
    (* [maxSentenceEnd > start + this.chunkSize * 0.5], doubled *)
    if (2 * start + chunkSize <? 2 * maxSentenceEnd)%Z
    then (maxSentenceEnd + 1)%Z
    else
      let spaceIndex := lastIndexOf " "%char text (Z.to_nat end_) in
      if (2 * start + chunkSize <? 2 * spaceIndex)%Z
      then spaceIndex
      else end_
  else end_.

(** The start of the next window. *)
Definition nextStart (text : list ascii) (start : Z) : Z :=
  let start' := (windowEnd text start - chunkOverlap)%Z in
  if (start' <? 0)%Z then 0%Z else start'.

(** The [while] loop; [fuel] bounds the number of iterations, and the
    result is [None] when they do not suffice. *)
Fixpoint chunkLoop (fuel : nat) (text : list ascii) (start : Z)
         (chunks : list (list ascii)) : option (list (list ascii)) :=
  if (start <? Z.of_nat (length text))%Z then
    match fuel with
    | 0 => None
    | S fuel' =>
        let end_ := windowEnd text start in
        let chunk := trim (slice text start end_) in
        let chunks' :=
          if 0 <? length chunk then chunks ++ [chunk] else chunks in
        chunkLoop fuel' text (nextStart text start) chunks'
    end
  else Some chunks.

(** ** The semantic pass that is tried first *)

Definition isLetter (c : ascii) : bool :=
  inRange 65 90 c || inRange 97 122 c.

Fixpoint startsWith (p l : list ascii) : bool :=
  match p, l with
  | [], _ => true
  | x :: p', y :: l' => Ascii.eqb x y && startsWith p' l'
  | _ :: _, [] => false
  end.

(** The length of the longest prefix whose characters satisfy [p]. *)
Fixpoint spanLength (p : ascii -> bool) (l : list ascii) : nat :=
  match l with
  | c :: l' => if p c then S (spanLength p l') else 0
  | [] => 0
  end.

(** [/(?:210|220)\s+(\d{4}\d{6,})/] at the head of [l]: the length of
    the match.  Both quantifiers are greedy, and giving back a
    character never helps: what follows the white space has to be a
    digit. *)
Definition anchorMatch (l : list ascii) : option nat :=
  if startsWith (chars "210") l || startsWith (chars "220") l then
    let rest := skipn 3 l in
    let spaces := spanLength isSpace rest in
    let digits := spanLength isDigit (skipn spaces rest) in
    if (1 <=? spaces) && (10 <=? digits)
    then Some (3 + spaces + digits) else None
  else None.

(** The loop [while ((match = pattern.exec(text)) !== null)] of a
    global pattern: the positions of the matches, from left to right.
    [l] is the text from [pos] on; [skip] characters of it belong to
    the match found last. *)
Fixpoint anchorPositions (l : list ascii) (pos skip : nat) : list nat :=
  match l with
  | [] => []
  | _ :: l' =>
      match skip with
      | S skip' => anchorPositions l' (S pos) skip'
      | 0 =>
          match anchorMatch l with
          | Some n => pos :: anchorPositions l' (S pos) (n - 1)
          | None => anchorPositions l' (S pos) 0
          end
      end
  end.

(** [/(?=\d{3}[A-Za-z])/] at the head of [l]. *)
Definition fieldCodeAhead (l : list ascii) : bool :=
  match l with
  | a :: b :: c :: d :: _ =>
      isDigit a && isDigit b && isDigit c && isLetter d
  | _ => false
  end.

(** [text.split(/(?=\d{3}[A-Za-z])/)]: a piece ends before every
    position where the pattern matches, unless the piece is empty;
    [current] is the piece that is being read, reversed. *)
Fixpoint splitOnFieldCodes (l current : list ascii) : list (list ascii) :=
  match l with
  | [] => [rev current]
  | c :: l' =>
      if fieldCodeAhead l && (0 <? length current)
      then rev current :: splitOnFieldCodes l' [c]
      else splitOnFieldCodes l' (c :: current)
  end.

Definition splitLargeTrademarkEntry (text : list ascii)
  : list (list ascii) :=
  let sections := splitOnFieldCodes text [] in
  let '(chunks, currentChunk) :=
    fold_left
      (fun (st : list (list ascii) * list ascii) section =>
         let '(chunks, currentChunk) := st in
         if (Z.of_nat (length currentChunk + length section) >? chunkSize)%Z
            && (0 <? length currentChunk)
         then (chunks ++ [trim currentChunk], section)
         else (chunks,
               currentChunk
               ++ (if 0 <? length currentChunk then chars " " else [])
               ++ section))
      sections ([], []) in
  let chunks' :=
    if 0 <? length (trim currentChunk)
    then chunks ++ [trim currentChunk] else chunks in
  filter (fun chunk => 50 <? length chunk) chunks'.

(** The loop over the matches; [positions] holds the positions from
    the current match on. *)
Fixpoint semanticLoop (text : list ascii) (positions : list nat)
         (chunks : list (list ascii)) : list (list ascii) :=
  match positions with
  | [] => chunks
  | position :: rest =>
      (* [Math.max(0, position - 200)]: subtraction on [nat] *)
      let startPos := position - 200 in
      let endPos := match rest with
                    | next :: _ => next
                    | [] => length text
                    end in
      let chunkText := trim (substring startPos endPos text) in
      let chunks' :=
        if (Z.of_nat (length chunkText) >? chunkSize * 2)%Z
        then chunks ++ splitLargeTrademarkEntry chunkText
        else if 100 <? length chunkText then chunks ++ [chunkText]
             else chunks in
      semanticLoop text rest chunks'
  end.

Definition createSemanticChunks (text : list ascii) : list (list ascii) :=
  semanticLoop text (anchorPositions text 0 0) [].

(** ** [splitIntoChunks] *)
Definition splitIntoChunks (fuel : nat) (text : list ascii)
  : option (list (list ascii)) :=
  if length text =? 0 then Some []
  else
    let semanticChunks := createSemanticChunks text in
    if 0 <? length semanticChunks then Some semanticChunks
    else chunkLoop fuel text 0 [].

End Document.

(* ================================================================== *)
(** * Definitions for the statements and the proofs *)
(* ================================================================== *)

Module LexicalSpec.

(** The recurrence the matrix is filled with, read on the two prefixes
    from their last characters: [rev2] and [rev1] are a prefix of [str2]
    and a prefix of [str1], reversed. *)
Fixpoint editRec (rev2 rev1 : list ascii) : nat :=
  match rev2 with
  | [] => length rev1
  | c2 :: rev2' =>
      (fix inner (rev1 : list ascii) : nat :=
         match rev1 with
         | [] => length rev2
         | c1 :: rev1' =>
             if Ascii.eqb c2 c1 then editRec rev2' rev1'
             else Nat.min (Nat.min (editRec rev2' rev1' + 1)
                                   (inner rev1' + 1))
                          (editRec rev2' rev1 + 1)
         end) rev1
  end.

(** Row [i] of the matrix, for the prefix of [str2] that [rev2]
    reverses. *)
Definition rowOf (rev2 str1 : list ascii) : list nat :=
  map (fun j => editRec rev2 (rev (firstn j str1)))
      (seq 0 (S (length str1))).

End LexicalSpec.

Module SubstringSpec.

(** The length of the run that starts at [i] in [str1] and at [j] in
    [str2]. *)
Definition run (str1 str2 : list ascii) (i j : nat) : nat :=
  commonRun (skipn i str1) (skipn j str2).

(** What the loops maintain: [longest] is at least as long as every
    run met so far, and it is empty or as long as one of them. *)
Definition Covers (str1 str2 : list ascii) (n : nat) (ixs js : list nat)
  : Prop :=
  forall i j, In i ixs -> In j js -> run str1 str2 i j <= n.

Definition Attained (str1 str2 : list ascii) (n : nat) : Prop :=
  n = 0 \/ exists i j, i < length str1 /\ j < length str2
                       /\ run str1 str2 i j = n.

End SubstringSpec.

Module JaroSpec.

(** [j] is a candidate for [i]: the two characters are the same and
    [j] lies in the window of [i]. *)
Definition Cand (str1 str2 : list ascii) (w : Z) (i j : nat) : Prop :=
  i < length str1 /\ j < length str2
  /\ nth i str1 zero = nth j str2 zero
  /\ (Z.of_nat i - w <= Z.of_nat j <= Z.of_nat i + w)%Z.

(** A matching [M] that the greedy scan of [str1] against [str2] can
    have produced: an index of [str1] takes the least candidate that no
    smaller index has taken, and stays alone only if there is none. *)
Record Greedy (str1 str2 : list ascii) (w : Z) (M : nat -> nat -> Prop)
  : Prop := mkGreedy {
  g_cand : forall i j, M i j -> Cand str1 str2 w i j;
  g_fun : forall i j j', M i j -> M i j' -> j = j';
  g_inj : forall i i' j, M i j -> M i' j -> i = i';
  g_none : forall i j, Cand str1 str2 w i j -> (forall j', ~ M i j') ->
                       exists i', i' < i /\ M i' j;
  g_least : forall i j j', M i j -> j' < j -> Cand str1 str2 w i j' ->
                           exists i', i' < i /\ M i' j';
  g_dec : forall i, (exists j, M i j) \/ (forall j, ~ M i j)
}.
Arguments g_cand {str1 str2 w M} _ {i j} _.
Arguments g_fun {str1 str2 w M} _ {i j j'} _ _.
Arguments g_inj {str1 str2 w M} _ {i i' j} _ _.
Arguments g_none {str1 str2 w M} _ {i j} _ _.
Arguments g_least {str1 str2 w M} _ {i j j'} _ _ _.
Arguments g_dec {str1 str2 w M} _ i.

(** The characters whose flag is set, in order. *)
Definition matched (l : list (ascii * bool)) : list ascii :=
  map fst (filter snd l).

(** The number of positions at which two sequences differ. *)
Fixpoint mismatches (a b : list ascii) : nat :=
  match a, b with
  | x :: a', y :: b' =>
      if Ascii.eqb x y then mismatches a' b' else S (mismatches a' b')
  | _, _ => 0
  end.

Definition countTrue (l : list bool) : nat := length (filter (fun b => b) l).

(** The scan passes [j]: its flag is set or its character differs. *)
Definition Blocked (c : ascii) (str2 : list ascii) (m2 : list bool)
           (j : nat) : Prop :=
  nth j m2 false = true \/ c <> nth j str2 zero.

(** The state after the first [n] iterations of the loop "Find
    matches", and what iteration [i] finds. *)
Definition stateAt (str1 str2 : list ascii) (w : Z) (n : nat) : MatchState :=
  fold_left (matchStep str1 str2 w) (seq 0 n)
            (mkMatchState (repeat false (length str1))
                          (repeat false (length str2)) 0).

Definition pick (str1 str2 : list ascii) (w : Z) (i : nat) : option nat :=
  findMatch (nth i str1 zero) str2 (str2Matches (stateAt str1 str2 w i))
            (Z.to_nat (windowStart w i))
            (Z.to_nat (windowEnd w i (length str2) - windowStart w i)).

(** The matching the loop builds. *)
Definition Matching (str1 str2 : list ascii) (w : Z) (i j : nat) : Prop :=
  i < length str1 /\ pick str1 str2 w i = Some j.

End JaroSpec.

Module IdentitySpec.

(** The matching of a string with itself, index by index. *)
Definition Diagonal (str : list ascii) (i j : nat) : Prop :=
  i < length str /\ i = j.

End IdentitySpec.

Module EffectsSpec.
Import Effects.

(** The value a call returns, if it returns. *)
Definition returned {A} (r : Outcome A * World) : option A :=
  match fst r with
  | Returns a => Some a
  | _ => None
  end.

(** [c] returns from every state, with a value that satisfies [P], and
    leaves the thresholds as they are. *)
Definition ReturnsWith {A} (P : A -> Prop) (c : M A) : Prop :=
  forall w, exists a w',
    c w = (Returns a, w') /\ P a /\ thresholds w' = thresholds w.

(** [c] may throw, but it does not touch the thresholds. *)
Definition KeepsThresholds {A} (c : M A) : Prop :=
  forall w, thresholds (snd (c w)) = thresholds w.

End EffectsSpec.

Module FusionSpec.
Import Engine.

(** The value of the last result of a pass that has the key [k]. *)
Fixpoint lastBy {R S} (key : R -> option string) (val : R -> S)
         (k : option string) (results : list R) : option S :=
  match results with
  | [] => None
  | r :: results' =>
      match lastBy key val k results' with
      | Some s => Some s
      | None => if keyEqb (key r) k then Some (val r) else None
      end
  end.

Definition textKey (r : TextResult) : option string :=
  keyOf (tr_trademark r).
Definition descKey (r : DescResult) : option string :=
  keyOf (dr_trademark r).
Definition phoneticKey (r : PhoneticResult) : option string :=
  keyOf (pr_trademark r).

Definition lastText := lastBy textKey tr_textSimilarity.
Definition lastDesc := lastBy descKey dr_descriptionSimilarity.
Definition lastPhonetic := lastBy phoneticKey pr_phoneticSimilarity.


Definition components (e : Combined)
  : option TextSimilarity * option DescriptionSimilarity
    * option PhoneticSimilarity :=
  (textSimilarity e, descriptionSimilarity e, phoneticSimilarity e).

(** Every entry sits under the key of its record. *)
Definition WellKeyed (m : JSMap) : Prop :=
  forall k e, In (k, e) m -> keyOf (trademark e) = k.

End FusionSpec.

Module ParserExamples.
Import Types Parser.

(** Two valid records of one document, with two application numbers. *)
Definition firstRecord : TrademarkData :=
  newTrademarkData
    [ ("nomorPermohonan", JSStr "IDM000111222");
      ("namaPemohon", JSStr "PT ABC");
      ("namaReferensiLabelMerek", JSStr "SUPERCOLA");
      ("kelasBarangJasa", JSStr "25") ]%string.

Definition secondRecord : TrademarkData :=
  newTrademarkData
    [ ("nomorPermohonan", JSStr "IDM000333444");
      ("namaPemohon", JSStr "PT XYZ");
      ("namaReferensiLabelMerek", JSStr "MEGATEA");
      ("kelasBarangJasa", JSStr "30") ]%string.

(** A document without the anchor of the page-based pass,
    ["JID 1234567890 Nama Referensi Label Merek: SUPERCOLA Tipe Merek:
    Merek Kata Kelas Barang/Jasa: 25"]: the engine finds no application
    number of the form the page-based pass wants, keeps the text as one
    section, and finds in it the number after [JID], the mark before
    [Tipe Merek], the class, and as the type of the mark the rest of
    the text. *)
Definition coarseDocument : list ascii :=
  chars "JID 1234567890 Nama Referensi Label Merek: SUPERCOLA Tipe Merek: Merek Kata Kelas Barang/Jasa: 25".

Definition coarseEngine : RegExpEngine :=
  {| matchAllApplicationNumber := fun _ => [];
     matchContextField := fun _ _ => None;
     splitIntoSections := fun text => [text];
     sectionData := fun _ =>
       Some [ ("nomorPermohonan", JSStr "1234567890");
              ("namaReferensiLabelMerek", JSStr "SUPERCOLA");
              ("kelasBarangJasa", JSStr "25");
              ("tipeMerek", JSStr "Merek Kata Kelas Barang/Jasa: 25");
              ("alamatPemohon", JSStr "");
              ("alamatKuasa", JSStr "");
              ("prioritas", JSStr "");
              ("artiBahasa", JSStr "") ]%string |}.

Definition coarsePages : list PageChunk :=
  [ mkPageChunk coarseDocument 1 true ].

End ParserExamples.

Module EngineExamples.
Import Effects Engine.

(** A rational square root, exact on the squares. *)
Definition sqrtQ (q : Q) : Q :=
  Qmake (Z.sqrt (Qnum q * Zpos (Qden q))) (Qden q).

(** A provider that answers every request with one vector, and one that
    fails on every request. *)
Definition answeringRuntime : Runtime :=
  {| embeddingsCreate := fun _ _ => Some [1%Q; 0%Q];
     Math_random := fun _ => 0%Q;
     Math_sqrt := sqrtQ |}.

Definition failingRuntime : Runtime :=
  {| embeddingsCreate := fun _ _ => None;
     Math_random := fun _ => (1 # 2)%Q;
     Math_sqrt := sqrtQ |}.

Definition startWorld : World := mkWorld Config.initial 0 0.

Definition defaultOptions : Options := mkOptions None None None.

(** Two records named COLA, without a description, and one with a
    description. *)
Definition colaOne : Trademark :=
  mkTrademark (Some "COLA"%string) None None None None
              (Some "IDM000111222"%string) None None.
Definition colaTwo : Trademark :=
  mkTrademark (Some "COLA"%string) None None None None
              (Some "IDM000333444"%string) None None.
Definition colaDescribed : Trademark :=
  mkTrademark (Some "COLA"%string) None None (Some "soft drinks"%string)
              None (Some "IDM000555666"%string) None None.


End EngineExamples.

Module OccurrenceSpec.
Import SubstringSpec.

(** [c] is a substring of [str]. *)
Definition Occurs (c str : list ascii) : Prop :=
  exists pre suf, str = pre ++ c ++ suf.

(** What [longest] holds while the loops of [longestCommonSubstring]
    run: nothing yet, or the run that starts at some [i] and [j]. *)
Definition Found (str1 str2 longest : list ascii) : Prop :=
  longest = []
  \/ exists i j, i < length str1 /\ j < length str2
                 /\ longest = firstn (run str1 str2 i j) (skipn i str1).

End OccurrenceSpec.

Module NormalFormSpec.
Import JSString.

(** The alphabet of a normalised name: [a-z], [0-9] and the space. *)
Definition normalChar (c : ascii) : bool :=
  isLowerAZ c || isDigit c || Ascii.eqb c " ".

Definition startsClean (l : list ascii) : bool :=
  negb (isSpace (hd "x"%char l)).

Definition endsClean (l : list ascii) : bool :=
  negb (isSpace (last l "x"%char)).

Fixpoint singleSpaced (l : list ascii) : bool :=
  match l with
  | a :: l' =>
      match l' with
      | b :: _ => negb (isSpace a && isSpace b) && singleSpaced l'
      | [] => true
      end
  | [] => true
  end.

(** Only normal characters, no white space at either end, no two
    white-space characters in a row. *)
Definition normalForm (l : list ascii) : bool :=
  forallb normalChar l && startsClean l && endsClean l && singleSpaced l.

(** The letters [generatePhoneticCode] rewrites. *)
Definition mappedLetter (c : ascii) : bool :=
  existsb (Ascii.eqb c) (chars "cqxfvjz").

Fixpoint noRepeat (l : list ascii) : bool :=
  match l with
  | a :: l' =>
      match l' with
      | b :: _ => negb (Ascii.eqb a b) && noRepeat l'
      | [] => true
      end
  | [] => true
  end.

End NormalFormSpec.

Module PassSpec.
Import JSString Lexical Types Effects Engine.

(** The record reaches the text threshold. *)
Definition textHit (thr : Config.Thresholds) (target : string)
           (t : Trademark) : bool :=
  match lexicalScore target (textPassName t) with
  | Some q => Qle_bool (Config.textSimilarity thr) q
  | None => false
  end.

Definition phoneticScoreOf (target : string) (t : Trademark) : Q :=
  calculatePhoneticSimilarity
    (generatePhoneticCode target)
    (generatePhoneticCode (orEmpty (tm_namaMerek t))).

(** The record reaches the phonetic threshold. *)
Definition phoneticHit (thr : Config.Thresholds) (target : string)
           (t : Trademark) : bool :=
  Qle_bool (Config.phoneticSimilarity thr) (phoneticScoreOf target t).

(** The record has a description that is not blank. *)
Definition described (t : Trademark) : bool :=
  0 <? length (trim (chars (descriptionOf t))).

(** What one turn of the loop of a pass adds to its results. *)
Definition textStep (w : World) (target : string) (t : Trademark)
  : list TextResult :=
  match textSimilarityOf (normalizeText target)
                         (normalizeText (textPassName t)) with
  | Some sim =>
      if Qle_bool (Config.textSimilarity (thresholds w)) (overall sim)
      then [mkTextResult t sim] else []
  | None => []
  end.

Definition phoneticStep (w : World) (target : string) (t : Trademark)
  : list PhoneticResult :=
  if phoneticHit (thresholds w) target t
  then [mkPhoneticResult t
          (mkPhoneticSimilarity
             (phoneticScoreOf target t)
             (generatePhoneticCode target)
             (generatePhoneticCode (orEmpty (tm_namaMerek t))))]
  else [].

(** Scores from the highest to the lowest. *)
Definition descending (a b : SimilarityResult) : Prop :=
  (overallScore b <= overallScore a)%Q.

Definition resultKey (r : SimilarityResult) : option string :=
  keyOf (trademark (item r)).

End PassSpec.

Module AdminSpec.
Import Effects Controller.

(** The state after a sequence of requests to [updateThresholds]. *)
Definition afterRequests (bodies : list (option ThresholdsPatch)) (w : World)
  : World :=
  fold_left (fun w body => snd (updateThresholds body w)) bodies w.

Definition UnitInterval (q : Q) : Prop := (0 <= q)%Q /\ (q <= 1)%Q.

Definition InUnit (thr : Config.Thresholds) : Prop :=
  UnitInterval (Config.textSimilarity thr)
  /\ UnitInterval (Config.phoneticSimilarity thr)
  /\ UnitInterval (Config.semanticSimilarity thr)
  /\ UnitInterval (Config.overallSimilarity thr).

End AdminSpec.

Module DescriptionSpec.
Import JSString Lexical Types Effects VectorService Engine PassSpec.
Local Open Scope js_scope.

(** The body of the loop of [analyzeDescriptionSimilarity]. *)
Definition descBody (rt : Runtime) (targetEmbedding : list Q)
  : Trademark -> list DescResult -> M (list DescResult) :=
  fun trademark results =>
    let description := descriptionOf trademark in
    if 0 <? length (trim (chars description))
    then
      descEmbedding <-
        VectorService.generateEmbedding rt (chars description) ;;
      semanticScore <-
        calculateCosineSimilarity rt targetEmbedding descEmbedding ;;
      thr <- readThresholds ;;
      match semanticScore with
      | Some s =>
          if Qle_bool (Config.semanticSimilarity thr) s
          then ret (results ++
                    [mkDescResult trademark
                       (mkDescriptionSimilarity s
                          (ofChars (substring 0 200 (chars description)
                                    ++ chars "...")))])
          else ret results
      | None => ret results
      end
    else ret results.

Definition DescOk (w : World) (trademarks : list Trademark) (r : DescResult)
  : Prop :=
  In (dr_trademark r) trademarks
  /\ described (dr_trademark r) = true
  /\ (Config.semanticSimilarity (thresholds w)
      <= semantic (dr_descriptionSimilarity r))%Q.

(** Every entry of the map holds a record that satisfies [S]. *)
Definition Holds (S : Trademark -> Prop) (m : JSMap) : Prop :=
  forall k e, In (k, e) m -> S (trademark e).

End DescriptionSpec.

Module ChunkSpec.
Import JSString Document OccurrenceSpec.

(** [chunk] is a piece of [text] that holds the character at index [i]. *)
Definition ChunkAt (text chunk : list ascii) (i : nat) : Prop :=
  exists pre suf, text = pre ++ chunk ++ suf
                  /\ length pre <= i < length pre + length chunk.

(** A chunk as the chunkers store it: not empty, and trimmed. *)
Definition Clean (chunk : list ascii) : Prop :=
  0 < length chunk /\ trim chunk = chunk.

(** A chunk of the generic chunker. *)
Definition Window (text chunk : list ascii) : Prop :=
  Clean chunk /\ length chunk <= 2001 /\ Occurs chunk text.

End ChunkSpec.

Module CleanSpec.
Import JSString.

(** White space, if at all, as the space character. *)
Definition plainSpace (c : ascii) : bool :=
  negb (isSpace c) || Ascii.eqb c " ".

End CleanSpec.

(* ================================================================== *)
(** * The corpus and the whole analysis
      (database.js, vectorService.js, similarityService.js) *)
(* ================================================================== *)

Module Service.
Import JSString Types Effects VectorService Engine.
Local Open Scope js_scope.

(** The vector database.  [pineconeIndex] is [dbConfig.index], which is
    not set until the database is initialised.  A query settles, as a
    request to the provider does: the index answers a query vector with
    its matches, or the query fails with an error.  A match is held as
    the record that [parseSearchResults] makes of it, and an error
    thrown while the matches are read or by [parseSearchResults] counts
    as an error of the query: all of them are thrown inside the [try]
    of [getAllTrademarks]. *)
Record VectorStore : Type := mkVectorStore {
  pineconeIndex : option (list Q -> JSError + list Trademark)
}.

(** [getPineconeIndex()] of database.js. *)
Definition getPineconeIndex (store : VectorStore)
  : M (list Q -> JSError + list Trademark) :=
  match pineconeIndex store with
  | Some index => ret index
  | None => throw (Error "Pinecone index not initialized")
  end.

(** [await index.namespace(this.namespace).query(queryRequest)]. *)
Definition queryIndex (index : list Q -> JSError + list Trademark)
           (vector : list Q) : M (list Trademark) :=
  match index vector with
  | inr matches => ret matches
  | inl error => throw error
  end.

Definition searchSimilarChunks (store : VectorStore)
           (queryEmbedding : list Q) : M (list Trademark) :=
  tryCatch
    (index <- getPineconeIndex store ;;
     results <- queryIndex index queryEmbedding ;;
     ret results)
    (fun error => throw error).

(** [search(query, options)]: the embedding of the query is asked of the
    provider, as every embedding is. *)
Definition search (rt : Runtime) (store : VectorStore) (query : list ascii)
  : M (list Trademark) :=
  tryCatch
    (queryEmbedding <- generateEmbedding rt query ;;
     results <- searchSimilarChunks store queryEmbedding ;;
     ret results)
    (fun error => throw error).

(** [getAllTrademarks(dateRange)] with [dateRange] equal to [null], as
    it is when the options hold no [dateRange]: the filter by date is
    skipped. *)
Definition getAllTrademarks (rt : Runtime) (store : VectorStore)
  : M (list Trademark) :=
  tryCatch
    (trademarks <- search rt store (chars "trademark brand") ;;
     ret trademarks)
    (fun error => throw error).

(** [analyzeSimilarity(targetTrademark, options)], the whole method:
    the corpus is fetched inside the [try], and what the fetch throws
    is thrown again by the [catch]. *)
Definition analyzeSimilarity (rt : Runtime) (store : VectorStore)
           (targetTrademark : string) (options : Options) : M Analysis :=
  tryCatch
    (let topK := withDefault 20%Z (topK options) in
     let includePhonetic := withDefault true (includePhonetic options) in
     let includeVisual := withDefault false (includeVisual options) in
     allTrademarks <- getAllTrademarks rt store ;;
     textSimilarityResults <-
       analyzeTextSimilarity targetTrademark allTrademarks ;;
     descriptionSimilarityResults <-
       analyzeDescriptionSimilarity rt targetTrademark allTrademarks ;;
     phoneticSimilarityResults <-
       (if includePhonetic
        then analyzePhoneticSimilarity targetTrademark allTrademarks
        else ret []) ;;
     let combinedResults :=
       combineAndScoreResults targetTrademark textSimilarityResults
         descriptionSimilarityResults phoneticSimilarityResults in
     thr <- readThresholds ;;
     let filteredResults :=
       slice0
         (sortByScore
            (filter (fun result =>
                       Qle_bool (Config.overallSimilarity thr)
                                (overallScore result))
                    combinedResults))
         topK in
     ret (mkAnalysis targetTrademark (length allTrademarks)
                     filteredResults topK includePhonetic includeVisual))
    (fun error => throw error).

End Service.

(* ================================================================== *)
(** * The analysis endpoints (similarityController.js) *)
(* ================================================================== *)

Module AnalysisController.
Import Types Effects Engine.
Local Open Scope js_scope.

(** The object under the key [options] of a request body, with the
    keys the service reads; a key that the body does not hold is
    [None].  (Bodies with a [dateRange] are not modelled.) *)
Record BodyOptions : Type := mkBodyOptions {
  bo_topK : option Q;
  bo_includePhonetic : option bool;
  bo_includeVisual : option bool
}.

(** [Joi.number().integer().min(lo).max(hi)]. *)
Definition integerIn (lo hi : Z) (q : Q) : option Z :=
  let r := Qred q in
  if Pos.eqb (Qden r) 1 && (lo <=? Qnum r)%Z && (Qnum r <=? hi)%Z
  then Some (Qnum r) else None.

(** The schema of [options]: [topK] between 1 and [hi] with the default
    [dflt], [includePhonetic] with the default [true], [includeVisual]
    with the default [false]; the object itself has the default [{}],
    which Joi hands on as it is. *)
Definition validateOptions (hi dflt : Z) (options : option BodyOptions)
  : option Options :=
  match options with
  | None => Some (mkOptions None None None)
  | Some o =>
      match (match bo_topK o with
             | None => Some dflt
             | Some q => integerIn 1 hi q
             end) with
      | Some k =>
          Some (mkOptions (Some k)
                          (Some (withDefault true (bo_includePhonetic o)))
                          (Some (withDefault false (bo_includeVisual o))))
      | None => None
      end
  end.

(** [Joi.string().min(1).max(200)]. *)
Definition validName (s : string) : bool :=
  (1 <=? String.length s) && (String.length s <=? 200).

Record AnalyzeBody : Type := mkAnalyzeBody {
  ab_trademark : option string;
  ab_options : option BodyOptions
}.

(** The schema of [analyzeSimilarity]; [trademark] is required. *)
Definition validateAnalyze (body : AnalyzeBody) : option (string * Options) :=
  match ab_trademark body with
  | Some trademark =>
      if validName trademark
      then option_map (fun options => (trademark, options))
                      (validateOptions 50 20 (ab_options body))
      else None
  | None => None
  end.

(** What the handler answers: [res.status(400)], [res.status(500)],
    [res.json] with the data, or nothing when the service does not
    come back. *)
Inductive Response (A : Type) : Type :=
| Status400
| Status500
| Status200 (data : A)
| NoResponse.
Arguments Status400 {A}.
Arguments Status500 {A}.
Arguments Status200 {A} data.
Arguments NoResponse {A}.

(** [analyzeSimilarity(req, res)]: the body is checked, the service
    is called, and what the service throws is answered with 500. *)
Definition analyzeSimilarity (rt : Runtime) (store : Service.VectorStore)
           (body : AnalyzeBody) (w : World) : Response Analysis * World :=
  match validateAnalyze body with
  | None => (Status400, w)
  | Some (trademark, options) =>
      match Service.analyzeSimilarity rt store trademark options w with
      | (Returns result, w') => (Status200 result, w')
      | (Throws _error, w') => (Status500, w')
      | (Hangs, w') => (NoResponse, w')
      end
  end.

(** ** The batch *)

Record BatchBody : Type := mkBatchBody {
  bb_trademarks : option (list string);
  bb_options : option BodyOptions
}.

(** [Joi.array().items(Joi.string().min(1).max(200)).required()
    .min(1).max(10)], and [topK] between 1 and 20 with the default
    10. *)
Definition validateBatch (body : BatchBody)
  : option (list string * Options) :=
  match bb_trademarks body with
  | Some trademarks =>
      if forallb validName trademarks
         && (1 <=? length trademarks) && (length trademarks <=? 10)
      then option_map (fun options => (trademarks, options))
                      (validateOptions 20 10 (bb_options body))
      else None
  | None => None
  end.

(** An element of [results]: [{trademark, success: true, data}] or
    [{trademark, success: false, error}]. *)
Record BatchEntry : Type := mkBatchEntry {
  be_trademark : string;
  be_success : bool;
  be_data : option Analysis;
  be_error : option JSError
}.

Record BatchSummary : Type := mkBatchSummary {
  total : nat;
  successful : nat;
  failed : nat
}.

Record BatchData : Type := mkBatchData {
  results : list BatchEntry;
  summary : BatchSummary
}.

(** The loop over the trademarks, with its [try] and [catch];
    [allTrademarks] is what [getAllTrademarks] returns to the
    analyses. *)
Definition batchLoop (rt : Runtime) (allTrademarks : list Trademark)
           (trademarks : list string) (options : Options)
  : M (list BatchEntry) :=
  forOf trademarks
    (fun trademark results =>
       tryCatch
         (result <-
            Engine.analyzeSimilarity rt trademark options allTrademarks ;;
          ret (results ++ [mkBatchEntry trademark true (Some result) None]))
         (fun error =>
            ret (results ++ [mkBatchEntry trademark false None (Some error)])))
    [].

Definition batchAnalyzeSimilarity (rt : Runtime)
           (allTrademarks : list Trademark) (body : BatchBody) (w : World)
  : Response BatchData * World :=
  match validateBatch body with
  | None => (Status400, w)
  | Some (trademarks, options) =>
      match batchLoop rt allTrademarks trademarks options w with
      | (Returns results, w') =>
          let successCount := length (filter be_success results) in
          (Status200
             (mkBatchData results
                (mkBatchSummary (length trademarks) successCount
                                (length trademarks - successCount))),
           w')
      | (Throws _error, w') => (Status500, w')
      | (Hangs, w') => (NoResponse, w')
      end
  end.

End AnalysisController.

(* ================================================================== *)
(** * The period report (similarityService.js) *)
(* ================================================================== *)

Module Report.
Import Types Effects Engine.
Local Open Scope js_scope.

Record Finding : Type := mkFinding {
  f_targetTrademark : Trademark;
  f_similarTrademarks : list SimilarityResult;
  highestSimilarity : Q
}.

Record Summary : Type := mkSummary {
  highSimilarity : nat;
  mediumSimilarity : nat;
  lowSimilarity : nat
}.

Record SimilarityReport : Type := mkReport {
  totalAnalyzed : nat;
  similarityFindings : list Finding;
  summary : Summary
}.

(** [similarTrademarks[0]?.overallScore || 0]. *)
Definition headScore (similarTrademarks : list SimilarityResult) : Q :=
  match similarTrademarks with
  | first :: _ =>
      if Qeq_bool (overallScore first) 0 then 0%Q else overallScore first
  | [] => 0%Q
  end.

(** [this.analyzeSimilarity(trademark.namaMerek, { topK: 10, dateRange })]:
    with a name that is [undefined] the call throws, in [normalizeText],
    before it sends a request. *)
Definition analyzeTarget (rt : Runtime) (allTrademarks : list Trademark)
           (trademark : Trademark) : M Analysis :=
  match tm_namaMerek trademark with
  | Some namaMerek =>
      Engine.analyzeSimilarity rt namaMerek
                               (mkOptions (Some 10%Z) None None) allTrademarks
  | None =>
      throw (Error "Cannot read properties of undefined (reading 'toLowerCase')")
  end.

(** One turn of the loop over the targets. *)
Definition reportStep (rt : Runtime) (allTrademarks : list Trademark)
           (trademark : Trademark) (report : SimilarityReport)
  : M SimilarityReport :=
  similarityResult <- analyzeTarget rt allTrademarks trademark ;;
  if 0 <? length (similarTrademarks similarityResult)
  then
    let findings :=
      similarityFindings report
      ++ [mkFinding trademark (similarTrademarks similarityResult)
                    (headScore (similarTrademarks similarityResult))] in
    let highestScore := headScore (similarTrademarks similarityResult) in
    let s := summary report in
    let summary' :=
      if Qle_bool 0.8 highestScore
      then mkSummary (S (highSimilarity s)) (mediumSimilarity s)
                     (lowSimilarity s)
      else if Qle_bool 0.7 highestScore
           then mkSummary (highSimilarity s) (S (mediumSimilarity s))
                          (lowSimilarity s)
           else mkSummary (highSimilarity s) (mediumSimilarity s)
                          (S (lowSimilarity s)) in
    ret (mkReport (totalAnalyzed report) findings summary')
  else ret report.

(** [generateSimilarityReport]; [allTrademarks] is what
    [getAllTrademarks] returns during the report. *)
Definition generateSimilarityReport (rt : Runtime)
           (allTrademarks : list Trademark)
           (targetTrademarks : list Trademark) : M SimilarityReport :=
  tryCatch
    (let targetTrademarks :=
       if length targetTrademarks =? 0
       then slice0 allTrademarks 50
       else targetTrademarks in
     forOf targetTrademarks (reportStep rt allTrademarks)
           (mkReport (length targetTrademarks) [] (mkSummary 0 0 0)))
    (fun error => throw error).

End Report.

Module ServiceSpec.
Import Types Effects Engine AnalysisController Report.

(** What the summary of a report should count. *)
Definition isHigh (f : Finding) : bool := Qle_bool 0.8 (highestSimilarity f).
Definition isMedium (f : Finding) : bool :=
  negb (Qle_bool 0.8 (highestSimilarity f))
  && Qle_bool 0.7 (highestSimilarity f).
Definition isLow (f : Finding) : bool :=
  negb (Qle_bool 0.8 (highestSimilarity f))
  && negb (Qle_bool 0.7 (highestSimilarity f)).

Definition Counted (report : SimilarityReport) : Prop :=
  highSimilarity (summary report)
  = length (filter isHigh (similarityFindings report))
  /\ mediumSimilarity (summary report)
     = length (filter isMedium (similarityFindings report))
  /\ lowSimilarity (summary report)
     = length (filter isLow (similarityFindings report)).

(** A finding is the non-empty answer of the analysis of its target. *)
Definition FindingOk (f : Finding) : Prop :=
  1 <= length (f_similarTrademarks f) <= 10
  /\ (highestSimilarity f == headScore (f_similarTrademarks f))%Q
  /\ Forall (fun r => (overallScore r <= highestSimilarity f)%Q)
            (f_similarTrademarks f).

(** The call comes back: it returns or it throws. *)
Definition Comes {A} (c : M A) : Prop := forall w, fst (c w) <> Hangs.

(** An entry of a batch: the analysis of its trademark, with at most
    [hi] results at or above the overall threshold, or the error. *)
Definition EntryOk (thr : Config.Thresholds) (hi : Z) (e : BatchEntry) : Prop :=
  if be_success e
  then exists a, be_data e = Some a /\ be_error e = None
                 /\ targetTrademark a = be_trademark e
                 /\ (Z.of_nat (length (similarTrademarks a)) <= hi)%Z
                 /\ Forall (fun r => (Config.overallSimilarity thr
                                      <= overallScore r)%Q)
                           (similarTrademarks a)
  else be_data e = None /\ exists error, be_error e = Some error.

(** The provider answers with vectors of the length of the
    replacement vector. *)
Definition ProviderDimensions (rt : Runtime) : Prop :=
  forall n input v, embeddingsCreate rt n input = Some v ->
                    length v = VectorService.fallbackDimensions.

(** Whatever [c] throws satisfies [P]. *)
Definition ThrowsOnly {A} (P : JSError -> Prop) (c : M A) : Prop :=
  forall w e w', c w = (Throws e, w') -> P e.

(** The error is one that the search in the vector database throws. *)
Definition FromStore (store : Service.VectorStore) (e : JSError) : Prop :=
  exists queryEmbedding w w',
    Service.searchSimilarChunks store queryEmbedding w = (Throws e, w').

(** The error of [calculateCosineSimilarity]. *)
Definition lengthMismatch : JSError :=
  Error "Vectors must have the same length".

(** The targets of a report: the ones given, or the first 50 records of
    the corpus. *)
Definition targetsOf (allTrademarks targetTrademarks : list Trademark)
  : list Trademark :=
  if length targetTrademarks =? 0 then slice0 allTrademarks 50
  else targetTrademarks.

(** The analyses of the targets, one after the other, each from the
    state that the one before it left, up to the first that does not
    return. *)
Fixpoint analysesOf (rt : Runtime) (allTrademarks targets : list Trademark)
         (w : World) : list (Trademark * Analysis) :=
  match targets with
  | [] => []
  | trademark :: rest =>
      match analyzeTarget rt allTrademarks trademark w with
      | (Returns similarityResult, w') =>
          (trademark, similarityResult)
          :: analysesOf rt allTrademarks rest w'
      | _ => []
      end
  end.

(** The finding that a report should hold for a target and its
    analysis, when the analysis has results. *)
Definition hasResults (run : Trademark * Analysis) : bool :=
  0 <? length (similarTrademarks (snd run)).

Definition findingOf (run : Trademark * Analysis) : Finding :=
  mkFinding (fst run) (similarTrademarks (snd run))
            (headScore (similarTrademarks (snd run))).

End ServiceSpec.

Module ServiceExamples.
Import Types Effects Engine EngineExamples Service.

(** A database that answers every query with the two records named
    COLA, one that answers with the described record, one that holds
    nothing, one whose queries fail, and one that is not initialised. *)
Definition colaStore : VectorStore :=
  mkVectorStore (Some (fun _ => inr [colaOne; colaTwo])).
Definition describedStore : VectorStore :=
  mkVectorStore (Some (fun _ => inr [colaDescribed])).
Definition emptyStore : VectorStore :=
  mkVectorStore (Some (fun _ => inr [])).
Definition failingStore : VectorStore :=
  mkVectorStore (Some (fun _ => inl (Error "Request failed"))).
Definition closedStore : VectorStore := mkVectorStore None.

End ServiceExamples.

(* ================================================================== *)
(** * The relevance filter of the search (trademarkParserService.js) *)
(* ================================================================== *)

Module SearchFilter.
Import JSString Lexical Types.

(** A result of the search, with the properties the filter reads. *)
Record SearchResult : Type := mkSearchResult {
  sr_id : string;
  sr_score : Q;
  sr_trademarkData : option TrademarkData
}.

(** [s.includes(q)]. *)
Fixpoint includes (s q : list ascii) : bool :=
  Document.startsWith q s
  || match s with
     | [] => false
     | _ :: s' => includes s' q
     end.

(** [a === b] on strings. *)
Definition sameString (a b : list ascii) : bool :=
  String.eqb (ofChars a) (ofChars b).

(** [(value || '').toLowerCase()]. *)
Definition lower (value : string) : list ascii := toLowerCase (chars value).

(** The callback of [results.filter]. *)
Definition isRelevant (queryLower : list ascii) (result : SearchResult)
  : bool :=
  match sr_trademarkData result with
  | None => false
  | Some trademark =>
      let namaMerek := lower (namaReferensiLabelMerek trademark) in
      if includes namaMerek queryLower then true
      else
        let namaPemohon := lower (Types.namaPemohon trademark) in
        if includes namaPemohon queryLower then true
        else
          let uraianBarang := lower (uraianBarangJasa trademark) in
          if includes uraianBarang queryLower then true
          else
            let nomorPermohonan := lower (Types.nomorPermohonan trademark) in
            if includes nomorPermohonan queryLower then true
            else Qltb 0.8 (sr_score result)
  end.

(** The name the comparator reads; every result that has passed the
    filter has its [trademarkData]. *)
Definition nameOf (result : SearchResult) : list ascii :=
  match sr_trademarkData result with
  | Some trademark => lower (namaReferensiLabelMerek trademark)
  | None => []
  end.

(** The comparator of [relevantResults.sort]. *)
Definition compareRelevance (queryLower : list ascii) (a b : SearchResult)
  : Q :=
  let aName := nameOf a in
  let bName := nameOf b in
  let aExact := sameString aName queryLower in
  let bExact := sameString bName queryLower in
  if aExact && negb bExact then (-1)%Q
  else if negb aExact && bExact then 1%Q
  else
    let aContains := includes aName queryLower in
    let bContains := includes bName queryLower in
    if aContains && negb bContains then (-1)%Q
    else if negb aContains && bContains then 1%Q
    else (sr_score b - sr_score a)%Q.

(** [sort(compare)]: the sort of an array is stable; [a] stays before
    [b] unless the comparator is positive. *)
Fixpoint insertBy (compare : SearchResult -> SearchResult -> Q)
         (a : SearchResult) (l : list SearchResult) : list SearchResult :=
  match l with
  | [] => [a]
  | b :: l' =>
      if Qltb 0 (compare a b) then b :: insertBy compare a l'
      else a :: l
  end.

Definition sortBy (compare : SearchResult -> SearchResult -> Q)
           (l : list SearchResult) : list SearchResult :=
  fold_right (insertBy compare) [] l.

Definition filterRelevantResults (results : list SearchResult)
           (query : string) : list SearchResult :=
  let queryLower := trim (toLowerCase (chars query)) in
  if length queryLower <? 2 then results
  else
    let relevantResults := filter (isRelevant queryLower) results in
    sortBy (compareRelevance queryLower) relevantResults.

End SearchFilter.

Module SearchSpec.
Import JSString Lexical Types SearchFilter.

(** 2 for a name that is the query, 1 for a name that contains it, 0
    for the others. *)
Definition rank (queryLower : list ascii) (result : SearchResult) : nat :=
  if sameString (nameOf result) queryLower then 2
  else if includes (nameOf result) queryLower then 1 else 0.

(** [a] may stand before [b]: by rank, then by score. *)
Definition Before (queryLower : list ascii) (a b : SearchResult) : Prop :=
  rank queryLower b < rank queryLower a
  \/ (rank queryLower a = rank queryLower b /\ (sr_score b <= sr_score a)%Q).

Definition queryOf (query : string) : list ascii :=
  trim (toLowerCase (chars query)).

End SearchSpec.

Module RecallSpec.
Import JSString Lexical Types Effects Engine.

(** No other record of the corpus has the key of [t]. *)
Definition OwnKey (allTrademarks : list Trademark) (t : Trademark) : Prop :=
  forall t', In t' allTrademarks -> keyOf t' = keyOf t -> t' = t.

(** The name the text pass reads from [t] is the target, up to
    normalisation, and it is not one single character. *)
Definition SameName (target : string) (t : Trademark) : Prop :=
  normalizeText (textPassName t) = normalizeText target
  /\ length (normalizeText target) <> 1.

End RecallSpec.

Import LexicalSpec SubstringSpec JaroSpec IdentitySpec EffectsSpec FusionSpec.

(* ================================================================== *)
(** * Properties *)
(* ================================================================== *)

Module LevenshteinFacts.

Lemma editRec_cons_cons (c2 c1 : ascii) (rev2 rev1 : list ascii) :
  editRec (c2 :: rev2) (c1 :: rev1) =
  if Ascii.eqb c2 c1 then editRec rev2 rev1
  else Nat.min (Nat.min (editRec rev2 rev1 + 1)
                        (editRec (c2 :: rev2) rev1 + 1))
               (editRec rev2 (c1 :: rev1) + 1).
Proof. reflexivity. Qed.

Lemma editRec_nil_r (rev2 : list ascii) : editRec rev2 [] = length rev2.
Proof. destruct rev2; reflexivity. Qed.

Lemma editRec_sym (a : list ascii) :
  forall b, editRec a b = editRec b a.
Proof.
  induction a as [|x a IHa]; intros b.
  - rewrite editRec_nil_r. reflexivity.
  - induction b as [|y b IHb].
    + reflexivity.
    + rewrite !editRec_cons_cons.
      rewrite (Ascii.eqb_sym y x).
      destruct (Ascii.eqb x y).
      * apply IHa.
      * rewrite IHb, (IHa b), (IHa (y :: b)). lia.
Qed.

Lemma editRec_refl (a : list ascii) : editRec a a = 0.
Proof.
  induction a as [|x a IHa]; [reflexivity|].
  rewrite editRec_cons_cons, Ascii.eqb_refl. exact IHa.
Qed.

(** The inner loop computes the next row of the recurrence. *)
Lemma fillRow_spec (c2 : ascii) (rev2 : list ascii) (suf : list ascii) :
  forall pre : list ascii,
    fillRow c2 suf (editRec rev2 (rev pre))
            (map (fun k => editRec rev2 (rev (pre ++ firstn k suf)))
                 (seq 1 (length suf)))
            (editRec (c2 :: rev2) (rev pre))
    = map (fun k => editRec (c2 :: rev2) (rev (pre ++ firstn k suf)))
          (seq 1 (length suf)).
Proof.
  induction suf as [|c1 suf IH]; intros pre; [reflexivity|].
  cbn [length seq map fillRow].
  assert (E1 : forall r, editRec r (rev (pre ++ firstn 1 (c1 :: suf)))
                         = editRec r (c1 :: rev pre)).
  { intros r. cbn [firstn]. rewrite rev_app_distr. reflexivity. }
  rewrite !E1.
  rewrite <- editRec_cons_cons.
  f_equal.
  specialize (IH (pre ++ [c1])).
  rewrite rev_app_distr in IH. cbn [rev app] in IH.
  rewrite <- (seq_shift (length suf) 1), !map_map.
  assert (E2 : forall r,
             map (fun x => editRec r (rev (pre ++ firstn (S x) (c1 :: suf))))
                 (seq 1 (length suf))
             = map (fun k => editRec r (rev ((pre ++ [c1]) ++ firstn k suf)))
                   (seq 1 (length suf))).
  { intros r. apply map_ext. intros k. cbn [firstn].
    rewrite <- app_assoc. reflexivity. }
  rewrite !E2. exact IH.
Qed.

Lemma rowOf_nil (str1 : list ascii) : rowOf [] str1 = seq 0 (S (length str1)).
Proof.
  unfold rowOf. rewrite <- (map_id (seq 0 (S (length str1)))) at 2.
  apply map_ext_in. intros j Hj. apply in_seq in Hj.
  cbn [editRec]. rewrite length_rev, length_firstn. lia.
Qed.

Lemma nextRow_spec (c2 : ascii) (rev2 str1 : list ascii) :
  nextRow (S (length rev2)) c2 str1 (rowOf rev2 str1)
  = rowOf (c2 :: rev2) str1.
Proof.
  unfold nextRow, rowOf. cbn [seq map hd tl firstn rev].
  rewrite editRec_nil_r. cbn [length]. f_equal.
  pose proof (fillRow_spec c2 rev2 str1 []) as H.
  cbn [app rev] in H. rewrite editRec_nil_r in H.
  exact H.
Qed.

Lemma fillMatrix_spec (str1 : list ascii) (suf2 : list ascii) :
  forall rev2 : list ascii,
    fillMatrix str1 suf2 (S (length rev2)) (rowOf rev2 str1)
    = rowOf (rev suf2 ++ rev2) str1.
Proof.
  induction suf2 as [|c2 suf2 IH]; intros rev2; [reflexivity|].
  cbn [fillMatrix]. rewrite nextRow_spec.
  specialize (IH (c2 :: rev2)). cbn [length] in IH. rewrite IH.
  cbn [rev]. rewrite <- app_assoc. reflexivity.
Qed.

Lemma last_rowOf (rev2 str1 : list ascii) :
  last (rowOf rev2 str1) 0 = editRec rev2 (rev str1).
Proof.
  unfold rowOf. rewrite seq_S, map_app. cbn [map].
  rewrite last_last. cbn [Nat.add]. rewrite firstn_all. reflexivity.
Qed.

(** The matrix holds the recurrence: its last cell is the value of the
    recurrence on the two whole strings. *)
Lemma levenshteinDistance_spec (str1 str2 : list ascii) :
  levenshteinDistance str1 str2 = editRec (rev str2) (rev str1).
Proof.
  unfold levenshteinDistance.
  rewrite <- rowOf_nil.
  pose proof (fillMatrix_spec str1 str2 []) as H. cbn [length] in H.
  rewrite H, app_nil_r. apply last_rowOf.
Qed.

Lemma levenshteinDistance_sym (str1 str2 : list ascii) :
  levenshteinDistance str1 str2 = levenshteinDistance str2 str1.
Proof. rewrite !levenshteinDistance_spec. apply editRec_sym. Qed.

Lemma levenshteinDistance_refl (str : list ascii) :
  levenshteinDistance str str = 0.
Proof. rewrite levenshteinDistance_spec. apply editRec_refl. Qed.

Lemma calculateLevenshteinSimilarity_sym (str1 str2 : list ascii) :
  calculateLevenshteinSimilarity str1 str2
  = calculateLevenshteinSimilarity str2 str1.
Proof.
  unfold calculateLevenshteinSimilarity.
  rewrite levenshteinDistance_sym, Nat.max_comm. reflexivity.
Qed.

End LevenshteinFacts.

Import LevenshteinFacts.

Module SubstringFacts.

Lemma commonRun_sym (a : list ascii) :
  forall b, commonRun a b = commonRun b a.
Proof.
  induction a as [|x a IH]; intros [|y b]; cbn; try reflexivity.
  rewrite (Ascii.eqb_sym y x). destruct (Ascii.eqb x y); [|reflexivity].
  f_equal. apply IH.
Qed.

Lemma commonRun_le_l (a : list ascii) :
  forall b, commonRun a b <= length a.
Proof.
  induction a as [|x a IH]; intros [|y b]; cbn; try lia.
  destruct (Ascii.eqb x y); [|lia]. specialize (IH b). lia.
Qed.

Lemma commonRun_refl (a : list ascii) : commonRun a a = length a.
Proof.
  induction a as [|x a IH]; cbn; [reflexivity|].
  rewrite Ascii.eqb_refl, IH. reflexivity.
Qed.

Section Grid.
Variables str1 str2 : list ascii.

Local Abbreviation run := (run str1 str2).
Local Abbreviation Covers := (Covers str1 str2).
Local Abbreviation Attained := (Attained str1 str2).

Lemma length_lcsInner (i : nat) (longest : list ascii) (j : nat) :
  length (lcsInner str1 str2 i longest j)
  = Nat.max (length longest) (run i j).
Proof.
  unfold lcsInner. fold (run i j).
  destruct (Nat.ltb_spec (length longest) (run i j)) as [H|H]; [|lia].
  unfold substring. rewrite length_firstn.
  pose proof (commonRun_le_l (skipn i str1) (skipn j str2)) as Hle.
  fold (run i j) in Hle. lia.
Qed.

Lemma lcsOuter_inv (i : nat) (js : list nat) :
  forall longest,
    (forall j, In j js -> j < length str2) ->
    i < length str1 ->
    Attained (length longest) ->
    let r := fold_left (lcsInner str1 str2 i) js longest in
    length longest <= length r
    /\ Covers (length r) [i] js
    /\ Attained (length r).
Proof.
  induction js as [|j js IH]; intros longest Hjs Hi Hat; cbn [fold_left].
  - split; [lia|]. split; [|exact Hat]. intros ? ? _ [].
  - assert (Hat' : Attained (length (lcsInner str1 str2 i longest j))).
    { rewrite length_lcsInner.
      destruct (Nat.max_spec (length longest) (run i j)) as [[_ E]|[_ E]];
        rewrite E; [|exact Hat].
      right. exists i, j. repeat split; auto. apply Hjs. now left. }
    destruct (IH (lcsInner str1 str2 i longest j)
                 (fun j' H => Hjs j' (or_intror H)) Hi Hat')
      as (Hle & Hcov & Hat'').
    rewrite length_lcsInner in Hle.
    split; [lia|]. split; [|exact Hat''].
    intros i' j' [<-|[]] [<-|Hin].
    + lia.
    + apply Hcov; [now left|exact Hin].
Qed.

Lemma lcs_inv (js : list nat) (ixs : list nat) :
  forall longest,
    (forall j, In j js -> j < length str2) ->
    (forall i, In i ixs -> i < length str1) ->
    Attained (length longest) ->
    let r := fold_left
               (fun longest i => fold_left (lcsInner str1 str2 i) js longest)
               ixs longest in
    length longest <= length r
    /\ Covers (length r) ixs js
    /\ Attained (length r).
Proof.
  induction ixs as [|i ixs IH]; intros longest Hjs His Hat; cbn [fold_left].
  - split; [lia|]. split; [|exact Hat]. intros ? ? [].
  - destruct (lcsOuter_inv i js longest Hjs (His i (or_introl eq_refl)) Hat)
      as (Hle1 & Hcov1 & Hat1).
    destruct (IH _ Hjs (fun i' H => His i' (or_intror H)) Hat1)
      as (Hle2 & Hcov2 & Hat2).
    split; [lia|]. split; [|exact Hat2].
    intros i' j' [<-|Hin] Hj.
    + specialize (Hcov1 i j' (or_introl eq_refl) Hj). lia.
    + apply Hcov2; assumption.
Qed.

Lemma longestCommonSubstring_inv :
  let n := length (longestCommonSubstring str1 str2) in
  (forall i j, i < length str1 -> j < length str2 -> run i j <= n)
  /\ Attained n.
Proof.
  pose proof (lcs_inv (seq 0 (length str2)) (seq 0 (length str1)) []) as H.
  cbn zeta in H.
  destruct H as (_ & Hcov & Hat).
  - intros j Hj. apply in_seq in Hj. lia.
  - intros i Hi. apply in_seq in Hi. lia.
  - now left.
  - split; [|exact Hat].
    intros i j Hi Hj. apply Hcov; apply in_seq; lia.
Qed.

End Grid.

Lemma run_sym (str1 str2 : list ascii) (i j : nat) :
  run str1 str2 i j = run str2 str1 j i.
Proof. apply commonRun_sym. Qed.

Lemma length_lcs_le (str1 str2 : list ascii) :
  length (longestCommonSubstring str1 str2)
  <= length (longestCommonSubstring str2 str1).
Proof.
  destruct (longestCommonSubstring_inv str1 str2) as (_ & [E|(i & j & Hi & Hj & E)]).
  - rewrite E. lia.
  - destruct (longestCommonSubstring_inv str2 str1) as (Hcov & _).
    rewrite <- E, run_sym. apply Hcov; assumption.
Qed.

(** The two orders of the arguments find common substrings of one
    length (not always the same substring). *)
Lemma length_longestCommonSubstring_sym (str1 str2 : list ascii) :
  length (longestCommonSubstring str1 str2)
  = length (longestCommonSubstring str2 str1).
Proof. apply Nat.le_antisymm; apply length_lcs_le. Qed.

Lemma length_longestCommonSubstring_le (str1 str2 : list ascii) :
  length (longestCommonSubstring str1 str2) <= length str1.
Proof.
  destruct (longestCommonSubstring_inv str1 str2) as (_ & [E|(i & j & Hi & Hj & E)]).
  - rewrite E. lia.
  - rewrite <- E. unfold run.
    pose proof (commonRun_le_l (skipn i str1) (skipn j str2)) as H.
    rewrite length_skipn in H. lia.
Qed.

Lemma length_longestCommonSubstring_refl (str : list ascii) :
  length (longestCommonSubstring str str) = length str.
Proof.
  apply Nat.le_antisymm; [apply length_longestCommonSubstring_le|].
  destruct str as [|c str]; [cbn; lia|].
  destruct (longestCommonSubstring_inv (c :: str) (c :: str)) as (Hcov & _).
  specialize (Hcov 0 0). unfold run in Hcov. cbn [skipn] in Hcov.
  rewrite commonRun_refl in Hcov. apply Hcov; cbn; lia.
Qed.

Lemma calculateSubstringSimilarity_sym (str1 str2 : list ascii) :
  calculateSubstringSimilarity str1 str2
  = calculateSubstringSimilarity str2 str1.
Proof.
  unfold calculateSubstringSimilarity.
  rewrite (length_longestCommonSubstring_sym str1 str2).
  destruct (Nat.ltb_spec (length str2) (length str1)) as [H|H];
    destruct (Nat.ltb_spec (length str1) (length str2)) as [H'|H'];
    try lia; try reflexivity.
  assert (E : length str1 = length str2) by lia.
  rewrite E. reflexivity.
Qed.

End SubstringFacts.

Import SubstringFacts.

Module MatchingFacts.

Lemma Cand_sym (str1 str2 : list ascii) (w : Z) (i j : nat) :
  Cand str1 str2 w i j -> Cand str2 str1 w j i.
Proof. unfold Cand. intuition (auto; lia). Qed.

(** A greedy matching, read from the other string, is greedy. *)
Lemma Greedy_transpose (str1 str2 : list ascii) (w : Z)
      (M : nat -> nat -> Prop) :
  Greedy str1 str2 w M ->
  (forall j, (exists i, M i j) \/ (forall i, ~ M i j)) ->
  Greedy str2 str1 w (fun j i => M i j).
Proof.
  intros G Hdec. constructor.
  - intros j i H. apply Cand_sym. exact (g_cand G H).
  - intros j i i' H H'. exact (g_inj G H H').
  - intros j j' i H H'. exact (g_fun G H H').
  - intros j i Hc Hno. apply Cand_sym in Hc.
    destruct (g_dec G i) as [[j0 H0]|Hi].
    + destruct (lt_eq_lt_dec j0 j) as [[Hlt|Heq]|Hgt].
      * exists j0. auto.
      * subst. destruct (Hno i H0).
      * destruct (g_least G H0 Hgt Hc) as (i' & _ & H'). destruct (Hno i' H').
    + destruct (g_none G Hc Hi) as (i' & _ & H'). destruct (Hno i' H').
  - intros j i i' Hij Hlt Hc. apply Cand_sym in Hc.
    destruct (g_dec G i') as [[j0 H0]|Hi'].
    + destruct (lt_eq_lt_dec j0 j) as [[Hlt0|Heq]|Hgt].
      * exists j0. auto.
      * subst. pose proof (g_inj G H0 Hij). lia.
      * destruct (g_least G H0 Hgt Hc) as (i'' & Hlt'' & H'').
        pose proof (g_inj G H'' Hij). lia.
    + destruct (g_none G Hc Hi') as (i'' & Hlt'' & H'').
      pose proof (g_inj G H'' Hij). lia.
  - exact Hdec.
Qed.

Lemma Greedy_step (str1 str2 : list ascii) (w : Z)
      (M M' : nat -> nat -> Prop) (i : nat) :
  Greedy str1 str2 w M -> Greedy str1 str2 w M' ->
  (forall i' j, i' < i -> (M i' j <-> M' i' j)) ->
  forall j, M i j -> M' i j.
Proof.
  intros G G' IH j H.
  destruct (g_dec G' i) as [[j0 H0]|Hno].
  - destruct (lt_eq_lt_dec j0 j) as [[Hlt|Heq]|Hgt].
    + destruct (g_least G H Hlt (g_cand G' H0)) as (i' & Hi' & H').
      apply (IH i' j0 Hi') in H'.
      pose proof (g_inj G' H' H0). lia.
    + subst. exact H0.
    + destruct (g_least G' H0 Hgt (g_cand G H)) as (i' & Hi' & H').
      apply (IH i' j Hi') in H'.
      pose proof (g_inj G H' H). lia.
  - destruct (g_none G' (g_cand G H) Hno) as (i' & Hi' & H').
    apply (IH i' j Hi') in H'.
    pose proof (g_inj G H' H). lia.
Qed.

(** There is one greedy matching. *)
Lemma Greedy_unique (str1 str2 : list ascii) (w : Z)
      (M M' : nat -> nat -> Prop) :
  Greedy str1 str2 w M -> Greedy str1 str2 w M' ->
  forall i j, M i j <-> M' i j.
Proof.
  intros G G' i. induction i as [i IH] using lt_wf_ind.
  intros j. split.
  - apply (Greedy_step _ _ _ _ _ _ G G'). intros i' j' Hlt. apply IH. exact Hlt.
  - apply (Greedy_step _ _ _ _ _ _ G' G). intros i' j' Hlt. symmetry. apply IH. exact Hlt.
Qed.

(** ** Arrays of flags *)

Lemma length_setNth {A} (i : nat) (v : A) (l : list A) :
  length (setNth i v l) = length l.
Proof.
  revert i. induction l as [|x l IH]; intros [|i]; cbn; auto.
Qed.

Lemma nth_setNth_eq {A} (i : nat) (v d : A) (l : list A) :
  i < length l -> nth i (setNth i v l) d = v.
Proof.
  revert i. induction l as [|x l IH]; intros [|i] H; cbn in *; try lia; auto.
  apply IH. lia.
Qed.

Lemma nth_setNth_neq {A} (i k : nat) (v d : A) (l : list A) :
  k <> i -> nth k (setNth i v l) d = nth k l d.
Proof.
  revert i k. induction l as [|x l IH]; intros [|i] [|k] H; cbn; auto; try lia.
Qed.

Lemma nth_repeat_false (n k : nat) : nth k (repeat false n) false = false.
Proof. revert k. induction n; intros [|k]; cbn; auto. Qed.

Lemma countTrue_setNth (i : nat) (l : list bool) :
  i < length l -> nth i l false = false ->
  countTrue (setNth i true l) = S (countTrue l).
Proof.
  unfold countTrue.
  revert i. induction l as [|x l IH]; intros [|i] Hlt Hf; cbn in *; try lia.
  - subst. reflexivity.
  - destruct x; cbn; rewrite IH; auto; lia.
Qed.

Lemma countTrue_repeat_false (n : nat) : countTrue (repeat false n) = 0.
Proof. unfold countTrue. induction n; cbn; auto. Qed.

Lemma nth_ext_bool (l l' : list bool) :
  length l = length l' ->
  (forall k, k < length l -> nth k l false = nth k l' false) ->
  l = l'.
Proof.
  intros Hlen H. apply (nth_ext l l' false false Hlen H).
Qed.

(** ** The inner scan *)

Lemma findMatch_Some (c : ascii) (str2 : list ascii) (m2 : list bool)
      (n : nat) :
  forall j0 j,
    findMatch c str2 m2 j0 n = Some j ->
    j0 <= j < j0 + n
    /\ nth j m2 false = false
    /\ c = nth j str2 zero
    /\ forall j', j0 <= j' < j -> Blocked c str2 m2 j'.
Proof.
  induction n as [|n IH]; intros j0 j H; cbn in H; [discriminate|].
  destruct (nth j0 m2 false) eqn:Em; cbn in H.
  - destruct (IH _ _ H) as (Hr & Hf & Hc & Hb).
    repeat split; auto; try lia.
    intros j' Hj'. destruct (Nat.eq_dec j' j0) as [->|Hne].
    + left. exact Em.
    + apply Hb. lia.
  - destruct (Ascii.eqb c (nth j0 str2 zero)) eqn:Ec; cbn in H.
    + inversion H; subst j. apply Ascii.eqb_eq in Ec.
      repeat split; auto; try lia.
    + destruct (IH _ _ H) as (Hr & Hf & Hc & Hb).
      repeat split; auto; try lia.
      intros j' Hj'. destruct (Nat.eq_dec j' j0) as [->|Hne].
      * right. apply Ascii.eqb_neq. exact Ec.
      * apply Hb. lia.
Qed.

Lemma findMatch_None (c : ascii) (str2 : list ascii) (m2 : list bool)
      (n : nat) :
  forall j0,
    findMatch c str2 m2 j0 n = None ->
    forall j', j0 <= j' < j0 + n -> Blocked c str2 m2 j'.
Proof.
  induction n as [|n IH]; intros j0 H j' Hj'; [lia|].
  cbn in H.
  destruct (nth j0 m2 false) eqn:Em; cbn in H.
  - destruct (Nat.eq_dec j' j0) as [->|Hne]; [left; exact Em|].
    apply (IH _ H). lia.
  - destruct (Ascii.eqb c (nth j0 str2 zero)) eqn:Ec; cbn in H; [discriminate|].
    destruct (Nat.eq_dec j' j0) as [->|Hne].
    + right. apply Ascii.eqb_neq. exact Ec.
    + apply (IH _ H). lia.
Qed.

End MatchingFacts.

Import MatchingFacts.

Module RunFacts.

Section Run.
Variables (str1 str2 : list ascii) (w : Z).

Local Abbreviation stateAt := (stateAt str1 str2 w).
Local Abbreviation pick := (pick str1 str2 w).

Lemma stateAt_S (n : nat) :
  stateAt (S n) = matchStep str1 str2 w (stateAt n) n.
Proof.
  unfold JaroSpec.stateAt. rewrite seq_S, fold_left_app. reflexivity.
Qed.

Lemma matchStep_pick (n : nat) :
  matchStep str1 str2 w (stateAt n) n =
  match pick n with
  | Some j => mkMatchState (setNth n true (str1Matches (stateAt n)))
                           (setNth j true (str2Matches (stateAt n)))
                           (S (matches (stateAt n)))
  | None => stateAt n
  end.
Proof. reflexivity. Qed.

Lemma length_str1Matches (n : nat) :
  length (str1Matches (stateAt n)) = length str1.
Proof.
  induction n as [|n IH].
  - cbn. apply repeat_length.
  - rewrite stateAt_S, matchStep_pick. destruct (pick n); [|exact IH].
    cbn. rewrite length_setNth. exact IH.
Qed.

Lemma length_str2Matches (n : nat) :
  length (str2Matches (stateAt n)) = length str2.
Proof.
  induction n as [|n IH].
  - cbn. apply repeat_length.
  - rewrite stateAt_S, matchStep_pick. destruct (pick n); [|exact IH].
    cbn. rewrite length_setNth. exact IH.
Qed.

(** What [pick] finds lies in the window and below [length str2]. *)
Lemma pick_Some (i j : nat) :
  pick i = Some j ->
  j < length str2
  /\ (Z.of_nat i - w <= Z.of_nat j <= Z.of_nat i + w)%Z
  /\ nth i str1 zero = nth j str2 zero
  /\ nth j (str2Matches (stateAt i)) false = false
  /\ forall j', j' < j ->
                (Z.of_nat i - w <= Z.of_nat j' <= Z.of_nat i + w)%Z ->
                Blocked (nth i str1 zero) str2 (str2Matches (stateAt i)) j'.
Proof.
  intros H. apply findMatch_Some in H.
  destruct H as (Hr & Hf & Hc & Hb).
  unfold windowStart, windowEnd in *.
  repeat split; auto; try lia.
  intros j' Hlt Hw. apply Hb. lia.
Qed.

Lemma pick_None (i j : nat) :
  pick i = None ->
  j < length str2 ->
  (Z.of_nat i - w <= Z.of_nat j <= Z.of_nat i + w)%Z ->
  Blocked (nth i str1 zero) str2 (str2Matches (stateAt i)) j.
Proof.
  intros H Hj Hw.
  apply (findMatch_None _ _ _ _ _ H).
  unfold windowStart, windowEnd. lia.
Qed.

(** A flag of [str2] is set exactly when an earlier iteration took
    that index. *)
Lemma str2Matches_spec (n j : nat) :
  nth j (str2Matches (stateAt n)) false = true
  <-> exists i, i < n /\ pick i = Some j.
Proof.
  induction n as [|n IH].
  - cbn. rewrite nth_repeat_false. split; [discriminate|].
    intros (i & Hi & _). lia.
  - rewrite stateAt_S, matchStep_pick.
    destruct (pick n) as [j0|] eqn:Ep.
    + cbn [str2Matches].
      destruct (Nat.eq_dec j j0) as [->|Hne].
      * rewrite nth_setNth_eq.
        -- split; [|reflexivity]. intros _. exists n. split; [lia|exact Ep].
        -- rewrite length_str2Matches.
           apply pick_Some in Ep. tauto.
      * rewrite nth_setNth_neq by exact Hne. rewrite IH.
        split; intros (i & Hi & Hp).
        -- exists i. split; [lia|exact Hp].
        -- destruct (Nat.eq_dec i n) as [->|Hni].
           ++ rewrite Ep in Hp. inversion Hp. congruence.
           ++ exists i. split; [lia|exact Hp].
    + rewrite IH. split; intros (i & Hi & Hp).
      * exists i. split; [lia|exact Hp].
      * destruct (Nat.eq_dec i n) as [->|Hni].
        -- rewrite Ep in Hp. discriminate.
        -- exists i. split; [lia|exact Hp].
Qed.

(** A flag of [str1] is set exactly when its iteration found a
    match. *)
Lemma str1Matches_spec (n i : nat) :
  n <= length str1 ->
  (nth i (str1Matches (stateAt n)) false = true
   <-> i < n /\ exists j, pick i = Some j).
Proof.
  induction n as [|n IH]; intros Hn.
  - cbn. rewrite nth_repeat_false. split; [discriminate|].
    intros (Hi & _). lia.
  - rewrite stateAt_S, matchStep_pick.
    destruct (pick n) as [j0|] eqn:Ep.
    + cbn [str1Matches].
      destruct (Nat.eq_dec i n) as [->|Hne].
      * rewrite nth_setNth_eq by (rewrite length_str1Matches; lia).
        split; [|reflexivity]. intros _. split; [lia|]. exists j0. exact Ep.
      * rewrite nth_setNth_neq by exact Hne. rewrite IH by lia.
        split; intros (Hi & Hj); (split; [lia|exact Hj]).
    + rewrite IH by lia. split; intros (Hi & j & Hj).
      * split; [lia|]. exists j. exact Hj.
      * destruct (Nat.eq_dec i n) as [->|Hni].
        -- rewrite Ep in Hj. discriminate.
        -- split; [lia|]. exists j. exact Hj.
Qed.

(** The counter and the two arrays agree. *)
Lemma matches_spec (n : nat) :
  n <= length str1 ->
  matches (stateAt n) = countTrue (str1Matches (stateAt n))
  /\ matches (stateAt n) = countTrue (str2Matches (stateAt n)).
Proof.
  induction n as [|n IH]; intros Hn.
  - unfold JaroSpec.stateAt.
    cbn [seq fold_left str1Matches str2Matches matches].
    rewrite !countTrue_repeat_false. split; reflexivity.
  - destruct IH as (IH1 & IH2); [lia|].
    rewrite stateAt_S, matchStep_pick.
    destruct (pick n) as [j0|] eqn:Ep; [|split; assumption].
    cbn [str1Matches str2Matches matches].
    rewrite !countTrue_setNth.
    + split; congruence.
    + rewrite length_str2Matches. apply pick_Some in Ep. tauto.
    + apply pick_Some in Ep. tauto.
    + rewrite length_str1Matches. lia.
    + destruct (nth n (str1Matches (stateAt n)) false) eqn:E; [|reflexivity].
      apply str1Matches_spec in E; lia.
Qed.

(** The loop builds a greedy matching. *)
Lemma Matching_Greedy : Greedy str1 str2 w (Matching str1 str2 w).
Proof.
  constructor; unfold Matching.
  - intros i j (Hi & Hp). apply pick_Some in Hp. unfold Cand. tauto.
  - intros i j j' (_ & H) (_ & H'). congruence.
  - intros i i' j (Hi & H) (Hi' & H').
    destruct (lt_eq_lt_dec i i') as [[Hlt|Heq]|Hgt]; [|exact Heq|].
    + apply pick_Some in H'. destruct H' as (_ & _ & _ & Hf & _).
      assert (Ht : nth j (str2Matches (stateAt i')) false = true).
      { apply str2Matches_spec. exists i. auto. }
      congruence.
    + apply pick_Some in H. destruct H as (_ & _ & _ & Hf & _).
      assert (Ht : nth j (str2Matches (stateAt i)) false = true).
      { apply str2Matches_spec. exists i'. auto. }
      congruence.
  - intros i j (Hi & Hj & Hc & Hw) Hno.
    destruct (pick i) as [j0|] eqn:Ep.
    + destruct (Hno j0). auto.
    + destruct (pick_None _ _ Ep Hj Hw) as [Ht|Hne]; [|congruence].
      apply str2Matches_spec in Ht. destruct Ht as (i' & Hi' & Hp).
      exists i'. split; [exact Hi'|]. split; [lia|exact Hp].
  - intros i j j' (Hi & Hp) Hlt (_ & Hj' & Hc & Hw).
    apply pick_Some in Hp. destruct Hp as (_ & _ & _ & _ & Hb).
    destruct (Hb j' Hlt Hw) as [Ht|Hne]; [|congruence].
    apply str2Matches_spec in Ht. destruct Ht as (i' & Hi' & Hp).
    exists i'. split; [exact Hi'|]. split; [lia|exact Hp].
  - intros i. destruct (lt_dec i (length str1)) as [Hi|Hi].
    + destruct (pick i) as [j|] eqn:Ep.
      * left. exists j. auto.
      * right. intros j (_ & H). congruence.
    + right. intros j (H & _). lia.
Qed.

Lemma Matching_dec_r (j : nat) :
  (exists i, Matching str1 str2 w i j)
  \/ (forall i, ~ Matching str1 str2 w i j).
Proof.
  destruct (nth j (str2Matches (stateAt (length str1))) false) eqn:E.
  - left. apply str2Matches_spec in E. destruct E as (i & Hi & Hp).
    exists i. split; assumption.
  - right. intros i (Hi & Hp).
    assert (Ht : nth j (str2Matches (stateAt (length str1))) false = true).
    { apply str2Matches_spec. exists i. auto. }
    congruence.
Qed.

Lemma findMatches_stateAt :
  findMatches str1 str2
  = JaroSpec.stateAt str1 str2 (matchWindow (length str1) (length str2))
                     (length str1).
Proof. reflexivity. Qed.

End Run.

End RunFacts.

Import RunFacts.

Module JaroFacts.

Lemma bool_eq_of_iff (a b : bool) : (a = true <-> b = true) -> a = b.
Proof. destruct a, b; intuition congruence. Qed.

(** The scan of [str2] against [str1] builds the same matching, read
    from the other side. *)
Lemma Matching_swap (str1 str2 : list ascii) (w : Z) (i j : nat) :
  Matching str1 str2 w i j <-> Matching str2 str1 w j i.
Proof.
  apply (Greedy_unique str2 str1 w
           (fun j i => Matching str1 str2 w i j) (Matching str2 str1 w)).
  - apply Greedy_transpose.
    + apply Matching_Greedy.
    + apply Matching_dec_r.
  - apply Matching_Greedy.
Qed.

Lemma str1Matches_final (str1 str2 : list ascii) (w : Z) (i : nat) :
  nth i (str1Matches (stateAt str1 str2 w (length str1))) false = true
  <-> exists j, Matching str1 str2 w i j.
Proof.
  rewrite str1Matches_spec by lia. unfold Matching.
  split.
  - intros (Hi & j & Hp). exists j. auto.
  - intros (j & Hi & Hp). split; [exact Hi|]. exists j. exact Hp.
Qed.

Lemma str2Matches_final (str1 str2 : list ascii) (w : Z) (j : nat) :
  nth j (str2Matches (stateAt str1 str2 w (length str1))) false = true
  <-> exists i, Matching str1 str2 w i j.
Proof. rewrite str2Matches_spec. reflexivity. Qed.

Lemma flags_swap (str1 str2 : list ascii) (w : Z) :
  str1Matches (stateAt str1 str2 w (length str1))
  = str2Matches (stateAt str2 str1 w (length str2)).
Proof.
  apply nth_ext_bool.
  - rewrite length_str1Matches, length_str2Matches. reflexivity.
  - intros k _. apply bool_eq_of_iff.
    rewrite str1Matches_final, str2Matches_final.
    split; intros (j & H); exists j; apply Matching_swap; exact H.
Qed.

(** ** Transpositions *)

Lemma skipUnmatched_spec (l : list (ascii * bool)) :
  (skipUnmatched l = [] /\ matched l = [])
  \/ exists c l', skipUnmatched l = (c, true) :: l'
                  /\ matched l = c :: matched l'.
Proof.
  induction l as [|[c [|]] l IH].
  - left. split; reflexivity.
  - right. exists c, l. split; reflexivity.
  - exact IH.
Qed.

Lemma countTranspositions_spec (l1 : list (ascii * bool)) :
  forall l2,
    length (matched l1) <= length (matched l2) ->
    countTranspositions l1 l2 = Some (mismatches (matched l1) (matched l2)).
Proof.
  induction l1 as [|[c1 [|]] l1 IH]; intros l2 Hlen.
  - reflexivity.
  - cbn [countTranspositions].
    destruct (skipUnmatched_spec l2) as [(E & Em)|(c2 & l2' & E & Em)].
    + rewrite Em in Hlen. cbn in Hlen. lia.
    + rewrite E, Em.
      change (matched ((c1, true) :: l1)) with (c1 :: matched l1) in *.
      rewrite Em in Hlen. cbn [length] in Hlen.
      rewrite IH by lia. cbn [mismatches].
      destruct (Ascii.eqb c1 c2); reflexivity.
  - cbn [countTranspositions]. apply IH. exact Hlen.
Qed.

Lemma mismatches_sym (a : list ascii) :
  forall b, mismatches a b = mismatches b a.
Proof.
  induction a as [|x a IH]; intros [|y b]; cbn; try reflexivity.
  rewrite (Ascii.eqb_sym y x), IH. reflexivity.
Qed.

Lemma mismatches_refl (a : list ascii) : mismatches a a = 0.
Proof.
  induction a as [|x a IH]; cbn; [reflexivity|].
  rewrite Ascii.eqb_refl. exact IH.
Qed.

Lemma length_matched (str : list ascii) :
  forall flags : list bool,
    length str = length flags ->
    length (matched (combine str flags)) = countTrue flags.
Proof.
  unfold matched, countTrue.
  induction str as [|c str IH]; intros [|[|] flags] H; cbn in *;
    try discriminate; try reflexivity.
  - rewrite IH by lia. reflexivity.
  - apply IH. lia.
Qed.

(** ** The value *)

Lemma Qplus_comm_eq (x y : Q) : (x + y)%Q = (y + x)%Q.
Proof.
  unfold Qplus. f_equal.
  - apply Z.add_comm.
  - apply Pos.mul_comm.
Qed.

Lemma matchWindow_comm (len1 len2 : nat) :
  matchWindow len1 len2 = matchWindow len2 len1.
Proof. unfold matchWindow. rewrite Nat.max_comm. reflexivity. Qed.

Lemma matches_swap (str1 str2 : list ascii) (w : Z) :
  matches (stateAt str1 str2 w (length str1))
  = matches (stateAt str2 str1 w (length str2)).
Proof.
  destruct (matches_spec str1 str2 w (length str1)) as (E1 & _); [lia|].
  destruct (matches_spec str2 str1 w (length str2)) as (_ & E2); [lia|].
  rewrite E1, E2, flags_swap. reflexivity.
Qed.

Lemma transpositions_final (str1 str2 : list ascii) (w : Z) :
  let st := stateAt str1 str2 w (length str1) in
  countTranspositions (combine str1 (str1Matches st))
                      (combine str2 (str2Matches st))
  = Some (mismatches (matched (combine str1 (str1Matches st)))
                     (matched (combine str2 (str2Matches st)))).
Proof.
  intros st. apply countTranspositions_spec.
  rewrite !length_matched.
  - destruct (matches_spec str1 str2 w (length str1)) as (E1 & E2); [lia|].
    fold st in E1, E2. lia.
  - unfold st. rewrite length_str2Matches. reflexivity.
  - unfold st. rewrite length_str1Matches. reflexivity.
Qed.

(** The loop "Find transpositions" comes to its end: the call returns. *)
Lemma jaroSimilarity_returns (str1 str2 : list ascii) :
  exists q, jaroSimilarity str1 str2 = Some q.
Proof.
  unfold jaroSimilarity.
  destruct ((length str1 =? 0) && (length str2 =? 0)); [eauto|].
  destruct ((length str1 =? 0) || (length str2 =? 0)); [eauto|].
  destruct (matches (findMatches str1 str2) =? 0); [eauto|].
  rewrite findMatches_stateAt, transpositions_final. eauto.
Qed.

Lemma jaroSimilarity_sym (str1 str2 : list ascii) :
  jaroSimilarity str1 str2 = jaroSimilarity str2 str1.
Proof.
  unfold jaroSimilarity.
  rewrite (andb_comm (length str2 =? 0)), (orb_comm (length str2 =? 0)).
  destruct ((length str1 =? 0) && (length str2 =? 0)); [reflexivity|].
  destruct ((length str1 =? 0) || (length str2 =? 0)); [reflexivity|].
  rewrite !findMatches_stateAt.
  rewrite (matchWindow_comm (length str2) (length str1)).
  set (w := matchWindow (length str1) (length str2)).
  rewrite (matches_swap str2 str1 w).
  destruct (matches (stateAt str1 str2 w (length str1)) =? 0); [reflexivity|].
  rewrite !transpositions_final.
  rewrite <- (flags_swap str1 str2 w), (flags_swap str2 str1 w).
  rewrite (mismatches_sym (matched (combine str2 _))).
  f_equal. f_equal. f_equal. apply Qplus_comm_eq.
Qed.

Lemma commonPrefix_sym (bound : nat) (str1 : list ascii) :
  forall str2, commonPrefix bound str1 str2 = commonPrefix bound str2 str1.
Proof.
  revert str1. induction bound as [|b IH]; intros [|c1 s1] [|c2 s2];
    cbn; try reflexivity.
  rewrite (Ascii.eqb_sym c2 c1), IH. reflexivity.
Qed.

Lemma calculateJaroWinklerSimilarity_sym (str1 str2 : list ascii) :
  calculateJaroWinklerSimilarity str1 str2
  = calculateJaroWinklerSimilarity str2 str1.
Proof.
  unfold calculateJaroWinklerSimilarity.
  rewrite jaroSimilarity_sym, commonPrefix_sym. reflexivity.
Qed.

End JaroFacts.

Import JaroFacts.

Module IdentityFacts.

Lemma Diagonal_Greedy (str : list ascii) (w : Z) :
  (0 <= w)%Z -> Greedy str str w (Diagonal str).
Proof.
  intros Hw. constructor; unfold Diagonal.
  - intros i j (Hi & <-). unfold Cand. repeat split; auto; lia.
  - intros i j j' (_ & <-) (_ & <-). reflexivity.
  - intros i i' j (_ & ->) (_ & ->). reflexivity.
  - intros i j (Hi & _) Hno. destruct (Hno i). auto.
  - intros i j j' (Hi & <-) Hlt _. exists j'. split; [exact Hlt|].
    split; [lia|reflexivity].
  - intros i. destruct (lt_dec i (length str)) as [Hi|Hi].
    + left. exists i. auto.
    + right. intros j (H & _). lia.
Qed.

Lemma Matching_self (str : list ascii) (w : Z) (i j : nat) :
  (0 <= w)%Z -> (Matching str str w i j <-> Diagonal str i j).
Proof.
  intros Hw. apply Greedy_unique with (str1 := str) (str2 := str) (w := w).
  - apply Matching_Greedy.
  - apply Diagonal_Greedy. exact Hw.
Qed.

Lemma nth_repeat_true (n k : nat) :
  k < n -> nth k (repeat true n) false = true.
Proof. revert k. induction n; intros [|k] H; cbn; auto; try lia. apply IHn. lia. Qed.

Lemma str1Matches_self (str : list ascii) (w : Z) :
  (0 <= w)%Z ->
  str1Matches (stateAt str str w (length str)) = repeat true (length str).
Proof.
  intros Hw. apply nth_ext_bool.
  - rewrite length_str1Matches, repeat_length. reflexivity.
  - intros k Hk. rewrite length_str1Matches in Hk.
    rewrite nth_repeat_true by exact Hk.
    apply str1Matches_final. exists k. apply Matching_self; [exact Hw|].
    split; [exact Hk|reflexivity].
Qed.

Lemma str2Matches_self (str : list ascii) (w : Z) :
  (0 <= w)%Z ->
  str2Matches (stateAt str str w (length str)) = repeat true (length str).
Proof.
  intros Hw. rewrite <- flags_swap. apply str1Matches_self. exact Hw.
Qed.

Lemma matched_all (str : list ascii) :
  matched (combine str (repeat true (length str))) = str.
Proof.
  unfold matched. induction str as [|c str IH]; cbn; [reflexivity|].
  f_equal. exact IH.
Qed.

Lemma countTrue_repeat_true (n : nat) : countTrue (repeat true n) = n.
Proof. unfold countTrue. induction n; cbn; auto. Qed.

Lemma matchWindow_nonneg (n : nat) : 2 <= n -> (0 <= matchWindow n n)%Z.
Proof.
  intros H. unfold matchWindow. rewrite Nat.max_id.
  assert (1 <= Z.of_nat n / 2)%Z; [|lia].
  apply Z.div_le_lower_bound; lia.
Qed.

Lemma ofNat_pos (n : nat) : 0 < n -> ~ (ofNat n == 0)%Q.
Proof.
  intros H E. unfold ofNat, Qeq in E. cbn in E. lia.
Qed.

(** The Jaro similarity of a string of two or more characters with
    itself. *)
Lemma jaroSimilarity_self (str : list ascii) :
  2 <= length str ->
  exists q, jaroSimilarity str str = Some q /\ (q == 1)%Q.
Proof.
  intros Hn. unfold jaroSimilarity.
  destruct (Nat.eqb_spec (length str) 0) as [E|_]; [lia|].
  cbn [andb orb].
  rewrite findMatches_stateAt.
  pose proof (matchWindow_nonneg _ Hn) as Hw.
  set (w := matchWindow (length str) (length str)) in *.
  destruct (matches_spec str str w (length str)) as (Em & _); [lia|].
  rewrite transpositions_final.
  rewrite (str1Matches_self str w Hw) in *.
  rewrite (str2Matches_self str w Hw).
  rewrite countTrue_repeat_true in Em. rewrite Em.
  destruct (Nat.eqb_spec (length str) 0) as [E|_]; [lia|].
  rewrite matched_all, mismatches_refl.
  eexists. split; [reflexivity|].
  assert (Hp : ~ (ofNat (length str) == 0)%Q) by (apply ofNat_pos; lia).
  unfold ofNat at 6. cbn [Z.of_nat inject_Z].
  field. exact Hp.
Qed.

(** The case the window leaves out: one character. *)
Lemma jaroSimilarity_single (c d : ascii) :
  jaroSimilarity [c] [d] = Some 0%Q.
Proof. reflexivity. Qed.

Lemma calculateLevenshteinSimilarity_self (str : list ascii) :
  (calculateLevenshteinSimilarity str str == 1)%Q.
Proof.
  unfold calculateLevenshteinSimilarity.
  rewrite levenshteinDistance_refl, Nat.max_id.
  destruct (Nat.eqb_spec (length str) 0) as [E|E]; [reflexivity|].
  unfold ofNat at 1. cbn [Z.of_nat inject_Z].
  field. apply ofNat_pos. lia.
Qed.

Lemma calculateSubstringSimilarity_self (str : list ascii) :
  (calculateSubstringSimilarity str str == 1)%Q.
Proof.
  unfold calculateSubstringSimilarity.
  rewrite Nat.ltb_irrefl, length_longestCommonSubstring_refl.
  destruct (Nat.eqb_spec (length str) 0) as [E|E]; [reflexivity|].
  field. apply ofNat_pos. lia.
Qed.

Lemma Qltb_false_of_eq_1 (q : Q) : (q == 1)%Q -> Qltb q 0.7 = false.
Proof.
  intros E. unfold Qltb.
  assert (H : Qle_bool 0.7 q = true); [|rewrite H; reflexivity].
  apply Qle_bool_iff. rewrite E. discriminate.
Qed.

Lemma calculateJaroWinklerSimilarity_self (str : list ascii) :
  length str <> 1 ->
  exists q, calculateJaroWinklerSimilarity str str = Some q /\ (q == 1)%Q.
Proof.
  intros Hn. unfold calculateJaroWinklerSimilarity.
  assert (H : exists q, jaroSimilarity str str = Some q /\ (q == 1)%Q).
  { destruct str as [|c [|d str]].
    - exists 1%Q. split; reflexivity.
    - cbn in Hn. lia.
    - apply jaroSimilarity_self. cbn. lia. }
  destruct H as (q & E & Hq). rewrite E, (Qltb_false_of_eq_1 q Hq).
  eexists. split; [reflexivity|]. rewrite Hq. ring.
Qed.

(** Identity of the text score, for every normal form but those of one
    character. *)
Lemma textSimilarityOf_self (str : list ascii) :
  length str <> 1 ->
  exists sim, textSimilarityOf str str = Some sim /\ (overall sim == 1)%Q.
Proof.
  intros Hn. unfold textSimilarityOf.
  destruct (calculateJaroWinklerSimilarity_self str Hn) as (q & E & Hq).
  rewrite E. eexists. split; [reflexivity|].
  cbn [overall].
  rewrite calculateLevenshteinSimilarity_self,
          calculateSubstringSimilarity_self, Hq.
  reflexivity.
Qed.

Lemma textSimilarityOf_single (c : ascii) :
  exists sim, textSimilarityOf [c] [c] = Some sim
              /\ (overall sim == 0.6)%Q
              /\ (jaroWinkler sim == 0)%Q.
Proof.
  unfold textSimilarityOf, calculateJaroWinklerSimilarity.
  rewrite jaroSimilarity_single.
  change (Qltb 0 0.7) with true. cbv iota.
  eexists. split; [reflexivity|]. cbn [overall jaroWinkler].
  split; [|reflexivity].
  rewrite calculateLevenshteinSimilarity_self,
          calculateSubstringSimilarity_self.
  reflexivity.
Qed.

End IdentityFacts.

Import IdentityFacts.

Module ControllerFacts.
Import Effects Controller.

Lemma validate_Some (body : option ThresholdsPatch) (patch : ThresholdsPatch) :
  validate body = Some patch -> body = Some patch.
Proof.
  unfold validate. destruct body as [p|]; [|discriminate].
  destruct (_ && _); [|discriminate]. intros H. inversion H. reflexivity.
Qed.

Lemma updateThresholds_accepted (body : option ThresholdsPatch)
      (patch : ThresholdsPatch) (w : World) :
  validate body = Some patch ->
  thresholds (snd (updateThresholds body w)) = assign (thresholds w) patch.
Proof. intros H. unfold updateThresholds. rewrite H. reflexivity. Qed.

Lemma updateThresholds_rejected (body : option ThresholdsPatch) (w : World) :
  validate body = None -> updateThresholds body w = (Status400, w).
Proof. intros H. unfold updateThresholds. rewrite H. reflexivity. Qed.

(** C9. The threshold update is a partial merge: when the request
    passes the validation of the controller, each of the four
    thresholds that the request provides takes the value provided and
    each one it does not provide keeps its value; the rest of the
    process state is not touched. *)
Theorem updateThresholds_partial_merge
        (body : option ThresholdsPatch) (patch : ThresholdsPatch) (w : World) :
  validate body = Some patch ->
  let before := thresholds w in
  let after := thresholds (snd (updateThresholds body w)) in
  body = Some patch
  /\ fst (updateThresholds body w) = Status200 after
  /\ (forall v, p_textSimilarity patch = Some v ->
                Config.textSimilarity after = v)
  /\ (p_textSimilarity patch = None ->
      Config.textSimilarity after = Config.textSimilarity before)
  /\ (forall v, p_phoneticSimilarity patch = Some v ->
                Config.phoneticSimilarity after = v)
  /\ (p_phoneticSimilarity patch = None ->
      Config.phoneticSimilarity after = Config.phoneticSimilarity before)
  /\ (forall v, p_semanticSimilarity patch = Some v ->
                Config.semanticSimilarity after = v)
  /\ (p_semanticSimilarity patch = None ->
      Config.semanticSimilarity after = Config.semanticSimilarity before)
  /\ (forall v, p_overallSimilarity patch = Some v ->
                Config.overallSimilarity after = v)
  /\ (p_overallSimilarity patch = None ->
      Config.overallSimilarity after = Config.overallSimilarity before)
  /\ embeddingCalls (snd (updateThresholds body w)) = embeddingCalls w
  /\ randomDraws (snd (updateThresholds body w)) = randomDraws w.
Proof.
  intros Hv before after.
  split; [exact (validate_Some _ _ Hv)|].
  unfold after, before, updateThresholds. rewrite Hv.
  cbn [fst snd thresholds embeddingCalls randomDraws].
  unfold assign.
  cbn [Config.textSimilarity Config.phoneticSimilarity
       Config.semanticSimilarity Config.overallSimilarity].
  repeat split; try (intros v E; rewrite E; reflexivity);
    try (intros E; rewrite E; reflexivity).
Qed.

(** A request that sets the overall threshold only. *)
Lemma updateThresholds_partial_merge_witness :
  validate (Some (mkThresholdsPatch None None None (Some 0.5%Q)))
  = Some (mkThresholdsPatch None None None (Some 0.5%Q))
  /\ Config.overallSimilarity
       (thresholds
          (snd (updateThresholds
                  (Some (mkThresholdsPatch None None None (Some 0.5%Q)))
                  (mkWorld Config.initial 0 0)))) = 0.5%Q
  /\ Config.textSimilarity
       (thresholds
          (snd (updateThresholds
                  (Some (mkThresholdsPatch None None None (Some 0.5%Q)))
                  (mkWorld Config.initial 0 0)))) = 0.7%Q.
Proof.
  split; [reflexivity|].
  pose proof (updateThresholds_partial_merge
                (Some (mkThresholdsPatch None None None (Some 0.5%Q)))
                (mkThresholdsPatch None None None (Some 0.5%Q))
                (mkWorld Config.initial 0 0) eq_refl)
    as H.
  cbv zeta in H.
  destruct H as (_ & _ & _ & Ht & _ & _ & _ & _ & Ho & _).
  split.
  - apply Ho. reflexivity.
  - rewrite Ht; reflexivity.
Defined.

End ControllerFacts.

Module DocumentFacts.
Import Document.
Local Open Scope Z_scope.

Lemma lastIndexOf_le (c : ascii) (text : list ascii) (k : nat) :
  lastIndexOf c text k <= Z.of_nat k.
Proof.
  induction k as [|k IH]; cbn [lastIndexOf];
    destruct (nth_error text _) as [d|]; try destruct (Ascii.eqb d c); lia.
Qed.

(** The window that starts at [start] ends more than half a chunk
    further on. *)
Lemma windowEnd_lower (text : list ascii) (start : Z) :
  start + 1000 < windowEnd text start.
Proof.
  unfold windowEnd, chunkSize.
  destruct (start + 2000 <? Z.of_nat (length text)); [|lia].
  destruct (Z.ltb_spec (2 * start + 2000)
              (2 * Z.max (Z.max (lastIndexOf "." text (Z.to_nat (start + 2000)))
                                (lastIndexOf "!" text (Z.to_nat (start + 2000))))
                         (lastIndexOf "?" text (Z.to_nat (start + 2000)))));
    [lia|].
  destruct (Z.ltb_spec (2 * start + 2000)
              (2 * lastIndexOf " " text (Z.to_nat (start + 2000)))); lia.
Qed.

Lemma nextStart_lower (text : list ascii) (start : Z) :
  0 <= start -> start + (chunkSize / 2 - chunkOverlap) < nextStart text start.
Proof.
  intros H. unfold nextStart.
  pose proof (windowEnd_lower text start) as Hw.
  change (chunkSize / 2 - chunkOverlap) with 600.
  unfold chunkOverlap.
  destruct (Z.ltb_spec (windowEnd text start - 400) 0); lia.
Qed.

(** With as much fuel as there are characters from [start] on, the loop
    comes to its end. *)
Lemma chunkLoop_returns (fuel : nat) :
  forall (text : list ascii) (start : Z) (chunks : list (list ascii)),
    0 <= start ->
    Z.of_nat (length text) - start <= Z.of_nat fuel ->
    exists result, chunkLoop fuel text start chunks = Some result.
Proof.
  induction fuel as [|fuel IH]; intros text start chunks H0 Hf;
    cbn [chunkLoop].
  - destruct (Z.ltb_spec start (Z.of_nat (length text))); [lia|eauto].
  - destruct (Z.ltb_spec start (Z.of_nat (length text))); [|eauto].
    apply IH.
    + pose proof (nextStart_lower text start H0).
      change (chunkSize / 2 - chunkOverlap) with 600 in *. lia.
    + pose proof (nextStart_lower text start H0).
      change (chunkSize / 2 - chunkOverlap) with 600 in *. lia.
Qed.

(** More fuel does not change the result. *)
Lemma chunkLoop_more_fuel (fuel : nat) :
  forall (text : list ascii) (start : Z) (chunks result : list (list ascii))
         (fuel' : nat),
    chunkLoop fuel text start chunks = Some result ->
    (fuel <= fuel')%nat ->
    chunkLoop fuel' text start chunks = Some result.
Proof.
  induction fuel as [|fuel IH]; intros text start chunks result fuel' H Hle.
  - cbn [chunkLoop] in H.
    destruct fuel'; cbn [chunkLoop];
      destruct (start <? Z.of_nat (length text)); try discriminate; exact H.
  - destruct fuel' as [|fuel']; [lia|].
    cbn [chunkLoop] in *.
    destruct (start <? Z.of_nat (length text)); [|exact H].
    apply (IH _ _ _ _ _ H). lia.
Qed.

(** C10. The generic chunker terminates on every text.  Each iteration
    moves the start of the window forward, by more than half the chunk
    size minus the overlap (600 characters for the chunk size 2000 and
    the overlap 400); so the loop ends within [length text] iterations
    with a list of chunks that no larger bound changes, and
    [splitIntoChunks] returns, the empty list for the empty text. *)
Theorem splitIntoChunks_terminates (text : list ascii) :
  0 < chunkSize / 2 - chunkOverlap
  /\ (forall start, 0 <= start ->
                    start + (chunkSize / 2 - chunkOverlap)
                    < nextStart text start)
  /\ (exists chunks,
         forall fuel, (length text <= fuel)%nat ->
                      chunkLoop fuel text 0 [] = Some chunks)
  /\ (exists chunks,
         forall fuel, (length text <= fuel)%nat ->
                      splitIntoChunks fuel text = Some chunks)
  /\ (forall fuel, splitIntoChunks fuel [] = Some []).
Proof.
  split; [reflexivity|].
  split; [intros start H; apply nextStart_lower; exact H|].
  assert (Hloop : exists chunks,
             forall fuel, (length text <= fuel)%nat ->
                          chunkLoop fuel text 0 [] = Some chunks).
  { destruct (chunkLoop_returns (length text) text 0 []) as (r & Hr); [lia|lia|].
    exists r. intros fuel Hf. apply (chunkLoop_more_fuel _ _ _ _ _ _ Hr Hf). }
  split; [exact Hloop|].
  split; [|intros fuel; reflexivity].
  unfold splitIntoChunks.
  destruct (length text =? 0)%nat; [eauto|].
  destruct (0 <? length (createSemanticChunks text))%nat; [eauto|].
  exact Hloop.
Qed.

(** A text of twelve characters: one window, one chunk. *)
Lemma splitIntoChunks_terminates_witness :
  (0 <= 0)%Z
  /\ (0 + (chunkSize / 2 - chunkOverlap)
      < nextStart (chars "Hello world.") 0)%Z
  /\ splitIntoChunks 12 (chars "Hello world.")
     = Some [chars "Hello world."].
Proof.
  split; [lia|]. split.
  - apply (proj1 (proj2 (splitIntoChunks_terminates
                           (chars "Hello world.")))).
    lia.
  - reflexivity.
Defined.

End DocumentFacts.

Import ControllerFacts DocumentFacts.

Module ParserFacts.
Import Types Parser ParserExamples.

(** No instance has a property [applicationNumber] or
    [extractionMethod]: the constructor stores eighteen properties,
    under other names. *)
Lemma prop_applicationNumber (t : TrademarkData) :
  prop t "applicationNumber" = None.
Proof. reflexivity. Qed.

Lemma prop_extractionMethod (t : TrademarkData) :
  prop t "extractionMethod" = None.
Proof. reflexivity. Qed.

Lemma prop_nomorPermohonan (t : TrademarkData) :
  prop t "nomorPermohonan" = Some (nomorPermohonan t).
Proof. reflexivity. Qed.

Lemma dedupLoop_seen_undefined (trademarks : list TrademarkData)
      (seen : list (option string)) :
  In None seen -> dedupLoop seen trademarks = [].
Proof.
  intros Hin. induction trademarks as [|t ts IH]; [reflexivity|].
  cbn [dedupLoop]. unfold dedupKey. rewrite prop_applicationNumber.
  assert (E : setHas seen None = true).
  { unfold setHas. apply existsb_exists. exists None. split; [exact Hin|reflexivity]. }
  rewrite E. exact IH.
Qed.

(** Every key is [undefined]: the first record is the one that stays. *)
Lemma deduplicateTrademarks_keeps_head (t : TrademarkData)
      (ts : list TrademarkData) :
  deduplicateTrademarks (t :: ts) = [t].
Proof.
  unfold deduplicateTrademarks. cbn [dedupLoop]. unfold dedupKey.
  rewrite prop_applicationNumber. cbn [setHas existsb].
  f_equal. apply dedupLoop_seen_undefined. now left.
Qed.

(** C1. On two valid records with the application numbers
    IDM000111222 and IDM000333444, [deduplicateTrademarks] keeps the
    first and drops the second: the key it reads,
    [trademark.applicationNumber], is [undefined] on both, while the
    number is stored under [nomorPermohonan]. *)
Theorem deduplicateTrademarks_drops_distinct_number :
  isValidTrademark firstRecord = true
  /\ isValidTrademark secondRecord = true
  /\ nomorPermohonan firstRecord <> nomorPermohonan secondRecord
  /\ dedupKey firstRecord = None
  /\ dedupKey secondRecord = None
  /\ deduplicateTrademarks [firstRecord; secondRecord] = [firstRecord].
Proof.
  repeat split; try reflexivity.
  cbn. discriminate.
Qed.

Lemma extractTrademarkData_no_tag (re : RegExpEngine) (text : list ascii)
      (t : TrademarkData) :
  In t (extractTrademarkData re text) -> prop t "extractionMethod" = None.
Proof. intros _. apply prop_extractionMethod. Qed.

Lemma parseTrademarkDataEnhanced_fallback (re : RegExpEngine)
      (pageChunks : list PageChunk) (fullText : list ascii) :
  pageBasedTrademarks re pageChunks = [] ->
  parseTrademarkDataEnhanced re pageChunks fullText
  = extractTrademarkData re fullText.
Proof.
  intros H. unfold parseTrademarkDataEnhanced. rewrite H. reflexivity.
Qed.

(** C8, as the code has it.  When the page-based pass yields no valid
    record, the result of [parseTrademarkDataEnhanced] is the result of
    one run of the traditional pass [extractTrademarkData] over the full
    text, and no record of it carries a property [extractionMethod]
    (nor does a record of the page-based pass: the constructor drops
    the key). *)
Theorem fallback_pass_once_untagged (re : RegExpEngine)
        (pageChunks : list PageChunk) (fullText : list ascii) :
  pageBasedTrademarks re pageChunks = [] ->
  parseTrademarkDataEnhanced re pageChunks fullText
  = extractTrademarkData re fullText
  /\ (forall t, In t (parseTrademarkDataEnhanced re pageChunks fullText) ->
                isValidTrademark t = true
                /\ prop t "extractionMethod" = None).
Proof.
  intros H. rewrite (parseTrademarkDataEnhanced_fallback re _ _ H).
  split; [reflexivity|].
  intros t Hin. split; [|apply prop_extractionMethod].
  unfold extractTrademarkData in Hin. apply in_flat_map in Hin.
  destruct Hin as (section & _ & Hin).
  destruct (parseSection re section) as [t'|]; [|destruct Hin].
  destruct (isValidTrademark t') eqn:E; [|destruct Hin].
  destruct Hin as [<-|[]]. exact E.
Qed.

Lemma fallback_pass_once_untagged_witness :
  pageBasedTrademarks coarseEngine coarsePages = []
  /\ length (parseTrademarkDataEnhanced coarseEngine coarsePages
                                        coarseDocument) = 1
  /\ forall t,
      In t (parseTrademarkDataEnhanced coarseEngine coarsePages
                                       coarseDocument) ->
      isValidTrademark t = true /\ prop t "extractionMethod" = None.
Proof.
  split; [reflexivity|]. split; [reflexivity|].
  exact (proj2 (fallback_pass_once_untagged coarseEngine coarsePages
                  coarseDocument eq_refl)).
Defined.

(** The claim C8 as the spec has it fails on that document: the one
    record of the fallback pass has no tag ["fallback-coarse"]. *)
Lemma fallback_pass_tag_counterexample :
  pageBasedTrademarks coarseEngine coarsePages = []
  /\ ~ (forall t,
           In t (parseTrademarkDataEnhanced coarseEngine coarsePages
                                            coarseDocument) ->
           prop t "extractionMethod" = Some "fallback-coarse"%string).
Proof.
  split; [reflexivity|].
  intros H.
  destruct (parseTrademarkDataEnhanced coarseEngine coarsePages
                                       coarseDocument) as [|t ts] eqn:E;
    [discriminate|].
  specialize (H t (or_introl eq_refl)).
  rewrite prop_extractionMethod in H. discriminate.
Qed.

End ParserFacts.

Import ParserFacts.

Module EffectsFacts.
Import Effects.

Lemma bind_Returns {A B} (c : M A) (k : A -> M B) (w w'' : World) (b : B) :
  bind c k w = (Returns b, w'') ->
  exists a w', c w = (Returns a, w') /\ k a w' = (Returns b, w'').
Proof.
  unfold bind. destruct (c w) as [[a|e|] w']; intros H;
    try discriminate. eauto.
Qed.

Lemma tryCatch_rethrow {A} (c : M A) (w : World) :
  tryCatch c (fun e => throw e) w = c w.
Proof.
  unfold tryCatch, throw. destruct (c w) as [[a|e|] w']; reflexivity.
Qed.

Lemma ReturnsWith_ret {A} (P : A -> Prop) (a : A) :
  P a -> ReturnsWith P (ret a).
Proof. intros H w. exists a, w. auto. Qed.

Lemma ReturnsWith_bind {A B} (P : A -> Prop) (Q : B -> Prop)
      (c : M A) (k : A -> M B) :
  ReturnsWith P c ->
  (forall a, P a -> ReturnsWith Q (k a)) ->
  ReturnsWith Q (bind c k).
Proof.
  intros Hc Hk w. destruct (Hc w) as (a & w' & E & Ha & Ht).
  destruct (Hk a Ha w') as (b & w'' & E' & Hb & Ht').
  exists b, w''. unfold bind. rewrite E. split; [exact E'|].
  split; [exact Hb|congruence].
Qed.

Lemma ReturnsWith_weaken {A} (P Q : A -> Prop) (c : M A) :
  (forall a, P a -> Q a) -> ReturnsWith P c -> ReturnsWith Q c.
Proof.
  intros H Hc w. destruct (Hc w) as (a & w' & E & Ha & Ht).
  exists a, w'. auto.
Qed.

Lemma ReturnsWith_readThresholds :
  ReturnsWith (fun _ => True) readThresholds.
Proof. intros w. exists (thresholds w), w. auto. Qed.

Lemma ReturnsWith_forOf {A B} (P : B -> Prop) (l : list A)
      (body : A -> B -> M B) :
  (forall x results, P results -> ReturnsWith P (body x results)) ->
  forall results, P results -> ReturnsWith P (forOf l body results).
Proof.
  intros Hbody. induction l as [|x l IH]; intros results H; cbn [forOf].
  - apply ReturnsWith_ret. exact H.
  - apply ReturnsWith_bind with (P := P); [apply Hbody; exact H|].
    intros a Ha. apply IH. exact Ha.
Qed.

Lemma KeepsThresholds_of_ReturnsWith {A} (P : A -> Prop) (c : M A) :
  ReturnsWith P c -> KeepsThresholds c.
Proof.
  intros H w. destruct (H w) as (a & w' & E & _ & Ht). rewrite E. exact Ht.
Qed.

Lemma KeepsThresholds_ret {A} (a : A) : KeepsThresholds (ret a).
Proof. intros w. reflexivity. Qed.

Lemma KeepsThresholds_throw {A} (e : JSError) : KeepsThresholds (@throw A e).
Proof. intros w. reflexivity. Qed.

Lemma KeepsThresholds_bind {A B} (c : M A) (k : A -> M B) :
  KeepsThresholds c -> (forall a, KeepsThresholds (k a)) ->
  KeepsThresholds (bind c k).
Proof.
  intros Hc Hk w. unfold bind. specialize (Hc w).
  destruct (c w) as [[a|e|] w']; cbn [snd] in *; try exact Hc.
  rewrite Hk. exact Hc.
Qed.

Lemma KeepsThresholds_forOf {A B} (l : list A) (body : A -> B -> M B) :
  (forall x results, KeepsThresholds (body x results)) ->
  forall results, KeepsThresholds (forOf l body results).
Proof.
  intros Hbody. induction l as [|x l IH]; intros results; cbn [forOf].
  - apply KeepsThresholds_ret.
  - apply KeepsThresholds_bind; [apply Hbody|exact IH].
Qed.

Lemma KeepsThresholds_tryCatch {A} (c : M A) (handler : JSError -> M A) :
  KeepsThresholds c -> (forall e, KeepsThresholds (handler e)) ->
  KeepsThresholds (tryCatch c handler).
Proof.
  intros Hc Hh w. unfold tryCatch. specialize (Hc w).
  destruct (c w) as [[a|e|] w']; cbn [snd] in *; try exact Hc.
  rewrite Hh. exact Hc.
Qed.

End EffectsFacts.

Module VectorFacts.
Import Effects VectorService EffectsFacts.

Lemma length_randomVector (rt : Runtime) (w : World) :
  exists v, randomVector rt w
            = (Returns v, mkWorld (thresholds w) (embeddingCalls w)
                                  (randomDraws w + fallbackDimensions))
            /\ length v = fallbackDimensions.
Proof.
  eexists. split; [reflexivity|]. rewrite length_map, length_seq. reflexivity.
Qed.

(** [generateEmbedding] returns, whatever the provider does: with the
    vector of the provider, or with the replacement vector. *)
Lemma generateEmbedding_returns (rt : Runtime) (text : list ascii) (w : World) :
  exists v w',
    generateEmbedding rt text w = (Returns v, w')
    /\ thresholds w' = thresholds w
    /\ embeddingCalls w' = S (embeddingCalls w)
    /\ ((exists input, embeddingsCreate rt (embeddingCalls w) input = Some v)
        \/ ((exists input, embeddingsCreate rt (embeddingCalls w) input = None)
            /\ length v = fallbackDimensions
            /\ randomDraws w' = randomDraws w + fallbackDimensions)).
Proof.
  unfold generateEmbedding, tryCatch, createEmbedding.
  set (input := if maxLength <? length text then _ else text).
  destruct (embeddingsCreate rt (embeddingCalls w) input) as [v|] eqn:E.
  - exists v. eexists. split; [reflexivity|]. cbn.
    repeat split. left. exists input. exact E.
  - destruct (length_randomVector rt
                (mkWorld (thresholds w) (S (embeddingCalls w)) (randomDraws w)))
      as (v & Ev & Hl).
    exists v. eexists. split; [exact Ev|]. cbn.
    repeat split. right. split; [exists input; exact E|]. split; [exact Hl|reflexivity].
Qed.

Lemma generateEmbedding_ReturnsWith (rt : Runtime) (text : list ascii) :
  (forall n input v, embeddingsCreate rt n input = Some v ->
                     length v = fallbackDimensions) ->
  ReturnsWith (fun v => length v = fallbackDimensions)
              (generateEmbedding rt text).
Proof.
  intros Hdim w.
  destruct (generateEmbedding_returns rt text w)
    as (v & w' & E & Ht & _ & [(input & Ei)|(_ & Hl & _)]).
  - exists v, w'. split; [exact E|]. split; [|exact Ht]. exact (Hdim _ _ _ Ei).
  - exists v, w'. auto.
Qed.

Lemma generateEmbedding_KeepsThresholds (rt : Runtime) (text : list ascii) :
  KeepsThresholds (generateEmbedding rt text).
Proof.
  intros w. destruct (generateEmbedding_returns rt text w)
    as (v & w' & E & Ht & _). rewrite E. exact Ht.
Qed.

End VectorFacts.

Import EffectsFacts VectorFacts.

Module EngineFacts.
Import Effects VectorService Engine EffectsFacts VectorFacts JaroFacts.

Lemma calculateJaroWinklerSimilarity_returns (str1 str2 : list ascii) :
  exists q, calculateJaroWinklerSimilarity str1 str2 = Some q.
Proof.
  unfold calculateJaroWinklerSimilarity.
  destruct (jaroSimilarity_returns str1 str2) as (q & E). rewrite E.
  destruct (Qltb q 0.7); eauto.
Qed.

Lemma textSimilarityOf_returns (a b : list ascii) :
  exists sim, textSimilarityOf a b = Some sim.
Proof.
  unfold textSimilarityOf.
  destruct (calculateJaroWinklerSimilarity_returns a b) as (q & E).
  rewrite E. eauto.
Qed.

(** ** The three passes return *)

Lemma analyzeTextSimilarity_returns (target : string)
      (trademarks : list Trademark) :
  ReturnsWith (fun _ => True) (analyzeTextSimilarity target trademarks).
Proof.
  unfold analyzeTextSimilarity.
  apply ReturnsWith_forOf; [|exact I].
  intros trademark results _.
  destruct (textSimilarityOf_returns (normalizeText target)
              (normalizeText (textPassName trademark))) as (sim & E).
  rewrite E. cbn [ofOption].
  apply ReturnsWith_bind with (P := fun _ => True);
    [apply ReturnsWith_ret; exact I|].
  intros sim' _.
  apply ReturnsWith_bind with (P := fun _ => True);
    [apply ReturnsWith_readThresholds|].
  intros thr _. destruct (Qle_bool _ _); apply ReturnsWith_ret; exact I.
Qed.

Lemma analyzePhoneticSimilarity_returns (target : string)
      (trademarks : list Trademark) :
  ReturnsWith (fun _ => True) (analyzePhoneticSimilarity target trademarks).
Proof.
  unfold analyzePhoneticSimilarity.
  apply ReturnsWith_forOf; [|exact I].
  intros trademark results _.
  apply ReturnsWith_bind with (P := fun _ => True);
    [apply ReturnsWith_readThresholds|].
  intros thr _. destruct (Qle_bool _ _); apply ReturnsWith_ret; exact I.
Qed.

Lemma calculateCosineSimilarity_returns (rt : Runtime) (vec1 vec2 : list Q) :
  length vec1 = length vec2 ->
  ReturnsWith (fun _ => True) (calculateCosineSimilarity rt vec1 vec2).
Proof.
  intros H. unfold calculateCosineSimilarity.
  rewrite H, Nat.eqb_refl. cbn [negb].
  destruct (cosineSums vec1 vec2) as [[dotProduct norm1] norm2].
  destruct (Qeq_bool _ _); apply ReturnsWith_ret; exact I.
Qed.

Lemma calculateCosineSimilarity_keeps (rt : Runtime) (vec1 vec2 : list Q) :
  KeepsThresholds (calculateCosineSimilarity rt vec1 vec2).
Proof.
  unfold calculateCosineSimilarity.
  destruct (negb _); [apply KeepsThresholds_throw|].
  destruct (cosineSums vec1 vec2) as [[dotProduct norm1] norm2].
  destruct (Qeq_bool _ _); apply KeepsThresholds_ret.
Qed.

(** The description pass returns when the vectors of the provider have
    the length of the replacement vector, however many requests fail. *)
Lemma analyzeDescriptionSimilarity_returns (rt : Runtime) (target : string)
      (trademarks : list Trademark) :
  (forall n input v, embeddingsCreate rt n input = Some v ->
                     length v = fallbackDimensions) ->
  ReturnsWith (fun _ => True)
              (analyzeDescriptionSimilarity rt target trademarks).
Proof.
  intros Hdim. unfold analyzeDescriptionSimilarity.
  apply ReturnsWith_bind with (P := fun v => length v = fallbackDimensions);
    [apply generateEmbedding_ReturnsWith; exact Hdim|].
  intros targetEmbedding Ht.
  apply ReturnsWith_forOf; [|exact I].
  intros trademark results _.
  destruct (0 <? length (trim (chars (descriptionOf trademark))));
    [|apply ReturnsWith_ret; exact I].
  apply ReturnsWith_bind with (P := fun v => length v = fallbackDimensions);
    [apply generateEmbedding_ReturnsWith; exact Hdim|].
  intros descEmbedding Hd.
  apply ReturnsWith_bind with (P := fun _ => True);
    [apply calculateCosineSimilarity_returns; congruence|].
  intros semanticScore _.
  apply ReturnsWith_bind with (P := fun _ => True);
    [apply ReturnsWith_readThresholds|].
  intros thr _.
  destruct semanticScore as [s|]; [|apply ReturnsWith_ret; exact I].
  destruct (Qle_bool _ _); apply ReturnsWith_ret; exact I.
Qed.

Lemma analyzeDescriptionSimilarity_keeps (rt : Runtime) (target : string)
      (trademarks : list Trademark) :
  KeepsThresholds (analyzeDescriptionSimilarity rt target trademarks).
Proof.
  unfold analyzeDescriptionSimilarity.
  apply KeepsThresholds_bind; [apply generateEmbedding_KeepsThresholds|].
  intros targetEmbedding. apply KeepsThresholds_forOf.
  intros trademark results.
  destruct (0 <? _); [|apply KeepsThresholds_ret].
  apply KeepsThresholds_bind; [apply generateEmbedding_KeepsThresholds|].
  intros descEmbedding.
  apply KeepsThresholds_bind; [apply calculateCosineSimilarity_keeps|].
  intros semanticScore.
  apply KeepsThresholds_bind;
    [apply (KeepsThresholds_of_ReturnsWith _ _ ReturnsWith_readThresholds)|].
  intros thr.
  destruct semanticScore as [s|]; [|apply KeepsThresholds_ret].
  destruct (Qle_bool _ _); apply KeepsThresholds_ret.
Qed.

(** ** Filter, sort, slice *)

Lemma In_insertSorted (a x : SimilarityResult) (l : list SimilarityResult) :
  In x (insertSorted a l) <-> x = a \/ In x l.
Proof.
  induction l as [|b l IH]; cbn [insertSorted].
  - cbn. intuition.
  - destruct (Qltb _ _); cbn [In]; [rewrite IH|]; intuition.
Qed.

Lemma In_sortByScore (x : SimilarityResult) (l : list SimilarityResult) :
  In x (sortByScore l) <-> In x l.
Proof.
  unfold sortByScore. induction l as [|a l IH]; cbn [fold_right In].
  - reflexivity.
  - rewrite In_insertSorted, IH. intuition.
Qed.

Lemma In_firstn {A} (x : A) (n : nat) :
  forall l : list A, In x (firstn n l) -> In x l.
Proof.
  induction n as [|n IH]; intros [|y l] H; cbn in *; try contradiction.
  destruct H as [H|H]; [left; exact H|right; apply IH; exact H].
Qed.

Lemma In_slice0 {A} (x : A) (l : list A) (end_ : Z) :
  In x (slice0 l end_) -> In x l.
Proof. unfold slice0. apply In_firstn. Qed.

Lemma length_slice0 {A} (l : list A) (end_ : Z) :
  (0 <= end_)%Z -> (Z.of_nat (length (slice0 l end_)) <= end_)%Z.
Proof.
  intros H. unfold slice0. rewrite length_firstn.
  destruct (Z.ltb_spec end_ 0); lia.
Qed.

(** ** The shape of the result *)

Lemma analyzeSimilarity_inv (rt : Runtime) (target : string)
      (options : Options) (allTrademarks : list Trademark)
      (w : World) (a : Analysis) :
  returned (analyzeSimilarity rt target options allTrademarks w) = Some a ->
  exists combinedResults,
    similarTrademarks a
    = slice0
        (sortByScore
           (filter (fun result =>
                      Qle_bool (Config.overallSimilarity (thresholds w))
                               (overallScore result))
                   combinedResults))
        (withDefault 20%Z (topK options))
    /\ usedTopK a = withDefault 20%Z (topK options)
    /\ totalCompared a = length allTrademarks.
Proof.
  unfold returned, analyzeSimilarity. rewrite tryCatch_rethrow.
  match goal with |- context [fst (?c w)] => destruct (c w) as [o w'] eqn:E end.
  cbn [fst]. destruct o as [a'| |]; try discriminate.
  intros H. inversion H; subst a'. clear H.
  apply bind_Returns in E. destruct E as (T & w1 & E1 & E).
  apply bind_Returns in E. destruct E as (D & w2 & E2 & E).
  apply bind_Returns in E. destruct E as (P & w3 & E3 & E).
  apply bind_Returns in E. destruct E as (thr & w4 & E4 & E).
  unfold readThresholds in E4. inversion E4; subst thr w4. clear E4.
  unfold ret in E. inversion E; subst. clear E.
  assert (H1 : thresholds w1 = thresholds w).
  { pose proof (KeepsThresholds_of_ReturnsWith _ _
                  (analyzeTextSimilarity_returns target allTrademarks) w) as K.
    rewrite E1 in K. exact K. }
  assert (H2 : thresholds w2 = thresholds w1).
  { pose proof (analyzeDescriptionSimilarity_keeps rt target allTrademarks w1)
      as K. rewrite E2 in K. exact K. }
  assert (H3 : thresholds w' = thresholds w2).
  { destruct (withDefault true (includePhonetic options)).
    - pose proof (KeepsThresholds_of_ReturnsWith _ _
                    (analyzePhoneticSimilarity_returns target allTrademarks) w2)
        as K. rewrite E3 in K. exact K.
    - unfold ret in E3. inversion E3. reflexivity. }
  eexists. cbn [similarTrademarks usedTopK totalCompared].
  rewrite H3, H2, H1. repeat split.
Qed.

Lemma analyzeSimilarity_keeps (rt : Runtime) (target : string)
      (options : Options) (allTrademarks : list Trademark) :
  KeepsThresholds (analyzeSimilarity rt target options allTrademarks).
Proof.
  unfold analyzeSimilarity.
  apply KeepsThresholds_tryCatch; [|intros e; apply KeepsThresholds_throw].
  apply KeepsThresholds_bind;
    [apply (KeepsThresholds_of_ReturnsWith _ _
              (analyzeTextSimilarity_returns target allTrademarks))|].
  intros T. apply KeepsThresholds_bind;
    [apply analyzeDescriptionSimilarity_keeps|].
  intros D. apply KeepsThresholds_bind.
  { destruct (withDefault true (includePhonetic options)).
    - apply (KeepsThresholds_of_ReturnsWith _ _
               (analyzePhoneticSimilarity_returns target allTrademarks)).
    - apply KeepsThresholds_ret. }
  intros P. apply KeepsThresholds_bind;
    [apply (KeepsThresholds_of_ReturnsWith _ _ ReturnsWith_readThresholds)|].
  intros thr. apply KeepsThresholds_ret.
Qed.

(** The analysis returns when the vectors of the provider have the
    length of the replacement vector: a request that fails does not
    stop it. *)
Lemma analyzeSimilarity_returns (rt : Runtime) (target : string)
      (options : Options) (allTrademarks : list Trademark) (w : World) :
  (forall n input v, embeddingsCreate rt n input = Some v ->
                     length v = fallbackDimensions) ->
  exists a w', analyzeSimilarity rt target options allTrademarks w
               = (Returns a, w').
Proof.
  intros Hdim.
  assert (H : ReturnsWith (fun _ => True)
                (analyzeSimilarity rt target options allTrademarks)).
  { intros w0. unfold analyzeSimilarity. rewrite tryCatch_rethrow.
    revert w0. change (ReturnsWith (fun _ : Analysis => True)
      (bind (analyzeTextSimilarity target allTrademarks) (fun T =>
       bind (analyzeDescriptionSimilarity rt target allTrademarks) (fun D =>
       bind (if withDefault true (includePhonetic options)
             then analyzePhoneticSimilarity target allTrademarks
             else ret []) (fun P =>
       bind readThresholds (fun thr =>
       ret (mkAnalysis target (length allTrademarks)
              (slice0 (sortByScore
                 (filter (fun result =>
                    Qle_bool (Config.overallSimilarity thr)
                             (overallScore result))
                    (combineAndScoreResults target T D P)))
                 (withDefault 20%Z (topK options)))
              (withDefault 20%Z (topK options))
              (withDefault true (includePhonetic options))
              (withDefault false (includeVisual options))))))))).
    apply ReturnsWith_bind with (P := fun _ => True);
      [apply analyzeTextSimilarity_returns|].
    intros T _. apply ReturnsWith_bind with (P := fun _ => True);
      [apply analyzeDescriptionSimilarity_returns; exact Hdim|].
    intros D _. apply ReturnsWith_bind with (P := fun _ => True).
    { destruct (withDefault true (includePhonetic options)).
      - apply analyzePhoneticSimilarity_returns.
      - apply ReturnsWith_ret. exact I. }
    intros P _. apply ReturnsWith_bind with (P := fun _ => True);
      [apply ReturnsWith_readThresholds|].
    intros thr _. apply ReturnsWith_ret. exact I. }
  destruct (H w) as (a & w' & E & _). eauto.
Qed.

End EngineFacts.

Import EngineFacts.

Module FusionFacts.
Import Engine.

Lemma keyEqb_eq (a b : option string) : keyEqb a b = true <-> a = b.
Proof.
  unfold keyEqb, Parser.keyEqb. destruct a as [x|], b as [y|];
    try (split; [discriminate|discriminate]); try tauto.
  rewrite String.eqb_eq. split; congruence.
Qed.

Lemma keyEqb_refl (a : option string) : keyEqb a a = true.
Proof. apply keyEqb_eq. reflexivity. Qed.

Lemma keyEqb_trans_l (a b c : option string) :
  keyEqb a b = true -> keyEqb a c = keyEqb b c.
Proof. intros H. apply keyEqb_eq in H. subst. reflexivity. Qed.

Lemma mapHas_mapGet (m : JSMap) (k : option string) :
  mapHas m k = match mapGet m k with Some _ => true | None => false end.
Proof.
  induction m as [|[k' v] m IH]; cbn; [reflexivity|].
  destruct (keyEqb k' k); [reflexivity|exact IH].
Qed.

Lemma mapGet_mapModify (m : JSMap) (key k : option string)
      (f : Combined -> Combined) :
  mapGet (mapModify m key f) k
  = if keyEqb key k then option_map f (mapGet m k) else mapGet m k.
Proof.
  induction m as [|[k' v] m IH]; cbn [mapModify mapGet].
  - destruct (keyEqb key k); reflexivity.
  - destruct (keyEqb k' key) eqn:E1.
    + cbn [mapGet]. rewrite (keyEqb_trans_l _ _ k E1).
      destruct (keyEqb key k); reflexivity.
    + cbn [mapGet]. destruct (keyEqb k' k) eqn:E2.
      * destruct (keyEqb key k) eqn:E3; [|reflexivity].
        apply keyEqb_eq in E2, E3. subst.
        rewrite keyEqb_refl in E1. discriminate.
      * exact IH.
Qed.

Lemma mapGet_app_new (m : JSMap) (key k : option string) (v : Combined) :
  mapGet (m ++ [(key, v)]) k
  = match mapGet m k with
    | Some e => Some e
    | None => if keyEqb key k then Some v else None
    end.
Proof.
  induction m as [|[k' v'] m IH]; cbn [app mapGet]; [reflexivity|].
  destruct (keyEqb k' k); [reflexivity|exact IH].
Qed.

Lemma mapGet_mapSet (m : JSMap) (key k : option string) (v : Combined) :
  mapGet (mapSet m key v) k
  = if keyEqb key k then Some v else mapGet m k.
Proof.
  unfold mapSet. rewrite mapHas_mapGet.
  destruct (mapGet m key) as [e|] eqn:E.
  - rewrite mapGet_mapModify.
    destruct (keyEqb key k) eqn:Ek; [|reflexivity].
    apply keyEqb_eq in Ek. subst. rewrite E. reflexivity.
  - rewrite mapGet_app_new.
    destruct (keyEqb key k) eqn:Ek.
    + apply keyEqb_eq in Ek. subst. rewrite E. reflexivity.
    + destruct (mapGet m k); reflexivity.
Qed.

Lemma mapGet_In (m : JSMap) (k : option string) (e : Combined) :
  mapGet m k = Some e -> In (k, e) m.
Proof.
  induction m as [|[k' v] m IH]; cbn [mapGet]; [discriminate|].
  destruct (keyEqb k' k) eqn:E.
  - intros H. inversion H; subst. apply keyEqb_eq in E. subst. now left.
  - intros H. right. apply IH. exact H.
Qed.

(** ** One step of each of the three loops *)

Lemma mapGet_addTextResult (m : JSMap) (r : TextResult) (k : option string) :
  option_map components (mapGet (addTextResult m r) k)
  = if keyEqb (textKey r) k
    then Some (Some (tr_textSimilarity r), None, None)
    else option_map components (mapGet m k).
Proof.
  unfold addTextResult. rewrite mapGet_mapSet. fold (textKey r).
  destruct (keyEqb (textKey r) k); reflexivity.
Qed.

Lemma mapGet_addDescResult (m : JSMap) (r : DescResult) (k : option string) :
  option_map components (mapGet (addDescResult m r) k)
  = if keyEqb (descKey r) k
    then Some (match option_map components (mapGet m k) with
               | Some (t, _, p) => (t, Some (dr_descriptionSimilarity r), p)
               | None => (None, Some (dr_descriptionSimilarity r), None)
               end)
    else option_map components (mapGet m k).
Proof.
  unfold addDescResult. fold (descKey r). rewrite mapHas_mapGet.
  destruct (mapGet m (descKey r)) as [e|] eqn:E.
  - rewrite mapGet_mapModify.
    destruct (keyEqb (descKey r) k) eqn:Ek; [|reflexivity].
    apply keyEqb_eq in Ek. subst k. rewrite E. reflexivity.
  - rewrite mapGet_mapSet.
    destruct (keyEqb (descKey r) k) eqn:Ek; [|reflexivity].
    apply keyEqb_eq in Ek. subst k. rewrite E. reflexivity.
Qed.

Lemma mapGet_addPhoneticResult (m : JSMap) (r : PhoneticResult)
      (k : option string) :
  option_map components (mapGet (addPhoneticResult m r) k)
  = if keyEqb (phoneticKey r) k
    then Some (match option_map components (mapGet m k) with
               | Some (t, d, _) => (t, d, Some (pr_phoneticSimilarity r))
               | None => (None, None, Some (pr_phoneticSimilarity r))
               end)
    else option_map components (mapGet m k).
Proof.
  unfold addPhoneticResult. fold (phoneticKey r). rewrite mapHas_mapGet.
  destruct (mapGet m (phoneticKey r)) as [e|] eqn:E.
  - rewrite mapGet_mapModify.
    destruct (keyEqb (phoneticKey r) k) eqn:Ek; [|reflexivity].
    apply keyEqb_eq in Ek. subst k. rewrite E. reflexivity.
  - rewrite mapGet_mapSet.
    destruct (keyEqb (phoneticKey r) k) eqn:Ek; [|reflexivity].
    apply keyEqb_eq in Ek. subst k. rewrite E. reflexivity.
Qed.

(** ** The three loops *)

Lemma fold_addTextResult (rs : list TextResult) (k : option string) :
  forall m,
    option_map components (mapGet (fold_left addTextResult rs m) k)
    = match lastText k rs with
      | Some s => Some (Some s, None, None)
      | None => option_map components (mapGet m k)
      end.
Proof.
  unfold lastText.
  induction rs as [|r rs IH]; intros m; cbn [fold_left lastBy]; [reflexivity|].
  rewrite IH. destruct (lastBy _ _ k rs); [reflexivity|].
  rewrite mapGet_addTextResult. destruct (keyEqb (textKey r) k); reflexivity.
Qed.

Lemma fold_addDescResult (rs : list DescResult) (k : option string) :
  forall m,
    option_map components (mapGet (fold_left addDescResult rs m) k)
    = match lastDesc k rs with
      | Some s => Some (match option_map components (mapGet m k) with
                        | Some (t, _, p) => (t, Some s, p)
                        | None => (None, Some s, None)
                        end)
      | None => option_map components (mapGet m k)
      end.
Proof.
  unfold lastDesc.
  induction rs as [|r rs IH]; intros m; cbn [fold_left lastBy]; [reflexivity|].
  rewrite IH, mapGet_addDescResult.
  destruct (lastBy _ _ k rs) as [s|];
    destruct (keyEqb (descKey r) k); try reflexivity.
  destruct (option_map components (mapGet m k)) as [[[t d] p]|]; reflexivity.
Qed.

Lemma fold_addPhoneticResult (rs : list PhoneticResult) (k : option string) :
  forall m,
    option_map components (mapGet (fold_left addPhoneticResult rs m) k)
    = match lastPhonetic k rs with
      | Some s => Some (match option_map components (mapGet m k) with
                        | Some (t, d, _) => (t, d, Some s)
                        | None => (None, None, Some s)
                        end)
      | None => option_map components (mapGet m k)
      end.
Proof.
  unfold lastPhonetic.
  induction rs as [|r rs IH]; intros m; cbn [fold_left lastBy]; [reflexivity|].
  rewrite IH, mapGet_addPhoneticResult.
  destruct (lastBy _ _ k rs) as [s|];
    destruct (keyEqb (phoneticKey r) k); try reflexivity.
  destruct (option_map components (mapGet m k)) as [[[t d] p]|]; reflexivity.
Qed.

(** The entry of a key holds the last result of each pass for that
    key, and there is an entry as soon as one pass has a result. *)
Lemma combinedMap_components (textResults : list TextResult)
      (descResults : list DescResult)
      (phoneticResults : list PhoneticResult) (k : option string) :
  option_map components
    (mapGet (combinedMap textResults descResults phoneticResults) k)
  = match lastText k textResults, lastDesc k descResults,
          lastPhonetic k phoneticResults with
    | None, None, None => None
    | t, d, p => Some (t, d, p)
    end.
Proof.
  unfold combinedMap.
  rewrite fold_addPhoneticResult, fold_addDescResult, fold_addTextResult.
  cbn [mapGet option_map].
  destruct (lastText k textResults), (lastDesc k descResults),
    (lastPhonetic k phoneticResults); reflexivity.
Qed.

Lemma lastBy_In {R S} (key : R -> option string) (val : R -> S)
      (k : option string) (rs : list R) :
  In k (map key rs) -> exists s, lastBy key val k rs = Some s.
Proof.
  induction rs as [|r rs IH]; cbn [map In lastBy]; [contradiction|].
  intros [H|H].
  - destruct (lastBy key val k rs); [eauto|].
    rewrite H, keyEqb_refl. eauto.
  - destruct (IH H) as (s & E). rewrite E. eauto.
Qed.



(** ** Keys *)

Lemma WellKeyed_mapModify (m : JSMap) (key : option string)
      (f : Combined -> Combined) :
  (forall e, trademark (f e) = trademark e) ->
  WellKeyed m -> WellKeyed (mapModify m key f).
Proof.
  intros Hf. induction m as [|[k' v] m IH]; intros Hm; cbn [mapModify];
    [exact Hm|].
  assert (Hm' : WellKeyed m).
  { intros k e H. apply Hm. now right. }
  destruct (keyEqb k' key).
  - intros k e [H|H].
    + inversion H; subst. rewrite Hf. apply Hm. now left.
    + apply Hm. now right.
  - intros k e [H|H].
    + apply Hm. now left.
    + apply (IH Hm'). exact H.
Qed.

Lemma WellKeyed_mapSet (m : JSMap) (key : option string) (v : Combined) :
  keyOf (trademark v) = key -> WellKeyed m -> WellKeyed (mapSet m key v).
Proof.
  intros Hv Hm. unfold mapSet. destruct (mapHas m key).
  - clear - Hv Hm. induction m as [|[k' v'] m IH]; cbn [mapModify];
      [exact Hm|].
    assert (Hm' : WellKeyed m).
    { intros k e H. apply Hm. now right. }
    destruct (keyEqb k' key) eqn:E.
    + apply keyEqb_eq in E. subst k'.
      intros k e [H|H].
      * inversion H; subst. reflexivity.
      * apply Hm. now right.
    + intros k e [H|H].
      * apply Hm. now left.
      * apply (IH Hm'). exact H.
  - intros k e H. apply in_app_or in H. destruct H as [H|[H|[]]].
    + apply Hm. exact H.
    + inversion H; subst. reflexivity.
Qed.

Lemma WellKeyed_combinedMap (textResults : list TextResult)
      (descResults : list DescResult)
      (phoneticResults : list PhoneticResult) :
  WellKeyed (combinedMap textResults descResults phoneticResults).
Proof.
  unfold combinedMap.
  assert (H0 : WellKeyed []) by (intros k e []).
  assert (H1 : forall rs m, WellKeyed m ->
                            WellKeyed (fold_left addTextResult rs m)).
  { induction rs as [|r rs IH]; intros m Hm; cbn [fold_left]; [exact Hm|].
    apply IH. unfold addTextResult. apply WellKeyed_mapSet; [reflexivity|exact Hm]. }
  assert (H2 : forall rs m, WellKeyed m ->
                            WellKeyed (fold_left addDescResult rs m)).
  { induction rs as [|r rs IH]; intros m Hm; cbn [fold_left]; [exact Hm|].
    apply IH. unfold addDescResult. destruct (mapHas _ _).
    - apply WellKeyed_mapModify; [reflexivity|exact Hm].
    - apply WellKeyed_mapSet; [reflexivity|exact Hm]. }
  assert (H3 : forall rs m, WellKeyed m ->
                            WellKeyed (fold_left addPhoneticResult rs m)).
  { induction rs as [|r rs IH]; intros m Hm; cbn [fold_left]; [exact Hm|].
    apply IH. unfold addPhoneticResult. destruct (mapHas _ _).
    - apply WellKeyed_mapModify; [reflexivity|exact Hm].
    - apply WellKeyed_mapSet; [reflexivity|exact Hm]. }
  apply H3, H2, H1, H0.
Qed.

(** ** The score *)

Lemma scoreOrZero_eq {A} (field : A -> Q) (x : option A) :
  (scoreOrZero field x == match x with Some a => field a | None => 0 end)%Q.
Proof.
  unfold scoreOrZero. destruct x as [a|]; [|reflexivity].
  destruct (Qeq_bool (field a) 0) eqn:E; [|reflexivity].
  apply Qeq_bool_iff in E. symmetry. exact E.
Qed.

Lemma overallScore_scoreItem (e : Combined) :
  (overallScore (scoreItem e)
   == 0.4 * match textSimilarity e with Some s => overall s | None => 0 end
      + 0.3 * match descriptionSimilarity e with
              | Some s => semantic s | None => 0 end
      + 0.3 * match phoneticSimilarity e with
              | Some s => score s | None => 0 end)%Q.
Proof.
  unfold scoreItem. cbn [overallScore].
  rewrite !scoreOrZero_eq. ring.
Qed.

End FusionFacts.

Import FusionFacts.

Module EngineClaims.
Import Effects VectorService Engine EngineExamples.



(** C4. Every result that [analyzeSimilarity] returns has an overall
    score at or above the overall threshold of the configuration, which
    the call reads and does not change. *)
Theorem analyzeSimilarity_above_threshold (rt : Runtime) (target : string)
        (options : Options) (allTrademarks : list Trademark)
        (w : World) (a : Analysis) :
  returned (analyzeSimilarity rt target options allTrademarks w) = Some a ->
  Forall (fun r => (Config.overallSimilarity (thresholds w)
                    <= overallScore r)%Q)
         (similarTrademarks a)
  /\ thresholds (snd (analyzeSimilarity rt target options allTrademarks w))
     = thresholds w.
Proof.
  intros H. split; [|apply analyzeSimilarity_keeps].
  destruct (analyzeSimilarity_inv _ _ _ _ _ _ H) as (cs & E & _).
  rewrite E. apply Forall_forall. intros r Hr.
  apply In_slice0, In_sortByScore, filter_In in Hr.
  destruct Hr as (_ & Hr). apply Qle_bool_iff. exact Hr.
Qed.

Lemma analyzeSimilarity_above_threshold_witness :
  exists a,
    returned (analyzeSimilarity answeringRuntime "cola" defaultOptions
                                [colaOne; colaTwo] startWorld) = Some a
    /\ length (similarTrademarks a) = 2
    /\ Forall (fun r => (0.3 <= overallScore r)%Q) (similarTrademarks a).
Proof.
  eexists. split; [vm_compute; reflexivity|].
  split; [reflexivity|].
  refine (proj1 (analyzeSimilarity_above_threshold answeringRuntime
                   "cola"%string defaultOptions [colaOne; colaTwo]
                   startWorld _ _)).
  vm_compute. reflexivity.
Defined.

(** C5. [analyzeSimilarity] returns at most [topK] results, and at
    most 20 when the options do not give a bound.  The bound is a
    count: the controllers let through the integers from 1 to 50 and
    from 1 to 20, the report passes 10, and the default is 20. *)
Theorem analyzeSimilarity_at_most_topK (rt : Runtime) (target : string)
        (options : Options) (allTrademarks : list Trademark)
        (w : World) (a : Analysis) :
  (0 <= withDefault 20 (topK options))%Z ->
  returned (analyzeSimilarity rt target options allTrademarks w) = Some a ->
  (Z.of_nat (length (similarTrademarks a))
   <= withDefault 20 (topK options))%Z
  /\ (topK options = None -> length (similarTrademarks a) <= 20).
Proof.
  intros Hk H.
  destruct (analyzeSimilarity_inv _ _ _ _ _ _ H) as (cs & E & _).
  assert (Hlen : (Z.of_nat (length (similarTrademarks a))
                  <= withDefault 20 (topK options))%Z).
  { rewrite E. apply length_slice0. exact Hk. }
  split; [exact Hlen|].
  intros Hnone. rewrite Hnone in Hlen. cbn [withDefault] in Hlen. lia.
Qed.

Lemma analyzeSimilarity_at_most_topK_witness :
  exists a,
    returned (analyzeSimilarity answeringRuntime "cola"
                                (mkOptions (Some 1%Z) None None)
                                [colaOne; colaTwo] startWorld) = Some a
    /\ (Z.of_nat (length (similarTrademarks a)) <= 1)%Z.
Proof.
  eexists. split; [vm_compute; reflexivity|].
  refine (proj1 (analyzeSimilarity_at_most_topK answeringRuntime
                   "cola"%string (mkOptions (Some 1%Z) None None)
                   [colaOne; colaTwo] startWorld _ _ _)).
  - cbn. lia.
  - vm_compute. reflexivity.
Defined.

End EngineClaims.

Module LexicalClaims.
Import LevenshteinFacts SubstringFacts JaroFacts IdentityFacts EngineFacts.

Lemma textSimilarityOf_sym (a b : list ascii) :
  textSimilarityOf a b = textSimilarityOf b a.
Proof.
  unfold textSimilarityOf.
  rewrite calculateLevenshteinSimilarity_sym,
          calculateJaroWinklerSimilarity_sym,
          calculateSubstringSimilarity_sym.
  reflexivity.
Qed.

Lemma lexicalScore_returns (a b : string) :
  exists q, lexicalScore a b = Some q.
Proof.
  unfold lexicalScore.
  destruct (textSimilarityOf_returns (normalizeText a) (normalizeText b))
    as (sim & E).
  rewrite E. cbn. eauto.
Qed.

(** The score of a string against itself is 1 unless its normal form
    has one character. *)
Lemma lexicalScore_self (a : string) :
  length (normalizeText a) <> 1 ->
  exists q, lexicalScore a a = Some q /\ (q == 1)%Q.
Proof.
  intros H. unfold lexicalScore.
  destruct (textSimilarityOf_self (normalizeText a) H) as (sim & E & Hq).
  rewrite E. cbn [option_map]. eauto.
Qed.

(** The score of a string against itself is 0.6 when its normal form
    has one character: the Jaro-Winkler part is 0 there. *)
Lemma lexicalScore_self_one_character (a : string) :
  length (normalizeText a) = 1 ->
  exists q, lexicalScore a a = Some q /\ (q == 0.6)%Q.
Proof.
  intros H. unfold lexicalScore.
  destruct (normalizeText a) as [|c [|d l]]; try discriminate.
  destruct (textSimilarityOf_single c) as (sim & E & Hq & _).
  rewrite E. cbn [option_map]. eauto.
Qed.

(** C6. The identity of the lexical score fails on the string ["a"]:
    its score against itself is 0.6, not 1.  The match window of
    [jaroSimilarity], [floor(1 / 2) - 1 = -1], leaves no index to
    compare, so the Jaro-Winkler part is 0 while the Levenshtein and
    the substring part are 1. *)
Theorem lexicalScore_identity_fails_on_one_character :
  exists sim,
    textSimilarityOf (normalizeText "a") (normalizeText "a") = Some sim
    /\ lexicalScore "a" "a" = Some (overall sim)
    /\ (levenshtein sim == 1)%Q
    /\ (jaroWinkler sim == 0)%Q
    /\ (substring_ sim == 1)%Q
    /\ (overall sim == 0.6)%Q
    /\ ~ (overall sim == 1)%Q.
Proof.
  eexists. split; [reflexivity|]. split; [reflexivity|].
  cbn. repeat split; try reflexivity. discriminate.
Qed.

(** C7. The lexical score is symmetric: [lexicalScore a b] and
    [lexicalScore b a] return one value, for all strings, and so does
    each of the three measures it combines, on all strings. *)
Theorem lexicalScore_symmetric (a b : string) :
  lexicalScore a b = lexicalScore b a
  /\ (exists q, lexicalScore a b = Some q /\ lexicalScore b a = Some q)
  /\ (forall str1 str2,
         levenshteinDistance str1 str2 = levenshteinDistance str2 str1)
  /\ (forall str1 str2,
         calculateLevenshteinSimilarity str1 str2
         = calculateLevenshteinSimilarity str2 str1)
  /\ (forall str1 str2, jaroSimilarity str1 str2 = jaroSimilarity str2 str1)
  /\ (forall str1 str2,
         calculateJaroWinklerSimilarity str1 str2
         = calculateJaroWinklerSimilarity str2 str1)
  /\ (forall str1 str2,
         calculateSubstringSimilarity str1 str2
         = calculateSubstringSimilarity str2 str1).
Proof.
  assert (E : lexicalScore a b = lexicalScore b a).
  { unfold lexicalScore. rewrite textSimilarityOf_sym. reflexivity. }
  split; [exact E|]. split.
  { destruct (lexicalScore_returns a b) as (q & Hq).
    exists q. split; [exact Hq|]. rewrite <- E. exact Hq. }
  split; [exact levenshteinDistance_sym|].
  split; [exact calculateLevenshteinSimilarity_sym|].
  split; [exact jaroSimilarity_sym|].
  split; [exact calculateJaroWinklerSimilarity_sym|].
  exact calculateSubstringSimilarity_sym.
Qed.

End LexicalClaims.

(* ================================================================== *)
(** * Further properties of the code *)
(* ================================================================== *)

Module RationalFacts.
Import Lexical.

Lemma ofNat_nonneg (n : nat) : (0 <= ofNat n)%Q.
Proof. unfold ofNat, Qle. cbn. lia. Qed.

Lemma ofNat_le (a b : nat) : a <= b -> (ofNat a <= ofNat b)%Q.
Proof. intros H. unfold ofNat. rewrite <- Zle_Qle. lia. Qed.

Lemma ofNat_lt_0 (n : nat) : 0 < n -> (0 < ofNat n)%Q.
Proof. intros H. unfold ofNat, Qlt. cbn. lia. Qed.

Lemma ofNat_eq_0 (n : nat) : (ofNat n == 0)%Q -> n = 0.
Proof. unfold ofNat, Qeq. cbn. lia. Qed.

(** A quotient of two counts, the first at most the second. *)
Lemma ratio_range (a b : nat) :
  a <= b -> 0 < b -> (0 <= ofNat a / ofNat b)%Q /\ (ofNat a / ofNat b <= 1)%Q.
Proof.
  intros Hab Hb. pose proof (ofNat_lt_0 b Hb) as Hpos. split.
  - apply Qle_shift_div_l; [exact Hpos|]. rewrite Qmult_0_l. apply ofNat_nonneg.
  - apply Qle_shift_div_r; [exact Hpos|]. rewrite Qmult_1_l. apply ofNat_le, Hab.
Qed.

Lemma ratio_zero (a b : nat) :
  0 < b -> (ofNat a / ofNat b == 0)%Q -> a = 0.
Proof.
  intros Hb H. apply ofNat_eq_0.
  assert (Hne : ~ (ofNat b == 0)%Q).
  { intros E. apply ofNat_eq_0 in E. lia. }
  assert (E : (ofNat a == (ofNat a / ofNat b) * ofNat b)%Q)
    by (field; exact Hne).
  rewrite E, H. ring.
Qed.

End RationalFacts.

Module DistanceFacts.
Import Lexical LexicalSpec LevenshteinFacts RationalFacts.

Lemma editRec_le_max (a : list ascii) :
  forall b, editRec a b <= Nat.max (length a) (length b).
Proof.
  induction a as [|x a IHa]; intros b.
  - cbn [editRec length]. lia.
  - induction b as [|y b IHb].
    + cbn [editRec length]. lia.
    + rewrite editRec_cons_cons. cbn [length].
      specialize (IHa b).
      destruct (Ascii.eqb x y); lia.
Qed.

Lemma editRec_ge_diff (a : list ascii) :
  forall b, length a <= length b + editRec a b.
Proof.
  induction a as [|x a IHa]; intros b.
  - cbn [length]. lia.
  - induction b as [|y b IHb].
    + cbn [editRec length]. lia.
    + rewrite editRec_cons_cons. cbn [length] in *.
      pose proof (IHa b). pose proof (IHa (y :: b)) as H2. cbn [length] in H2.
      destruct (Ascii.eqb x y); lia.
Qed.

Lemma editRec_zero (a : list ascii) :
  forall b, editRec a b = 0 -> a = b.
Proof.
  induction a as [|x a IHa]; intros b H.
  - cbn [editRec] in H. destruct b; [reflexivity|discriminate].
  - destruct b as [|y b]; [discriminate|].
    rewrite editRec_cons_cons in H.
    destruct (Ascii.eqb x y) eqn:E; [|lia].
    apply Ascii.eqb_eq in E. subst y. f_equal. apply IHa. exact H.
Qed.

Lemma levenshteinDistance_le_max (str1 str2 : list ascii) :
  levenshteinDistance str1 str2 <= Nat.max (length str1) (length str2).
Proof.
  rewrite levenshteinDistance_spec.
  pose proof (editRec_le_max (rev str2) (rev str1)) as H.
  rewrite !length_rev in H. lia.
Qed.

Lemma levenshteinDistance_zero (str1 str2 : list ascii) :
  levenshteinDistance str1 str2 = 0 <-> str1 = str2.
Proof.
  split.
  - rewrite levenshteinDistance_spec. intros H. apply editRec_zero in H.
    apply (f_equal (@rev ascii)) in H. rewrite !rev_involutive in H.
    symmetry. exact H.
  - intros ->. apply levenshteinDistance_refl.
Qed.

Lemma calculateLevenshteinSimilarity_range (str1 str2 : list ascii) :
  (0 <= calculateLevenshteinSimilarity str1 str2)%Q
  /\ (calculateLevenshteinSimilarity str1 str2 <= 1)%Q.
Proof.
  unfold calculateLevenshteinSimilarity.
  destruct (Nat.eqb_spec (Nat.max (length str1) (length str2)) 0) as [E|E].
  - split; discriminate.
  - destruct (ratio_range (levenshteinDistance str1 str2)
                (Nat.max (length str1) (length str2))) as (H0 & H1);
      [apply levenshteinDistance_le_max|lia|].
    split.
    + apply (Qplus_le_l _ _ (ofNat (levenshteinDistance str1 str2)
                             / ofNat (Nat.max (length str1) (length str2)))).
      ring_simplify. exact H1.
    + apply (Qplus_le_l _ _ (ofNat (levenshteinDistance str1 str2)
                             / ofNat (Nat.max (length str1) (length str2)))).
      ring_simplify.
      setoid_replace 1%Q with (0 + 1)%Q at 1 by ring.
      apply Qplus_le_l. exact H0.
Qed.

Lemma levenshteinDistance_ge_diff (str1 str2 : list ascii) :
  length str1 <= length str2 + levenshteinDistance str1 str2
  /\ length str2 <= length str1 + levenshteinDistance str1 str2.
Proof.
  split.
  - rewrite levenshteinDistance_sym, levenshteinDistance_spec.
    pose proof (editRec_ge_diff (rev str1) (rev str2)) as H.
    rewrite !length_rev in H. exact H.
  - rewrite levenshteinDistance_spec.
    pose proof (editRec_ge_diff (rev str2) (rev str1)) as H.
    rewrite !length_rev in H. exact H.
Qed.

Lemma calculateLevenshteinSimilarity_one (str1 str2 : list ascii) :
  (calculateLevenshteinSimilarity str1 str2 == 1)%Q <-> str1 = str2.
Proof.
  split.
  - unfold calculateLevenshteinSimilarity.
    destruct (Nat.eqb_spec (Nat.max (length str1) (length str2)) 0) as [E|E].
    + intros _. destruct str1, str2; cbn in E; try lia. reflexivity.
    + intros H. apply levenshteinDistance_zero.
      apply (ratio_zero _ (Nat.max (length str1) (length str2))); [lia|].
      assert (H' : (1 - (1 - ofNat (levenshteinDistance str1 str2)
                         / ofNat (Nat.max (length str1) (length str2))) == 0)%Q).
      { rewrite H. ring. }
      rewrite <- H'. ring.
  - intros ->. apply IdentityFacts.calculateLevenshteinSimilarity_self.
Qed.

End DistanceFacts.

Module ExtraLevenshtein.
Import Lexical RationalFacts DistanceFacts LevenshteinFacts.

(** X1. The Levenshtein distance of two strings lies between the
    difference of their lengths and the length of the longer one, and it
    is 0 exactly when the strings are equal. *)
Theorem levenshteinDistance_bounds (str1 str2 : list ascii) :
  length str1 <= length str2 + levenshteinDistance str1 str2
  /\ length str2 <= length str1 + levenshteinDistance str1 str2
  /\ levenshteinDistance str1 str2 <= Nat.max (length str1) (length str2)
  /\ (levenshteinDistance str1 str2 = 0 <-> str1 = str2).
Proof.
  destruct (levenshteinDistance_ge_diff str1 str2) as (H1 & H2).
  split; [exact H1|]. split; [exact H2|].
  split; [apply levenshteinDistance_le_max|apply levenshteinDistance_zero].
Qed.

(** X2. The Levenshtein similarity is a number between 0 and 1, and it
    is 1 exactly when the two strings are equal. *)
Theorem calculateLevenshteinSimilarity_unit (str1 str2 : list ascii) :
  (0 <= calculateLevenshteinSimilarity str1 str2)%Q
  /\ (calculateLevenshteinSimilarity str1 str2 <= 1)%Q
  /\ ((calculateLevenshteinSimilarity str1 str2 == 1)%Q <-> str1 = str2).
Proof.
  destruct (calculateLevenshteinSimilarity_range str1 str2) as (H0 & H1).
  split; [exact H0|]. split; [exact H1|].
  apply calculateLevenshteinSimilarity_one.
Qed.

End ExtraLevenshtein.

Module JaroRangeFacts.
Import JSString Lexical JaroSpec MatchingFacts RunFacts JaroFacts RationalFacts.

Lemma countTrue_le_length (l : list bool) : countTrue l <= length l.
Proof. unfold countTrue. apply filter_length_le. Qed.

Lemma mismatches_le (a : list ascii) : forall b, mismatches a b <= length a.
Proof.
  induction a as [|x a IH]; intros [|y b]; cbn; try lia.
  specialize (IH b). destruct (Ascii.eqb x y); lia.
Qed.

(** The three ways [jaroSimilarity] returns: 1 for two empty strings, 0
    when nothing matches, and the mean of three ratios of counts. *)
Lemma jaroSimilarity_cases (str1 str2 : list ascii) :
  jaroSimilarity str1 str2 = Some 1%Q
  \/ jaroSimilarity str1 str2 = Some 0%Q
  \/ exists m t,
      0 < m /\ m <= length str1 /\ m <= length str2 /\ t <= m
      /\ jaroSimilarity str1 str2
         = Some ((ofNat m / ofNat (length str1) + ofNat m / ofNat (length str2)
                  + (ofNat m - ofNat t / 2) / ofNat m) / 3)%Q.
Proof.
  unfold jaroSimilarity.
  destruct ((length str1 =? 0) && (length str2 =? 0)); [now left|].
  destruct ((length str1 =? 0) || (length str2 =? 0)); [right; now left|].
  rewrite findMatches_stateAt.
  set (w := matchWindow (length str1) (length str2)).
  destruct (Nat.eqb_spec (matches (stateAt str1 str2 w (length str1))) 0)
    as [E|E]; [right; now left|].
  right. right.
  rewrite transpositions_final.
  destruct (matches_spec str1 str2 w (length str1)) as (E1 & E2); [lia|].
  eexists _, _. split; [|split; [|split; [|split; [|reflexivity]]]].
  - lia.
  - rewrite E1. pose proof (countTrue_le_length
                              (str1Matches (stateAt str1 str2 w (length str1)))) as H.
    rewrite length_str1Matches in H. exact H.
  - rewrite E2. pose proof (countTrue_le_length
                              (str2Matches (stateAt str1 str2 w (length str1)))) as H.
    rewrite length_str2Matches in H. exact H.
  - etransitivity; [apply mismatches_le|].
    rewrite length_matched by (rewrite length_str1Matches; reflexivity).
    rewrite <- E1. lia.
Qed.

Lemma jaro_formula_range (m t len1 len2 : nat) :
  0 < m -> m <= len1 -> m <= len2 -> t <= m ->
  (0 <= (ofNat m / ofNat len1 + ofNat m / ofNat len2
         + (ofNat m - ofNat t / 2) / ofNat m) / 3)%Q
  /\ ((ofNat m / ofNat len1 + ofNat m / ofNat len2
       + (ofNat m - ofNat t / 2) / ofNat m) / 3 <= 1)%Q.
Proof.
  intros Hm H1 H2 Ht.
  destruct (ratio_range m len1 H1 ltac:(lia)) as (A0 & A1).
  destruct (ratio_range m len2 H2 ltac:(lia)) as (B0 & B1).
  destruct (ratio_range t m Ht Hm) as (C0 & C1).
  assert (Hne : ~ (ofNat m == 0)%Q).
  { intros E. apply ofNat_eq_0 in E. lia. }
  assert (E : ((ofNat m - ofNat t / 2) / ofNat m
               == 1 - (ofNat t / ofNat m) / 2)%Q) by (field; exact Hne).
  rewrite E.
  set (a := (ofNat m / ofNat len1)%Q) in *.
  set (b := (ofNat m / ofNat len2)%Q) in *.
  set (c := (ofNat t / ofNat m)%Q) in *.
  split.
  - apply Qle_shift_div_l; [reflexivity|]. rewrite Qmult_0_l.
    assert (H : (0 <= 1 - c / 2)%Q).
    { apply (Qplus_le_l _ _ (c / 2)). ring_simplify.
      apply Qle_shift_div_r; [reflexivity|].
      apply Qle_trans with 1%Q; [exact C1|discriminate]. }
    apply Qle_trans with (0 + 0 + 0)%Q; [discriminate|].
    apply Qplus_le_compat; [apply Qplus_le_compat|]; assumption.
  - apply Qle_shift_div_r; [reflexivity|].
    assert (H : (1 - c / 2 <= 1)%Q).
    { apply (Qplus_le_l _ _ (c / 2)). ring_simplify.
      setoid_replace 1%Q with (0 + 1)%Q at 1 by ring.
      apply Qplus_le_l.
      apply Qle_shift_div_l; [reflexivity|]. rewrite Qmult_0_l. exact C0. }
    apply Qle_trans with (1 + 1 + 1)%Q; [|discriminate].
    apply Qplus_le_compat; [apply Qplus_le_compat|]; assumption.
Qed.

Lemma jaroSimilarity_range (str1 str2 : list ascii) :
  exists q, jaroSimilarity str1 str2 = Some q /\ (0 <= q)%Q /\ (q <= 1)%Q.
Proof.
  destruct (jaroSimilarity_cases str1 str2)
    as [E|[E|(m & t & Hm & H1 & H2 & Ht & E)]]; rewrite E.
  - exists 1%Q. repeat split; discriminate.
  - exists 0%Q. repeat split; discriminate.
  - eexists. split; [reflexivity|]. apply jaro_formula_range; assumption.
Qed.

Lemma commonPrefix_le (bound : nat) :
  forall str1 str2, commonPrefix bound str1 str2 <= bound.
Proof.
  induction bound as [|b IH]; intros [|c1 s1] [|c2 s2]; cbn; try lia.
  specialize (IH s1 s2). destruct (Ascii.eqb c1 c2); lia.
Qed.

Lemma calculateJaroWinklerSimilarity_range (str1 str2 : list ascii) :
  exists j q,
    jaroSimilarity str1 str2 = Some j
    /\ calculateJaroWinklerSimilarity str1 str2 = Some q
    /\ (j <= q)%Q /\ (0 <= q)%Q /\ (q <= 1)%Q.
Proof.
  destruct (jaroSimilarity_range str1 str2) as (j & E & H0 & H1).
  unfold calculateJaroWinklerSimilarity. rewrite E.
  exists j. destruct (Qltb j 0.7).
  - exists j. repeat split; auto. apply Qle_refl.
  - eexists. split; [reflexivity|]. split; [reflexivity|].
    pose proof (commonPrefix_le 4 str1 str2) as Hp.
    set (p := commonPrefix 4 str1 str2) in *.
    assert (P0 : (0 <= ofNat p)%Q) by apply ofNat_nonneg.
    assert (P4 : (ofNat p <= 4)%Q).
    { change 4%Q with (ofNat 4). apply ofNat_le. exact Hp. }
    assert (J : (0 <= 1 - j)%Q).
    { apply (Qplus_le_l _ _ j). ring_simplify. exact H1. }
    assert (B0 : (0 <= 0.1 * ofNat p * (1 - j))%Q).
    { apply Qmult_le_0_compat; [|exact J].
      apply Qmult_le_0_compat; [discriminate|exact P0]. }
    assert (B1 : (0.1 * ofNat p * (1 - j) <= 1 * (1 - j))%Q).
    { apply Qmult_le_compat_r; [|exact J].
      apply Qle_trans with (0.1 * 4)%Q; [|discriminate].
      rewrite !(Qmult_comm 0.1).
      apply Qmult_le_compat_r; [exact P4|discriminate]. }
    split; [|split].
    + setoid_replace j with (j + 0)%Q at 1 by ring.
      apply Qplus_le_r. exact B0.
    + apply Qle_trans with (0 + 0)%Q; [discriminate|].
      apply Qplus_le_compat; assumption.
    + apply Qle_trans with (j + 1 * (1 - j))%Q.
      * apply Qplus_le_r. exact B1.
      * ring_simplify. apply Qle_refl.
Qed.

End JaroRangeFacts.

Module ExtraJaro.
Import Lexical JaroRangeFacts.

(** X3. [jaroSimilarity] returns on every pair of strings (the scan for
    transpositions never runs past the flags of the second string), and
    what it returns lies between 0 and 1. *)
Theorem jaroSimilarity_returns_unit (str1 str2 : list ascii) :
  exists q, jaroSimilarity str1 str2 = Some q /\ (0 <= q)%Q /\ (q <= 1)%Q.
Proof. apply jaroSimilarity_range. Qed.

(** X4. The Jaro-Winkler similarity is never below the Jaro similarity
    it starts from, and it lies between 0 and 1. *)
Theorem calculateJaroWinklerSimilarity_unit (str1 str2 : list ascii) :
  exists j q,
    jaroSimilarity str1 str2 = Some j
    /\ calculateJaroWinklerSimilarity str1 str2 = Some q
    /\ (j <= q)%Q /\ (0 <= q)%Q /\ (q <= 1)%Q.
Proof. apply calculateJaroWinklerSimilarity_range. Qed.

End ExtraJaro.

Module OccurrenceFacts.
Import JSString Lexical SubstringSpec SubstringFacts OccurrenceSpec.

Lemma commonRun_firstn (a : list ascii) :
  forall b, firstn (commonRun a b) a = firstn (commonRun a b) b.
Proof.
  induction a as [|x a IH]; intros [|y b]; cbn; try reflexivity.
  destruct (Ascii.eqb x y) eqn:E; [|reflexivity].
  apply Ascii.eqb_eq in E. subst. cbn. f_equal. apply IH.
Qed.

Lemma commonRun_app (c : list ascii) :
  forall x y, length c <= commonRun (c ++ x) (c ++ y).
Proof.
  induction c as [|a c IH]; intros x y; cbn; [lia|].
  rewrite Ascii.eqb_refl. specialize (IH x y). lia.
Qed.

Lemma skipn_app_length (pre x : list ascii) :
  skipn (length pre) (pre ++ x) = x.
Proof. induction pre as [|a pre IH]; cbn; [reflexivity|exact IH]. Qed.

Lemma Occurs_firstn_skipn (k i : nat) (str : list ascii) :
  Occurs (firstn k (skipn i str)) str.
Proof.
  exists (firstn i str), (skipn k (skipn i str)).
  rewrite firstn_skipn, firstn_skipn. reflexivity.
Qed.

Lemma Found_lcsInner (str1 str2 : list ascii) (i j : nat)
      (longest : list ascii) :
  i < length str1 -> j < length str2 ->
  Found str1 str2 longest -> Found str1 str2 (lcsInner str1 str2 i longest j).
Proof.
  intros Hi Hj H. unfold lcsInner.
  destruct (length longest <? _); [|exact H].
  right. exists i, j. split; [exact Hi|]. split; [exact Hj|].
  unfold substring, run. f_equal. lia.
Qed.

Lemma Found_fold_inner (str1 str2 : list ascii) (i : nat) (js : list nat) :
  i < length str1 -> (forall j, In j js -> j < length str2) ->
  forall longest, Found str1 str2 longest ->
                  Found str1 str2 (fold_left (lcsInner str1 str2 i) js longest).
Proof.
  intros Hi. induction js as [|j js IH]; intros Hjs longest H; cbn [fold_left];
    [exact H|].
  apply IH; [intros j' Hin; apply Hjs; now right|].
  apply Found_lcsInner; [exact Hi|apply Hjs; now left|exact H].
Qed.

Lemma Found_longestCommonSubstring (str1 str2 : list ascii) :
  Found str1 str2 (longestCommonSubstring str1 str2).
Proof.
  unfold longestCommonSubstring.
  assert (G : forall ixs, (forall i, In i ixs -> i < length str1) ->
                          forall longest, Found str1 str2 longest ->
                          Found str1 str2
                                (fold_left (lcsOuter str1 str2) ixs longest)).
  { induction ixs as [|i ixs IH]; intros Hixs longest H; cbn [fold_left];
      [exact H|].
    apply IH; [intros i' Hin; apply Hixs; now right|].
    unfold lcsOuter. apply Found_fold_inner; [apply Hixs; now left| |exact H].
    intros j Hj. apply in_seq in Hj. lia. }
  apply G; [|now left].
  intros i Hi. apply in_seq in Hi. lia.
Qed.

Lemma longestCommonSubstring_occurs (str1 str2 : list ascii) :
  Occurs (longestCommonSubstring str1 str2) str1
  /\ Occurs (longestCommonSubstring str1 str2) str2.
Proof.
  destruct (Found_longestCommonSubstring str1 str2) as [E|(i & j & Hi & Hj & E)];
    rewrite E.
  - split.
    + exists [], str1. reflexivity.
    + exists [], str2. reflexivity.
  - split; [apply Occurs_firstn_skipn|].
    unfold run. rewrite commonRun_firstn. apply Occurs_firstn_skipn.
Qed.

Lemma longestCommonSubstring_longest (str1 str2 c : list ascii) :
  Occurs c str1 -> Occurs c str2 ->
  length c <= length (longestCommonSubstring str1 str2).
Proof.
  intros (pre1 & suf1 & E1) (pre2 & suf2 & E2).
  destruct c as [|a c]; [cbn; lia|].
  destruct (longestCommonSubstring_inv str1 str2) as (Hcov & _).
  specialize (Hcov (length pre1) (length pre2)).
  assert (H1 : length pre1 < length str1).
  { rewrite E1, !length_app. cbn. lia. }
  assert (H2 : length pre2 < length str2).
  { rewrite E2, !length_app. cbn. lia. }
  specialize (Hcov H1 H2).
  assert (R : run str1 str2 (length pre1) (length pre2)
              = commonRun ((a :: c) ++ suf1) ((a :: c) ++ suf2)).
  { unfold run. rewrite E1, E2. rewrite !skipn_app_length. reflexivity. }
  rewrite R in Hcov.
  pose proof (commonRun_app (a :: c) suf1 suf2) as H. lia.
Qed.

End OccurrenceFacts.

Module ScoreRangeFacts.
Import JSString Lexical SubstringFacts RationalFacts DistanceFacts
       JaroRangeFacts.

Lemma calculateSubstringSimilarity_range (str1 str2 : list ascii) :
  (0 <= calculateSubstringSimilarity str1 str2)%Q
  /\ (calculateSubstringSimilarity str1 str2 <= 1)%Q.
Proof.
  unfold calculateSubstringSimilarity.
  set (longer := if length str2 <? length str1 then str1 else str2).
  destruct (Nat.eqb_spec (length longer) 0) as [E|E]; [split; discriminate|].
  apply ratio_range; [|lia].
  pose proof (length_longestCommonSubstring_le str1 str2) as H1.
  unfold longer. destruct (Nat.ltb_spec (length str2) (length str1)); lia.
Qed.

Lemma textSimilarityOf_range (a b : list ascii) :
  exists sim,
    textSimilarityOf a b = Some sim
    /\ (0 <= overall sim)%Q /\ (overall sim <= 1)%Q
    /\ (overall sim == levenshtein sim * 0.4 + jaroWinkler sim * 0.4
                       + substring_ sim * 0.2)%Q
    /\ (0 <= levenshtein sim)%Q /\ (levenshtein sim <= 1)%Q
    /\ (0 <= jaroWinkler sim)%Q /\ (jaroWinkler sim <= 1)%Q
    /\ (0 <= substring_ sim)%Q /\ (substring_ sim <= 1)%Q.
Proof.
  unfold textSimilarityOf.
  destruct (calculateJaroWinklerSimilarity_range a b)
    as (j & q & _ & E & _ & J0 & J1).
  rewrite E.
  destruct (calculateLevenshteinSimilarity_range a b) as (L0 & L1).
  destruct (calculateSubstringSimilarity_range a b) as (S0 & S1).
  eexists. split; [reflexivity|].
  cbn [overall levenshtein jaroWinkler substring_].
  set (l := calculateLevenshteinSimilarity a b) in *.
  set (s := calculateSubstringSimilarity a b) in *.
  repeat split; try assumption; try reflexivity.
  - apply Qle_trans with (0 * 0.4 + 0 * 0.4 + 0 * 0.2)%Q; [discriminate|].
    repeat apply Qplus_le_compat;
      (apply Qmult_le_compat_r; [assumption|discriminate]).
  - apply Qle_trans with (1 * 0.4 + 1 * 0.4 + 1 * 0.2)%Q; [|discriminate].
    repeat apply Qplus_le_compat;
      (apply Qmult_le_compat_r; [assumption|discriminate]).
Qed.

End ScoreRangeFacts.

Module ExtraSubstring.
Import Lexical OccurrenceSpec OccurrenceFacts ScoreRangeFacts.

(** X5. What [longestCommonSubstring] returns is a substring of both
    strings, and no common substring is longer. *)
Theorem longestCommonSubstring_correct (str1 str2 : list ascii) :
  Occurs (longestCommonSubstring str1 str2) str1
  /\ Occurs (longestCommonSubstring str1 str2) str2
  /\ forall c, Occurs c str1 -> Occurs c str2 ->
               length c <= length (longestCommonSubstring str1 str2).
Proof.
  destruct (longestCommonSubstring_occurs str1 str2) as (H1 & H2).
  split; [exact H1|]. split; [exact H2|].
  intros c. apply longestCommonSubstring_longest.
Qed.

Lemma longestCommonSubstring_correct_witness :
  Occurs (JSString.chars "cola") (JSString.chars "supercola")
  /\ Occurs (JSString.chars "cola") (JSString.chars "colada")
  /\ 4 <= length (longestCommonSubstring (JSString.chars "supercola")
                                         (JSString.chars "colada")).
Proof.
  assert (H1 : Occurs (JSString.chars "cola") (JSString.chars "supercola")).
  { exists (JSString.chars "super"), []. reflexivity. }
  assert (H2 : Occurs (JSString.chars "cola") (JSString.chars "colada")).
  { exists [], (JSString.chars "da"). reflexivity. }
  split; [exact H1|]. split; [exact H2|].
  exact (proj2 (proj2 (longestCommonSubstring_correct
                         (JSString.chars "supercola")
                         (JSString.chars "colada")))
               (JSString.chars "cola") H1 H2).
Defined.

(** X6. The text score of [analyzeTextSimilarity], and each of the
    three measures it weighs, lies between 0 and 1, for every pair of
    strings. *)
Theorem lexicalScore_unit (a b : string) :
  exists sim,
    textSimilarityOf (normalizeText a) (normalizeText b) = Some sim
    /\ lexicalScore a b = Some (overall sim)
    /\ (0 <= overall sim)%Q /\ (overall sim <= 1)%Q
    /\ (0 <= levenshtein sim)%Q /\ (levenshtein sim <= 1)%Q
    /\ (0 <= jaroWinkler sim)%Q /\ (jaroWinkler sim <= 1)%Q
    /\ (0 <= substring_ sim)%Q /\ (substring_ sim <= 1)%Q.
Proof.
  destruct (textSimilarityOf_range (normalizeText a) (normalizeText b))
    as (sim & E & H0 & H1 & _ & H).
  exists sim. split; [exact E|].
  split; [unfold lexicalScore; rewrite E; reflexivity|].
  split; [exact H0|]. split; [exact H1|]. exact H.
Qed.

End ExtraSubstring.

Module NormalizeFacts.
Import JSString Lexical NormalFormSpec.

Lemma code_space : code " " = 32.
Proof. reflexivity. Qed.

Lemma normalChar_cases (c : ascii) :
  normalChar c = true ->
  c = " "%char \/ (48 <= code c <= 57) \/ (97 <= code c <= 122).
Proof.
  unfold normalChar, isLowerAZ, isDigit, inRange. intros H.
  apply orb_true_iff in H. destruct H as [H|H].
  - apply orb_true_iff in H. destruct H as [H|H];
      apply andb_true_iff in H; destruct H as (H1 & H2);
      apply Nat.leb_le in H1, H2; auto.
  - apply Ascii.eqb_eq in H. auto.
Qed.

Lemma isSpace_code (c : ascii) :
  isSpace c = true <-> (9 <= code c <= 13) \/ code c = 32 \/ code c = 160.
Proof.
  unfold isSpace, inRange.
  rewrite !orb_true_iff, andb_true_iff, !Nat.leb_le, !Nat.eqb_eq. tauto.
Qed.

Lemma normalChar_isSpace (c : ascii) :
  normalChar c = true -> isSpace c = true -> c = " "%char.
Proof.
  intros H1 H2. apply isSpace_code in H2.
  destruct (normalChar_cases c H1) as [E|H]; [exact E|lia].
Qed.

Lemma keepChar_normalChar (c : ascii) :
  keepChar c = true -> isSpace c = false -> normalChar c = true.
Proof.
  unfold keepChar, normalChar. intros H E. rewrite E, orb_false_r in H.
  rewrite H. reflexivity.
Qed.

Lemma normalChar_keepChar (c : ascii) :
  normalChar c = true -> keepChar c = true.
Proof.
  unfold keepChar, normalChar. intros H.
  apply orb_true_iff in H. destruct H as [H|H].
  - rewrite H. reflexivity.
  - apply Ascii.eqb_eq in H. subst. reflexivity.
Qed.

Lemma normalChar_toLowerChar (c : ascii) :
  normalChar c = true -> toLowerChar c = c.
Proof.
  intros H. unfold toLowerChar, inRange.
  destruct (normalChar_cases c H) as [->|Hc]; [reflexivity|].
  replace ((65 <=? code c) && (code c <=? 90)) with false.
  2:{ symmetry. apply andb_false_iff. rewrite !Nat.leb_gt. lia. }
  replace ((192 <=? code c) && (code c <=? 222)) with false.
  2:{ symmetry. apply andb_false_iff. rewrite !Nat.leb_gt. lia. }
  reflexivity.
Qed.

(** *** Collapsing white space *)

Lemma collapseFrom_normal (l : list ascii) :
  forallb keepChar l = true ->
  forall inRun,
    forallb normalChar (collapseFrom inRun l) = true
    /\ singleSpaced (collapseFrom inRun l) = true
    /\ (inRun = true -> startsClean (collapseFrom inRun l) = true).
Proof.
  induction l as [|c l IH]; intros Hk inRun; [now cbn|].
  cbn [forallb] in Hk. apply andb_true_iff in Hk. destruct Hk as (Hc & Hl).
  cbn [collapseFrom].
  destruct (isSpace c) eqn:Ec.
  - destruct (IH Hl true) as (H1 & H2 & H3). specialize (H3 eq_refl).
    destruct inRun; [auto|].
    split; [cbn [forallb]; rewrite H1; reflexivity|].
    split; [|discriminate].
    cbn [singleSpaced].
    destruct (collapseFrom true l) as [|d r] eqn:Er; [reflexivity|].
    unfold startsClean in H3. cbn [hd] in H3.
    apply negb_true_iff in H3. rewrite H3, andb_false_r. exact H2.
  - destruct (IH Hl false) as (H1 & H2 & _).
    split.
    { cbn [forallb]. rewrite H1, (keepChar_normalChar c Hc Ec). reflexivity. }
    split.
    { cbn [singleSpaced].
      destruct (collapseFrom false l) as [|d r] eqn:Er; [reflexivity|].
      rewrite Ec. exact H2. }
    intros _. unfold startsClean. cbn [hd]. rewrite Ec. reflexivity.
Qed.

Lemma collapseFrom_fixed (l : list ascii) :
  forallb normalChar l = true -> singleSpaced l = true ->
  forall inRun, (inRun = true -> startsClean l = true) ->
                collapseFrom inRun l = l.
Proof.
  induction l as [|c l IH]; intros Hn Hs inRun Hr; [reflexivity|].
  cbn [forallb] in Hn. apply andb_true_iff in Hn. destruct Hn as (Hc & Hl).
  assert (Hs' : singleSpaced l = true).
  { cbn [singleSpaced] in Hs. destruct l as [|d r]; [reflexivity|].
    apply andb_true_iff in Hs. exact (proj2 Hs). }
  cbn [collapseFrom]. destruct (isSpace c) eqn:Ec.
  - destruct inRun.
    + specialize (Hr eq_refl). unfold startsClean in Hr. cbn [hd] in Hr.
      rewrite Ec in Hr. discriminate.
    + rewrite (normalChar_isSpace c Hc Ec) in *. f_equal.
      apply IH; [exact Hl|exact Hs'|]. intros _.
      unfold startsClean. destruct l as [|d r]; [reflexivity|].
      cbn [singleSpaced] in Hs. apply andb_true_iff in Hs.
      destruct Hs as (Hs & _). cbn [hd].
      change (isSpace " ") with true in Hs. cbn [andb] in Hs. exact Hs.
  - f_equal. apply IH; [exact Hl|exact Hs'|discriminate].
Qed.

(** *** Trimming *)

Lemma dropWhile_suffix (p : ascii -> bool) (l : list ascii) :
  exists pre, l = pre ++ dropWhile p l.
Proof.
  induction l as [|c l (pre & E)]; [exists []; reflexivity|].
  cbn [dropWhile]. destruct (p c).
  - exists (c :: pre). cbn. f_equal. exact E.
  - exists []. reflexivity.
Qed.

Lemma dropWhile_head (p : ascii -> bool) (l : list ascii) (c : ascii)
      (r : list ascii) :
  dropWhile p l = c :: r -> p c = false.
Proof.
  induction l as [|a l IH]; [discriminate|].
  cbn [dropWhile]. destruct (p a) eqn:E; [exact IH|].
  intros H. injection H as -> _. exact E.
Qed.

Lemma dropWhile_fixed (p : ascii -> bool) (l : list ascii) :
  p (hd "x"%char l) = false -> dropWhile p l = l.
Proof.
  destruct l as [|c l]; [reflexivity|]. cbn [hd dropWhile].
  intros ->. reflexivity.
Qed.

Lemma trimStart_suffix (l : list ascii) :
  exists pre, l = pre ++ trimStart l.
Proof. apply dropWhile_suffix. Qed.

Lemma trimEnd_prefix (l : list ascii) :
  exists suf, l = trimEnd l ++ suf.
Proof.
  unfold trimEnd.
  destruct (dropWhile_suffix isSpace (rev l)) as (pre & E).
  exists (rev pre).
  rewrite <- rev_app_distr, <- E, rev_involutive. reflexivity.
Qed.

Lemma startsClean_trimStart (l : list ascii) : startsClean (trimStart l) = true.
Proof.
  unfold startsClean, trimStart.
  destruct (dropWhile isSpace l) as [|c r] eqn:E; [reflexivity|].
  cbn [hd]. rewrite (dropWhile_head _ _ _ _ E). reflexivity.
Qed.

Lemma last_rev (l : list ascii) (d : ascii) : last (rev l) d = hd d l.
Proof.
  destruct l as [|c l]; [reflexivity|].
  cbn [rev hd]. apply last_last.
Qed.

Lemma endsClean_trimEnd (l : list ascii) : endsClean (trimEnd l) = true.
Proof.
  unfold endsClean, trimEnd. rewrite last_rev.
  destruct (dropWhile isSpace (rev l)) as [|c r] eqn:E; [reflexivity|].
  cbn [hd]. rewrite (dropWhile_head _ _ _ _ E). reflexivity.
Qed.

Lemma startsClean_prefix (a b : list ascii) :
  startsClean (a ++ b) = true -> startsClean a = true.
Proof.
  destruct a as [|c a]; [reflexivity|]. intros H. exact H.
Qed.

Lemma singleSpaced_tail (c : ascii) (l : list ascii) :
  singleSpaced (c :: l) = true -> singleSpaced l = true.
Proof.
  cbn [singleSpaced]. destruct l as [|d r]; [reflexivity|].
  intros H. apply andb_true_iff in H. exact (proj2 H).
Qed.

Lemma singleSpaced_app_r (a b : list ascii) :
  singleSpaced (a ++ b) = true -> singleSpaced b = true.
Proof.
  induction a as [|c a IH]; [auto|].
  intros H. apply IH. exact (singleSpaced_tail _ _ H).
Qed.

Lemma singleSpaced_app_l (a b : list ascii) :
  singleSpaced (a ++ b) = true -> singleSpaced a = true.
Proof.
  induction a as [|c a IH]; [reflexivity|].
  intros H. pose proof (singleSpaced_tail _ _ H) as Ht.
  destruct a as [|d a]; [reflexivity|].
  cbn [app singleSpaced] in H |- *.
  apply andb_true_iff in H. destruct H as (H & _).
  rewrite H. apply IH. exact Ht.
Qed.

Lemma normalForm_trim (l : list ascii) :
  forallb normalChar l = true -> singleSpaced l = true ->
  normalForm (trim l) = true.
Proof.
  intros Hn Hs. unfold trim.
  destruct (trimStart_suffix l) as (pre & E1).
  destruct (trimEnd_prefix (trimStart l)) as (suf & E2).
  set (x := trimStart l) in *. set (y := trimEnd x) in *.
  assert (Hnx : forallb normalChar x = true).
  { rewrite E1, forallb_app in Hn. apply andb_true_iff in Hn. tauto. }
  assert (Hsx : singleSpaced x = true).
  { rewrite E1 in Hs. exact (singleSpaced_app_r _ _ Hs). }
  assert (Hny : forallb normalChar y = true).
  { rewrite E2, forallb_app in Hnx. apply andb_true_iff in Hnx. tauto. }
  assert (Hsy : singleSpaced y = true).
  { rewrite E2 in Hsx. exact (singleSpaced_app_l _ _ Hsx). }
  assert (Hcx : startsClean y = true).
  { apply (startsClean_prefix y suf). rewrite <- E2.
    apply startsClean_trimStart. }
  unfold normalForm. rewrite Hny, Hcx, Hsy.
  unfold y. rewrite endsClean_trimEnd. reflexivity.
Qed.

Lemma trim_fixed (l : list ascii) :
  startsClean l = true -> endsClean l = true -> trim l = l.
Proof.
  unfold startsClean, endsClean. intros H1 H2.
  apply negb_true_iff in H1, H2.
  unfold trim, trimStart, trimEnd.
  rewrite (dropWhile_fixed _ l H1).
  rewrite dropWhile_fixed; [apply rev_involutive|].
  rewrite <- (rev_involutive l) in H2. rewrite last_rev in H2. exact H2.
Qed.

(** *** [normalizeText] *)

Lemma filter_fixed (p : ascii -> bool) (l : list ascii) :
  forallb p l = true -> filter p l = l.
Proof.
  induction l as [|c l IH]; [reflexivity|].
  cbn [forallb filter]. intros H. apply andb_true_iff in H.
  destruct H as (-> & H). f_equal. exact (IH H).
Qed.

Lemma forallb_filter (p : ascii -> bool) (l : list ascii) :
  forallb p (filter p l) = true.
Proof.
  induction l as [|c l IH]; [reflexivity|].
  cbn [filter]. destruct (p c) eqn:E; [|exact IH].
  cbn [forallb]. rewrite E, IH. reflexivity.
Qed.

Lemma forallb_impl (p q : ascii -> bool) (l : list ascii) :
  (forall c, p c = true -> q c = true) ->
  forallb p l = true -> forallb q l = true.
Proof.
  intros Hpq. induction l as [|c l IH]; [reflexivity|].
  cbn [forallb]. intros H. apply andb_true_iff in H. destruct H as (Hc & Hl).
  rewrite (Hpq c Hc), (IH Hl). reflexivity.
Qed.

Lemma normalForm_normalizeText (text : string) :
  normalForm (normalizeText text) = true.
Proof.
  unfold normalizeText, collapseSpaces.
  destruct (collapseFrom_normal _ (forallb_filter keepChar
                                     (toLowerCase (chars text))) false)
    as (H1 & H2 & _).
  apply normalForm_trim; assumption.
Qed.

Lemma normalForm_parts (w : list ascii) :
  normalForm w = true ->
  forallb normalChar w = true /\ startsClean w = true
  /\ endsClean w = true /\ singleSpaced w = true.
Proof.
  unfold normalForm. rewrite !andb_true_iff. tauto.
Qed.

Lemma normalizeText_fixed (w : list ascii) :
  normalForm w = true -> normalizeText (ofChars w) = w.
Proof.
  intros H. destruct (normalForm_parts w H) as (Hn & Hs & He & Hss).
  unfold normalizeText, ofChars, chars, collapseSpaces.
  rewrite list_ascii_of_string_of_list_ascii.
  assert (E1 : toLowerCase w = w).
  { unfold toLowerCase. clear - Hn.
    induction w as [|c w IH]; [reflexivity|].
    cbn [forallb] in Hn. apply andb_true_iff in Hn. destruct Hn as (Hc & Hw).
    cbn [map]. rewrite (normalChar_toLowerChar c Hc), (IH Hw). reflexivity. }
  rewrite E1.
  rewrite (filter_fixed keepChar w
             (forallb_impl _ _ w normalChar_keepChar Hn)).
  rewrite (collapseFrom_fixed w Hn Hss false); [|discriminate].
  apply trim_fixed; assumption.
Qed.

End NormalizeFacts.

Module PhoneticFacts.
Import JSString Lexical Engine NormalFormSpec NormalizeFacts.

Lemma phoneticMap_unmapped (c : ascii) :
  forallb (fun d => negb (mappedLetter d)) (phoneticMap c) = true.
Proof.
  unfold phoneticMap.
  destruct (Ascii.eqb c "c") eqn:E1; [reflexivity|].
  destruct (Ascii.eqb c "q") eqn:E2; [reflexivity|].
  destruct (Ascii.eqb c "x") eqn:E3; [reflexivity|].
  destruct (Ascii.eqb c "f") eqn:E4; [reflexivity|].
  destruct (Ascii.eqb c "v") eqn:E5; [reflexivity|].
  destruct (Ascii.eqb c "j") eqn:E6; [reflexivity|].
  destruct (Ascii.eqb c "z") eqn:E7; [reflexivity|].
  cbn [forallb]. unfold mappedLetter.
  change (chars "cqxfvjz")
    with ["c"; "q"; "x"; "f"; "v"; "j"; "z"]%char.
  cbn [existsb]. rewrite E1, E2, E3, E4, E5, E6, E7. reflexivity.
Qed.

Lemma phoneticMap_fixed (c : ascii) :
  mappedLetter c = false -> phoneticMap c = [c].
Proof.
  unfold mappedLetter.
  change (chars "cqxfvjz")
    with ["c"; "q"; "x"; "f"; "v"; "j"; "z"]%char.
  cbn [existsb]. rewrite !orb_false_iff.
  intros (E1 & E2 & E3 & E4 & E5 & E6 & E7 & _).
  unfold phoneticMap. rewrite E1, E2, E3, E4, E5, E6, E7. reflexivity.
Qed.

(** What [phoneticMap] puts for a character: normal characters only,
    and white space only for white space. *)
Lemma phoneticMap_normal (c : ascii) :
  normalChar c = true ->
  forallb normalChar (phoneticMap c) = true
  /\ isSpace (hd "x"%char (phoneticMap c)) = isSpace c
  /\ isSpace (last (phoneticMap c) "x"%char) = isSpace c.
Proof.
  intros H. unfold phoneticMap.
  destruct (Ascii.eqb c "c") eqn:E1;
    [apply Ascii.eqb_eq in E1; subst; now cbn|].
  destruct (Ascii.eqb c "q") eqn:E2;
    [apply Ascii.eqb_eq in E2; subst; now cbn|].
  destruct (Ascii.eqb c "x") eqn:E3;
    [apply Ascii.eqb_eq in E3; subst; now cbn|].
  destruct (Ascii.eqb c "f") eqn:E4;
    [apply Ascii.eqb_eq in E4; subst; now cbn|].
  destruct (Ascii.eqb c "v") eqn:E5;
    [apply Ascii.eqb_eq in E5; subst; now cbn|].
  destruct (Ascii.eqb c "j") eqn:E6;
    [apply Ascii.eqb_eq in E6; subst; now cbn|].
  destruct (Ascii.eqb c "z") eqn:E7;
    [apply Ascii.eqb_eq in E7; subst; now cbn|].
  cbn [forallb hd last]. rewrite H. auto.
Qed.

Lemma phoneticMap_nonempty (c : ascii) : phoneticMap c <> [].
Proof.
  unfold phoneticMap.
  repeat match goal with
         | |- (if ?b then _ else _) <> _ => destruct b
         end; discriminate.
Qed.

Lemma hd_app_nonempty (a b : list ascii) (d : ascii) :
  a <> [] -> hd d (a ++ b) = hd d a.
Proof. destruct a; [congruence|reflexivity]. Qed.

Lemma last_app_nonempty (a b : list ascii) (d : ascii) :
  b <> [] -> last (a ++ b) d = last b d.
Proof.
  intros Hb. induction a as [|c a IH]; [reflexivity|].
  cbn [app]. destruct (a ++ b) eqn:E.
  - apply app_eq_nil in E. destruct E. congruence.
  - cbn [last]. exact IH.
Qed.

Lemma flat_map_phoneticMap_nil (l : list ascii) :
  flat_map phoneticMap l = [] -> l = [].
Proof.
  destruct l as [|c l]; [reflexivity|]. cbn [flat_map]. intros H.
  apply app_eq_nil in H. destruct H as (H & _).
  exfalso. exact (phoneticMap_nonempty c H).
Qed.

Lemma flat_map_phoneticMap_normal (l : list ascii) :
  forallb normalChar l = true ->
  forallb normalChar (flat_map phoneticMap l) = true
  /\ startsClean (flat_map phoneticMap l) = startsClean l
  /\ endsClean (flat_map phoneticMap l) = endsClean l.
Proof.
  induction l as [|c l IH]; intros H; [now cbn|].
  cbn [forallb] in H. apply andb_true_iff in H. destruct H as (Hc & Hl).
  destruct (phoneticMap_normal c Hc) as (P1 & P2 & P3).
  destruct (IH Hl) as (I1 & I2 & I3).
  cbn [flat_map]. split; [rewrite forallb_app, P1, I1; reflexivity|].
  split.
  - unfold startsClean.
    rewrite hd_app_nonempty by apply phoneticMap_nonempty.
    cbn [hd]. rewrite P2. reflexivity.
  - unfold endsClean in *. destruct l as [|d r].
    + cbn [flat_map]. rewrite app_nil_r. cbn [last]. rewrite P3. reflexivity.
    + rewrite last_app_nonempty.
      2:{ intros E. apply flat_map_phoneticMap_nil in E. discriminate. }
      rewrite I3. reflexivity.
Qed.

(** *** Removing repeated characters *)

Lemma removeConsecutiveDuplicates_hd (l : list ascii) (d : ascii) :
  hd d (removeConsecutiveDuplicates l) = hd d l.
Proof.
  induction l as [|c l IH]; [reflexivity|].
  cbn [removeConsecutiveDuplicates]. destruct l as [|e r]; [reflexivity|].
  destruct (Ascii.eqb c e && negb (Parser.isLineBreak c)) eqn:E;
    [|reflexivity].
  apply andb_true_iff in E. destruct E as (E & _).
  apply Ascii.eqb_eq in E. subst. rewrite IH. reflexivity.
Qed.

Lemma removeConsecutiveDuplicates_nil (l : list ascii) :
  removeConsecutiveDuplicates l = [] -> l = [].
Proof.
  induction l as [|c l IH]; [reflexivity|].
  cbn [removeConsecutiveDuplicates]. destruct l as [|e r]; [discriminate|].
  destruct (Ascii.eqb c e && negb (Parser.isLineBreak c));
    [|discriminate].
  intros H. specialize (IH H). discriminate.
Qed.

Lemma removeConsecutiveDuplicates_last (l : list ascii) (d : ascii) :
  last (removeConsecutiveDuplicates l) d = last l d.
Proof.
  induction l as [|c l IH]; [reflexivity|].
  cbn [removeConsecutiveDuplicates]. destruct l as [|e r]; [reflexivity|].
  destruct (Ascii.eqb c e && negb (Parser.isLineBreak c)) eqn:E.
  - rewrite IH. reflexivity.
  - destruct (removeConsecutiveDuplicates (e :: r)) eqn:Er.
    + apply removeConsecutiveDuplicates_nil in Er. discriminate.
    + cbn [last] in *. exact IH.
Qed.

Lemma removeConsecutiveDuplicates_forallb (p : ascii -> bool)
      (l : list ascii) :
  forallb p l = true -> forallb p (removeConsecutiveDuplicates l) = true.
Proof.
  induction l as [|c l IH]; [reflexivity|].
  cbn [forallb]. intros H. apply andb_true_iff in H. destruct H as (Hc & Hl).
  cbn [removeConsecutiveDuplicates]. destruct l as [|e r].
  - cbn [forallb]. rewrite Hc. reflexivity.
  - destruct (Ascii.eqb c e && negb (Parser.isLineBreak c)).
    + exact (IH Hl).
    + cbn [forallb]. rewrite Hc. exact (IH Hl).
Qed.

Lemma normalChar_isLineBreak (c : ascii) :
  normalChar c = true -> Parser.isLineBreak c = false.
Proof.
  intros H. unfold Parser.isLineBreak.
  apply orb_false_iff. rewrite !Nat.eqb_neq.
  destruct (normalChar_cases c H) as [->|Hc]; [cbn; lia|lia].
Qed.

Lemma noRepeat_removeConsecutiveDuplicates (l : list ascii) :
  forallb normalChar l = true ->
  noRepeat (removeConsecutiveDuplicates l) = true.
Proof.
  induction l as [|c l IH]; [reflexivity|].
  cbn [forallb]. intros H. apply andb_true_iff in H. destruct H as (Hc & Hl).
  specialize (IH Hl).
  cbn [removeConsecutiveDuplicates]. destruct l as [|e r]; [reflexivity|].
  rewrite (normalChar_isLineBreak c Hc). cbn [negb]. rewrite andb_true_r.
  destruct (Ascii.eqb c e) eqn:E; [exact IH|].
  pose proof (removeConsecutiveDuplicates_hd (e :: r) "x"%char) as Hh.
  destruct (removeConsecutiveDuplicates (e :: r)) as [|e' r'] eqn:Er.
  - reflexivity.
  - cbn [hd] in Hh. subst e'. cbn [noRepeat]. rewrite E. exact IH.
Qed.

Lemma removeConsecutiveDuplicates_fixed (l : list ascii) :
  noRepeat l = true -> removeConsecutiveDuplicates l = l.
Proof.
  induction l as [|c l IH]; [reflexivity|].
  cbn [noRepeat removeConsecutiveDuplicates].
  destruct l as [|e r]; [reflexivity|].
  intros H. apply andb_true_iff in H. destruct H as (H1 & H2).
  apply negb_true_iff in H1. rewrite H1. cbn [andb].
  f_equal. exact (IH H2).
Qed.

Lemma noRepeat_singleSpaced (l : list ascii) :
  forallb normalChar l = true -> noRepeat l = true -> singleSpaced l = true.
Proof.
  induction l as [|c l IH]; [reflexivity|].
  cbn [forallb]. intros H. apply andb_true_iff in H. destruct H as (Hc & Hl).
  cbn [noRepeat singleSpaced]. destruct l as [|e r]; [reflexivity|].
  intros H. apply andb_true_iff in H. destruct H as (H1 & H2).
  rewrite (IH Hl H2), andb_true_r.
  apply negb_true_iff. apply andb_false_iff.
  destruct (isSpace c) eqn:Ec; [|now left].
  destruct (isSpace e) eqn:Ee; [|now right].
  exfalso. cbn [forallb] in Hl. apply andb_true_iff in Hl.
  rewrite (normalChar_isSpace c Hc Ec) in H1.
  rewrite (normalChar_isSpace e (proj1 Hl) Ee) in H1. discriminate.
Qed.

Lemma flat_map_phoneticMap_fixed (l : list ascii) :
  forallb (fun d => negb (mappedLetter d)) l = true ->
  flat_map phoneticMap l = l.
Proof.
  induction l as [|c l IH]; [reflexivity|].
  cbn [forallb flat_map]. intros H. apply andb_true_iff in H.
  destruct H as (Hc & Hl). apply negb_true_iff in Hc.
  rewrite (phoneticMap_fixed c Hc), (IH Hl). reflexivity.
Qed.

Lemma forallb_flat_map (p : ascii -> bool) (f : ascii -> list ascii)
      (l : list ascii) :
  (forall c, forallb p (f c) = true) -> forallb p (flat_map f l) = true.
Proof.
  intros H. induction l as [|c l IH]; [reflexivity|].
  cbn [flat_map]. rewrite forallb_app, H, IH. reflexivity.
Qed.

Lemma generatePhoneticCode_form (text : string) :
  forallb (fun d => negb (mappedLetter d)) (generatePhoneticCode text) = true
  /\ noRepeat (generatePhoneticCode text) = true
  /\ normalForm (generatePhoneticCode text) = true.
Proof.
  unfold generatePhoneticCode. cbv zeta.
  destruct (normalForm_parts _ (normalForm_normalizeText text))
    as (Hn & Hs & He & _).
  destruct (flat_map_phoneticMap_normal _ Hn) as (F1 & F2 & F3).
  set (mapped := flat_map phoneticMap (normalizeText text)) in *.
  assert (U : forallb (fun d => negb (mappedLetter d))
                      (removeConsecutiveDuplicates mapped) = true).
  { apply removeConsecutiveDuplicates_forallb.
    apply forallb_flat_map. exact phoneticMap_unmapped. }
  assert (R : noRepeat (removeConsecutiveDuplicates mapped) = true)
    by exact (noRepeat_removeConsecutiveDuplicates mapped F1).
  assert (N : forallb normalChar (removeConsecutiveDuplicates mapped) = true)
    by exact (removeConsecutiveDuplicates_forallb _ mapped F1).
  split; [exact U|]. split; [exact R|].
  unfold normalForm. rewrite N, (noRepeat_singleSpaced _ N R).
  unfold startsClean, endsClean in *.
  rewrite removeConsecutiveDuplicates_hd, removeConsecutiveDuplicates_last.
  rewrite F2, F3, Hs, He. reflexivity.
Qed.

Lemma generatePhoneticCode_fixed (text : string) :
  generatePhoneticCode (ofChars (generatePhoneticCode text))
  = generatePhoneticCode text.
Proof.
  destruct (generatePhoneticCode_form text) as (U & R & N).
  set (p := generatePhoneticCode text) in *.
  unfold generatePhoneticCode at 1. cbv zeta.
  rewrite (normalizeText_fixed p N), (flat_map_phoneticMap_fixed p U).
  exact (removeConsecutiveDuplicates_fixed p R).
Qed.

End PhoneticFacts.

Module ScoreOneFacts.
Import JSString Lexical DistanceFacts ScoreRangeFacts IdentityFacts.

Lemma textSimilarityOf_one (a b : list ascii) (sim : TextSimilarity) :
  textSimilarityOf a b = Some sim -> (overall sim == 1)%Q ->
  a = b /\ length a <> 1.
Proof.
  intros E H1.
  destruct (textSimilarityOf_range a b)
    as (sim' & E' & _ & _ & Ho & L0 & L1 & J0 & J1 & S0 & S1).
  rewrite E in E'. injection E' as <-.
  assert (HL : (levenshtein sim == 1)%Q) by lra.
  assert (EL : levenshtein sim = calculateLevenshteinSimilarity a b).
  { unfold textSimilarityOf in E.
    destruct (calculateJaroWinklerSimilarity a b); [|discriminate].
    injection E as <-. reflexivity. }
  rewrite EL in HL. apply calculateLevenshteinSimilarity_one in HL.
  split; [exact HL|]. subst b.
  intros Hlen. destruct a as [|c [|d l]]; try discriminate.
  destruct (textSimilarityOf_single c) as (sim' & E' & Hq & _).
  rewrite E in E'. injection E' as <-. lra.
Qed.

End ScoreOneFacts.

Module ExtraNormalize.
Import JSString Lexical Engine NormalFormSpec NormalizeFacts PhoneticFacts
       ScoreOneFacts IdentityFacts.

(** X7. The text score of two names is 1 exactly when their normalised
    forms are equal and are not one single character: names that differ
    only in case, punctuation or spacing score 1, and no other pair
    does. *)
Theorem lexicalScore_one_iff (a b : string) :
  (exists q, lexicalScore a b = Some q /\ (q == 1)%Q)
  <-> (normalizeText a = normalizeText b /\ length (normalizeText a) <> 1).
Proof.
  unfold lexicalScore. split.
  - intros (q & E & Hq).
    destruct (textSimilarityOf (normalizeText a) (normalizeText b))
      as [sim|] eqn:Es; [|discriminate].
    injection E as <-. exact (textSimilarityOf_one _ _ sim Es Hq).
  - intros (E & Hlen). rewrite <- E.
    destruct (textSimilarityOf_self (normalizeText a) Hlen) as (sim & Es & Hq).
    rewrite Es. exists (overall sim). split; [reflexivity|exact Hq].
Qed.

Lemma lexicalScore_one_iff_witness :
  exists q, lexicalScore "Coca  Cola!" " coca cola" = Some q /\ (q == 1)%Q.
Proof.
  apply (proj2 (lexicalScore_one_iff "Coca  Cola!" " coca cola")).
  split; [reflexivity|]. vm_compute. discriminate.
Defined.

(** X8. [normalizeText] returns a string over [a-z], [0-9] and the
    space, with no space at either end and no two spaces in a row; and
    normalising a normalised string changes nothing. *)
Theorem normalizeText_normal_form (text : string) :
  normalForm (normalizeText text) = true
  /\ normalizeText (ofChars (normalizeText text)) = normalizeText text.
Proof.
  split; [apply normalForm_normalizeText|].
  apply normalizeText_fixed. apply normalForm_normalizeText.
Qed.

(** X9. A phonetic code holds none of the letters c, q, x, f, v, j, z,
    never the same character twice in a row, and is a normalised
    string; the code of a code is the code itself. *)
Theorem generatePhoneticCode_canonical (text : string) :
  forallb (fun d => negb (mappedLetter d)) (generatePhoneticCode text) = true
  /\ noRepeat (generatePhoneticCode text) = true
  /\ normalForm (generatePhoneticCode text) = true
  /\ generatePhoneticCode (ofChars (generatePhoneticCode text))
     = generatePhoneticCode text.
Proof.
  destruct (generatePhoneticCode_form text) as (U & R & N).
  split; [exact U|]. split; [exact R|]. split; [exact N|].
  apply generatePhoneticCode_fixed.
Qed.

End ExtraNormalize.

Module SortFacts.
Import Lexical Engine PassSpec.

Lemma Qltb_true (a b : Q) : Qltb a b = true <-> (a < b)%Q.
Proof.
  unfold Qltb. rewrite negb_true_iff. split.
  - intros H. apply Qnot_le_lt. intros Hle.
    apply Qle_bool_iff in Hle. congruence.
  - intros H. destruct (Qle_bool b a) eqn:E; [|reflexivity].
    apply Qle_bool_iff in E. lra.
Qed.

Lemma Qltb_false (a b : Q) : Qltb a b = false <-> (b <= a)%Q.
Proof.
  unfold Qltb. rewrite negb_false_iff. apply Qle_bool_iff.
Qed.

Lemma Permutation_insertSorted (a : SimilarityResult)
      (l : list SimilarityResult) :
  Permutation (insertSorted a l) (a :: l).
Proof.
  induction l as [|b l IH]; cbn [insertSorted]; [reflexivity|].
  destruct (Qltb _ _); [|reflexivity].
  rewrite IH. apply perm_swap.
Qed.

Lemma Permutation_sortByScore (l : list SimilarityResult) :
  Permutation (sortByScore l) l.
Proof.
  unfold sortByScore. induction l as [|a l IH]; cbn [fold_right];
    [reflexivity|].
  rewrite Permutation_insertSorted, IH. reflexivity.
Qed.

Lemma StronglySorted_insertSorted (a : SimilarityResult)
      (l : list SimilarityResult) :
  StronglySorted descending l -> StronglySorted descending (insertSorted a l).
Proof.
  induction l as [|b l IH]; intros H; cbn [insertSorted].
  - constructor; constructor.
  - inversion H as [|? ? Hl Hb]; subst.
    destruct (Qltb (overallScore a) (overallScore b)) eqn:E.
    + apply Qltb_true in E. constructor; [exact (IH Hl)|].
      apply Forall_forall. intros x Hx.
      apply (Permutation_in _ (Permutation_insertSorted a l)) in Hx.
      destruct Hx as [<-|Hx]; [unfold descending; lra|].
      exact (proj1 (Forall_forall _ _) Hb x Hx).
    + apply Qltb_false in E. constructor; [exact H|].
      constructor; [exact E|].
      apply Forall_forall. intros x Hx.
      pose proof (proj1 (Forall_forall _ _) Hb x Hx) as Hxb.
      unfold descending in *. lra.
Qed.

Lemma StronglySorted_sortByScore (l : list SimilarityResult) :
  StronglySorted descending (sortByScore l).
Proof.
  unfold sortByScore. induction l as [|a l IH]; cbn [fold_right].
  - constructor.
  - apply StronglySorted_insertSorted. exact IH.
Qed.

(** Results of one score keep the order they had. *)
Lemma filter_insertSorted (q : Q) (a : SimilarityResult)
      (l : list SimilarityResult) :
  filter (fun r => Qeq_bool (overallScore r) q) (insertSorted a l)
  = filter (fun r => Qeq_bool (overallScore r) q) (a :: l).
Proof.
  induction l as [|b l IH]; cbn [insertSorted]; [reflexivity|].
  destruct (Qltb (overallScore a) (overallScore b)) eqn:E; [|reflexivity].
  apply Qltb_true in E.
  cbn [filter] in *. rewrite IH.
  destruct (Qeq_bool (overallScore a) q) eqn:Ea; [|reflexivity].
  destruct (Qeq_bool (overallScore b) q) eqn:Eb; [|reflexivity].
  apply Qeq_bool_iff in Ea, Eb. lra.
Qed.

Lemma filter_sortByScore (q : Q) (l : list SimilarityResult) :
  filter (fun r => Qeq_bool (overallScore r) q) (sortByScore l)
  = filter (fun r => Qeq_bool (overallScore r) q) l.
Proof.
  unfold sortByScore. induction l as [|a l IH]; cbn [fold_right];
    [reflexivity|].
  rewrite filter_insertSorted. cbn [filter]. rewrite IH. reflexivity.
Qed.

End SortFacts.

Module PassFacts.
Import JSString Lexical Types Effects VectorService Engine PassSpec.
Import EffectsSpec EffectsFacts VectorFacts EngineFacts.
Import RationalFacts DistanceFacts ScoreRangeFacts.
Local Open Scope js_scope.

(** A loop whose body appends to the results what a function of the
    state and the element gives, and leaves the state as it is. *)
Lemma forOf_pure {A B} (l : list A) (body : A -> list B -> M (list B))
      (f : World -> A -> list B) :
  (forall x results w, body x results w = (Returns (results ++ f w x), w)) ->
  forall results w,
    forOf l body results w = (Returns (results ++ flat_map (f w) l), w).
Proof.
  intros Hbody. induction l as [|x l IH]; intros results w; cbn [forOf flat_map].
  - unfold ret. rewrite app_nil_r. reflexivity.
  - unfold bind. rewrite Hbody, IH, <- app_assoc. reflexivity.
Qed.

Lemma analyzeTextSimilarity_flat_map (target : string)
      (trademarks : list Trademark) (w : World) :
  analyzeTextSimilarity target trademarks w
  = (Returns (flat_map (textStep w target) trademarks), w).
Proof.
  unfold analyzeTextSimilarity.
  rewrite (forOf_pure trademarks _ (fun w => textStep w target));
    [reflexivity|].
  intros t results w0. unfold textStep.
  destruct (textSimilarityOf_returns (normalizeText target)
              (normalizeText (textPassName t))) as (sim & E).
  rewrite E. unfold bind, ofOption, ret, readThresholds.
  destruct (Qle_bool _ _); [reflexivity|]. rewrite app_nil_r. reflexivity.
Qed.

Lemma textStep_trademarks (w : World) (target : string)
      (trademarks : list Trademark) :
  map tr_trademark (flat_map (textStep w target) trademarks)
  = filter (textHit (thresholds w) target) trademarks.
Proof.
  induction trademarks as [|t l IH]; [reflexivity|].
  cbn [flat_map filter]. rewrite map_app, IH.
  unfold textStep at 1, textHit at 2, lexicalScore.
  destruct (textSimilarityOf _ _) as [sim|]; [|reflexivity].
  cbn [option_map]. destruct (Qle_bool _ _); reflexivity.
Qed.

Lemma textStep_scores (w : World) (target : string)
      (trademarks : list Trademark) :
  Forall (fun r =>
            textSimilarityOf (normalizeText target)
              (normalizeText (textPassName (tr_trademark r)))
            = Some (tr_textSimilarity r)
            /\ (Config.textSimilarity (thresholds w)
                <= overall (tr_textSimilarity r))%Q
            /\ (overall (tr_textSimilarity r) <= 1)%Q)
         (flat_map (textStep w target) trademarks).
Proof.
  apply Forall_forall. intros r Hr. apply in_flat_map in Hr.
  destruct Hr as (t & _ & Hr). unfold textStep in Hr.
  destruct (textSimilarityOf_range (normalizeText target)
              (normalizeText (textPassName t)))
    as (sim & E & _ & H1 & _).
  rewrite E in Hr.
  destruct (Qle_bool _ _) eqn:Eq; [|contradiction].
  destruct Hr as [<-|[]]. cbn [tr_trademark tr_textSimilarity].
  split; [exact E|]. split; [apply Qle_bool_iff; exact Eq|exact H1].
Qed.

Lemma analyzePhoneticSimilarity_flat_map (target : string)
      (trademarks : list Trademark) (w : World) :
  analyzePhoneticSimilarity target trademarks w
  = (Returns (flat_map (phoneticStep w target) trademarks), w).
Proof.
  unfold analyzePhoneticSimilarity. cbv zeta.
  rewrite (forOf_pure trademarks _ (fun w => phoneticStep w target));
    [reflexivity|].
  intros t results w0. unfold phoneticStep, phoneticHit, phoneticScoreOf.
  unfold bind, ret, readThresholds.
  destruct (Qle_bool _ _); [reflexivity|]. rewrite app_nil_r. reflexivity.
Qed.

Lemma phoneticStep_trademarks (w : World) (target : string)
      (trademarks : list Trademark) :
  map pr_trademark (flat_map (phoneticStep w target) trademarks)
  = filter (phoneticHit (thresholds w) target) trademarks.
Proof.
  induction trademarks as [|t l IH]; [reflexivity|].
  cbn [flat_map filter]. rewrite map_app, IH.
  unfold phoneticStep at 1.
  destruct (phoneticHit _ _ _); reflexivity.
Qed.

Lemma phoneticStep_scores (w : World) (target : string)
      (trademarks : list Trademark) :
  Forall (fun r =>
            score (pr_phoneticSimilarity r)
            = phoneticScoreOf target (pr_trademark r)
            /\ (Config.phoneticSimilarity (thresholds w)
                <= score (pr_phoneticSimilarity r))%Q
            /\ (score (pr_phoneticSimilarity r) <= 1)%Q)
         (flat_map (phoneticStep w target) trademarks).
Proof.
  apply Forall_forall. intros r Hr. apply in_flat_map in Hr.
  destruct Hr as (t & _ & Hr). unfold phoneticStep in Hr.
  destruct (phoneticHit _ _ _) eqn:Eq; [|contradiction].
  destruct Hr as [<-|[]].
  cbn [pr_trademark pr_phoneticSimilarity score].
  split; [reflexivity|]. split.
  - apply Qle_bool_iff. exact Eq.
  - unfold phoneticScoreOf, calculatePhoneticSimilarity.
    apply calculateLevenshteinSimilarity_range.
Qed.

(** The phonetic pass reads [namaMerek] alone: without it the code of
    the record is empty. *)
Lemma phoneticScoreOf_unnamed (target : string) (t : Trademark) :
  tm_namaMerek t = None -> generatePhoneticCode target <> [] ->
  (phoneticScoreOf target t == 0)%Q.
Proof.
  intros Hn Hc. unfold phoneticScoreOf, calculatePhoneticSimilarity.
  rewrite Hn.
  change (generatePhoneticCode (orEmpty None)) with (@nil ascii).
  unfold calculateLevenshteinSimilarity.
  destruct (generatePhoneticCode target) as [|c p] eqn:E; [congruence|].
  cbn [length]. rewrite Nat.max_0_r. cbn [Nat.eqb].
  assert (D : levenshteinDistance (c :: p) [] = S (length p)).
  { pose proof (levenshteinDistance_le_max (c :: p) []) as H1.
    destruct (levenshteinDistance_ge_diff (c :: p) []) as (H2 & _).
    cbn [length] in *. rewrite Nat.max_0_r in H1. lia. }
  rewrite D.
  assert (Hne : ~ (ofNat (S (length p)) == 0)%Q).
  { intros H. apply ofNat_eq_0 in H. discriminate. }
  field. exact Hne.
Qed.

End PassFacts.

Module ExtraRanking.
Import Lexical Engine PassSpec SortFacts.

(** X10. The sort of the results is a stable sort by falling score: the
    sorted list has the same results, scores never rise along it, and
    results of one score keep the order they had. *)
Theorem sortByScore_stable (l : list SimilarityResult) :
  Permutation (sortByScore l) l
  /\ StronglySorted descending (sortByScore l)
  /\ forall q,
      filter (fun r => Qeq_bool (overallScore r) q) (sortByScore l)
      = filter (fun r => Qeq_bool (overallScore r) q) l.
Proof.
  split; [apply Permutation_sortByScore|].
  split; [apply StronglySorted_sortByScore|].
  intros q. apply filter_sortByScore.
Qed.

End ExtraRanking.

Module ExtraPasses.
Import JSString Lexical Types Effects Engine PassSpec PassFacts.

(** X11. The text pass returns, leaves the state as it is, and returns
    exactly the records of the corpus whose text score reaches the text
    threshold, in the order of the corpus, each with the score of the
    target against its name. *)
Theorem analyzeTextSimilarity_exact (target : string)
        (trademarks : list Trademark) (w : World) :
  exists results,
    analyzeTextSimilarity target trademarks w = (Returns results, w)
    /\ map tr_trademark results
       = filter (textHit (thresholds w) target) trademarks
    /\ Forall (fun r =>
                 textSimilarityOf (normalizeText target)
                   (normalizeText (textPassName (tr_trademark r)))
                 = Some (tr_textSimilarity r)
                 /\ (Config.textSimilarity (thresholds w)
                     <= overall (tr_textSimilarity r))%Q
                 /\ (overall (tr_textSimilarity r) <= 1)%Q)
              results.
Proof.
  exists (flat_map (textStep w target) trademarks).
  split; [apply analyzeTextSimilarity_flat_map|].
  split; [apply textStep_trademarks|apply textStep_scores].
Qed.

(** X12. The phonetic pass returns, leaves the state as it is, and
    returns exactly the records whose phonetic score reaches the
    phonetic threshold, in the order of the corpus.  It reads
    [namaMerek] alone: a record without it scores 0 against every
    target whose phonetic code is not empty. *)
Theorem analyzePhoneticSimilarity_exact (target : string)
        (trademarks : list Trademark) (w : World) :
  (exists results,
      analyzePhoneticSimilarity target trademarks w = (Returns results, w)
      /\ map pr_trademark results
         = filter (phoneticHit (thresholds w) target) trademarks
      /\ Forall (fun r =>
                   score (pr_phoneticSimilarity r)
                   = phoneticScoreOf target (pr_trademark r)
                   /\ (Config.phoneticSimilarity (thresholds w)
                       <= score (pr_phoneticSimilarity r))%Q
                   /\ (score (pr_phoneticSimilarity r) <= 1)%Q)
                results)
  /\ forall t, tm_namaMerek t = None ->
               generatePhoneticCode target <> [] ->
               (phoneticScoreOf target t == 0)%Q.
Proof.
  split.
  - exists (flat_map (phoneticStep w target) trademarks).
    split; [apply analyzePhoneticSimilarity_flat_map|].
    split; [apply phoneticStep_trademarks|apply phoneticStep_scores].
  - intros t. apply phoneticScoreOf_unnamed.
Qed.

Lemma analyzePhoneticSimilarity_exact_witness :
  (phoneticScoreOf "cola"
     (mkTrademark None (Some "COLA"%string) None None None None None None)
   == 0)%Q.
Proof.
  apply (proj2 (analyzePhoneticSimilarity_exact
                  "cola"%string [] EngineExamples.startWorld)).
  - reflexivity.
  - vm_compute. discriminate.
Defined.

End ExtraPasses.

Module EmbeddingFacts.
Import JSString Lexical Types Effects VectorService Engine PassSpec.
Import EffectsSpec EffectsFacts VectorFacts EngineFacts DescriptionSpec.
Local Open Scope js_scope.

Lemma truncatedText_firstn (text : list ascii) :
  (if maxLength <? length text then substring 0 maxLength text else text)
  = firstn maxLength text.
Proof.
  destruct (Nat.ltb_spec maxLength (length text)) as [H|H].
  - unfold substring. rewrite Nat.sub_0_r. reflexivity.
  - symmetry. apply firstn_all2. exact H.
Qed.

Lemma randomVector_range (rt : Runtime) (w : World) :
  (forall n, (0 <= Math_random rt n)%Q /\ (Math_random rt n < 1)%Q) ->
  exists v,
    randomVector rt w
    = (Returns v, mkWorld (thresholds w) (embeddingCalls w)
                          (randomDraws w + fallbackDimensions))
    /\ length v = fallbackDimensions
    /\ Forall (fun x => (0 <= x)%Q /\ (x < 0.001)%Q) v.
Proof.
  intros Hr. eexists. split; [reflexivity|].
  split; [rewrite length_map, length_seq; reflexivity|].
  apply Forall_forall. intros x Hx. apply in_map_iff in Hx.
  destruct Hx as (k & <- & _).
  destruct (Hr (randomDraws w + k)) as (H0 & H1). split; lra.
Qed.

(** *** The cosine *)

Lemma Qmult_comm_eq (x y : Q) : (x * y)%Q = (y * x)%Q.
Proof.
  unfold Qmult. rewrite Z.mul_comm, Pos.mul_comm. reflexivity.
Qed.

Lemma cosineFold_swap (vec1 : list Q) :
  forall (vec2 : list Q) (d n1 n2 : Q),
    fold_left
      (fun (acc : Q * Q * Q) (xy : Q * Q) =>
         let '(dotProduct, norm1, norm2) := acc in
         ((dotProduct + fst xy * snd xy)%Q,
          (norm1 + fst xy * fst xy)%Q,
          (norm2 + snd xy * snd xy)%Q))
      (combine vec2 vec1) (d, n2, n1)
    = (let '(dotProduct, norm1, norm2) :=
         fold_left
           (fun (acc : Q * Q * Q) (xy : Q * Q) =>
              let '(dotProduct, norm1, norm2) := acc in
              ((dotProduct + fst xy * snd xy)%Q,
               (norm1 + fst xy * fst xy)%Q,
               (norm2 + snd xy * snd xy)%Q))
           (combine vec1 vec2) (d, n1, n2) in
       (dotProduct, norm2, norm1)).
Proof.
  induction vec1 as [|x v1 IH]; intros [|y v2] d n1 n2; try reflexivity.
  cbn [combine fold_left fst snd].
  rewrite (Qmult_comm_eq y x). apply IH.
Qed.

Lemma cosineSums_swap (vec1 vec2 : list Q) :
  cosineSums vec2 vec1
  = (let '(dotProduct, norm1, norm2) := cosineSums vec1 vec2 in
     (dotProduct, norm2, norm1)).
Proof. unfold cosineSums. apply cosineFold_swap. Qed.

Lemma calculateCosineSimilarity_sym (rt : Runtime) (vec1 vec2 : list Q) :
  calculateCosineSimilarity rt vec1 vec2
  = calculateCosineSimilarity rt vec2 vec1.
Proof.
  unfold calculateCosineSimilarity.
  rewrite (Nat.eqb_sym (length vec2)).
  destruct (negb _); [reflexivity|].
  rewrite (cosineSums_swap vec1 vec2).
  destruct (cosineSums vec1 vec2) as [[dotProduct norm1] norm2].
  rewrite (Qmult_comm_eq (Math_sqrt rt norm2)). reflexivity.
Qed.

Lemma calculateCosineSimilarity_pure (rt : Runtime) (vec1 vec2 : list Q)
      (w : World) :
  snd (calculateCosineSimilarity rt vec1 vec2 w) = w.
Proof.
  unfold calculateCosineSimilarity.
  destruct (negb _); [reflexivity|].
  destruct (cosineSums vec1 vec2) as [[dotProduct norm1] norm2].
  destruct (Qeq_bool _ _); reflexivity.
Qed.

Lemma calculateCosineSimilarity_outcome (rt : Runtime) (vec1 vec2 : list Q)
      (w : World) :
  (length vec1 <> length vec2 ->
   fst (calculateCosineSimilarity rt vec1 vec2 w)
   = Throws (Error "Vectors must have the same length"))
  /\ (length vec1 = length vec2 ->
      exists o, fst (calculateCosineSimilarity rt vec1 vec2 w) = Returns o).
Proof.
  unfold calculateCosineSimilarity. split; intros H.
  - apply Nat.eqb_neq in H. rewrite H. reflexivity.
  - apply Nat.eqb_eq in H. rewrite H. cbn [negb].
    destruct (cosineSums vec1 vec2) as [[dotProduct norm1] norm2].
    destruct (Qeq_bool _ _); eexists; reflexivity.
Qed.

(** *** The description pass *)

Lemma descBody_inv (rt : Runtime) (targetEmbedding : list Q)
      (t : Trademark) (results results' : list DescResult) (w w' : World) :
  descBody rt targetEmbedding t results w = (Returns results', w') ->
  embeddingCalls w' = embeddingCalls w + (if described t then 1 else 0)
  /\ thresholds w' = thresholds w
  /\ (results' = results
      \/ exists r, results' = results ++ [r] /\ dr_trademark r = t
                   /\ described t = true
                   /\ (Config.semanticSimilarity (thresholds w)
                       <= semantic (dr_descriptionSimilarity r))%Q).
Proof.
  unfold descBody, described. cbv zeta.
  destruct (0 <? length (trim (chars (descriptionOf t)))) eqn:Ed.
  - intros H. apply bind_Returns in H. destruct H as (v & w1 & E1 & H).
    destruct (generateEmbedding_returns rt (chars (descriptionOf t)) w)
      as (v' & w1' & E1' & Ht & Hc & _).
    rewrite E1 in E1'. inversion E1'; subst v' w1'. clear E1'.
    apply bind_Returns in H. destruct H as (s & w2 & E2 & H).
    pose proof (calculateCosineSimilarity_pure rt targetEmbedding v w1) as Hp.
    rewrite E2 in Hp. cbn [snd] in Hp. subst w2.
    apply bind_Returns in H. destruct H as (thr & w3 & E3 & H).
    unfold readThresholds in E3. inversion E3; subst thr w3. clear E3.
    assert (Hw : w' = w1).
    { destruct s as [s|]; [destruct (Qle_bool _ s)|];
        unfold ret in H; inversion H; reflexivity. }
    subst w'.
    split; [lia|]. split; [exact Ht|].
    destruct s as [s|].
    + destruct (Qle_bool _ s) eqn:Eq; unfold ret in H; inversion H; subst.
      * right. eexists. split; [reflexivity|].
        cbn [dr_trademark dr_descriptionSimilarity semantic].
        split; [reflexivity|]. split; [reflexivity|].
        rewrite <- Ht. apply Qle_bool_iff. exact Eq.
      * left. reflexivity.
    + unfold ret in H. inversion H. left. reflexivity.
  - unfold ret. intros H. inversion H; subst.
    split; [lia|]. split; [reflexivity|]. left. reflexivity.
Qed.

Lemma descLoop_inv (rt : Runtime) (targetEmbedding : list Q)
      (trademarks : list Trademark) :
  forall (results results' : list DescResult) (w w' : World),
    forOf trademarks (descBody rt targetEmbedding) results w
    = (Returns results', w') ->
    embeddingCalls w'
    = embeddingCalls w + length (filter described trademarks)
    /\ thresholds w' = thresholds w
    /\ exists added, results' = results ++ added
                     /\ Forall (DescOk w trademarks) added.
Proof.
  induction trademarks as [|t l IH]; intros results results' w w' H.
  - cbn [forOf] in H. unfold ret in H. inversion H; subst.
    cbn [filter length]. split; [lia|]. split; [reflexivity|].
    exists []. rewrite app_nil_r. auto.
  - cbn [forOf] in H. apply bind_Returns in H.
    destruct H as (mid & w1 & E1 & H).
    apply descBody_inv in E1. destruct E1 as (Hc1 & Ht1 & Hr1).
    apply IH in H. destruct H as (Hc & Ht & added & Ea & Hadded).
    assert (Hadded' : Forall (DescOk w (t :: l)) added).
    { apply Forall_forall. intros r Hr.
      destruct (proj1 (Forall_forall _ _) Hadded r Hr) as (Hin & Hd & Hq).
      split; [now right|]. split; [exact Hd|]. rewrite <- Ht1. exact Hq. }
    split.
    { cbn [filter]. destruct (described t); cbn [length]; lia. }
    split; [congruence|].
    destruct Hr1 as [->|(r & -> & Hrt & Hd & Hq)].
    + exists added. auto.
    + exists (r :: added). rewrite <- app_assoc in Ea. split; [exact Ea|].
      constructor; [|exact Hadded'].
      split; [left; symmetry; exact Hrt|]. rewrite Hrt. auto.
Qed.

Lemma analyzeDescriptionSimilarity_inv (rt : Runtime) (target : string)
      (trademarks : list Trademark) (w w' : World)
      (results : list DescResult) :
  analyzeDescriptionSimilarity rt target trademarks w = (Returns results, w') ->
  embeddingCalls w'
  = embeddingCalls w + 1 + length (filter described trademarks)
  /\ thresholds w' = thresholds w
  /\ Forall (DescOk w trademarks) results.
Proof.
  unfold analyzeDescriptionSimilarity. intros H.
  apply bind_Returns in H. destruct H as (v & w1 & E1 & H).
  destruct (generateEmbedding_returns rt (chars target) w)
    as (v' & w1' & E1' & Ht & Hc & _).
  rewrite E1 in E1'. inversion E1'; subst v' w1'. clear E1'.
  change (forOf trademarks (descBody rt v) [] w1 = (Returns results, w')) in H.
  apply descLoop_inv in H. destruct H as (Hc' & Ht' & added & Ea & Hadded).
  cbn [app] in Ea. subst added.
  split; [lia|]. split; [congruence|].
  apply Forall_forall. intros r Hr.
  destruct (proj1 (Forall_forall _ _) Hadded r Hr) as (Hin & Hd & Hq).
  split; [exact Hin|]. split; [exact Hd|]. rewrite <- Ht. exact Hq.
Qed.

End EmbeddingFacts.

Module RankingFacts.
Import JSString Lexical Types Effects VectorService Engine PassSpec.
Import EffectsSpec EffectsFacts VectorFacts EngineFacts FusionSpec FusionFacts.
Import SortFacts PassFacts EmbeddingFacts DescriptionSpec.
Local Open Scope js_scope.

(** *** The keys of the map *)

Lemma map_fst_mapModify (m : JSMap) (key : option string)
      (f : Combined -> Combined) :
  map fst (mapModify m key f) = map fst m.
Proof.
  induction m as [|[k v] m IH]; [reflexivity|]. cbn [mapModify].
  destruct (keyEqb k key); cbn [map fst]; [reflexivity|].
  rewrite IH. reflexivity.
Qed.

Lemma mapHas_false (m : JSMap) (key : option string) :
  mapHas m key = false -> ~ In key (map fst m).
Proof.
  induction m as [|[k v] m IH]; cbn [mapHas map fst In]; [tauto|].
  intros H. apply orb_false_iff in H. destruct H as (H1 & H2).
  intros [E|E]; [|exact (IH H2 E)].
  subst. rewrite keyEqb_refl in H1. discriminate.
Qed.

Lemma NoDup_keys_mapSet (m : JSMap) (key : option string) (v : Combined) :
  NoDup (map fst m) -> NoDup (map fst (mapSet m key v)).
Proof.
  intros H. unfold mapSet. destruct (mapHas m key) eqn:E.
  - rewrite map_fst_mapModify. exact H.
  - rewrite map_app. cbn [map fst].
    apply (Permutation_NoDup (Permutation_cons_append (map fst m) key)).
    constructor; [exact (mapHas_false m key E)|exact H].
Qed.

Lemma NoDup_keys_combinedMap (textResults : list TextResult)
      (descResults : list DescResult)
      (phoneticResults : list PhoneticResult) :
  NoDup (map fst (combinedMap textResults descResults phoneticResults)).
Proof.
  unfold combinedMap.
  assert (H1 : forall rs m, NoDup (map fst m) ->
                            NoDup (map fst (fold_left addTextResult rs m))).
  { induction rs as [|r rs IH]; intros m Hm; [exact Hm|].
    cbn [fold_left]. apply IH. apply NoDup_keys_mapSet. exact Hm. }
  assert (H2 : forall rs m, NoDup (map fst m) ->
                            NoDup (map fst (fold_left addDescResult rs m))).
  { induction rs as [|r rs IH]; intros m Hm; [exact Hm|].
    cbn [fold_left]. apply IH. unfold addDescResult. cbv zeta.
    destruct (mapHas m _);
      [rewrite map_fst_mapModify; exact Hm|apply NoDup_keys_mapSet; exact Hm]. }
  assert (H3 : forall rs m, NoDup (map fst m) ->
                            NoDup (map fst (fold_left addPhoneticResult rs m))).
  { induction rs as [|r rs IH]; intros m Hm; [exact Hm|].
    cbn [fold_left]. apply IH. unfold addPhoneticResult. cbv zeta.
    destruct (mapHas m _);
      [rewrite map_fst_mapModify; exact Hm|apply NoDup_keys_mapSet; exact Hm]. }
  apply H3, H2, H1. constructor.
Qed.

(** *** The records of the map *)

Lemma Holds_mapModify (S : Trademark -> Prop) (m : JSMap)
      (key : option string) (f : Combined -> Combined) :
  (forall e, trademark (f e) = trademark e) ->
  Holds S m -> Holds S (mapModify m key f).
Proof.
  intros Hf. induction m as [|[k v] m IH]; intros Hm; [exact Hm|].
  assert (Hm' : Holds S m) by (intros k' e H; apply (Hm k'); now right).
  cbn [mapModify]. destruct (keyEqb k key).
  - intros k' e [H|H].
    + injection H as <- <-. rewrite Hf. apply (Hm k v). now left.
    + apply (Hm k'). now right.
  - intros k' e [H|H].
    + apply (Hm k'). now left.
    + exact (IH Hm' k' e H).
Qed.

Lemma Holds_mapSet (S : Trademark -> Prop) (m : JSMap)
      (key : option string) (v : Combined) :
  S (trademark v) -> Holds S m -> Holds S (mapSet m key v).
Proof.
  intros Hv Hm. unfold mapSet. destruct (mapHas m key).
  - clear - Hv Hm. induction m as [|[k v'] m IH]; [exact Hm|].
    assert (Hm' : Holds S m) by (intros k' e H; apply (Hm k'); now right).
    cbn [mapModify]. destruct (keyEqb k key).
    + intros k' e [H|H].
      * injection H as <- <-. exact Hv.
      * apply (Hm k'). now right.
    + intros k' e [H|H].
      * apply (Hm k'). now left.
      * exact (IH Hm' k' e H).
  - intros k' e H. apply in_app_or in H. destruct H as [H|[H|[]]].
    + exact (Hm k' e H).
    + injection H as <- <-. exact Hv.
Qed.

Lemma Holds_combinedMap (S : Trademark -> Prop)
      (textResults : list TextResult) (descResults : list DescResult)
      (phoneticResults : list PhoneticResult) :
  Forall (fun r => S (tr_trademark r)) textResults ->
  Forall (fun r => S (dr_trademark r)) descResults ->
  Forall (fun r => S (pr_trademark r)) phoneticResults ->
  Holds S (combinedMap textResults descResults phoneticResults).
Proof.
  intros HT HD HP. unfold combinedMap.
  assert (H1 : forall rs, Forall (fun r => S (tr_trademark r)) rs ->
               forall m, Holds S m -> Holds S (fold_left addTextResult rs m)).
  { induction rs as [|r rs IH]; intros Hrs m Hm; [exact Hm|].
    inversion Hrs; subst. cbn [fold_left]. apply IH; [assumption|].
    unfold addTextResult. apply Holds_mapSet; [assumption|exact Hm]. }
  assert (H2 : forall rs, Forall (fun r => S (dr_trademark r)) rs ->
               forall m, Holds S m -> Holds S (fold_left addDescResult rs m)).
  { induction rs as [|r rs IH]; intros Hrs m Hm; [exact Hm|].
    inversion Hrs; subst. cbn [fold_left]. apply IH; [assumption|].
    unfold addDescResult. cbv zeta. destruct (mapHas m _).
    - apply Holds_mapModify; [reflexivity|exact Hm].
    - apply Holds_mapSet; [assumption|exact Hm]. }
  assert (H3 : forall rs, Forall (fun r => S (pr_trademark r)) rs ->
               forall m, Holds S m ->
                         Holds S (fold_left addPhoneticResult rs m)).
  { induction rs as [|r rs IH]; intros Hrs m Hm; [exact Hm|].
    inversion Hrs; subst. cbn [fold_left]. apply IH; [assumption|].
    unfold addPhoneticResult. cbv zeta. destruct (mapHas m _).
    - apply Holds_mapModify; [reflexivity|exact Hm].
    - apply Holds_mapSet; [assumption|exact Hm]. }
  apply H3; [exact HP|]. apply H2; [exact HD|]. apply H1; [exact HT|].
  intros k e [].
Qed.

(** *** Lists *)

(** Dropping results keeps their keys distinct. *)
Lemma NoDup_keys_filter (keep : SimilarityResult -> bool)
      (rs : list SimilarityResult) :
  NoDup (map resultKey rs) -> NoDup (map resultKey (filter keep rs)).
Proof.
  intros Hnd. induction rs as [|r rs IH]; [constructor|].
  cbn [map] in Hnd. apply NoDup_cons_iff in Hnd. destruct Hnd as (Hr & Hrs).
  cbn [filter]. destruct (keep r); [|exact (IH Hrs)].
  cbn [map]. apply NoDup_cons; [|exact (IH Hrs)].
  intros Hin. apply Hr. apply in_map_iff in Hin.
  destruct Hin as (x & E & Hx). apply filter_In in Hx.
  apply in_map_iff. exists x. tauto.
Qed.

Lemma NoDup_firstn_of {A} (n : nat) (l : list A) :
  NoDup l -> NoDup (firstn n l).
Proof.
  intros H. rewrite <- (firstn_skipn n l) in H.
  exact (NoDup_app_remove_r _ _ H).
Qed.

Lemma StronglySorted_firstn {A} (R : A -> A -> Prop) (n : nat) :
  forall l, StronglySorted R l -> StronglySorted R (firstn n l).
Proof.
  induction n as [|n IH]; intros l H; [constructor|].
  destruct l as [|a l]; [constructor|].
  inversion H as [|? ? Hl Ha]; subst. cbn [firstn].
  constructor; [exact (IH l Hl)|].
  apply Forall_forall. intros x Hx.
  exact (proj1 (Forall_forall _ _) Ha x (In_firstn x n l Hx)).
Qed.

Lemma resultKeys_combined (textResults : list TextResult)
      (descResults : list DescResult)
      (phoneticResults : list PhoneticResult) (target : string) :
  map resultKey
      (combineAndScoreResults target textResults descResults phoneticResults)
  = map fst (combinedMap textResults descResults phoneticResults).
Proof.
  unfold combineAndScoreResults, mapValues.
  pose proof (WellKeyed_combinedMap textResults descResults phoneticResults)
    as Hw.
  induction (combinedMap textResults descResults phoneticResults)
    as [|[k e] m IH]; [reflexivity|].
  cbn [map fst snd]. f_equal.
  - unfold resultKey, scoreItem. cbn [item]. apply (Hw k e). now left.
  - apply IH. intros k' e' H. apply (Hw k' e'). now right.
Qed.

(** *** The passes behind a result *)

Lemma analyzeSimilarity_passes (rt : Runtime) (target : string)
      (options : Options) (allTrademarks : list Trademark)
      (w : World) (a : Analysis) :
  returned (analyzeSimilarity rt target options allTrademarks w) = Some a ->
  exists T D P,
    similarTrademarks a
    = slice0
        (sortByScore
           (filter (fun result =>
                      Qle_bool (Config.overallSimilarity (thresholds w))
                               (overallScore result))
                   (combineAndScoreResults target T D P)))
        (withDefault 20%Z (topK options))
    /\ Forall (fun r => In (tr_trademark r) allTrademarks) T
    /\ Forall (fun r => In (dr_trademark r) allTrademarks) D
    /\ Forall (fun r => In (pr_trademark r) allTrademarks) P
    /\ (withDefault true (includePhonetic options) = false -> P = []).
Proof.
  unfold returned, analyzeSimilarity. rewrite tryCatch_rethrow.
  match goal with |- context [fst (?c w)] => destruct (c w) as [o w'] eqn:E end.
  cbn [fst]. destruct o as [a'| |]; try discriminate.
  intros H. inversion H; subst a'. clear H.
  apply bind_Returns in E. destruct E as (T & w1 & E1 & E).
  apply bind_Returns in E. destruct E as (D & w2 & E2 & E).
  apply bind_Returns in E. destruct E as (P & w3 & E3 & E).
  apply bind_Returns in E. destruct E as (thr & w4 & E4 & E).
  unfold readThresholds in E4. inversion E4; subst thr w4. clear E4.
  unfold ret in E. inversion E; subst. clear E.
  rewrite analyzeTextSimilarity_flat_map in E1. inversion E1; subst T w1.
  clear E1.
  apply analyzeDescriptionSimilarity_inv in E2.
  destruct E2 as (_ & Ht2 & HD).
  assert (HP : thresholds w' = thresholds w2
               /\ Forall (fun r => In (pr_trademark r) allTrademarks) P
               /\ (withDefault true (includePhonetic options) = false
                   -> P = [])).
  { destruct (withDefault true (includePhonetic options)).
    - rewrite analyzePhoneticSimilarity_flat_map in E3.
      inversion E3; subst. split; [reflexivity|]. split; [|discriminate].
      apply Forall_forall. intros r Hr.
      assert (Hin : In (pr_trademark r)
                       (map pr_trademark
                            (flat_map (phoneticStep w' target) allTrademarks)))
        by (apply in_map; exact Hr).
      rewrite phoneticStep_trademarks in Hin. apply filter_In in Hin. tauto.
    - unfold ret in E3. inversion E3; subst. auto. }
  destruct HP as (Ht3 & HP & HP').
  exists (flat_map (textStep w target) allTrademarks), D, P.
  cbn [similarTrademarks]. rewrite Ht3, Ht2.
  split; [reflexivity|]. split.
  { apply Forall_forall. intros r Hr.
    assert (Hin : In (tr_trademark r)
                     (map tr_trademark
                          (flat_map (textStep w target) allTrademarks)))
      by (apply in_map; exact Hr).
    rewrite textStep_trademarks in Hin. apply filter_In in Hin. tauto. }
  split.
  { apply Forall_forall. intros r Hr.
    exact (proj1 (proj1 (Forall_forall _ _) HD r Hr)). }
  split; [exact HP|exact HP'].
Qed.

Lemma analyzeSimilarity_ranked (rt : Runtime) (target : string)
      (options : Options) (allTrademarks : list Trademark)
      (w : World) (a : Analysis) :
  returned (analyzeSimilarity rt target options allTrademarks w) = Some a ->
  StronglySorted descending (similarTrademarks a)
  /\ NoDup (map resultKey (similarTrademarks a))
  /\ Forall (fun r => In (trademark (item r)) allTrademarks)
            (similarTrademarks a).
Proof.
  intros H. destruct (analyzeSimilarity_passes _ _ _ _ _ _ H)
    as (T & D & P & E & HT & HD & HP & _).
  rewrite E. unfold slice0. cbv zeta.
  set (n := Z.to_nat _).
  set (p := fun result => Qle_bool _ (overallScore result)).
  split; [apply StronglySorted_firstn, StronglySorted_sortByScore|].
  split.
  - rewrite <- firstn_map. apply NoDup_firstn_of.
    apply (Permutation_NoDup
             (Permutation_map resultKey
                (Permutation_sym (Permutation_sortByScore _)))).
    apply NoDup_keys_filter. rewrite resultKeys_combined.
    apply NoDup_keys_combinedMap.
  - apply Forall_forall. intros r Hr.
    apply In_firstn, In_sortByScore, filter_In in Hr.
    destruct Hr as (Hr & _). unfold combineAndScoreResults, mapValues in Hr.
    apply in_map_iff in Hr. destruct Hr as (e & <- & He).
    apply in_map_iff in He. destruct He as ([k e'] & <- & He).
    cbn [snd scoreItem item].
    exact (Holds_combinedMap (fun t => In t allTrademarks) T D P HT HD HP
                             k e' He).
Qed.

End RankingFacts.

Module AdminFacts.
Import Effects Controller AdminSpec ControllerFacts.

Lemma validNumber_unit (v : option Q) (q : Q) :
  validNumber v = true -> v = Some q -> UnitInterval q.
Proof.
  intros H ->. cbn [validNumber] in H. apply andb_true_iff in H.
  destruct H as (H0 & H1). apply Qle_bool_iff in H0, H1. split; assumption.
Qed.

Lemma withDefault_unit (d : Q) (v : option Q) :
  UnitInterval d -> validNumber v = true ->
  UnitInterval (Engine.withDefault d v).
Proof.
  intros Hd Hv. destruct v as [q|]; [|exact Hd].
  exact (validNumber_unit (Some q) q Hv eq_refl).
Qed.

Lemma updateThresholds_InUnit (body : option ThresholdsPatch) (w : World) :
  InUnit (thresholds w) ->
  InUnit (thresholds (snd (updateThresholds body w))).
Proof.
  intros (H1 & H2 & H3 & H4). unfold updateThresholds, validate.
  destruct body as [p|]; [|exact (conj H1 (conj H2 (conj H3 H4)))].
  destruct (validNumber (p_textSimilarity p)) eqn:E1;
    [|exact (conj H1 (conj H2 (conj H3 H4)))].
  destruct (validNumber (p_phoneticSimilarity p)) eqn:E2;
    [|exact (conj H1 (conj H2 (conj H3 H4)))].
  destruct (validNumber (p_semanticSimilarity p)) eqn:E3;
    [|exact (conj H1 (conj H2 (conj H3 H4)))].
  destruct (validNumber (p_overallSimilarity p)) eqn:E4;
    [|exact (conj H1 (conj H2 (conj H3 H4)))].
  cbn [andb snd thresholds]. unfold assign, InUnit.
  cbn [Config.textSimilarity Config.phoneticSimilarity
       Config.semanticSimilarity Config.overallSimilarity].
  split; [apply withDefault_unit; assumption|].
  split; [apply withDefault_unit; assumption|].
  split; apply withDefault_unit; assumption.
Qed.

Lemma updateThresholds_counters (body : option ThresholdsPatch) (w : World) :
  embeddingCalls (snd (updateThresholds body w)) = embeddingCalls w
  /\ randomDraws (snd (updateThresholds body w)) = randomDraws w.
Proof.
  unfold updateThresholds. destruct (validate body); split; reflexivity.
Qed.

Lemma afterRequests_InUnit (bodies : list (option ThresholdsPatch)) :
  forall w, InUnit (thresholds w) ->
            InUnit (thresholds (afterRequests bodies w))
            /\ embeddingCalls (afterRequests bodies w) = embeddingCalls w
            /\ randomDraws (afterRequests bodies w) = randomDraws w.
Proof.
  unfold afterRequests.
  induction bodies as [|b l IH]; intros w H; cbn [fold_left]; [auto|].
  destruct (IH _ (updateThresholds_InUnit b w H)) as (I1 & I2 & I3).
  destruct (updateThresholds_counters b w) as (C1 & C2).
  split; [exact I1|]. split; congruence.
Qed.

Lemma withDefault_twice {A} (d : A) (v : option A) :
  Engine.withDefault (Engine.withDefault d v) v = Engine.withDefault d v.
Proof. destruct v; reflexivity. Qed.

Lemma updateThresholds_twice (body : option ThresholdsPatch) (w : World) :
  updateThresholds body (snd (updateThresholds body w))
  = updateThresholds body w.
Proof.
  unfold updateThresholds. destruct (validate body) as [p|] eqn:E.
  - cbn [snd thresholds embeddingCalls randomDraws]. unfold assign.
    cbn [Config.textSimilarity Config.phoneticSimilarity
         Config.semanticSimilarity Config.overallSimilarity].
    rewrite !withDefault_twice. reflexivity.
  - reflexivity.
Qed.

End AdminFacts.

Module ExtraEngine.
Import JSString Lexical Types Effects VectorService Engine PassSpec.
Import EffectsSpec EngineExamples EmbeddingFacts RankingFacts.

(** X13. When the description pass returns, it has sent one request to
    the embedding provider for the target and one for each record of
    the corpus whose description is not blank, and none for the others;
    the thresholds are as before; and each result is a record of the
    corpus with a description and a semantic score at or above the
    semantic threshold. *)
Theorem analyzeDescriptionSimilarity_accounting (rt : Runtime)
        (target : string) (trademarks : list Trademark) (w w' : World)
        (results : list DescResult) :
  analyzeDescriptionSimilarity rt target trademarks w = (Returns results, w') ->
  embeddingCalls w'
  = embeddingCalls w + 1 + length (filter described trademarks)
  /\ thresholds w' = thresholds w
  /\ Forall (fun r =>
               In (dr_trademark r) trademarks
               /\ described (dr_trademark r) = true
               /\ (Config.semanticSimilarity (thresholds w)
                   <= semantic (dr_descriptionSimilarity r))%Q)
            results.
Proof. apply analyzeDescriptionSimilarity_inv. Qed.

Lemma analyzeDescriptionSimilarity_accounting_witness :
  exists results w',
    analyzeDescriptionSimilarity answeringRuntime "cola"
                                 [colaDescribed; colaOne] startWorld
    = (Returns results, w')
    /\ embeddingCalls w' = 2.
Proof.
  eexists. eexists. split; [vm_compute; reflexivity|].
  refine (proj1 (analyzeDescriptionSimilarity_accounting answeringRuntime
                   "cola"%string [colaDescribed; colaOne] startWorld _ _ _)).
  vm_compute. reflexivity.
Defined.

(** X14. [generateEmbedding] sends the provider the first 8000
    characters of the text, counts one request, and returns on every
    outcome: with the vector of the provider, drawing no random number,
    or, when the request fails, with 1536 fresh draws scaled into
    [0, 0.001). *)
Theorem generateEmbedding_truncates_and_falls_back (rt : Runtime)
        (text : list ascii) (w : World) :
  (forall n, (0 <= Math_random rt n)%Q /\ (Math_random rt n < 1)%Q) ->
  exists v w',
    generateEmbedding rt text w = (Returns v, w')
    /\ thresholds w' = thresholds w
    /\ embeddingCalls w' = S (embeddingCalls w)
    /\ match embeddingsCreate rt (embeddingCalls w) (firstn maxLength text) with
       | Some embedding => v = embedding /\ randomDraws w' = randomDraws w
       | None => length v = fallbackDimensions
                 /\ randomDraws w' = randomDraws w + fallbackDimensions
                 /\ Forall (fun x => (0 <= x)%Q /\ (x < 0.001)%Q) v
       end.
Proof.
  intros Hr. unfold generateEmbedding, tryCatch, createEmbedding.
  cbv zeta. rewrite truncatedText_firstn.
  destruct (embeddingsCreate rt (embeddingCalls w) (firstn maxLength text))
    as [v|] eqn:E.
  - exists v. eexists. split; [reflexivity|]. cbn [thresholds embeddingCalls
                                                   randomDraws]. auto.
  - destruct (randomVector_range rt
                (mkWorld (thresholds w) (S (embeddingCalls w)) (randomDraws w))
                Hr) as (v & Ev & Hl & Hv).
    exists v. eexists. split; [exact Ev|].
    cbn [thresholds embeddingCalls randomDraws]. auto.
Qed.

Lemma generateEmbedding_truncates_and_falls_back_witness :
  exists v w',
    generateEmbedding failingRuntime (chars "cola") startWorld
    = (Returns v, w')
    /\ length v = fallbackDimensions
    /\ Forall (fun x => (0 <= x)%Q /\ (x < 0.001)%Q) v.
Proof.
  assert (Hr : forall n, (0 <= Math_random failingRuntime n)%Q
                         /\ (Math_random failingRuntime n < 1)%Q).
  { intros n. cbn. split; [discriminate|reflexivity]. }
  destruct (generateEmbedding_truncates_and_falls_back
              failingRuntime (chars "cola") startWorld Hr)
    as (v & w' & E & _ & _ & Hl & _ & Hv).
  exists v, w'. split; [exact E|]. split; [exact Hl|exact Hv].
Defined.

(** X15. The cosine of two vectors does not depend on their order.  The
    call throws exactly when the vectors differ in length, returns
    otherwise, and leaves the state as it is. *)
Theorem calculateCosineSimilarity_symmetric (rt : Runtime)
        (vec1 vec2 : list Q) (w : World) :
  calculateCosineSimilarity rt vec1 vec2 w
  = calculateCosineSimilarity rt vec2 vec1 w
  /\ snd (calculateCosineSimilarity rt vec1 vec2 w) = w
  /\ (length vec1 <> length vec2 ->
      fst (calculateCosineSimilarity rt vec1 vec2 w)
      = Throws (Error "Vectors must have the same length"))
  /\ (length vec1 = length vec2 ->
      exists o, fst (calculateCosineSimilarity rt vec1 vec2 w) = Returns o).
Proof.
  split; [rewrite calculateCosineSimilarity_sym; reflexivity|].
  split; [apply calculateCosineSimilarity_pure|].
  apply calculateCosineSimilarity_outcome.
Qed.

Lemma calculateCosineSimilarity_symmetric_witness :
  fst (calculateCosineSimilarity answeringRuntime [1%Q] [1%Q; 0%Q] startWorld)
  = Throws (Error "Vectors must have the same length")
  /\ exists o,
      fst (calculateCosineSimilarity answeringRuntime [1%Q; 0%Q] [1%Q; 0%Q]
                                     startWorld) = Returns o.
Proof.
  split.
  - apply (proj1 (proj2 (proj2 (calculateCosineSimilarity_symmetric
                                  answeringRuntime [1%Q] [1%Q; 0%Q]
                                  startWorld)))).
    cbn. lia.
  - apply (proj2 (proj2 (proj2 (calculateCosineSimilarity_symmetric
                                  answeringRuntime [1%Q; 0%Q] [1%Q; 0%Q]
                                  startWorld)))).
    reflexivity.
Defined.

(** X16. The results that [analyzeSimilarity] returns are ranked: the
    overall scores never rise along the list (so the first result has
    the highest score), no two results have the same key, each result
    is a record of the corpus, and there are never more results than
    records compared. *)
Theorem analyzeSimilarity_ranking (rt : Runtime) (target : string)
        (options : Options) (allTrademarks : list Trademark)
        (w : World) (a : Analysis) :
  returned (analyzeSimilarity rt target options allTrademarks w) = Some a ->
  StronglySorted descending (similarTrademarks a)
  /\ NoDup (map resultKey (similarTrademarks a))
  /\ Forall (fun r => In (trademark (item r)) allTrademarks)
            (similarTrademarks a)
  /\ length (similarTrademarks a) <= totalCompared a.
Proof.
  intros H.
  destruct (analyzeSimilarity_ranked _ _ _ _ _ _ H) as (H1 & H2 & H3).
  split; [exact H1|]. split; [exact H2|]. split; [exact H3|].
  destruct (EngineFacts.analyzeSimilarity_inv _ _ _ _ _ _ H)
    as (_ & _ & _ & ->).
  rewrite <- (length_map resultKey), <- (length_map keyOf allTrademarks).
  apply NoDup_incl_length; [exact H2|].
  intros k Hk. apply in_map_iff in Hk. destruct Hk as (r & <- & Hr).
  unfold resultKey. apply in_map. exact (proj1 (Forall_forall _ _) H3 r Hr).
Qed.

Lemma analyzeSimilarity_ranking_witness :
  exists a,
    returned (analyzeSimilarity answeringRuntime "cola" defaultOptions
                                [colaOne; colaTwo] startWorld) = Some a
    /\ StronglySorted descending (similarTrademarks a)
    /\ NoDup (map resultKey (similarTrademarks a)).
Proof.
  eexists. split; [vm_compute; reflexivity|].
  refine ((fun H => conj (proj1 H) (proj1 (proj2 H)))
            (analyzeSimilarity_ranking answeringRuntime
               "cola"%string defaultOptions [colaOne; colaTwo]
               startWorld _ _)).
  vm_compute. reflexivity.
Defined.

End ExtraEngine.

Module ExtraAdmin.
Import Effects Controller AdminSpec AdminFacts.

(** X17. The thresholds stay between 0 and 1: when they are (as the
    ones the constructor sets are), they still are after any sequence
    of requests to [updateThresholds], accepted or rejected, and the
    counters of the engine are not touched.  A request sent twice
    leaves the state and the answer of the request sent once. *)
Theorem updateThresholds_keeps_unit_interval
        (bodies : list (option ThresholdsPatch)) (w : World) :
  InUnit (thresholds w) ->
  InUnit (thresholds (afterRequests bodies w))
  /\ embeddingCalls (afterRequests bodies w) = embeddingCalls w
  /\ randomDraws (afterRequests bodies w) = randomDraws w
  /\ forall body w0,
      updateThresholds body (snd (updateThresholds body w0))
      = updateThresholds body w0.
Proof.
  intros H. destruct (afterRequests_InUnit bodies w H) as (H1 & H2 & H3).
  split; [exact H1|]. split; [exact H2|]. split; [exact H3|].
  exact updateThresholds_twice.
Qed.

Lemma updateThresholds_keeps_unit_interval_witness :
  InUnit Config.initial
  /\ InUnit (thresholds
               (afterRequests
                  [Some (mkThresholdsPatch None None None (Some 0.5%Q));
                   Some (mkThresholdsPatch (Some 2%Q) None None None);
                   None]
                  (mkWorld Config.initial 0 0))).
Proof.
  assert (H : InUnit Config.initial).
  { unfold InUnit, UnitInterval. cbn. repeat split; discriminate. }
  split; [exact H|].
  exact (proj1 (updateThresholds_keeps_unit_interval
                  [Some (mkThresholdsPatch None None None (Some 0.5%Q));
                   Some (mkThresholdsPatch (Some 2%Q) None None None);
                   None]
                  (mkWorld Config.initial 0 0) H)).
Defined.

End ExtraAdmin.

Module TrimFacts.
Import JSString NormalFormSpec NormalizeFacts OccurrenceSpec.

Lemma dropWhile_split (p : ascii -> bool) (l : list ascii) :
  exists pre, l = pre ++ dropWhile p l /\ forallb p pre = true.
Proof.
  induction l as [|c l (pre & E & H)]; [exists []; auto|].
  cbn [dropWhile]. destruct (p c) eqn:Ec.
  - exists (c :: pre). cbn [app forallb]. rewrite Ec, H. split; [|reflexivity].
    f_equal. exact E.
  - exists []. auto.
Qed.

Lemma forallb_rev (p : ascii -> bool) (l : list ascii) :
  forallb p l = true -> forallb p (rev l) = true.
Proof.
  rewrite !forallb_forall. intros H x Hx. apply H. apply in_rev. exact Hx.
Qed.

(** [trim] takes white space away from both ends, and nothing else. *)
Lemma trim_split (l : list ascii) :
  exists p1 p2, l = p1 ++ trim l ++ p2
                /\ forallb isSpace p1 = true /\ forallb isSpace p2 = true.
Proof.
  unfold trim, trimStart.
  destruct (dropWhile_split isSpace l) as (p1 & E1 & H1).
  set (y := dropWhile isSpace l) in *. unfold trimEnd.
  destruct (dropWhile_split isSpace (rev y)) as (q & E2 & H2).
  exists p1, (rev q). split; [|split; [exact H1|apply forallb_rev; exact H2]].
  rewrite <- rev_app_distr, <- E2, rev_involutive. exact E1.
Qed.

Lemma trim_clean (l : list ascii) :
  startsClean (trim l) = true /\ endsClean (trim l) = true.
Proof.
  unfold trim. split; [|apply endsClean_trimEnd].
  destruct (trimEnd_prefix (trimStart l)) as (suf & E).
  apply (startsClean_prefix _ suf). rewrite <- E. apply startsClean_trimStart.
Qed.

Lemma trim_trim (l : list ascii) : trim (trim l) = trim l.
Proof. destruct (trim_clean l). apply trim_fixed; assumption. Qed.

Lemma length_trim (l : list ascii) : length (trim l) <= length l.
Proof.
  destruct (trim_split l) as (p1 & p2 & E & _).
  rewrite E at 2. rewrite !length_app. lia.
Qed.

Lemma Occurs_trim (l : list ascii) : Occurs (trim l) l.
Proof. destruct (trim_split l) as (p1 & p2 & E & _). exists p1, p2. exact E. Qed.

Lemma Occurs_trans (a b c : list ascii) :
  Occurs a b -> Occurs b c -> Occurs a c.
Proof.
  intros (p1 & s1 & E1) (p2 & s2 & E2). exists (p2 ++ p1), (s1 ++ s2).
  rewrite E2, E1, <- !app_assoc. reflexivity.
Qed.

End TrimFacts.

Module ChunkFacts.
Import JSString Document NormalFormSpec NormalizeFacts OccurrenceSpec
       OccurrenceFacts ChunkSpec TrimFacts DocumentFacts.

Lemma windowEnd_upper (text : list ascii) (start : Z) :
  (0 <= start -> windowEnd text start <= start + 2001)%Z.
Proof.
  intros H. unfold windowEnd, chunkSize. cbv zeta.
  pose proof (lastIndexOf_le "." text (Z.to_nat (start + 2000))).
  pose proof (lastIndexOf_le "!" text (Z.to_nat (start + 2000))).
  pose proof (lastIndexOf_le "?" text (Z.to_nat (start + 2000))).
  pose proof (lastIndexOf_le " " text (Z.to_nat (start + 2000))).
  destruct (start + 2000 <? Z.of_nat (length text))%Z; [|lia].
  destruct (_ <? _)%Z; [lia|]. destruct (_ <? _)%Z; lia.
Qed.

Lemma Occurs_slice (text : list ascii) (start end_ : Z) :
  Occurs (slice text start end_) text.
Proof. unfold slice. apply Occurs_firstn_skipn. Qed.

Lemma length_slice (text : list ascii) (start end_ : Z) :
  length (slice text start end_) <= Z.to_nat (end_ - start).
Proof. unfold slice. rewrite length_firstn. lia. Qed.

Lemma Clean_trim (l : list ascii) :
  (0 <? length (trim l)) = true -> Clean (trim l).
Proof.
  intros H. apply Nat.ltb_lt in H. split; [exact H|apply trim_trim].
Qed.

Lemma Window_chunk (text : list ascii) (start : Z) :
  (0 <= start)%Z ->
  (0 <? length (trim (slice text start (windowEnd text start)))) = true ->
  Window text (trim (slice text start (windowEnd text start))).
Proof.
  intros H0 H. split; [exact (Clean_trim _ H)|]. split.
  - pose proof (length_trim (slice text start (windowEnd text start))).
    pose proof (length_slice text start (windowEnd text start)).
    pose proof (windowEnd_upper text start H0). lia.
  - exact (Occurs_trans _ _ _ (Occurs_trim _) (Occurs_slice _ _ _)).
Qed.

Lemma nextStart_nonneg (text : list ascii) (start : Z) :
  (0 <= nextStart text start)%Z.
Proof.
  unfold nextStart. cbv zeta.
  destruct (Z.ltb_spec (windowEnd text start - chunkOverlap) 0); lia.
Qed.

Lemma nextStart_le_end (text : list ascii) (start : Z) :
  (0 <= start -> nextStart text start <= windowEnd text start)%Z.
Proof.
  intros H. unfold nextStart, chunkOverlap. cbv zeta.
  pose proof (windowEnd_lower text start).
  destruct (Z.ltb_spec (windowEnd text start - 400) 0); lia.
Qed.

(** The loop adds chunks to the ones it has, and the ones it adds are
    windows of the text. *)
Lemma chunkLoop_adds (fuel : nat) :
  forall (text : list ascii) (start : Z) (chunks result : list (list ascii)),
    (0 <= start)%Z ->
    chunkLoop fuel text start chunks = Some result ->
    exists more, result = chunks ++ more /\ Forall (Window text) more.
Proof.
  induction fuel as [|fuel IH]; intros text start chunks result H0 H;
    cbn [chunkLoop] in H.
  - destruct (start <? Z.of_nat (length text))%Z; [discriminate|].
    injection H as <-. exists []. rewrite app_nil_r. auto.
  - destruct (start <? Z.of_nat (length text))%Z.
    2:{ injection H as <-. exists []. rewrite app_nil_r. auto. }
    cbv zeta in H.
    apply IH in H; [|apply nextStart_nonneg].
    destruct H as (more & E & Hm).
    destruct (0 <? length (trim (slice text start (windowEnd text start))))
             eqn:Ec.
    + exists (trim (slice text start (windowEnd text start)) :: more).
      rewrite <- app_assoc in E. split; [exact E|].
      constructor; [exact (Window_chunk text start H0 Ec)|exact Hm].
    + exists more. auto.
Qed.

(** *** Coverage *)

Lemma forallb_nth_error (p : ascii -> bool) (l : list ascii) (i : nat)
      (c : ascii) :
  forallb p l = true -> nth_error l i = Some c -> p c = true.
Proof.
  intros H E. apply nth_error_In in E.
  exact (proj1 (forallb_forall _ _) H c E).
Qed.

(** A character that is not white space survives [trim]. *)
Lemma trim_keeps (l : list ascii) (j : nat) (c : ascii) :
  nth_error l j = Some c -> isSpace c = false -> ChunkAt l (trim l) j.
Proof.
  intros E Hc. destruct (trim_split l) as (p1 & p2 & El & H1 & H2).
  exists p1, p2. split; [exact El|].
  rewrite El in E.
  destruct (Nat.lt_ge_cases j (length p1)) as [Hj|Hj].
  { rewrite nth_error_app1 in E by exact Hj.
    rewrite (forallb_nth_error _ _ _ _ H1 E) in Hc. discriminate. }
  split; [exact Hj|].
  rewrite nth_error_app2 in E by exact Hj.
  destruct (Nat.lt_ge_cases (j - length p1) (length (trim l))) as [Hk|Hk];
    [lia|].
  rewrite nth_error_app2 in E by exact Hk.
  rewrite (forallb_nth_error _ _ _ _ H2 E) in Hc. discriminate.
Qed.

Lemma ChunkAt_slice (text : list ascii) (s n i : nat) (chunk : list ascii) :
  s <= i -> s <= length text ->
  ChunkAt (firstn n (skipn s text)) chunk (i - s) ->
  ChunkAt text chunk i.
Proof.
  intros Hs Hl (pre & suf & E & Hi).
  exists (firstn s text ++ pre), (suf ++ skipn n (skipn s text)).
  split.
  - rewrite <- (firstn_skipn s text) at 1.
    rewrite <- (firstn_skipn n (skipn s text)) at 1.
    rewrite E, <- !app_assoc. reflexivity.
  - rewrite length_app, length_firstn. lia.
Qed.

Lemma window_covers (text : list ascii) (start : Z) (i : nat) (c : ascii) :
  (0 <= start)%Z -> (start <= Z.of_nat i < windowEnd text start)%Z ->
  nth_error text i = Some c -> isSpace c = false ->
  ChunkAt text (trim (slice text start (windowEnd text start))) i
  /\ (0 <? length (trim (slice text start (windowEnd text start)))) = true.
Proof.
  intros H0 Hi E Hc.
  assert (Hlen : i < length text).
  { apply nth_error_Some. congruence. }
  assert (Ex : nth_error (slice text start (windowEnd text start))
                         (i - Z.to_nat start) = Some c).
  { unfold slice. rewrite nth_error_firstn.
    replace (i - Z.to_nat start <? Z.to_nat (windowEnd text start - start))
      with true by (symmetry; apply Nat.ltb_lt; lia).
    rewrite nth_error_skipn.
    replace (Z.to_nat start + (i - Z.to_nat start)) with i by lia.
    exact E. }
  pose proof (trim_keeps _ _ _ Ex Hc) as Hk.
  split.
  - unfold slice in *.
    apply (ChunkAt_slice text (Z.to_nat start)
                         (Z.to_nat (windowEnd text start - start)) i);
      [lia|lia|exact Hk].
  - apply Nat.ltb_lt. destruct Hk as (pre & suf & _ & Hj). lia.
Qed.

Lemma chunkLoop_covers (fuel : nat) :
  forall (text : list ascii) (start : Z) (chunks result : list (list ascii))
         (i : nat) (c : ascii),
    (0 <= start)%Z ->
    chunkLoop fuel text start chunks = Some result ->
    (start <= Z.of_nat i)%Z ->
    nth_error text i = Some c -> isSpace c = false ->
    exists chunk, In chunk result /\ ChunkAt text chunk i.
Proof.
  induction fuel as [|fuel IH]; intros text start chunks result i c H0 H Hi E Hc;
    assert (Hlen : i < length text) by (apply nth_error_Some; congruence);
    cbn [chunkLoop] in H.
  - destruct (Z.ltb_spec start (Z.of_nat (length text))); [discriminate|lia].
  - destruct (Z.ltb_spec start (Z.of_nat (length text))); [|lia].
    cbv zeta in H.
    destruct (Z.lt_ge_cases (Z.of_nat i) (windowEnd text start)) as [Hw|Hw].
    + destruct (window_covers text start i c H0 (conj Hi Hw) E Hc)
        as (Hat & Hne).
      rewrite Hne in H.
      apply chunkLoop_adds in H; [|apply nextStart_nonneg].
      destruct H as (more & -> & _).
      exists (trim (slice text start (windowEnd text start))).
      split; [|exact Hat].
      apply in_or_app. left. apply in_or_app. right. now left.
    + apply (IH _ _ _ _ i c (nextStart_nonneg text start) H);
        [|exact E|exact Hc].
      pose proof (nextStart_le_end text start H0). lia.
Qed.

(** *** The pieces between field codes *)

Lemma concat_splitOnFieldCodes (l : list ascii) :
  forall current, concat (splitOnFieldCodes l current) = rev current ++ l.
Proof.
  induction l as [|c l IH]; intros current; cbn [splitOnFieldCodes].
  - cbn. rewrite app_nil_r. reflexivity.
  - destruct (fieldCodeAhead (c :: l) && (0 <? length current)).
    + cbn [concat]. rewrite IH. reflexivity.
    + rewrite IH. cbn [rev]. rewrite <- app_assoc. reflexivity.
Qed.

Lemma splitOnFieldCodes_nonempty (l : list ascii) :
  forall current, (0 < length current \/ 0 < length l) ->
                  Forall (fun piece => 0 < length piece)
                         (splitOnFieldCodes l current).
Proof.
  induction l as [|c l IH]; intros current H; cbn [splitOnFieldCodes].
  - constructor; [|constructor]. rewrite length_rev.
    destruct H as [H|H]; [exact H|cbn in H; lia].
  - destruct (fieldCodeAhead (c :: l) && (0 <? length current)) eqn:E.
    + apply andb_true_iff in E. destruct E as (_ & E).
      apply Nat.ltb_lt in E.
      constructor; [rewrite length_rev; exact E|].
      apply IH. left. cbn. lia.
    + apply IH. left. cbn. lia.
Qed.

Lemma isLetter_isDigit (c : ascii) : isLetter c = true -> isDigit c = false.
Proof.
  unfold isLetter, isDigit, inRange. intros H.
  apply andb_false_iff. rewrite !Nat.leb_gt.
  apply orb_true_iff in H.
  destruct H as [H|H]; apply andb_true_iff in H; destruct H as (H1 & H2);
    apply Nat.leb_le in H1, H2; lia.
Qed.

(** A field code at the head of a text of which [k] characters have
    been read, [1 <= k <= 3]: no field code stands at the next
    character. *)
Lemma fieldCodeAhead_inside (current l : list ascii) :
  0 < length current < 4 ->
  fieldCodeAhead (rev current ++ l) = true -> fieldCodeAhead l = false.
Proof.
  intros Hlen H.
  destruct current as [|x1 [|x2 [|x3 [|x4 r]]]]; cbn [length] in Hlen;
    try lia; cbn [rev app] in H.
  - destruct l as [|b [|c [|d l]]]; try discriminate H.
    cbn [fieldCodeAhead] in H. rewrite !andb_true_iff in H.
    destruct H as (((_ & _) & _) & Hd).
    destruct l as [|e l]; [reflexivity|]. cbn [fieldCodeAhead].
    rewrite (isLetter_isDigit d Hd), !andb_false_r. reflexivity.
  - destruct l as [|c [|d l]]; try discriminate H.
    cbn [fieldCodeAhead] in H. rewrite !andb_true_iff in H.
    destruct H as (((_ & _) & _) & Hd).
    destruct l as [|e [|f l]]; try reflexivity. cbn [fieldCodeAhead].
    rewrite (isLetter_isDigit d Hd), !andb_false_r. reflexivity.
  - destruct l as [|d l]; try discriminate H.
    cbn [fieldCodeAhead] in H. rewrite !andb_true_iff in H.
    destruct H as (((_ & _) & _) & Hd).
    destruct l as [|e [|f [|g l]]]; try reflexivity. cbn [fieldCodeAhead].
    rewrite (isLetter_isDigit d Hd). reflexivity.
Qed.

Lemma fieldCodeAhead_prefix (a l : list ascii) :
  4 <= length a -> fieldCodeAhead (a ++ l) = fieldCodeAhead a.
Proof.
  destruct a as [|x1 [|x2 [|x3 [|x4 r]]]]; cbn [length]; try lia.
  reflexivity.
Qed.

(** When the piece that is being read starts with a field code, every
    piece does. *)
Lemma splitOnFieldCodes_heads (l : list ascii) :
  forall current,
    0 < length current ->
    fieldCodeAhead (rev current ++ l) = true ->
    Forall (fun piece => fieldCodeAhead piece = true)
           (splitOnFieldCodes l current).
Proof.
  induction l as [|c l IH]; intros current Hlen H; cbn [splitOnFieldCodes].
  - rewrite app_nil_r in H. constructor; [exact H|constructor].
  - destruct (fieldCodeAhead (c :: l)) eqn:E; cbn [andb].
    + destruct (Nat.lt_ge_cases (length current) 4) as [Hk|Hk].
      { rewrite (fieldCodeAhead_inside current (c :: l) (conj Hlen Hk) H)
          in E. discriminate. }
      replace (0 <? length current) with true
        by (symmetry; apply Nat.ltb_lt; exact Hlen).
      constructor.
      * rewrite <- (fieldCodeAhead_prefix (rev current) (c :: l));
          [exact H|rewrite length_rev; exact Hk].
      * apply IH; [cbn; lia|exact E].
    + apply IH; [cbn; lia|].
      cbn [rev]. rewrite <- app_assoc. exact H.
Qed.

Lemma splitOnFieldCodes_tail_heads (l : list ascii) :
  forall current,
    Forall (fun piece => fieldCodeAhead piece = true)
           (tl (splitOnFieldCodes l current)).
Proof.
  induction l as [|c l IH]; intros current; cbn [splitOnFieldCodes].
  - constructor.
  - destruct (fieldCodeAhead (c :: l) && (0 <? length current)) eqn:E.
    + cbn [tl]. apply andb_true_iff in E. destruct E as (E & _).
      apply splitOnFieldCodes_heads; [cbn; lia|exact E].
    + apply IH.
Qed.

(** *** The semantic chunks *)

Lemma splitLargeTrademarkEntry_chunks (text : list ascii) :
  Forall (fun c => 50 < length c /\ trim c = c)
         (splitLargeTrademarkEntry text).
Proof.
  unfold splitLargeTrademarkEntry. cbv zeta.
  set (step := fun (st : list (list ascii) * list ascii) section => _).
  assert (H : forall sections st,
             Forall (fun c => trim c = c) (fst st) ->
             Forall (fun c => trim c = c)
                    (fst (fold_left step sections st))).
  { induction sections as [|s l IH]; intros [chunks cur] Hst; [exact Hst|].
    cbn [fold_left]. apply IH. unfold step.
    destruct (_ && _); cbn [fst] in *; [|exact Hst].
    apply Forall_app. split; [exact Hst|].
    constructor; [apply trim_trim|constructor]. }
  specialize (H (splitOnFieldCodes text []) ([], []) (Forall_nil _)).
  destruct (fold_left step (splitOnFieldCodes text []) ([], []))
    as [chunks currentChunk].
  cbn [fst] in H.
  apply Forall_forall. intros c Hc. apply filter_In in Hc.
  destruct Hc as (Hc & Hlen). apply Nat.ltb_lt in Hlen.
  split; [exact Hlen|].
  destruct (0 <? length (trim currentChunk)).
  - apply in_app_or in Hc. destruct Hc as [Hc|[<-|[]]].
    + exact (proj1 (Forall_forall _ _) H c Hc).
    + apply trim_trim.
  - exact (proj1 (Forall_forall _ _) H c Hc).
Qed.

Lemma semanticLoop_chunks (text : list ascii) (positions : list nat) :
  forall chunks,
    Forall (fun c => 50 < length c /\ trim c = c) chunks ->
    Forall (fun c => 50 < length c /\ trim c = c)
           (semanticLoop text positions chunks).
Proof.
  induction positions as [|position rest IH]; intros chunks H;
    cbn [semanticLoop]; [exact H|].
  cbv zeta. apply IH.
  destruct (_ >? _)%Z.
  - apply Forall_app. split; [exact H|apply splitLargeTrademarkEntry_chunks].
  - destruct (100 <? length _) eqn:E; [|exact H].
    apply Nat.ltb_lt in E.
    apply Forall_app. split; [exact H|].
    constructor; [|constructor]. split; [lia|apply trim_trim].
Qed.

Lemma createSemanticChunks_chunks (text : list ascii) :
  Forall (fun c => 50 < length c /\ trim c = c) (createSemanticChunks text).
Proof. unfold createSemanticChunks. apply semanticLoop_chunks. constructor. Qed.

End ChunkFacts.

Module ExtraDocument.
Import JSString Document OccurrenceSpec ChunkSpec TrimFacts ChunkFacts.

(** X18. Every chunk that [splitIntoChunks] returns is not empty and
    has no white space at either end.  A chunk of the generic chunker
    has at most 2001 characters and is a piece of the text; a chunk of
    the semantic chunker has more than 50 characters. *)
Theorem splitIntoChunks_chunks (fuel : nat) (text : list ascii)
        (chunks : list (list ascii)) :
  splitIntoChunks fuel text = Some chunks ->
  Forall Clean chunks
  /\ (createSemanticChunks text = [] -> Forall (Window text) chunks)
  /\ (createSemanticChunks text <> [] ->
      chunks = createSemanticChunks text
      /\ Forall (fun chunk => 50 < length chunk) chunks).
Proof.
  unfold splitIntoChunks. cbv zeta.
  destruct (length text =? 0) eqn:E0.
  { intros H. injection H as <-. split; [constructor|].
    split; [constructor|]. intros Hs. exfalso. apply Hs.
    apply Nat.eqb_eq in E0. destruct text; [reflexivity|discriminate]. }
  pose proof (createSemanticChunks_chunks text) as Hsem.
  destruct (createSemanticChunks text) as [|s0 sem] eqn:Es.
  - cbn [length Nat.ltb Nat.leb]. intros H.
    apply chunkLoop_adds in H; [|lia]. destruct H as (more & -> & Hm).
    cbn [app]. split; [|split; [intros _; exact Hm|congruence]].
    apply Forall_forall. intros c Hc.
    exact (proj1 (proj1 (Forall_forall _ _) Hm c Hc)).
  - cbn [length Nat.ltb Nat.leb]. intros H. injection H as <-.
    split; [|split; [discriminate|]].
    + apply Forall_forall. intros c Hc.
      destruct (proj1 (Forall_forall _ _) Hsem c Hc) as (H1 & H2).
      split; [lia|exact H2].
    + intros _. split; [reflexivity|].
      apply Forall_forall. intros c Hc.
      exact (proj1 (proj1 (Forall_forall _ _) Hsem c Hc)).
Qed.

Lemma splitIntoChunks_chunks_witness :
  splitIntoChunks 12 (chars "  Hello world. ") = Some [chars "Hello world."]
  /\ Forall Clean [chars "Hello world."].
Proof.
  split; [reflexivity|].
  exact (proj1 (splitIntoChunks_chunks 12 (chars "  Hello world. ")
                  [chars "Hello world."] eq_refl)).
Defined.

(** X19. The generic chunker loses no text: when the semantic chunker
    finds nothing, every character of the text that is not white space
    lies in a chunk that [splitIntoChunks] returns. *)
Theorem splitIntoChunks_covers (fuel : nat) (text : list ascii)
        (chunks : list (list ascii)) (i : nat) (c : ascii) :
  splitIntoChunks fuel text = Some chunks ->
  createSemanticChunks text = [] ->
  nth_error text i = Some c -> isSpace c = false ->
  exists chunk, In chunk chunks /\ ChunkAt text chunk i.
Proof.
  unfold splitIntoChunks. cbv zeta. intros H Hs E Hc. rewrite Hs in H.
  destruct (length text =? 0) eqn:E0.
  { apply Nat.eqb_eq in E0. destruct text; [|discriminate].
    destruct i; discriminate. }
  cbn [length Nat.ltb Nat.leb] in H.
  apply (chunkLoop_covers fuel text 0 [] chunks i c); try assumption; lia.
Qed.

Lemma splitIntoChunks_covers_witness :
  exists chunk,
    In chunk [chars "Hello world."]
    /\ ChunkAt (chars "  Hello world. ") chunk 6.
Proof.
  exact (splitIntoChunks_covers 12 (chars "  Hello world. ")
           [chars "Hello world."] 6 "o"%char
           eq_refl eq_refl eq_refl eq_refl).
Defined.

(** X20. The split of a large entry at its field codes loses nothing:
    the pieces, put together, are the text; no piece of a text that is
    not empty is empty; and every piece but the first starts with a
    field code (three digits and a letter). *)
Theorem splitOnFieldCodes_partition (text : list ascii) :
  concat (splitOnFieldCodes text []) = text
  /\ (text <> [] ->
      Forall (fun piece => 0 < length piece) (splitOnFieldCodes text []))
  /\ Forall (fun piece => fieldCodeAhead piece = true)
            (tl (splitOnFieldCodes text [])).
Proof.
  split; [apply concat_splitOnFieldCodes|].
  split; [|apply splitOnFieldCodes_tail_heads].
  intros H. apply splitOnFieldCodes_nonempty. right.
  destruct text; [congruence|cbn; lia].
Qed.

Lemma splitOnFieldCodes_partition_witness :
  splitOnFieldCodes (chars "x 510Abc 566Def") []
  = [chars "x "; chars "510Abc "; chars "566Def"]
  /\ Forall (fun piece => 0 < length piece)
            (splitOnFieldCodes (chars "x 510Abc 566Def") []).
Proof.
  split; [reflexivity|].
  apply (proj1 (proj2 (splitOnFieldCodes_partition
                         (chars "x 510Abc 566Def")))).
  discriminate.
Defined.

End ExtraDocument.

Module CleanFacts.
Import JSString Types Parser NormalFormSpec NormalizeFacts CleanSpec TrimFacts.

Lemma collapseFrom_plain (l : list ascii) :
  forall inRun,
    forallb plainSpace (collapseFrom inRun l) = true
    /\ singleSpaced (collapseFrom inRun l) = true
    /\ (inRun = true -> startsClean (collapseFrom inRun l) = true)
    /\ length (collapseFrom inRun l) <= length l.
Proof.
  induction l as [|c l IH]; intros inRun; [cbn; auto|].
  cbn [collapseFrom length].
  destruct (isSpace c) eqn:Ec.
  - destruct (IH true) as (H1 & H2 & H3 & H4). specialize (H3 eq_refl).
    destruct inRun.
    { split; [exact H1|]. split; [exact H2|]. split; [auto|lia]. }
    split; [cbn [forallb]; rewrite H1; reflexivity|].
    split; [|split; [discriminate|cbn [length]; lia]].
    cbn [singleSpaced].
    destruct (collapseFrom true l) as [|d r] eqn:Er; [reflexivity|].
    unfold startsClean in H3. cbn [hd] in H3.
    apply negb_true_iff in H3. rewrite H3, andb_false_r. exact H2.
  - destruct (IH false) as (H1 & H2 & _ & H4).
    split.
    { cbn [forallb]. rewrite H1. unfold plainSpace. rewrite Ec. reflexivity. }
    split.
    { cbn [singleSpaced].
      destruct (collapseFrom false l) as [|d r] eqn:Er; [reflexivity|].
      rewrite Ec. exact H2. }
    split; [|cbn [length]; lia].
    intros _. unfold startsClean. cbn [hd]. rewrite Ec. reflexivity.
Qed.

Lemma plainSpace_isLineBreak (c : ascii) :
  plainSpace c = true -> isLineBreak c = false.
Proof.
  unfold plainSpace, isLineBreak. intros H.
  apply orb_false_iff. rewrite !Nat.eqb_neq.
  apply orb_true_iff in H. destruct H as [H|H].
  - apply negb_true_iff in H.
    assert (Hn : ~ ((9 <= code c <= 13) \/ code c = 32 \/ code c = 160)).
    { intros Hs. apply isSpace_code in Hs. congruence. }
    lia.
  - apply Ascii.eqb_eq in H. subst. cbn. lia.
Qed.

(** After the white space has been collapsed no line break is left:
    the second replacement finds nothing. *)
Lemma collapseLineBreaks_fixed (l : list ascii) :
  forallb plainSpace l = true ->
  forall inRun, collapseLineBreaks inRun l = l.
Proof.
  induction l as [|c l IH]; intros H inRun; [reflexivity|].
  cbn [forallb] in H. apply andb_true_iff in H. destruct H as (Hc & Hl).
  cbn [collapseLineBreaks]. rewrite (plainSpace_isLineBreak c Hc).
  f_equal. apply IH. exact Hl.
Qed.

Lemma stripTrailingColon_prefix (l : list ascii) :
  exists suf, l = stripTrailingColon l ++ suf.
Proof.
  unfold stripTrailingColon.
  destruct (dropWhile_suffix isSpace (rev l)) as (pre & E).
  destruct (dropWhile isSpace (rev l)) as [|c rest] eqn:Ed;
    [exists []; rewrite app_nil_r; reflexivity|].
  destruct (Ascii.eqb c ":"); [|exists []; rewrite app_nil_r; reflexivity].
  destruct (dropWhile_suffix isSpace rest) as (pre' & E').
  exists (rev pre' ++ c :: rev pre).
  apply (f_equal (@rev ascii)) in E. rewrite rev_involutive in E.
  rewrite E, rev_app_distr. cbn [rev]. rewrite E' at 1.
  rewrite rev_app_distr, <- !app_assoc. reflexivity.
Qed.

Lemma forallb_app_l (p : ascii -> bool) (a b : list ascii) :
  forallb p (a ++ b) = true -> forallb p a = true.
Proof. rewrite forallb_app. intros H. apply andb_true_iff in H. tauto. Qed.

Lemma forallb_app_r (p : ascii -> bool) (a b : list ascii) :
  forallb p (a ++ b) = true -> forallb p b = true.
Proof. rewrite forallb_app. intros H. apply andb_true_iff in H. tauto. Qed.

Lemma forallb_trim (p : ascii -> bool) (l : list ascii) :
  forallb p l = true -> forallb p (trim l) = true.
Proof.
  intros H. destruct (trim_split l) as (p1 & p2 & E & _).
  rewrite E in H. apply forallb_app_r in H. apply forallb_app_l in H. exact H.
Qed.

Lemma singleSpaced_trim (l : list ascii) :
  singleSpaced l = true -> singleSpaced (trim l) = true.
Proof.
  intros H. destruct (trim_split l) as (p1 & p2 & E & _).
  rewrite E in H. apply singleSpaced_app_r in H.
  apply singleSpaced_app_l in H. exact H.
Qed.

End CleanFacts.

Module RecordFacts.
Import JSString Types Parser.

Lemma truthy_true (s : string) : truthy s = true <-> s <> EmptyString.
Proof.
  unfold truthy. rewrite negb_true_iff. split.
  - intros H E. subst. discriminate.
  - intros H. apply String.eqb_neq. exact H.
Qed.

Lemma isValid_fields (t : TrademarkData) :
  isValid t = true <->
  nomorPermohonan t <> EmptyString
  /\ namaReferensiLabelMerek t <> EmptyString
  /\ kelasBarangJasa t <> EmptyString.
Proof.
  rewrite <- !truthy_true. unfold isValid, validationErrors.
  destruct (truthy (nomorPermohonan t)),
           (truthy (namaReferensiLabelMerek t)),
           (truthy (kelasBarangJasa t)); cbn; intuition discriminate.
Qed.

Lemma dedupLoop_incl (trademarks : list TrademarkData) :
  forall seen t, In t (dedupLoop seen trademarks) -> In t trademarks.
Proof.
  induction trademarks as [|x l IH]; intros seen t H; [exact H|].
  cbn [dedupLoop] in H. cbv zeta in H.
  destruct (setHas seen (dedupKey x)).
  - right. exact (IH _ _ H).
  - destruct H as [H|H]; [now left|right; exact (IH _ _ H)].
Qed.

Lemma extractTrademarkData_valid (re : RegExpEngine) (text : list ascii) :
  Forall (fun t => isValid t = true) (extractTrademarkData re text).
Proof.
  apply Forall_forall. intros t H. unfold extractTrademarkData in H.
  apply in_flat_map in H. destruct H as (section & _ & H).
  destruct (parseSection re section) as [d|]; [|contradiction].
  unfold isValidTrademark in H.
  destruct (isValid d) eqn:E; [|contradiction].
  destruct H as [<-|[]]. exact E.
Qed.

Lemma pageBasedTrademarks_valid (re : RegExpEngine)
      (pageChunks : list PageChunk) :
  Forall (fun t => isValid t = true) (pageBasedTrademarks re pageChunks).
Proof.
  apply Forall_forall. intros t H. unfold pageBasedTrademarks in H.
  cbv zeta in H. apply filter_In in H. exact (proj2 H).
Qed.

Lemma parseTrademarkDataEnhanced_valid (re : RegExpEngine)
      (pageChunks : list PageChunk) (fullText : list ascii) :
  Forall (fun t => isValid t = true)
         (parseTrademarkDataEnhanced re pageChunks fullText).
Proof.
  unfold parseTrademarkDataEnhanced. cbv zeta.
  destruct (length (pageBasedTrademarks re pageChunks) =? 0).
  - apply extractTrademarkData_valid.
  - apply Forall_forall. intros t H. apply dedupLoop_incl in H.
    exact (proj1 (Forall_forall _ _)
                 (pageBasedTrademarks_valid re pageChunks) t H).
Qed.

(** A page takes part in the page-based pass only when it is flagged. *)
Lemma pageBasedTrademarks_flagged (re : RegExpEngine)
      (pageChunks : list PageChunk) (t : TrademarkData) :
  In t (pageBasedTrademarks re pageChunks) ->
  exists page, In page pageChunks /\ hasTrademarkData page = true
               /\ In t (parsePageChunk re page).
Proof.
  unfold pageBasedTrademarks. cbv zeta. intros H.
  apply filter_In in H. destruct H as (H & _).
  apply in_concat in H. destruct H as (ts & Hts & Ht).
  apply in_map_iff in Hts. destruct Hts as (page & <- & Hp).
  apply filter_In in Hp. exists page. tauto.
Qed.

End RecordFacts.

Module ExtraParser.
Import JSString Types Parser NormalFormSpec CleanSpec CleanFacts RecordFacts.
Import NormalizeFacts TrimFacts.

(** X21. What [cleanExtractedText] returns has no white space at either
    end, no two white-space characters in a row, no white space other
    than the space character (line breaks and tabs are gone), and is
    not longer than the text. *)
Theorem cleanExtractedText_clean (text : list ascii) :
  startsClean (cleanExtractedText text) = true
  /\ endsClean (cleanExtractedText text) = true
  /\ singleSpaced (cleanExtractedText text) = true
  /\ forallb plainSpace (cleanExtractedText text) = true
  /\ length (cleanExtractedText text) <= length text.
Proof.
  unfold cleanExtractedText.
  destruct text as [|c0 text0] eqn:Et; [cbn; auto|]. rewrite <- Et. clear Et.
  unfold collapseSpaces.
  destruct (collapseFrom_plain (trim text) false) as (P & S & _ & L).
  rewrite (collapseLineBreaks_fixed _ P).
  set (x := collapseFrom false (trim text)) in *.
  destruct (stripTrailingColon_prefix x) as (suf & E).
  set (y := stripTrailingColon x) in *.
  assert (Py : forallb plainSpace y = true)
    by (rewrite E in P; exact (forallb_app_l _ _ _ P)).
  assert (Sy : singleSpaced y = true)
    by (rewrite E in S; exact (singleSpaced_app_l _ _ S)).
  destruct (trim_clean y) as (C1 & C2).
  split; [exact C1|]. split; [exact C2|].
  split; [exact (singleSpaced_trim y Sy)|].
  split; [exact (forallb_trim _ y Py)|].
  pose proof (length_trim y). pose proof (length_trim text).
  apply (f_equal (@length ascii)) in E. rewrite length_app in E.
  lia.
Qed.

(** X22. Every record that [parseTrademarkDataEnhanced] returns, from
    the page-based pass or from the pass over the full text, with any
    answers of the regular-expression engine, has an application
    number, a mark name and a class that are not empty; and a record of
    the page-based pass comes from a page that is flagged as holding
    trademark data. *)
Theorem parseTrademarkDataEnhanced_records_valid (re : RegExpEngine)
        (pageChunks : list PageChunk) (fullText : list ascii) :
  Forall (fun t => isValidTrademark t = true
                   /\ nomorPermohonan t <> EmptyString
                   /\ namaReferensiLabelMerek t <> EmptyString
                   /\ kelasBarangJasa t <> EmptyString)
         (parseTrademarkDataEnhanced re pageChunks fullText)
  /\ forall t, In t (pageBasedTrademarks re pageChunks) ->
               exists page, In page pageChunks
                            /\ hasTrademarkData page = true
                            /\ In t (parsePageChunk re page).
Proof.
  split; [|intros t; apply pageBasedTrademarks_flagged].
  apply Forall_forall. intros t H.
  pose proof (proj1 (Forall_forall _ _)
                    (parseTrademarkDataEnhanced_valid re pageChunks fullText)
                    t H) as Hv.
  split; [exact Hv|]. apply isValid_fields. exact Hv.
Qed.

Lemma parseTrademarkDataEnhanced_records_valid_witness :
  Forall (fun t => isValidTrademark t = true
                   /\ nomorPermohonan t <> EmptyString
                   /\ namaReferensiLabelMerek t <> EmptyString
                   /\ kelasBarangJasa t <> EmptyString)
         (parseTrademarkDataEnhanced ParserExamples.coarseEngine
            ParserExamples.coarsePages ParserExamples.coarseDocument).
Proof.
  exact (proj1 (parseTrademarkDataEnhanced_records_valid
                  ParserExamples.coarseEngine ParserExamples.coarsePages
                  ParserExamples.coarseDocument)).
Defined.

End ExtraParser.

Module OutcomeFacts.
Import JSString Lexical Types Effects VectorService Engine PassSpec.
Import EffectsSpec EffectsFacts VectorFacts EngineFacts DescriptionSpec.
Import PassFacts EmbeddingFacts ServiceSpec.
Local Open Scope js_scope.

Lemma Comes_ret {A} (a : A) : Comes (ret a).
Proof. intros w. discriminate. Qed.

Lemma Comes_throw {A} (e : JSError) : Comes (@throw A e).
Proof. intros w. discriminate. Qed.

Lemma Comes_bind {A B} (c : M A) (k : A -> M B) :
  Comes c -> (forall a, Comes (k a)) -> Comes (bind c k).
Proof.
  intros Hc Hk w. unfold bind. specialize (Hc w).
  destruct (c w) as [[a|e|] w']; cbn [fst] in *;
    [apply Hk|discriminate|congruence].
Qed.

Lemma Comes_forOf {A B} (l : list A) (body : A -> B -> M B) :
  (forall x results, Comes (body x results)) ->
  forall results, Comes (forOf l body results).
Proof.
  intros Hb. induction l as [|x l IH]; intros results; cbn [forOf].
  - apply Comes_ret.
  - apply Comes_bind; [apply Hb|exact IH].
Qed.

Lemma Comes_tryCatch {A} (c : M A) (handler : JSError -> M A) :
  Comes c -> (forall e, Comes (handler e)) -> Comes (tryCatch c handler).
Proof.
  intros Hc Hh w. unfold tryCatch. specialize (Hc w).
  destruct (c w) as [[a|e|] w']; cbn [fst] in *;
    [discriminate|apply Hh|congruence].
Qed.

Lemma Comes_of_ReturnsWith {A} (P : A -> Prop) (c : M A) :
  ReturnsWith P c -> Comes c.
Proof.
  intros H w. destruct (H w) as (a & w' & E & _). rewrite E. discriminate.
Qed.

Lemma Comes_generateEmbedding (rt : Runtime) (text : list ascii) :
  Comes (generateEmbedding rt text).
Proof.
  intros w. destruct (generateEmbedding_returns rt text w)
    as (v & w' & E & _). rewrite E. discriminate.
Qed.

Lemma Comes_calculateCosineSimilarity (rt : Runtime) (vec1 vec2 : list Q) :
  Comes (calculateCosineSimilarity rt vec1 vec2).
Proof.
  intros w. unfold calculateCosineSimilarity.
  destruct (negb _); [discriminate|].
  destruct (cosineSums vec1 vec2) as [[dotProduct norm1] norm2].
  destruct (Qeq_bool _ _); discriminate.
Qed.

Lemma Comes_analyzeDescriptionSimilarity (rt : Runtime) (target : string)
      (trademarks : list Trademark) :
  Comes (analyzeDescriptionSimilarity rt target trademarks).
Proof.
  unfold analyzeDescriptionSimilarity.
  apply Comes_bind; [apply Comes_generateEmbedding|].
  intros targetEmbedding. apply Comes_forOf. intros t results.
  destruct (0 <? _); [|apply Comes_ret].
  apply Comes_bind; [apply Comes_generateEmbedding|]. intros descEmbedding.
  apply Comes_bind; [apply Comes_calculateCosineSimilarity|]. intros s.
  apply Comes_bind;
    [apply (Comes_of_ReturnsWith _ _ ReturnsWith_readThresholds)|].
  intros thr. destruct s as [s|]; [|apply Comes_ret].
  destruct (Qle_bool _ _); apply Comes_ret.
Qed.

(** The analysis returns or throws: it always comes back. *)
Lemma Comes_analyzeSimilarity (rt : Runtime) (target : string)
      (options : Options) (allTrademarks : list Trademark) :
  Comes (Engine.analyzeSimilarity rt target options allTrademarks).
Proof.
  unfold Engine.analyzeSimilarity.
  apply Comes_tryCatch; [|intros e; apply Comes_throw]. cbv zeta.
  apply Comes_bind;
    [apply (Comes_of_ReturnsWith _ _
              (analyzeTextSimilarity_returns target allTrademarks))|].
  intros T. apply Comes_bind; [apply Comes_analyzeDescriptionSimilarity|].
  intros D. apply Comes_bind.
  { destruct (withDefault true (includePhonetic options));
      [apply (Comes_of_ReturnsWith _ _
                (analyzePhoneticSimilarity_returns target allTrademarks))
      |apply Comes_ret]. }
  intros P. apply Comes_bind;
    [apply (Comes_of_ReturnsWith _ _ ReturnsWith_readThresholds)|].
  intros thr. apply Comes_ret.
Qed.

End OutcomeFacts.

Module ServiceFacts.
Import JSString Lexical Types Effects VectorService Engine PassSpec.
Import EffectsSpec EffectsFacts VectorFacts EngineFacts DescriptionSpec.
Import PassFacts EmbeddingFacts ServiceSpec OutcomeFacts.
Local Open Scope js_scope.

(** *** What a call can throw *)

Lemma ThrowsOnly_ret {A} (P : JSError -> Prop) (a : A) :
  ThrowsOnly P (ret a).
Proof. intros w e w' H. discriminate H. Qed.

Lemma ThrowsOnly_throw {A} (P : JSError -> Prop) (e : JSError) :
  P e -> ThrowsOnly P (@throw A e).
Proof. intros H w e' w' E. unfold throw in E. congruence. Qed.

Lemma ThrowsOnly_bind {A B} (P : JSError -> Prop) (c : M A) (k : A -> M B) :
  ThrowsOnly P c -> (forall a, ThrowsOnly P (k a)) -> ThrowsOnly P (bind c k).
Proof.
  intros Hc Hk w e w' E. unfold bind in E.
  destruct (c w) as [[a|e0|] w1] eqn:Ec.
  - exact (Hk a w1 e w' E).
  - injection E as <- _. exact (Hc w e0 w1 Ec).
  - discriminate E.
Qed.

Lemma ThrowsOnly_forOf {A B} (P : JSError -> Prop) (l : list A)
      (body : A -> B -> M B) :
  (forall x results, ThrowsOnly P (body x results)) ->
  forall results, ThrowsOnly P (forOf l body results).
Proof.
  intros Hb. induction l as [|x l IH]; intros results; cbn [forOf].
  - apply ThrowsOnly_ret.
  - apply ThrowsOnly_bind; [apply Hb|exact IH].
Qed.

Lemma ThrowsOnly_rethrow {A} (P : JSError -> Prop) (c : M A) :
  ThrowsOnly P c -> ThrowsOnly P (tryCatch c (fun error => throw error)).
Proof.
  intros Hc w e w' E. rewrite tryCatch_rethrow in E. exact (Hc w e w' E).
Qed.

Lemma ThrowsOnly_of_ReturnsWith {A} (P : JSError -> Prop)
      (R : A -> Prop) (c : M A) :
  ReturnsWith R c -> ThrowsOnly P c.
Proof.
  intros H w e w' E. destruct (H w) as (a & w1 & E1 & _). congruence.
Qed.

Lemma ThrowsOnly_generateEmbedding (P : JSError -> Prop) (rt : Runtime)
      (text : list ascii) :
  ThrowsOnly P (generateEmbedding rt text).
Proof.
  intros w e w' E.
  destruct (generateEmbedding_returns rt text w) as (v & w1 & E1 & _).
  congruence.
Qed.

Lemma ThrowsOnly_calculateCosineSimilarity (rt : Runtime)
      (vec1 vec2 : list Q) :
  ThrowsOnly (fun e => e = lengthMismatch)
             (calculateCosineSimilarity rt vec1 vec2).
Proof.
  intros w e w' E. unfold calculateCosineSimilarity in E.
  destruct (negb _).
  - unfold throw in E. injection E as <- _. reflexivity.
  - destruct (cosineSums vec1 vec2) as [[dotProduct norm1] norm2].
    destruct (Qeq_bool _ _); discriminate E.
Qed.

Lemma ThrowsOnly_analyzeDescriptionSimilarity (rt : Runtime)
      (target : string) (trademarks : list Trademark) :
  ThrowsOnly (fun e => e = lengthMismatch)
             (analyzeDescriptionSimilarity rt target trademarks).
Proof.
  unfold analyzeDescriptionSimilarity.
  apply ThrowsOnly_bind; [apply ThrowsOnly_generateEmbedding|].
  intros targetEmbedding. apply ThrowsOnly_forOf. intros t results.
  destruct (0 <? _); [|apply ThrowsOnly_ret].
  apply ThrowsOnly_bind; [apply ThrowsOnly_generateEmbedding|].
  intros descEmbedding.
  apply ThrowsOnly_bind; [apply ThrowsOnly_calculateCosineSimilarity|].
  intros s.
  apply ThrowsOnly_bind;
    [apply (ThrowsOnly_of_ReturnsWith _ _ _ ReturnsWith_readThresholds)|].
  intros thr. destruct s as [s|]; [|apply ThrowsOnly_ret].
  destruct (Qle_bool _ _); apply ThrowsOnly_ret.
Qed.

(** Once the corpus is there, the analysis throws nothing but the
    error of the cosine. *)
Lemma ThrowsOnly_analysis (rt : Runtime) (target : string)
      (options : Options) (allTrademarks : list Trademark) :
  ThrowsOnly (fun e => e = lengthMismatch)
             (Engine.analyzeSimilarity rt target options allTrademarks).
Proof.
  unfold Engine.analyzeSimilarity. apply ThrowsOnly_rethrow. cbv zeta.
  apply ThrowsOnly_bind;
    [apply (ThrowsOnly_of_ReturnsWith _ _ _
              (analyzeTextSimilarity_returns target allTrademarks))|].
  intros T.
  apply ThrowsOnly_bind; [apply ThrowsOnly_analyzeDescriptionSimilarity|].
  intros D. apply ThrowsOnly_bind.
  { destruct (withDefault true (includePhonetic options));
      [apply (ThrowsOnly_of_ReturnsWith _ _ _
                (analyzePhoneticSimilarity_returns target allTrademarks))
      |apply ThrowsOnly_ret]. }
  intros P. apply ThrowsOnly_bind;
    [apply (ThrowsOnly_of_ReturnsWith _ _ _ ReturnsWith_readThresholds)|].
  intros thr. apply ThrowsOnly_ret.
Qed.

(** *** The search *)

Lemma searchSimilarChunks_cases (store : Service.VectorStore)
      (queryEmbedding : list Q) (w : World) :
  Service.searchSimilarChunks store queryEmbedding w
  = match Service.pineconeIndex store with
    | Some index =>
        match index queryEmbedding with
        | inr matches => (Returns matches, w)
        | inl error => (Throws error, w)
        end
    | None => (Throws (Error "Pinecone index not initialized"), w)
    end.
Proof.
  unfold Service.searchSimilarChunks. rewrite tryCatch_rethrow.
  unfold Service.getPineconeIndex, Service.queryIndex, bind.
  destruct (Service.pineconeIndex store) as [index|]; [|reflexivity].
  unfold ret at 1. destruct (index queryEmbedding); reflexivity.
Qed.

(** The corpus is what the database answers to the embedding of the
    query, which costs one request to the provider; the thresholds are
    left as they are. *)
Lemma getAllTrademarks_search (rt : Runtime) (store : Service.VectorStore)
      (w : World) :
  exists queryEmbedding w1,
    generateEmbedding rt (chars "trademark brand") w
    = (Returns queryEmbedding, w1)
    /\ thresholds w1 = thresholds w
    /\ embeddingCalls w1 = S (embeddingCalls w)
    /\ Service.getAllTrademarks rt store w
       = Service.searchSimilarChunks store queryEmbedding w1.
Proof.
  destruct (generateEmbedding_returns rt (chars "trademark brand") w)
    as (v & w1 & E & Ht & Hc & _).
  exists v, w1. split; [exact E|]. split; [exact Ht|]. split; [exact Hc|].
  unfold Service.getAllTrademarks. rewrite tryCatch_rethrow.
  unfold bind at 1. unfold Service.search. rewrite tryCatch_rethrow.
  unfold bind at 1. rewrite E. unfold bind at 1.
  destruct (Service.searchSimilarChunks store v w1) as [[l|e|] w2];
    reflexivity.
Qed.

Lemma getAllTrademarks_outcome (rt : Runtime) (store : Service.VectorStore)
      (w : World) :
  (exists allTrademarks w1,
      Service.getAllTrademarks rt store w = (Returns allTrademarks, w1)
      /\ thresholds w1 = thresholds w)
  \/ (exists e w1,
         Service.getAllTrademarks rt store w = (Throws e, w1)
         /\ FromStore store e).
Proof.
  destruct (getAllTrademarks_search rt store w)
    as (v & w1 & _ & Ht & _ & E).
  rewrite E.
  destruct (Service.searchSimilarChunks store v w1) as [[l|e|] w2] eqn:Es.
  - left. exists l, w2. split; [reflexivity|].
    rewrite searchSimilarChunks_cases in Es.
    destruct (Service.pineconeIndex store) as [index|]; [|discriminate Es].
    destruct (index v); [discriminate Es|]. injection Es as _ <-. exact Ht.
  - right. exists e, w2. split; [reflexivity|]. exists v, w1, w2. exact Es.
  - rewrite searchSimilarChunks_cases in Es.
    destruct (Service.pineconeIndex store) as [index|]; [|discriminate Es].
    destruct (index v); discriminate Es.
Qed.

Lemma getAllTrademarks_answers (rt : Runtime) (store : Service.VectorStore)
      (index : list Q -> JSError + list Trademark) (w : World) :
  Service.pineconeIndex store = Some index ->
  (forall vector, exists matches, index vector = inr matches) ->
  exists allTrademarks w1,
    Service.getAllTrademarks rt store w = (Returns allTrademarks, w1).
Proof.
  intros Hi Ha.
  destruct (getAllTrademarks_search rt store w) as (v & w1 & _ & _ & _ & E).
  rewrite E, searchSimilarChunks_cases, Hi.
  destruct (Ha v) as (l & ->). eauto.
Qed.

Lemma getAllTrademarks_closed (rt : Runtime) (store : Service.VectorStore)
      (w : World) :
  Service.pineconeIndex store = None ->
  exists w1,
    Service.getAllTrademarks rt store w
    = (Throws (Error "Pinecone index not initialized"), w1).
Proof.
  intros Hi.
  destruct (getAllTrademarks_search rt store w) as (v & w1 & _ & _ & _ & E).
  rewrite E, searchSimilarChunks_cases, Hi. eauto.
Qed.

(** *** The whole analysis *)

Lemma rethrow_bind {A B} (c : M A) (k : A -> M B) (w : World) :
  tryCatch (bind c k) (fun error => throw error) w
  = bind c (fun a => tryCatch (k a) (fun error => throw error)) w.
Proof.
  rewrite tryCatch_rethrow. unfold bind.
  destruct (c w) as [[a|e|] w1]; [|reflexivity|reflexivity].
  rewrite tryCatch_rethrow. reflexivity.
Qed.

(** The method is the fetch of the corpus followed by the analysis of
    what was fetched. *)
Lemma analyzeSimilarity_fetch (rt : Runtime) (store : Service.VectorStore)
      (target : string) (options : Options) (w : World) :
  Service.analyzeSimilarity rt store target options w
  = bind (Service.getAllTrademarks rt store)
         (fun allTrademarks =>
            Engine.analyzeSimilarity rt target options allTrademarks) w.
Proof.
  unfold Service.analyzeSimilarity, Engine.analyzeSimilarity. cbv zeta.
  apply rethrow_bind.
Qed.

Lemma analyzeSimilarity_fetched (rt : Runtime) (store : Service.VectorStore)
      (target : string) (options : Options) (w w' : World) (a : Analysis) :
  Service.analyzeSimilarity rt store target options w = (Returns a, w') ->
  exists allTrademarks w1,
    Service.getAllTrademarks rt store w = (Returns allTrademarks, w1)
    /\ thresholds w1 = thresholds w
    /\ Engine.analyzeSimilarity rt target options allTrademarks w1
       = (Returns a, w').
Proof.
  rewrite analyzeSimilarity_fetch. intros H.
  apply bind_Returns in H. destruct H as (l & w1 & El & H).
  exists l, w1. split; [exact El|]. split; [|exact H].
  destruct (getAllTrademarks_outcome rt store w)
    as [(l' & w1' & E & Ht)|(e & w1' & E & _)]; congruence.
Qed.

Lemma analyzeSimilarity_rethrows (rt : Runtime)
      (store : Service.VectorStore) (target : string) (options : Options)
      (w w1 : World) (e : JSError) :
  Service.getAllTrademarks rt store w = (Throws e, w1) ->
  Service.analyzeSimilarity rt store target options w = (Throws e, w1).
Proof.
  intros E. rewrite analyzeSimilarity_fetch. unfold bind. rewrite E.
  reflexivity.
Qed.

Lemma analyzeSimilarity_thrown (rt : Runtime) (store : Service.VectorStore)
      (target : string) (options : Options) (w w' : World) (e : JSError) :
  Service.analyzeSimilarity rt store target options w = (Throws e, w') ->
  FromStore store e \/ e = lengthMismatch.
Proof.
  rewrite analyzeSimilarity_fetch. unfold bind.
  destruct (getAllTrademarks_outcome rt store w)
    as [(l & w1 & E & _)|(e' & w1 & E & Hs)]; rewrite E; intros H.
  - right. exact (ThrowsOnly_analysis rt target options l w1 e w' H).
  - left. injection H as <- _. exact Hs.
Qed.

Lemma analyzeSimilarity_answers (rt : Runtime) (store : Service.VectorStore)
      (target : string) (options : Options) (w w1 : World)
      (allTrademarks : list Trademark) :
  ProviderDimensions rt ->
  Service.getAllTrademarks rt store w = (Returns allTrademarks, w1) ->
  exists a w',
    Service.analyzeSimilarity rt store target options w = (Returns a, w').
Proof.
  intros Hdim E. rewrite analyzeSimilarity_fetch. unfold bind. rewrite E.
  apply analyzeSimilarity_returns. exact Hdim.
Qed.

(** The whole analysis returns or throws. *)
Lemma Comes_service (rt : Runtime) (store : Service.VectorStore)
      (target : string) (options : Options) :
  Comes (Service.analyzeSimilarity rt store target options).
Proof.
  intros w. rewrite analyzeSimilarity_fetch. unfold bind.
  destruct (getAllTrademarks_outcome rt store w)
    as [(l & w1 & E & _)|(e & w1 & E & _)]; rewrite E.
  - apply Comes_analyzeSimilarity.
  - discriminate.
Qed.

End ServiceFacts.

Module ServiceClaims.
Import JSString Lexical Types Effects VectorService Engine.
Import EffectsSpec EngineExamples ServiceSpec ServiceExamples.
Import EffectsFacts VectorFacts EngineFacts OutcomeFacts ServiceFacts.

(** C2, as the code has it.  A request to the embedding provider that
    fails does not fail the analysis: [generateEmbedding] catches the
    error and returns a replacement vector of 1536 entries, so it returns
    on every call.  What [analyzeSimilarity] throws is therefore never
    the error of a request to the provider: it is an error of the search
    in the vector database, from which the corpus is fetched, or the
    error of the cosine for two vectors of different lengths.  When the
    vectors the provider does answer with have 1536 entries, only the
    database can make [analyzeSimilarity] fail: what it throws is an
    error of the search, and when the database answers every query it
    returns, however many requests to the provider fail. *)
Theorem embedding_failure_is_absorbed (rt : Runtime)
        (store : Service.VectorStore) :
  (forall text w, exists v w',
      generateEmbedding rt text w = (Returns v, w')
      /\ ((exists input,
              embeddingsCreate rt (embeddingCalls w) input = Some v)
          \/ ((exists input,
                  embeddingsCreate rt (embeddingCalls w) input = None)
              /\ length v = fallbackDimensions)))
  /\ (forall target options w e w',
         Service.analyzeSimilarity rt store target options w = (Throws e, w') ->
         FromStore store e \/ e = lengthMismatch)
  /\ ((forall n input v, embeddingsCreate rt n input = Some v ->
                         length v = fallbackDimensions) ->
      (forall target options w e w',
          Service.analyzeSimilarity rt store target options w
          = (Throws e, w') ->
          FromStore store e)
      /\ (forall index,
             Service.pineconeIndex store = Some index ->
             (forall vector, exists matches, index vector = inr matches) ->
             forall target options w, exists a w',
               Service.analyzeSimilarity rt store target options w
               = (Returns a, w'))).
Proof.
  split; [|split].
  - intros text w.
    destruct (generateEmbedding_returns rt text w)
      as (v & w' & E & _ & _ & [H|(H & Hl & _)]).
    + exists v, w'. split; [exact E|]. left. exact H.
    + exists v, w'. split; [exact E|]. right. split; assumption.
  - intros target options w e w' E.
    exact (analyzeSimilarity_thrown rt store target options w w' e E).
  - intros Hdim. split.
    + intros target options w e w' E.
      destruct (getAllTrademarks_outcome rt store w)
        as [(l & w1 & El & _)|(e' & w1 & El & Hs)].
      * destruct (analyzeSimilarity_answers rt store target options w w1 l
                                            Hdim El) as (a & w2 & Ea).
        congruence.
      * rewrite (analyzeSimilarity_rethrows rt store target options w w1 e'
                                            El) in E.
        injection E as <- _. exact Hs.
    + intros index Hi Ha target options w.
      destruct (getAllTrademarks_answers rt store index w Hi Ha)
        as (l & w1 & E).
      exact (analyzeSimilarity_answers rt store target options w w1 l Hdim E).
Qed.

Lemma embedding_failure_is_absorbed_witness :
  (forall n input v, embeddingsCreate failingRuntime n input = Some v ->
                     length v = fallbackDimensions)
  /\ exists a w',
      Service.analyzeSimilarity failingRuntime describedStore "cola"
                                defaultOptions startWorld = (Returns a, w').
Proof.
  assert (H : forall n input v,
             embeddingsCreate failingRuntime n input = Some v ->
             length v = fallbackDimensions).
  { intros n input v E. discriminate E. }
  split; [exact H|].
  refine (proj2 (proj2 (proj2 (embedding_failure_is_absorbed
                                 failingRuntime describedStore)) H)
                (fun _ => inr [colaDescribed]) eq_refl _
                "cola"%string defaultOptions startWorld).
  intros vector. exists [colaDescribed]. reflexivity.
Defined.

(** The claim C2 as the spec has it fails: with a provider that fails
    on every request and a database that holds nothing, the analysis
    sends two requests (for the query of the fetch and for the target),
    draws the 1536 entries of a replacement vector twice, and returns;
    with a described record in the database it returns as well. *)
Lemma embedding_failure_counterexample :
  (forall n input, embeddingsCreate failingRuntime n input = None)
  /\ (exists a,
         Service.analyzeSimilarity failingRuntime emptyStore "cola"
                                   defaultOptions startWorld
         = (Returns a, mkWorld Config.initial 2 3072))
  /\ (exists a w',
         Service.analyzeSimilarity failingRuntime describedStore "cola"
                                   defaultOptions startWorld
         = (Returns a, w')).
Proof.
  split; [reflexivity|]. split.
  - eexists. vm_compute. reflexivity.
  - destruct (getAllTrademarks_answers failingRuntime describedStore
                (fun _ => inr [colaDescribed]) startWorld eq_refl)
      as (l & w1 & E).
    { intros vector. exists [colaDescribed]. reflexivity. }
    apply (analyzeSimilarity_answers failingRuntime describedStore
             "cola"%string defaultOptions startWorld w1 l); [|exact E].
    intros n input v Ev. discriminate Ev.
Qed.

End ServiceClaims.

Module EndpointFacts.
Import JSString Lexical Types Effects VectorService Engine PassSpec.
Import EffectsSpec EffectsFacts VectorFacts EngineFacts.
Import AnalysisController ServiceSpec OutcomeFacts RankingFacts.
Local Open Scope js_scope.

Lemma integerIn_range (lo hi : Z) (q : Q) (k : Z) :
  integerIn lo hi q = Some k -> (lo <= k <= hi)%Z /\ (q == inject_Z k)%Q.
Proof.
  unfold integerIn. cbv zeta.
  destruct (Pos.eqb (Qden (Qred q)) 1) eqn:E1; [|discriminate].
  destruct (lo <=? Qnum (Qred q))%Z eqn:E2; [|discriminate].
  destruct (Qnum (Qred q) <=? hi)%Z eqn:E3; [|discriminate].
  cbn [andb]. intros H. injection H as <-.
  apply Z.leb_le in E2, E3. split; [lia|].
  apply Pos.eqb_eq in E1.
  rewrite <- (Qred_correct q) at 1.
  destruct (Qred q) as [n d]. cbn [Qden Qnum] in *. subst d. reflexivity.
Qed.

Lemma validateOptions_topK (hi dflt : Z) (body : option BodyOptions)
      (options : Options) :
  (1 <= dflt <= hi)%Z -> (20 <= hi)%Z ->
  validateOptions hi dflt body = Some options ->
  (1 <= withDefault 20 (topK options) <= hi)%Z.
Proof.
  intros Hd Hh. unfold validateOptions.
  destruct body as [o|].
  - destruct (bo_topK o) as [q|].
    + destruct (integerIn 1 hi q) as [k|] eqn:E; [|discriminate].
      intros H. injection H as <-. cbn [topK withDefault].
      exact (proj1 (integerIn_range _ _ _ _ E)).
    + intros H. injection H as <-. cbn [topK withDefault]. exact Hd.
  - intros H. injection H as <-. cbn [topK withDefault]. lia.
Qed.

Lemma validateAnalyze_Some (body : AnalyzeBody) (trademark : string)
      (options : Options) :
  validateAnalyze body = Some (trademark, options) ->
  ab_trademark body = Some trademark
  /\ 1 <= String.length trademark <= 200
  /\ (1 <= withDefault 20 (topK options) <= 50)%Z.
Proof.
  unfold validateAnalyze.
  destruct (ab_trademark body) as [name|]; [|discriminate].
  destruct (validName name) eqn:En; [|discriminate].
  destruct (validateOptions 50 20 (ab_options body)) as [o|] eqn:Eo;
    [|discriminate].
  cbn [option_map]. intros H. injection H as <- <-.
  split; [reflexivity|]. split.
  - unfold validName in En. apply andb_true_iff in En.
    destruct En as (E1 & E2). apply Nat.leb_le in E1, E2. lia.
  - apply (validateOptions_topK 50 20 (ab_options body)); [lia|lia|exact Eo].
Qed.

Lemma analysis_bounded (rt : Runtime) (target : string) (options : Options)
      (allTrademarks : list Trademark) (w w' : World) (a : Analysis)
      (hi : Z) :
  (1 <= withDefault 20 (topK options) <= hi)%Z ->
  Engine.analyzeSimilarity rt target options allTrademarks w
  = (Returns a, w') ->
  (1 <= usedTopK a <= hi)%Z
  /\ (Z.of_nat (length (similarTrademarks a)) <= usedTopK a)%Z
  /\ StronglySorted descending (similarTrademarks a)
  /\ Forall (fun r => (Config.overallSimilarity (thresholds w)
                       <= overallScore r)%Q) (similarTrademarks a)
  /\ thresholds w' = thresholds w.
Proof.
  intros Hk E.
  assert (Hr : returned (Engine.analyzeSimilarity rt target options
                           allTrademarks w) = Some a)
    by (unfold returned; rewrite E; reflexivity).
  destruct (analyzeSimilarity_inv _ _ _ _ _ _ Hr) as (cs & Es & Ek & _).
  destruct (analyzeSimilarity_ranked _ _ _ _ _ _ Hr) as (Hs & _).
  rewrite Ek. split; [exact Hk|]. split.
  { rewrite Es. apply length_slice0. lia. }
  split; [exact Hs|]. split.
  - rewrite Es. apply Forall_forall. intros r Hin.
    apply In_slice0, In_sortByScore, filter_In in Hin.
    apply Qle_bool_iff. exact (proj2 Hin).
  - pose proof (analyzeSimilarity_keeps rt target options allTrademarks w)
      as K. rewrite E in K. exact K.
Qed.

(** *** The batch *)

Lemma targetTrademark_returned (rt : Runtime) (target : string)
      (options : Options) (allTrademarks : list Trademark) (w w' : World)
      (a : Analysis) :
  Engine.analyzeSimilarity rt target options allTrademarks w
  = (Returns a, w') ->
  targetTrademark a = target.
Proof.
  intros E. unfold Engine.analyzeSimilarity in E.
  rewrite tryCatch_rethrow in E. cbv zeta in E.
  apply bind_Returns in E. destruct E as (T & w1 & _ & E).
  apply bind_Returns in E. destruct E as (D & w2 & _ & E).
  apply bind_Returns in E. destruct E as (P & w3 & _ & E).
  apply bind_Returns in E. destruct E as (thr & w4 & _ & E).
  unfold ret in E. injection E as <- _. reflexivity.
Qed.

Lemma batchLoop_inv (rt : Runtime) (allTrademarks : list Trademark)
      (options : Options) (hi : Z) (trademarks : list string) :
  (1 <= withDefault 20 (topK options) <= hi)%Z ->
  forall (results0 : list BatchEntry) (w : World),
  exists results w',
    forOf trademarks
      (fun trademark results =>
         tryCatch
           (result <-
              Engine.analyzeSimilarity rt trademark options allTrademarks ;;
            ret (results ++ [mkBatchEntry trademark true (Some result) None]))
           (fun error =>
              ret (results
                   ++ [mkBatchEntry trademark false None (Some error)])))
      results0 w
    = (Returns (results0 ++ results), w')
    /\ map be_trademark results = trademarks
    /\ Forall (EntryOk (thresholds w) hi) results
    /\ thresholds w' = thresholds w.
Proof.
  intros Hk. induction trademarks as [|t l IH]; intros results0 w.
  - exists [], w. cbn [forOf]. unfold ret. rewrite app_nil_r. auto.
  - cbn [forOf]. unfold bind at 1, tryCatch at 1, bind at 1.
    pose proof (Comes_analyzeSimilarity rt t options allTrademarks w) as Hc.
    pose proof (analyzeSimilarity_keeps rt t options allTrademarks w) as Hkeep.
    destruct (Engine.analyzeSimilarity rt t options allTrademarks w)
      as [[a|e|] w1] eqn:E; cbn [fst snd] in *; [| |congruence].
    + unfold ret at 1.
      destruct (IH (results0 ++ [mkBatchEntry t true (Some a) None]) w1)
        as (rs & w' & El & Hm & Hf & Ht).
      exists (mkBatchEntry t true (Some a) None :: rs), w'.
      rewrite <- app_assoc in El. split; [exact El|].
      split; [cbn [map be_trademark]; f_equal; exact Hm|].
      split; [|congruence].
      constructor.
      * unfold EntryOk. cbn [be_success be_data be_error be_trademark].
        exists a. split; [reflexivity|]. split; [reflexivity|].
        split; [exact (targetTrademark_returned _ _ _ _ _ _ _ E)|].
        destruct (analysis_bounded _ _ _ _ _ _ _ hi Hk E)
          as (B1 & B2 & _ & B4 & _).
        split; [lia|exact B4].
      * rewrite Hkeep in Hf. exact Hf.
    + unfold ret at 1.
      destruct (IH (results0 ++ [mkBatchEntry t false None (Some e)]) w1)
        as (rs & w' & El & Hm & Hf & Ht).
      exists (mkBatchEntry t false None (Some e) :: rs), w'.
      rewrite <- app_assoc in El. split; [exact El|].
      split; [cbn [map be_trademark]; f_equal; exact Hm|].
      split; [|congruence].
      constructor.
      * unfold EntryOk. cbn [be_success be_data be_error]. eauto.
      * rewrite Hkeep in Hf. exact Hf.
Qed.

Lemma validateBatch_Some (body : BatchBody) (trademarks : list string)
      (options : Options) :
  validateBatch body = Some (trademarks, options) ->
  bb_trademarks body = Some trademarks
  /\ 1 <= length trademarks <= 10
  /\ (1 <= withDefault 20 (topK options) <= 20)%Z.
Proof.
  unfold validateBatch.
  destruct (bb_trademarks body) as [ts|]; [|discriminate].
  destruct (forallb validName ts && (1 <=? length ts)
            && (length ts <=? 10)) eqn:En;
    [|discriminate].
  destruct (validateOptions 20 10 (bb_options body)) as [o|] eqn:Eo;
    [|discriminate].
  cbn [option_map]. intros H. injection H as <- <-.
  split; [reflexivity|].
  rewrite !andb_true_iff in En. destruct En as ((_ & E1) & E2).
  apply Nat.leb_le in E1, E2. split; [lia|].
  apply (validateOptions_topK 20 10 (bb_options body)); [lia|lia|exact Eo].
Qed.

End EndpointFacts.

Module ReportFacts.
Import JSString Lexical Types Effects VectorService Engine PassSpec.
Import EffectsSpec EffectsFacts VectorFacts EngineFacts.
Import Report ServiceSpec OutcomeFacts RankingFacts EndpointFacts SortFacts.
Local Open Scope js_scope.

Lemma headScore_max (l : list SimilarityResult) :
  StronglySorted descending l ->
  Forall (fun r => (overallScore r <= headScore l)%Q) l.
Proof.
  intros H. destruct l as [|first l]; [constructor|].
  inversion H as [|? ? Hl Hf]; subst.
  assert (E : (headScore (first :: l) == overallScore first)%Q).
  { cbn [headScore].
    destruct (Qeq_bool (overallScore first) 0) eqn:E0; [|reflexivity].
    apply Qeq_bool_iff in E0. symmetry. exact E0. }
  constructor; [rewrite E; apply Qle_refl|].
  apply Forall_forall. intros r Hr. rewrite E.
  exact (proj1 (Forall_forall _ _) Hf r Hr).
Qed.

Lemma Comes_analyzeTarget (rt : Runtime) (allTrademarks : list Trademark)
      (t : Trademark) :
  Comes (analyzeTarget rt allTrademarks t).
Proof.
  unfold analyzeTarget. destruct (tm_namaMerek t);
    [apply Comes_analyzeSimilarity|apply Comes_throw].
Qed.

Lemma Comes_reportStep (rt : Runtime) (allTrademarks : list Trademark)
      (t : Trademark) (report : SimilarityReport) :
  Comes (reportStep rt allTrademarks t report).
Proof.
  unfold reportStep. apply Comes_bind; [apply Comes_analyzeTarget|].
  intros a. destruct (0 <? _); apply Comes_ret.
Qed.

Lemma analyzeTarget_inv (rt : Runtime) (allTrademarks : list Trademark)
      (t : Trademark) (w w' : World) (a : Analysis) :
  analyzeTarget rt allTrademarks t w = (Returns a, w') ->
  length (similarTrademarks a) <= 10
  /\ StronglySorted descending (similarTrademarks a)
  /\ thresholds w' = thresholds w.
Proof.
  unfold analyzeTarget. destruct (tm_namaMerek t) as [name|];
    [|discriminate].
  intros E.
  assert (Hk : (1 <= withDefault 20 (topK (mkOptions (Some 10%Z) None None))
                <= 10)%Z) by (cbn; lia).
  destruct (analysis_bounded _ _ _ _ _ _ _ 10%Z Hk E)
    as (B1 & B2 & B3 & _ & B5).
  split; [lia|]. split; [exact B3|exact B5].
Qed.

Lemma filter_snoc {A} (p : A -> bool) (l : list A) (x : A) :
  length (filter p (l ++ [x]))
  = length (filter p l) + (if p x then 1 else 0).
Proof.
  rewrite filter_app, length_app. cbn [filter].
  destruct (p x); reflexivity.
Qed.

Lemma reportStep_inv (rt : Runtime) (allTrademarks : list Trademark)
      (t : Trademark) (report report' : SimilarityReport) (w w' : World) :
  reportStep rt allTrademarks t report w = (Returns report', w') ->
  Counted report -> Forall FindingOk (similarityFindings report) ->
  Counted report' /\ Forall FindingOk (similarityFindings report')
  /\ totalAnalyzed report' = totalAnalyzed report
  /\ length (similarityFindings report')
     <= S (length (similarityFindings report))
  /\ thresholds w' = thresholds w.
Proof.
  unfold reportStep. intros H HC HF.
  apply bind_Returns in H. destruct H as (a & w1 & Ea & H).
  destruct (analyzeTarget_inv _ _ _ _ _ _ Ea) as (Hlen & Hsorted & Ht).
  destruct (0 <? length (similarTrademarks a)) eqn:E0.
  2:{ unfold ret in H. injection H as <- <-. repeat split; auto; apply HC. }
  apply Nat.ltb_lt in E0. cbv zeta in H.
  set (h := headScore (similarTrademarks a)) in *.
  set (f := mkFinding t (similarTrademarks a) h) in *.
  assert (Hf : FindingOk f).
  { unfold FindingOk, f. cbn [f_similarTrademarks highestSimilarity].
    split; [lia|]. split; [reflexivity|]. apply headScore_max. exact Hsorted. }
  destruct HC as (C1 & C2 & C3).
  assert (Hhigh : isHigh f = Qle_bool 0.8 h) by reflexivity.
  assert (Hmed : isMedium f = negb (Qle_bool 0.8 h) && Qle_bool 0.7 h)
    by reflexivity.
  assert (Hlow : isLow f = negb (Qle_bool 0.8 h) && negb (Qle_bool 0.7 h))
    by reflexivity.
  destruct (Qle_bool 0.8 h) eqn:E8;
    [|destruct (Qle_bool 0.7 h) eqn:E7];
    unfold ret in H; injection H as <- <-;
    cbn [similarityFindings summary totalAnalyzed highSimilarity
         mediumSimilarity lowSimilarity];
    (split;
     [unfold Counted;
      cbn [similarityFindings summary highSimilarity mediumSimilarity
           lowSimilarity];
      rewrite !filter_snoc, Hhigh, Hmed, Hlow; cbn [negb andb]; lia|]);
    (split;
     [apply Forall_app; split;
      [exact HF|constructor; [exact Hf|constructor]]|]);
    (split; [reflexivity|]);
    (split; [rewrite length_app; cbn [length]; lia|exact Ht]).
Qed.

Lemma reportLoop_inv (rt : Runtime) (allTrademarks : list Trademark)
      (targets : list Trademark) :
  forall (report report' : SimilarityReport) (w w' : World),
    forOf targets (reportStep rt allTrademarks) report w
    = (Returns report', w') ->
    Counted report -> Forall FindingOk (similarityFindings report) ->
    Counted report' /\ Forall FindingOk (similarityFindings report')
    /\ totalAnalyzed report' = totalAnalyzed report
    /\ length (similarityFindings report')
       <= length (similarityFindings report) + length targets
    /\ thresholds w' = thresholds w.
Proof.
  induction targets as [|t l IH]; intros report report' w w' H HC HF.
  - cbn [forOf] in H. unfold ret in H. injection H as <- <-.
    cbn [length]. repeat split; auto; try apply HC. lia.
  - cbn [forOf] in H. apply bind_Returns in H.
    destruct H as (mid & w1 & E1 & H).
    destruct (reportStep_inv _ _ _ _ _ _ _ E1 HC HF)
      as (C1 & F1 & T1 & L1 & W1).
    destruct (IH _ _ _ _ H C1 F1) as (C2 & F2 & T2 & L2 & W2).
    split; [exact C2|]. split; [exact F2|]. split; [congruence|].
    split; [cbn [length]; lia|congruence].
Qed.

Lemma reportStep_finding (rt : Runtime) (allTrademarks : list Trademark)
      (t : Trademark) (report report' : SimilarityReport) (w w' : World) :
  reportStep rt allTrademarks t report w = (Returns report', w') ->
  exists a,
    analyzeTarget rt allTrademarks t w = (Returns a, w')
    /\ similarityFindings report'
       = similarityFindings report
         ++ map findingOf (filter hasResults [(t, a)]).
Proof.
  unfold reportStep. intros H.
  apply bind_Returns in H. destruct H as (a & w1 & Ea & H).
  exists a. cbn [filter]. unfold hasResults at 1. cbn [snd].
  destruct (0 <? length (similarTrademarks a)).
  - cbv zeta in H.
    destruct (Qle_bool 0.8 (headScore (similarTrademarks a)));
      [|destruct (Qle_bool 0.7 (headScore (similarTrademarks a)))];
      unfold ret in H; injection H as <- <-; split; try exact Ea;
      reflexivity.
  - unfold ret in H. injection H as <- <-. split; [exact Ea|].
    cbn [map]. rewrite app_nil_r. reflexivity.
Qed.

(** The findings of the loop are those of the analyses of the targets,
    in the order of the targets. *)
Lemma reportLoop_findings (rt : Runtime) (allTrademarks : list Trademark)
      (targets : list Trademark) :
  forall (report report' : SimilarityReport) (w w' : World),
    forOf targets (reportStep rt allTrademarks) report w
    = (Returns report', w') ->
    map fst (analysesOf rt allTrademarks targets w) = targets
    /\ similarityFindings report'
       = similarityFindings report
         ++ map findingOf
              (filter hasResults (analysesOf rt allTrademarks targets w)).
Proof.
  induction targets as [|t l IH]; intros report report' w w' H.
  - cbn [forOf] in H. unfold ret in H. injection H as <- <-.
    cbn [analysesOf filter map]. rewrite app_nil_r. split; reflexivity.
  - cbn [forOf] in H. apply bind_Returns in H.
    destruct H as (mid & w1 & E1 & H).
    destruct (reportStep_finding _ _ _ _ _ _ _ E1) as (a & Ea & Ef).
    destruct (IH _ _ _ _ H) as (Hm & Hl).
    cbn [analysesOf]. rewrite Ea. cbn [map fst]. split; [f_equal; exact Hm|].
    rewrite Hl, Ef, <- app_assoc. f_equal.
    cbn [filter]. destruct (hasResults (t, a)); reflexivity.
Qed.

Lemma partition_three (fs : list Finding) :
  length (filter isHigh fs) + length (filter isMedium fs)
  + length (filter isLow fs) = length fs.
Proof.
  induction fs as [|f fs IH]; [reflexivity|].
  cbn [filter length]. unfold isHigh, isMedium, isLow in *.
  destruct (Qle_bool 0.8 (highestSimilarity f));
    destruct (Qle_bool 0.7 (highestSimilarity f));
    cbn [negb andb length]; lia.
Qed.

(** A target without [namaMerek] ends the report. *)
Lemma reportLoop_throws (rt : Runtime) (allTrademarks : list Trademark)
      (targets : list Trademark) :
  (exists t, In t targets /\ tm_namaMerek t = None) ->
  forall (report : SimilarityReport) (w : World),
  exists e w',
    forOf targets (reportStep rt allTrademarks) report w = (Throws e, w').
Proof.
  induction targets as [|x l IH]; intros (t & Hin & Hn) report w;
    [contradiction|].
  cbn [forOf]. unfold bind at 1.
  pose proof (Comes_reportStep rt allTrademarks x report w) as Hc.
  destruct (reportStep rt allTrademarks x report w) as [[r|e|] w1] eqn:E;
    cbn [fst] in Hc; [|eauto|congruence].
  destruct Hin as [->|Hin].
  - unfold reportStep, analyzeTarget in E. rewrite Hn in E.
    unfold bind, throw in E. discriminate.
  - apply IH. eauto.
Qed.

End ReportFacts.

Module ExtraService.
Import JSString Lexical Types Effects VectorService Engine PassSpec.
Import EffectsSpec EngineExamples AnalysisController Report ServiceSpec.
Import ServiceExamples EndpointFacts ReportFacts.
Import EffectsFacts EngineFacts OutcomeFacts ServiceFacts.

(** X23. The endpoint of the analysis always answers.  It answers 400,
    and touches nothing, when the body fails the schema.  An answer 200
    is the analysis of a trademark of 1 to 200 characters with a bound
    [topK] between 1 and 50, and it holds at most [topK] results, by
    falling score, each at or above the overall threshold.  A body that
    passes the schema gets the answer 500 when the fetch of the corpus
    throws, as it does when the vector database is not initialised; it
    gets the answer 200 when the fetch of the corpus returns and the
    provider answers with vectors of 1536 entries. *)
Theorem analyzeSimilarity_endpoint_bounds (rt : Runtime)
        (store : Service.VectorStore) (body : AnalyzeBody) (w : World) :
  fst (AnalysisController.analyzeSimilarity rt store body w) <> NoResponse
  /\ (validateAnalyze body = None ->
      AnalysisController.analyzeSimilarity rt store body w = (Status400, w))
  /\ (forall a,
         fst (AnalysisController.analyzeSimilarity rt store body w)
         = Status200 a ->
         (exists trademark,
             ab_trademark body = Some trademark
             /\ targetTrademark a = trademark
             /\ 1 <= String.length trademark <= 200)
         /\ (1 <= usedTopK a <= 50)%Z
         /\ (Z.of_nat (length (similarTrademarks a)) <= usedTopK a)%Z
         /\ StronglySorted descending (similarTrademarks a)
         /\ Forall (fun r => (Config.overallSimilarity (thresholds w)
                              <= overallScore r)%Q) (similarTrademarks a))
  /\ (ProviderDimensions rt -> validateAnalyze body <> None ->
      (exists allTrademarks w1,
          Service.getAllTrademarks rt store w = (Returns allTrademarks, w1)) ->
      exists a,
        fst (AnalysisController.analyzeSimilarity rt store body w)
        = Status200 a)
  /\ (validateAnalyze body <> None ->
      (exists error w1,
          Service.getAllTrademarks rt store w = (Throws error, w1)) ->
      fst (AnalysisController.analyzeSimilarity rt store body w) = Status500)
  /\ (validateAnalyze body <> None ->
      Service.pineconeIndex store = None ->
      fst (AnalysisController.analyzeSimilarity rt store body w) = Status500).
Proof.
  unfold AnalysisController.analyzeSimilarity.
  destruct (validateAnalyze body) as [[trademark options]|] eqn:Ev.
  2:{ split; [discriminate|]. split; [reflexivity|].
      split; [discriminate|]. repeat split; intros; congruence. }
  destruct (validateAnalyze_Some _ _ _ Ev) as (Hb & Hn & Hk).
  assert (Hthrown : forall error w1,
             Service.getAllTrademarks rt store w = (Throws error, w1) ->
             fst (let (o, w') :=
                    Service.analyzeSimilarity rt store trademark options w in
                  match o with
                  | Returns result => (Status200 result, w')
                  | Throws _ => (Status500, w')
                  | Hangs => (NoResponse, w')
                  end) = Status500).
  { intros error w1 E.
    rewrite (analyzeSimilarity_rethrows rt store trademark options w w1
                                        error E).
    reflexivity. }
  pose proof (Comes_service rt store trademark options w) as Hc.
  destruct (Service.analyzeSimilarity rt store trademark options w)
    as [[a|e|] w'] eqn:E; cbn [fst] in Hc; [| |congruence].
  - split; [discriminate|]. split; [discriminate|]. split.
    { intros a' H. injection H as <-.
      destruct (analyzeSimilarity_fetched _ _ _ _ _ _ _ E)
        as (l & w1 & _ & Ht & E1).
      destruct (analysis_bounded _ _ _ _ _ _ _ 50%Z Hk E1)
        as (B1 & B2 & B3 & B4 & _).
      rewrite Ht in B4. split; [|tauto].
      exists trademark. split; [exact Hb|]. split; [|exact Hn].
      exact (targetTrademark_returned _ _ _ _ _ _ _ E1). }
    split; [intros _ _ _; cbn [fst]; eauto|].
    split.
    + intros _ (error & w1 & Ef). exact (Hthrown error w1 Ef).
    + intros _ Hi. destruct (getAllTrademarks_closed rt store w Hi) as (w1 & Ef).
      exact (Hthrown _ w1 Ef).
  - split; [discriminate|]. split; [discriminate|]. split; [discriminate|].
    split; [|split; reflexivity].
    intros Hdim _ (l & w1 & Ef).
    destruct (analyzeSimilarity_answers rt store trademark options w w1 l
                                        Hdim Ef) as (a & w'' & E').
    congruence.
Qed.

Lemma analyzeSimilarity_endpoint_bounds_witness :
  (exists a,
      fst (AnalysisController.analyzeSimilarity
             answeringRuntime colaStore
             (mkAnalyzeBody (Some "cola"%string)
                            (Some (mkBodyOptions (Some 1%Q) None None)))
             startWorld) = Status200 a
      /\ (Z.of_nat (length (similarTrademarks a)) <= usedTopK a)%Z)
  /\ fst (AnalysisController.analyzeSimilarity
            answeringRuntime closedStore
            (mkAnalyzeBody (Some "cola"%string) None) startWorld)
     = Status500.
Proof.
  split.
  - eexists. split; [vm_compute; reflexivity|].
    refine (proj1 (proj2 (proj2
              (proj1 (proj2 (proj2
                 (analyzeSimilarity_endpoint_bounds
                    answeringRuntime colaStore
                    (mkAnalyzeBody (Some "cola"%string)
                                   (Some (mkBodyOptions (Some 1%Q) None None)))
                    startWorld))) _ _)))).
    vm_compute. reflexivity.
  - refine (proj2 (proj2 (proj2 (proj2 (proj2
              (analyzeSimilarity_endpoint_bounds
                 answeringRuntime closedStore
                 (mkAnalyzeBody (Some "cola"%string) None) startWorld)))))
              _ _).
    + vm_compute. discriminate.
    + reflexivity.
Defined.

(** X24. The batch endpoint answers 400, and touches nothing, when the
    body fails the schema, and 200 otherwise, whatever the analyses do:
    an analysis that throws becomes an entry with the error and does
    not end the batch.  The answer holds one entry for each trademark
    of the request, in the order of the request; [total] is their
    number, [successful] counts the entries with [success], and
    [successful + failed = total]; an entry with [success] holds the
    analysis of its trademark, with at most 20 results. *)
Theorem batchAnalyzeSimilarity_complete (rt : Runtime)
        (allTrademarks : list Trademark) (body : BatchBody) (w : World) :
  (validateBatch body = None ->
   batchAnalyzeSimilarity rt allTrademarks body w = (Status400, w))
  /\ (validateBatch body <> None ->
      exists data trademarks,
        fst (batchAnalyzeSimilarity rt allTrademarks body w) = Status200 data
        /\ bb_trademarks body = Some trademarks
        /\ map be_trademark (results data) = trademarks
        /\ total (AnalysisController.summary data) = length trademarks
        /\ successful (AnalysisController.summary data)
           = length (filter be_success (results data))
        /\ successful (AnalysisController.summary data)
           + failed (AnalysisController.summary data)
           = total (AnalysisController.summary data)
        /\ Forall (EntryOk (thresholds w) 20) (results data)
        /\ thresholds (snd (batchAnalyzeSimilarity rt allTrademarks body w))
           = thresholds w).
Proof.
  unfold batchAnalyzeSimilarity.
  destruct (validateBatch body) as [[trademarks options]|] eqn:Ev.
  2:{ split; [reflexivity|]. congruence. }
  split; [discriminate|]. intros _.
  destruct (validateBatch_Some _ _ _ Ev) as (Hb & Hn & Hk).
  unfold batchLoop.
  destruct (batchLoop_inv rt allTrademarks options 20 trademarks Hk [] w)
    as (rs & w' & El & Hm & Hf & Ht).
  rewrite El. cbn [app fst snd]. cbv zeta.
  eexists. exists trademarks. split; [reflexivity|].
  cbn [results AnalysisController.summary total successful failed].
  split; [exact Hb|]. split; [exact Hm|]. split; [reflexivity|].
  split; [reflexivity|]. split; [|split; [exact Hf|exact Ht]].
  pose proof (filter_length_le be_success rs) as Hle.
  rewrite <- Hm, length_map. lia.
Qed.

Lemma batchAnalyzeSimilarity_complete_witness :
  exists data,
    fst (batchAnalyzeSimilarity
           answeringRuntime [colaOne; colaTwo]
           (mkBatchBody (Some ["cola"; "tea"]%string) None)
           startWorld) = Status200 data
    /\ map be_trademark (results data) = ["cola"; "tea"]%string.
Proof.
  assert (Hv : validateBatch (mkBatchBody (Some ["cola"; "tea"]%string) None)
               <> None) by (vm_compute; discriminate).
  destruct (proj2 (batchAnalyzeSimilarity_complete
                     answeringRuntime [colaOne; colaTwo]
                     (mkBatchBody (Some ["cola"; "tea"]%string) None)
                     startWorld) Hv)
    as (data & trademarks & E & Eb & Em & _).
  exists data. split; [exact E|].
  cbn [bb_trademarks] in Eb. injection Eb as <-. exact Em.
Defined.

(** X25. A report that [generateSimilarityReport] returns is
    consistent: [totalAnalyzed] is the number of targets (of the first
    50 records of the corpus when no target is given); there is at most
    one finding for each target; the three counters of the summary
    count the findings whose highest similarity is at least 0.8, at
    least 0.7 and below 0.8, and below 0.7, so that their sum is the
    number of findings; each finding holds between 1 and 10 results,
    and its highest similarity is the score of the first result, which
    no score of the finding exceeds.  The thresholds are not touched.
    Every target has been analysed, in the order of the targets, and
    the findings are, in that order, those of the targets whose
    analysis has a result: a finding names its own target, and it holds
    the results and the first score of the analysis of that target. *)
Theorem generateSimilarityReport_consistent (rt : Runtime)
        (allTrademarks targetTrademarks : list Trademark)
        (w w' : World) (report : SimilarityReport) :
  generateSimilarityReport rt allTrademarks targetTrademarks w
  = (Returns report, w') ->
  totalAnalyzed report
  = (if length targetTrademarks =? 0 then Nat.min 50 (length allTrademarks)
     else length targetTrademarks)
  /\ Counted report
  /\ highSimilarity (Report.summary report)
     + mediumSimilarity (Report.summary report)
     + lowSimilarity (Report.summary report)
     = length (similarityFindings report)
  /\ length (similarityFindings report) <= totalAnalyzed report
  /\ Forall FindingOk (similarityFindings report)
  /\ thresholds w' = thresholds w
  /\ map fst (analysesOf rt allTrademarks
                         (targetsOf allTrademarks targetTrademarks) w)
     = targetsOf allTrademarks targetTrademarks
  /\ similarityFindings report
     = map findingOf
           (filter hasResults
                   (analysesOf rt allTrademarks
                               (targetsOf allTrademarks targetTrademarks) w)).
Proof.
  unfold generateSimilarityReport. rewrite tryCatch_rethrow. cbv zeta.
  intros H.
  destruct (reportLoop_findings _ _ _ _ _ _ _ H) as (Hruns & Hfindings).
  apply reportLoop_inv in H.
  - destruct H as (C & F & T & L & W).
    cbn [totalAnalyzed similarityFindings length] in T, L.
    split.
    { rewrite T. destruct (length targetTrademarks =? 0); [|reflexivity].
      unfold slice0. cbv zeta. rewrite length_firstn.
      change (50 <? 0)%Z with false. cbv iota. lia. }
    split; [exact C|]. split.
    { destruct C as (-> & -> & ->). apply partition_three. }
    split; [rewrite T; exact L|]. split; [exact F|]. split; [exact W|].
    split; [exact Hruns|exact Hfindings].
  - repeat split.
  - constructor.
Qed.

Lemma generateSimilarityReport_consistent_witness :
  exists report w',
    generateSimilarityReport answeringRuntime [colaOne; colaTwo] [colaOne]
                             startWorld = (Returns report, w')
    /\ totalAnalyzed report = 1
    /\ map f_targetTrademark (similarityFindings report) = [colaOne].
Proof.
  destruct (generateSimilarityReport answeringRuntime [colaOne; colaTwo]
                                     [colaOne] startWorld)
    as [[report|e|] w'] eqn:E;
    [|vm_compute in E; discriminate E|vm_compute in E; discriminate E].
  exists report, w'. split; [reflexivity|].
  destruct (generateSimilarityReport_consistent _ _ _ _ _ _ E)
    as (T & _ & _ & _ & _ & _ & _ & F).
  split; [exact T|]. rewrite F. vm_compute. reflexivity.
Defined.

(** X26. A target without [namaMerek] ends the report with an error:
    whatever the other targets are, the report throws.  With no target
    given the targets are the first 50 records of the corpus, so one
    record among them that has no [namaMerek] is enough. *)
Theorem generateSimilarityReport_throws_on_unnamed (rt : Runtime)
        (allTrademarks targetTrademarks : list Trademark) (w : World) :
  (exists t,
      In t (if length targetTrademarks =? 0 then slice0 allTrademarks 50
            else targetTrademarks)
      /\ tm_namaMerek t = None) ->
  exists e w',
    generateSimilarityReport rt allTrademarks targetTrademarks w
    = (Throws e, w').
Proof.
  intros H. unfold generateSimilarityReport.
  rewrite EffectsFacts.tryCatch_rethrow. cbv zeta.
  apply reportLoop_throws. exact H.
Qed.

Lemma generateSimilarityReport_throws_on_unnamed_witness :
  exists e w',
    generateSimilarityReport
      answeringRuntime
      [colaOne;
       mkTrademark None (Some "TEA"%string) None None None
                   (Some "IDM000777888"%string) None None]
      [] startWorld
    = (Throws e, w').
Proof.
  apply generateSimilarityReport_throws_on_unnamed.
  eexists. split; [right; left; reflexivity|reflexivity].
Defined.

End ExtraService.

Module SearchFacts.
Import JSString Lexical Types SearchFilter SearchSpec SortFacts.

Lemma startsWith_refl (q : list ascii) : Document.startsWith q q = true.
Proof.
  induction q as [|c q IH]; [reflexivity|].
  cbn [Document.startsWith]. rewrite Ascii.eqb_refl. exact IH.
Qed.

Lemma includes_refl (q : list ascii) : includes q q = true.
Proof. destruct q; cbn [includes]; rewrite startsWith_refl; reflexivity. Qed.

Lemma sameString_eq (a b : list ascii) : sameString a b = true <-> a = b.
Proof.
  unfold sameString, ofChars. rewrite String.eqb_eq. split.
  - intros H. apply (f_equal list_ascii_of_string) in H.
    rewrite !list_ascii_of_string_of_list_ascii in H. exact H.
  - intros ->. reflexivity.
Qed.

Lemma sameString_includes (a q : list ascii) :
  sameString a q = true -> includes a q = true.
Proof. intros H. apply sameString_eq in H. subst. apply includes_refl. Qed.

(** The comparator is positive exactly when [b] has to go first. *)
Lemma compareRelevance_spec (q : list ascii) (a b : SearchResult) :
  Qltb 0 (compareRelevance q a b) = false <-> Before q a b.
Proof.
  unfold compareRelevance, Before, rank. cbv zeta.
  pose proof (sameString_includes (nameOf a) q) as Ha.
  pose proof (sameString_includes (nameOf b) q) as Hb.
  destruct (sameString (nameOf a) q), (sameString (nameOf b) q);
    cbn [andb negb].
  - rewrite (Ha eq_refl), (Hb eq_refl). cbn [andb negb].
    rewrite Qltb_false. split; [intros H; right; split; [reflexivity|lra]|].
    intros [H|(_ & H)]; [lia|lra].
  - split; [intros _; left|reflexivity].
    destruct (includes (nameOf b) q); lia.
  - split; [discriminate|].
    intros [H|(H & _)]; destruct (includes (nameOf a) q); lia.
  - destruct (includes (nameOf a) q), (includes (nameOf b) q);
      cbn [andb negb].
    + rewrite Qltb_false.
      split; [intros H; right; split; [reflexivity|lra]|].
      intros [H|(_ & H)]; [lia|lra].
    + split; [intros _; left; lia|reflexivity].
    + split; [discriminate|]. intros [H|(H & _)]; lia.
    + rewrite Qltb_false.
      split; [intros H; right; split; [reflexivity|lra]|].
      intros [H|(_ & H)]; [lia|lra].
Qed.

Lemma Before_trans (q : list ascii) (a b c : SearchResult) :
  Before q a b -> Before q b c -> Before q a c.
Proof.
  unfold Before. intros [H1|(H1 & S1)] [H2|(H2 & S2)].
  - left. lia.
  - left. lia.
  - left. lia.
  - right. split; [lia|lra].
Qed.

Lemma Before_total (q : list ascii) (a b : SearchResult) :
  ~ Before q a b -> Before q b a.
Proof.
  unfold Before. intros H.
  destruct (Nat.lt_trichotomy (rank q a) (rank q b)) as [L|[E|G]].
  - left. exact L.
  - right. split; [symmetry; exact E|].
    destruct (Qlt_le_dec (sr_score a) (sr_score b)) as [Hs|Hs].
    + apply Qlt_le_weak. exact Hs.
    + exfalso. apply H. right. split; [exact E|exact Hs].
  - exfalso. apply H. left. exact G.
Qed.

Lemma Permutation_insertBy (compare : SearchResult -> SearchResult -> Q)
      (a : SearchResult) (l : list SearchResult) :
  Permutation (insertBy compare a l) (a :: l).
Proof.
  induction l as [|b l IH]; cbn [insertBy]; [reflexivity|].
  destruct (Qltb 0 _); [|reflexivity].
  rewrite IH. apply perm_swap.
Qed.

Lemma Permutation_sortBy (compare : SearchResult -> SearchResult -> Q)
      (l : list SearchResult) :
  Permutation (sortBy compare l) l.
Proof.
  unfold sortBy. induction l as [|a l IH]; cbn [fold_right]; [reflexivity|].
  rewrite Permutation_insertBy, IH. reflexivity.
Qed.

Lemma StronglySorted_insertBy (q : list ascii) (a : SearchResult)
      (l : list SearchResult) :
  StronglySorted (Before q) l ->
  StronglySorted (Before q) (insertBy (compareRelevance q) a l).
Proof.
  induction l as [|b l IH]; intros H; cbn [insertBy].
  - constructor; constructor.
  - inversion H as [|? ? Hl Hb]; subst.
    destruct (Qltb 0 (compareRelevance q a b)) eqn:E.
    + assert (Hab : Before q b a).
      { apply Before_total. intros Hn.
        apply compareRelevance_spec in Hn. congruence. }
      constructor; [exact (IH Hl)|].
      apply Forall_forall. intros x Hx.
      apply (Permutation_in _ (Permutation_insertBy _ a l)) in Hx.
      destruct Hx as [<-|Hx]; [exact Hab|].
      exact (proj1 (Forall_forall _ _) Hb x Hx).
    + apply compareRelevance_spec in E. constructor; [exact H|].
      constructor; [exact E|].
      apply Forall_forall. intros x Hx.
      exact (Before_trans q a b x E (proj1 (Forall_forall _ _) Hb x Hx)).
Qed.

Lemma StronglySorted_sortBy (q : list ascii) (l : list SearchResult) :
  StronglySorted (Before q) (sortBy (compareRelevance q) l).
Proof.
  unfold sortBy. induction l as [|a l IH]; cbn [fold_right].
  - constructor.
  - apply StronglySorted_insertBy. exact IH.
Qed.

Lemma isRelevant_true (q : list ascii) (result : SearchResult) :
  isRelevant q result = true <->
  exists trademark,
    sr_trademarkData result = Some trademark
    /\ (includes (lower (namaReferensiLabelMerek trademark)) q = true
        \/ includes (lower (namaPemohon trademark)) q = true
        \/ includes (lower (uraianBarangJasa trademark)) q = true
        \/ includes (lower (nomorPermohonan trademark)) q = true
        \/ (0.8 < sr_score result)%Q).
Proof.
  unfold isRelevant. cbv zeta.
  destruct (sr_trademarkData result) as [t|].
  2:{ split; [discriminate|]. intros (t & H & _). discriminate. }
  assert (R : forall P : TrademarkData -> Prop,
             (exists trademark, Some t = Some trademark /\ P trademark)
             <-> P t).
  { intros P. split; [intros (t' & E & H); injection E as <-; exact H|eauto]. }
  rewrite R. clear R. rewrite <- Qltb_true.
  destruct (includes (lower (namaReferensiLabelMerek t)) q);
    [split; auto|].
  destruct (includes (lower (namaPemohon t)) q); [split; auto|].
  destruct (includes (lower (uraianBarangJasa t)) q); [split; auto|].
  destruct (includes (lower (nomorPermohonan t)) q); [split; auto 6|].
  split; [auto 6|].
  intros [H|[H|[H|[H|H]]]]; try discriminate. exact H.
Qed.

End SearchFacts.

Module ExtraSearch.
Import JSString Lexical Types SearchFilter SearchSpec SearchFacts.

(** X27. The relevance filter of the search.  A query of fewer than two
    characters (lower-cased and trimmed) returns the results as they
    are.  Otherwise the answer holds exactly the results that have
    their trademark data and whose mark name, applicant, description
    or application number contains the query, or whose score is above
    0.8; and it is ordered: a result whose name is the query stands
    before every result whose name is not, a result whose name contains
    the query before every one whose name does not, and within each of
    the three groups the scores never rise. *)
Theorem filterRelevantResults_ranked (results : list SearchResult)
        (query : string) :
  (length (queryOf query) < 2 ->
   filterRelevantResults results query = results)
  /\ (2 <= length (queryOf query) ->
      Permutation (filterRelevantResults results query)
                  (filter (isRelevant (queryOf query)) results)
      /\ StronglySorted (Before (queryOf query))
                        (filterRelevantResults results query)
      /\ forall result,
          In result (filterRelevantResults results query) <->
          In result results
          /\ exists trademark,
              sr_trademarkData result = Some trademark
              /\ (includes (lower (namaReferensiLabelMerek trademark))
                           (queryOf query) = true
                  \/ includes (lower (namaPemohon trademark))
                              (queryOf query) = true
                  \/ includes (lower (uraianBarangJasa trademark))
                              (queryOf query) = true
                  \/ includes (lower (nomorPermohonan trademark))
                              (queryOf query) = true
                  \/ (0.8 < sr_score result)%Q)).
Proof.
  unfold filterRelevantResults, queryOf. cbv zeta.
  set (q := trim (toLowerCase (chars query))).
  split.
  - intros H. apply Nat.ltb_lt in H. rewrite H. reflexivity.
  - intros H. apply Nat.ltb_ge in H. rewrite H.
    split; [apply Permutation_sortBy|].
    split; [apply StronglySorted_sortBy|].
    intros result. rewrite <- isRelevant_true, <- filter_In. split.
    + apply Permutation_in, Permutation_sortBy.
    + apply Permutation_in, Permutation_sym, Permutation_sortBy.
Qed.

Lemma filterRelevantResults_ranked_witness :
  filterRelevantResults
    [ mkSearchResult "1" 0.9
        (Some (newTrademarkData
                 [("namaReferensiLabelMerek"%string, JSStr "Supercola")]));
      mkSearchResult "2" 0.5
        (Some (newTrademarkData
                 [("namaReferensiLabelMerek"%string, JSStr "COLA")]));
      mkSearchResult "3" 0.5
        (Some (newTrademarkData
                 [("namaReferensiLabelMerek"%string, JSStr "Tea")])) ]
    " Cola "
  = [ mkSearchResult "2" 0.5
        (Some (newTrademarkData
                 [("namaReferensiLabelMerek"%string, JSStr "COLA")]));
      mkSearchResult "1" 0.9
        (Some (newTrademarkData
                 [("namaReferensiLabelMerek"%string, JSStr "Supercola")])) ]
  /\ StronglySorted (Before (queryOf " Cola "))
       (filterRelevantResults
          [ mkSearchResult "1" 0.9
              (Some (newTrademarkData
                       [("namaReferensiLabelMerek"%string,
                         JSStr "Supercola")]));
            mkSearchResult "2" 0.5
              (Some (newTrademarkData
                       [("namaReferensiLabelMerek"%string, JSStr "COLA")]));
            mkSearchResult "3" 0.5
              (Some (newTrademarkData
                       [("namaReferensiLabelMerek"%string, JSStr "Tea")])) ]
          " Cola ").
Proof.
  split; [vm_compute; reflexivity|].
  refine (proj1 (proj2 (proj2 (filterRelevantResults_ranked _ " Cola ") _))).
  vm_compute. lia.
Defined.

End ExtraSearch.

Module RecallFacts.
Import JSString Lexical Types Effects VectorService Engine PassSpec.
Import EffectsSpec EffectsFacts VectorFacts EngineFacts FusionSpec FusionFacts.
Import SortFacts PassFacts EmbeddingFacts DescriptionSpec RankingFacts.
Import IdentityFacts DistanceFacts RecallSpec.
Local Open Scope js_scope.

Lemma lastBy_Some {R S} (key : R -> option string) (val : R -> S)
      (k : option string) (rs : list R) (s : S) :
  lastBy key val k rs = Some s ->
  exists r, In r rs /\ key r = k /\ val r = s.
Proof.
  induction rs as [|r rs IH]; cbn [lastBy]; [discriminate|].
  destruct (lastBy key val k rs) as [s'|].
  - intros H. injection H as <-. destruct (IH eq_refl) as (r' & Hin & H).
    exists r'. split; [now right|exact H].
  - destruct (keyEqb (key r) k) eqn:E; [|discriminate].
    intros H. injection H as <-. apply keyEqb_eq in E.
    exists r. split; [now left|split; [exact E|reflexivity]].
Qed.

(** The passes behind a result, with what they hold. *)
Lemma analyzeSimilarity_passes_full (rt : Runtime) (target : string)
      (options : Options) (allTrademarks : list Trademark)
      (w : World) (a : Analysis) :
  returned (analyzeSimilarity rt target options allTrademarks w) = Some a ->
  exists D P,
    similarTrademarks a
    = slice0
        (sortByScore
           (filter (fun result =>
                      Qle_bool (Config.overallSimilarity (thresholds w))
                               (overallScore result))
                   (combineAndScoreResults target
                      (flat_map (textStep w target) allTrademarks) D P)))
        (withDefault 20%Z (topK options))
    /\ Forall (DescOk w allTrademarks) D
    /\ Forall (fun r => In (pr_trademark r) allTrademarks
                        /\ (0 <= score (pr_phoneticSimilarity r))%Q) P.
Proof.
  unfold returned, analyzeSimilarity. rewrite tryCatch_rethrow.
  match goal with |- context [fst (?c w)] => destruct (c w) as [o w'] eqn:E end.
  cbn [fst]. destruct o as [a'| |]; try discriminate.
  intros H. inversion H; subst a'. clear H.
  apply bind_Returns in E. destruct E as (T & w1 & E1 & E).
  apply bind_Returns in E. destruct E as (D & w2 & E2 & E).
  apply bind_Returns in E. destruct E as (P & w3 & E3 & E).
  apply bind_Returns in E. destruct E as (thr & w4 & E4 & E).
  unfold readThresholds in E4. inversion E4; subst thr w4. clear E4.
  unfold ret in E. inversion E; subst. clear E.
  rewrite analyzeTextSimilarity_flat_map in E1. inversion E1; subst T w1.
  clear E1.
  apply analyzeDescriptionSimilarity_inv in E2.
  destruct E2 as (_ & Ht2 & HD).
  assert (HP : thresholds w' = thresholds w2
               /\ Forall (fun r => In (pr_trademark r) allTrademarks
                                   /\ (0 <= score (pr_phoneticSimilarity r))%Q)
                         P).
  { destruct (withDefault true (includePhonetic options)).
    - rewrite analyzePhoneticSimilarity_flat_map in E3.
      inversion E3; subst. split; [reflexivity|].
      apply Forall_forall. intros r Hr. split.
      + assert (Hin : In (pr_trademark r)
                         (map pr_trademark
                              (flat_map (phoneticStep w' target)
                                        allTrademarks)))
          by (apply in_map; exact Hr).
        rewrite phoneticStep_trademarks in Hin. apply filter_In in Hin. tauto.
      + pose proof (phoneticStep_scores w' target allTrademarks) as Hs.
        destruct (proj1 (Forall_forall _ _) Hs r Hr) as (-> & _).
        unfold phoneticScoreOf, calculatePhoneticSimilarity.
        apply calculateLevenshteinSimilarity_range.
    - unfold ret in E3. inversion E3; subst. auto. }
  destruct HP as (Ht3 & HP).
  exists D, P. cbn [similarTrademarks]. rewrite Ht3, Ht2.
  split; [reflexivity|]. split; [exact HD|exact HP].
Qed.

(** The text pass holds the record of the same name, with the score 1. *)
Lemma textStep_same_name (w : World) (target : string) (t : Trademark) :
  SameName target t ->
  (Config.textSimilarity (thresholds w) <= 1)%Q ->
  exists sim, textStep w target t = [mkTextResult t sim]
              /\ (overall sim == 1)%Q.
Proof.
  intros (Hn & Hl) Ht. unfold textStep. rewrite Hn.
  destruct (textSimilarityOf_self (normalizeText target) Hl) as (sim & E & Hs).
  rewrite E. exists sim. split; [|exact Hs].
  replace (Qle_bool (Config.textSimilarity (thresholds w)) (overall sim))
    with true; [reflexivity|].
  symmetry. apply Qle_bool_iff. rewrite Hs. exact Ht.
Qed.

Lemma lastText_own (w : World) (target : string)
      (allTrademarks : list Trademark) (t : Trademark)
      (sim : TextSimilarity) :
  In t allTrademarks -> OwnKey allTrademarks t ->
  textStep w target t = [mkTextResult t sim] ->
  lastText (keyOf t) (flat_map (textStep w target) allTrademarks) = Some sim.
Proof.
  intros Hin Hown Hstep.
  assert (Hk : In (keyOf t)
                  (map textKey (flat_map (textStep w target) allTrademarks))).
  { apply in_map_iff. exists (mkTextResult t sim). split; [reflexivity|].
    apply in_flat_map. exists t. split; [exact Hin|].
    rewrite Hstep. now left. }
  destruct (lastBy_In textKey tr_textSimilarity _ _ Hk) as (s & E).
  unfold lastText. rewrite E. f_equal.
  destruct (lastBy_Some _ _ _ _ _ E) as (r & Hr & Hkey & <-).
  apply in_flat_map in Hr. destruct Hr as (t' & Hin' & Hr).
  assert (Ht' : tr_trademark r = t').
  { unfold textStep in Hr.
    destruct (textSimilarityOf _ _); [|contradiction].
    destruct (Qle_bool _ _); [|contradiction].
    destruct Hr as [<-|[]]. reflexivity. }
  unfold textKey in Hkey. rewrite Ht' in Hkey.
  rewrite (Hown t' Hin' Hkey) in Hr. rewrite Hstep in Hr.
  destruct Hr as [<-|[]]. reflexivity.
Qed.

Lemma slice0_all {A} (l : list A) (end_ : Z) :
  (Z.of_nat (length l) <= end_)%Z -> slice0 l end_ = l.
Proof.
  intros H. unfold slice0. cbv zeta.
  destruct (Z.ltb_spec end_ 0); [lia|].
  apply firstn_all2. lia.
Qed.

Lemma length_combined (target : string) (textResults : list TextResult)
      (descResults : list DescResult)
      (phoneticResults : list PhoneticResult)
      (allTrademarks : list Trademark) :
  Forall (fun r => In (tr_trademark r) allTrademarks) textResults ->
  Forall (fun r => In (dr_trademark r) allTrademarks) descResults ->
  Forall (fun r => In (pr_trademark r) allTrademarks) phoneticResults ->
  length (combineAndScoreResults target textResults descResults
                                 phoneticResults)
  <= length allTrademarks.
Proof.
  intros HT HD HP.
  rewrite <- (length_map resultKey), resultKeys_combined.
  rewrite <- (length_map keyOf allTrademarks).
  apply NoDup_incl_length; [apply NoDup_keys_combinedMap|].
  intros k Hk. apply in_map_iff in Hk. destruct Hk as ([k' e] & <- & He).
  cbn [fst].
  rewrite <- (WellKeyed_combinedMap textResults descResults phoneticResults
                                    k' e He).
  apply in_map.
  exact (Holds_combinedMap (fun t => In t allTrademarks) _ _ _ HT HD HP
                           k' e He).
Qed.

End RecallFacts.

Module ExtraRecall.
Import JSString Lexical Types Effects VectorService Engine PassSpec.
Import EffectsSpec EngineExamples RecallSpec RecallFacts.
Import EffectsFacts VectorFacts EngineFacts FusionSpec FusionFacts.
Import SortFacts PassFacts EmbeddingFacts DescriptionSpec RankingFacts.
Import IdentityFacts DistanceFacts.

(** X28. A record of the same name is found.  When the analysis
    returns, a record of the corpus whose name is the target up to
    normalisation (and not one single character), and whose key no
    other record has, is among the results, with the text score 1 and
    an overall score of at least 0.4; provided the text threshold is at
    most 1, the semantic threshold is not negative, the overall
    threshold is at most 0.4 (the thresholds of the constructor are
    such), and the bound [topK] is not below the size of the corpus. *)
Theorem analyzeSimilarity_finds_same_name (rt : Runtime) (target : string)
        (options : Options) (allTrademarks : list Trademark)
        (w : World) (a : Analysis) (t : Trademark) :
  returned (analyzeSimilarity rt target options allTrademarks w) = Some a ->
  In t allTrademarks -> OwnKey allTrademarks t -> SameName target t ->
  (Config.textSimilarity (thresholds w) <= 1)%Q ->
  (0 <= Config.semanticSimilarity (thresholds w))%Q ->
  (Config.overallSimilarity (thresholds w) <= 0.4)%Q ->
  (Z.of_nat (length allTrademarks) <= withDefault 20 (topK options))%Z ->
  exists r,
    In r (similarTrademarks a)
    /\ trademark (item r) = t
    /\ (exists sim, textSimilarity (item r) = Some sim
                    /\ (overall sim == 1)%Q)
    /\ (0.4 <= overallScore r)%Q.
Proof.
  intros Hret Hin Hown Hname Htext Hsem Hover Htop.
  destruct (analyzeSimilarity_passes_full _ _ _ _ _ _ Hret)
    as (D & P & Ea & HD & HP).
  set (T := flat_map (textStep w target) allTrademarks) in *.
  assert (HT : Forall (fun r => In (tr_trademark r) allTrademarks) T).
  { apply Forall_forall. intros r Hr.
    assert (Hi : In (tr_trademark r) (map tr_trademark T))
      by (apply in_map; exact Hr).
    unfold T in Hi. rewrite textStep_trademarks in Hi.
    apply filter_In in Hi. tauto. }
  assert (HD' : Forall (fun r => In (dr_trademark r) allTrademarks) D).
  { apply Forall_forall. intros r Hr.
    exact (proj1 (proj1 (Forall_forall _ _) HD r Hr)). }
  assert (HP' : Forall (fun r => In (pr_trademark r) allTrademarks) P).
  { apply Forall_forall. intros r Hr.
    exact (proj1 (proj1 (Forall_forall _ _) HP r Hr)). }
  destruct (textStep_same_name w target t Hname Htext) as (sim & Estep & Hs).
  pose proof (lastText_own w target allTrademarks t sim Hin Hown Estep) as Hl.
  fold T in Hl.
  pose proof (combinedMap_components T D P (keyOf t)) as Hc.
  rewrite Hl in Hc.
  destruct (mapGet (combinedMap T D P) (keyOf t)) as [e|] eqn:Eg;
    [|destruct (lastDesc (keyOf t) D), (lastPhonetic (keyOf t) P);
      discriminate].
  assert (Hcomp : components e
                  = (Some sim, lastDesc (keyOf t) D,
                     lastPhonetic (keyOf t) P)).
  { cbn [option_map] in Hc.
    destruct (lastDesc (keyOf t) D), (lastPhonetic (keyOf t) P);
      congruence. }
  unfold components in Hcomp. injection Hcomp as Ct Cd Cp.
  apply mapGet_In in Eg.
  assert (Htm : trademark e = t).
  { apply Hown.
    - exact (Holds_combinedMap (fun x => In x allTrademarks) T D P HT HD' HP'
                               _ e Eg).
    - exact (WellKeyed_combinedMap T D P _ e Eg). }
  assert (Hscore : (0.4 <= overallScore (scoreItem e))%Q).
  { rewrite overallScore_scoreItem, Ct, Cd, Cp.
    assert (Sd : (0 <= match lastDesc (keyOf t) D with
                       | Some s => semantic s | None => 0 end)%Q).
    { destruct (lastDesc (keyOf t) D) as [s|] eqn:El; [|apply Qle_refl].
      destruct (lastBy_Some _ _ _ _ _ El) as (r & Hr & _ & <-).
      destruct (proj1 (Forall_forall _ _) HD r Hr) as (_ & _ & Hq). lra. }
    assert (Sp : (0 <= match lastPhonetic (keyOf t) P with
                       | Some s => score s | None => 0 end)%Q).
    { destruct (lastPhonetic (keyOf t) P) as [s|] eqn:El; [|apply Qle_refl].
      destruct (lastBy_Some _ _ _ _ _ El) as (r & Hr & _ & <-).
      exact (proj2 (proj1 (Forall_forall _ _) HP r Hr)). }
    lra. }
  exists (scoreItem e).
  split.
  - rewrite Ea. rewrite slice0_all.
    + apply In_sortByScore, filter_In. split.
      * unfold combineAndScoreResults, mapValues.
        apply in_map. apply (in_map snd) in Eg. exact Eg.
      * apply Qle_bool_iff. lra.
    + rewrite (Permutation_length (Permutation_sortByScore _)).
      pose proof (filter_length_le
                    (fun result =>
                       Qle_bool (Config.overallSimilarity (thresholds w))
                                (overallScore result))
                    (combineAndScoreResults target T D P)).
      pose proof (length_combined target T D P allTrademarks HT HD' HP').
      lia.
  - change (item (scoreItem e)) with e.
    split; [exact Htm|]. split; [exists sim; split; [exact Ct|exact Hs]|].
    exact Hscore.
Qed.

Lemma analyzeSimilarity_finds_same_name_witness :
  exists a r,
    returned (analyzeSimilarity answeringRuntime "Cola!" defaultOptions
                                [colaOne; colaTwo] startWorld) = Some a
    /\ In r (similarTrademarks a)
    /\ trademark (item r) = colaTwo
    /\ (0.4 <= overallScore r)%Q.
Proof.
  eexists.
  assert (Hret : returned (analyzeSimilarity answeringRuntime "Cola!"
                             defaultOptions [colaOne; colaTwo] startWorld)
                 = Some ?[a]) by (vm_compute; reflexivity).
  assert (Hown : OwnKey [colaOne; colaTwo] colaTwo).
  { intros t' [<-|[<-|[]]] H; [discriminate H|reflexivity]. }
  assert (Hname : SameName "Cola!" colaTwo).
  { split; [reflexivity|]. vm_compute. discriminate. }
  destruct (analyzeSimilarity_finds_same_name
              answeringRuntime "Cola!"%string defaultOptions
              [colaOne; colaTwo] startWorld _ colaTwo
              Hret (or_intror (or_introl eq_refl)) Hown Hname)
    as (r & Hin & Htm & _ & Hs).
  - vm_compute. discriminate.
  - vm_compute. discriminate.
  - vm_compute. discriminate.
  - vm_compute. discriminate.
  - exists r. split; [exact Hret|]. split; [exact Hin|].
    split; [exact Htm|exact Hs].
Defined.

End ExtraRecall.

Module OptionFacts.
Import JSString Lexical Types Effects VectorService Engine PassSpec.
Import EffectsSpec EffectsFacts VectorFacts EngineFacts FusionSpec FusionFacts.
Import SortFacts PassFacts EmbeddingFacts DescriptionSpec RankingFacts.
Import RecallFacts.
Local Open Scope js_scope.

(** The ranking does not depend on the bound: two analyses that differ
    in [topK] alone cut one list. *)
Lemma analyzeSimilarity_same_ranking (rt : Runtime) (target : string)
      (options1 options2 : Options) (allTrademarks : list Trademark)
      (w : World) (a1 a2 : Analysis) :
  withDefault true (includePhonetic options1)
  = withDefault true (includePhonetic options2) ->
  returned (analyzeSimilarity rt target options1 allTrademarks w) = Some a1 ->
  returned (analyzeSimilarity rt target options2 allTrademarks w) = Some a2 ->
  exists ranked,
    similarTrademarks a1 = slice0 ranked (withDefault 20%Z (topK options1))
    /\ similarTrademarks a2 = slice0 ranked (withDefault 20%Z (topK options2)).
Proof.
  intros Hp. unfold returned, analyzeSimilarity.
  rewrite !tryCatch_rethrow. cbv zeta. rewrite Hp. unfold bind.
  destruct (analyzeTextSimilarity target allTrademarks w) as [[T|e|] w1];
    cbn [fst]; try discriminate.
  destruct (analyzeDescriptionSimilarity rt target allTrademarks w1)
    as [[D|e|] w2]; cbn [fst]; try discriminate.
  destruct ((if withDefault true (includePhonetic options2)
             then analyzePhoneticSimilarity target allTrademarks
             else ret []) w2) as [[P|e|] w3]; cbn [fst]; try discriminate.
  unfold readThresholds, ret. cbn [fst].
  intros H1 H2. injection H1 as <-. injection H2 as <-.
  eexists. cbn [similarTrademarks]. split; reflexivity.
Qed.

Lemma firstn_slice0 {A} (l : list A) (k1 k2 : Z) :
  (0 <= k1 <= k2)%Z ->
  slice0 l k1 = firstn (Z.to_nat k1) (slice0 l k2).
Proof.
  intros H. unfold slice0. cbv zeta.
  destruct (Z.ltb_spec k1 0); [lia|]. destruct (Z.ltb_spec k2 0); [lia|].
  rewrite firstn_firstn. f_equal. lia.
Qed.

(** *** Without the phonetic pass *)

Lemma In_mapGet (m : JSMap) (k : option string) (e : Combined) :
  NoDup (map fst m) -> In (k, e) m -> mapGet m k = Some e.
Proof.
  induction m as [|[k' v] m IH]; intros Hnd Hin; [contradiction|].
  cbn [map fst] in Hnd. inversion Hnd as [|? ? Hnotin Hnd']; subst.
  cbn [mapGet]. destruct Hin as [Hin|Hin].
  - injection Hin as -> ->. rewrite keyEqb_refl. reflexivity.
  - destruct (keyEqb k' k) eqn:E; [|exact (IH Hnd' Hin)].
    apply keyEqb_eq in E. subst. exfalso. apply Hnotin.
    apply in_map_iff. exists (k, e). auto.
Qed.

Lemma combined_without_phonetic (target : string)
      (textResults : list TextResult) (descResults : list DescResult)
      (r : SimilarityResult) :
  In r (combineAndScoreResults target textResults descResults []) ->
  phoneticSimilarity (item r) = None
  /\ (overallScore r
      == 0.4 * match textSimilarity (item r) with
               | Some s => overall s | None => 0 end
         + 0.3 * match descriptionSimilarity (item r) with
                 | Some s => semantic s | None => 0 end)%Q.
Proof.
  unfold combineAndScoreResults, mapValues. intros H.
  apply in_map_iff in H. destruct H as (e & <- & He).
  apply in_map_iff in He. destruct He as ([k e'] & <- & He).
  cbn [snd]. change (item (scoreItem e')) with e'.
  pose proof (In_mapGet _ _ _
                (NoDup_keys_combinedMap textResults descResults []) He) as Eg.
  pose proof (combinedMap_components textResults descResults [] k) as Hc.
  rewrite Eg in Hc. cbn [option_map] in Hc.
  assert (Hp : phoneticSimilarity e' = None).
  { change (lastPhonetic k []) with (@None PhoneticSimilarity) in Hc.
    destruct (lastText k textResults), (lastDesc k descResults);
      try discriminate; unfold components in Hc; congruence. }
  split; [exact Hp|].
  rewrite overallScore_scoreItem, Hp. ring.
Qed.

End OptionFacts.

Module ExtraOptions.
Import JSString Lexical Types Effects VectorService Engine PassSpec.
Import EffectsSpec EngineExamples OptionFacts.
Import EffectsFacts EngineFacts.

(** X29. The bound [topK] cuts the ranking and changes nothing else:
    of two analyses of one target from one state that differ in [topK]
    alone, the one with the smaller bound returns the first results of
    the other. *)
Theorem analyzeSimilarity_topK_prefix (rt : Runtime) (target : string)
        (options1 options2 : Options) (allTrademarks : list Trademark)
        (w : World) (a1 a2 : Analysis) :
  withDefault true (includePhonetic options1)
  = withDefault true (includePhonetic options2) ->
  (0 <= withDefault 20 (topK options1) <= withDefault 20 (topK options2))%Z ->
  returned (analyzeSimilarity rt target options1 allTrademarks w) = Some a1 ->
  returned (analyzeSimilarity rt target options2 allTrademarks w) = Some a2 ->
  similarTrademarks a1
  = firstn (Z.to_nat (withDefault 20%Z (topK options1)))
           (similarTrademarks a2).
Proof.
  intros Hp Hk H1 H2.
  destruct (analyzeSimilarity_same_ranking _ _ _ _ _ _ _ _ Hp H1 H2)
    as (ranked & -> & ->).
  apply firstn_slice0. exact Hk.
Qed.

Lemma analyzeSimilarity_topK_prefix_witness :
  exists a1 a2,
    returned (analyzeSimilarity answeringRuntime "cola"
                (mkOptions (Some 1%Z) None None)
                [colaOne; colaTwo] startWorld) = Some a1
    /\ returned (analyzeSimilarity answeringRuntime "cola" defaultOptions
                   [colaOne; colaTwo] startWorld) = Some a2
    /\ length (similarTrademarks a2) = 2
    /\ similarTrademarks a1 = firstn 1 (similarTrademarks a2).
Proof.
  eexists. eexists.
  split; [vm_compute; reflexivity|].
  split; [vm_compute; reflexivity|].
  split; [reflexivity|].
  refine (analyzeSimilarity_topK_prefix answeringRuntime "cola"%string
            (mkOptions (Some 1%Z) None None) defaultOptions
            [colaOne; colaTwo] startWorld _ _ eq_refl _ _ _).
  - cbn. lia.
  - vm_compute. reflexivity.
  - vm_compute. reflexivity.
Defined.

(** X30. With [includePhonetic: false] the phonetic pass does not run:
    no result carries a phonetic similarity, and the overall score of
    each result is 0.4 x text + 0.3 x semantic. *)
Theorem analyzeSimilarity_phonetic_off (rt : Runtime) (target : string)
        (options : Options) (allTrademarks : list Trademark)
        (w : World) (a : Analysis) :
  includePhonetic options = Some false ->
  returned (analyzeSimilarity rt target options allTrademarks w) = Some a ->
  usedIncludePhonetic a = false
  /\ Forall (fun r =>
               phoneticSimilarity (item r) = None
               /\ (overallScore r
                   == 0.4 * match textSimilarity (item r) with
                            | Some s => overall s | None => 0 end
                      + 0.3 * match descriptionSimilarity (item r) with
                              | Some s => semantic s | None => 0 end)%Q)
            (similarTrademarks a).
Proof.
  intros Hp. unfold returned, analyzeSimilarity.
  rewrite tryCatch_rethrow. cbv zeta. rewrite Hp.
  cbn [withDefault]. unfold bind.
  destruct (analyzeTextSimilarity target allTrademarks w) as [[T|e|] w1];
    cbn [fst]; try discriminate.
  destruct (analyzeDescriptionSimilarity rt target allTrademarks w1)
    as [[D|e|] w2]; cbn [fst]; try discriminate.
  unfold ret, readThresholds. cbn [fst]. intros H. injection H as <-.
  cbn [usedIncludePhonetic similarTrademarks]. split; [reflexivity|].
  apply Forall_forall. intros r Hr.
  apply In_slice0, In_sortByScore, filter_In in Hr.
  exact (combined_without_phonetic target T D r (proj1 Hr)).
Qed.

Lemma analyzeSimilarity_phonetic_off_witness :
  exists a,
    returned (analyzeSimilarity answeringRuntime "cola"
                (mkOptions None (Some false) None)
                [colaOne; colaTwo] startWorld) = Some a
    /\ length (similarTrademarks a) = 2
    /\ Forall (fun r => phoneticSimilarity (item r) = None)
              (similarTrademarks a).
Proof.
  eexists. split; [vm_compute; reflexivity|].
  split; [reflexivity|].
  refine (Forall_impl _ _
            (proj2 (analyzeSimilarity_phonetic_off answeringRuntime
                      "cola"%string (mkOptions None (Some false) None)
                      [colaOne; colaTwo] startWorld _ eq_refl _))).
  - intros r H. exact (proj1 H).
  - vm_compute. reflexivity.
Defined.

End ExtraOptions.
